(** * Radically Straightforward: the browser page-update layer

    A shallow embedding of

    - [utilities.backgroundJob()] (the scheduler),
    - [liveNavigate()] and the unit of work of [liveConnection()],
    - [parents()], [morph()] and [documentMount()]

    from [javascript/static/index.mjs] and the utilities package, with the
    properties of each that the design document states; and of

    - [backgroundJob()] on an element and the attempts of
      [liveConnection()] one after the other,
    - the state tokens, [isModified()], [serialize()] and [mount()],
    - [morph()] as a whole: what it renders and what it leaves in place,
    - [utilities.intern()] with its pool, the garbage collector and the
      finalization registry

    with properties read off the code. *)

From Stdlib Require Import List String Ascii Bool Arith Lia Permutation.
Import ListNotations.

Local Open Scope string_scope.
Local Open Scope list_scope.
Local Open Scope nat_scope.

Set Warnings "-register-all".

(* ================================================================== *)
(** * The scheduler: [utilities.backgroundJob()] *)
(* ================================================================== *)

Module BackgroundJob.

(** The [state] variable of the closure. *)
Inductive State :=
| initial
| running
| runningAndMarkedForRerun
| sleeping
| stopped.

(** The delay handed to [setTimeout()]: [0], or
    [interval + interval * intervalVariance * Math.random()]. *)
Inductive Delay :=
| Zero
| Interval.

(** The closure of one background job. [timeout] is the timer that
    [setTimeout()] armed and that has neither fired nor been cleared;
    [inFlight] counts the calls of [job()] that have not settled yet and
    [invocations] every call of [job()] so far. *)
Record Job := mkJob {
  state : State;
  timeout : option Delay;
  inFlight : nat;
  invocations : nat
}.

(** [clearTimeout(timeout)] *)
Definition clearTimeout (j : Job) : Job :=
  mkJob (state j) None (inFlight j) (invocations j).

(** The inner [async function run()], up to its [await job()]. *)
Definition run (j : Job) : Job :=
  mkJob running (timeout j) (S (inFlight j)) (S (invocations j)).

(** The rest of the inner [run()], once [job()] has resolved. *)
Definition run_resume (j : Job) : Job :=
  match state j with
  | running =>
      mkJob sleeping (Some Interval) (pred (inFlight j)) (invocations j)
  | runningAndMarkedForRerun =>
      mkJob sleeping (Some Zero) (pred (inFlight j)) (invocations j)
  | _ => mkJob (state j) (timeout j) (pred (inFlight j)) (invocations j)
  end.

(** [backgroundJob(options, job)]: the closure is created in state
    [initial] and [run()] is called before the handle is returned. *)
Definition backgroundJob : Job := run (mkJob initial None 0 0).

(** The [run] method of the handle. *)
Definition handle_run (j : Job) : Job :=
  match state j with
  | sleeping => run (clearTimeout j)
  | running =>
      mkJob runningAndMarkedForRerun (timeout j) (inFlight j) (invocations j)
  | _ => j
  end.

(** The [stop] method of the handle. *)
Definition handle_stop (j : Job) : Job :=
  let j' := match state j with sleeping => clearTimeout j | _ => j end in
  mkJob stopped (timeout j') (inFlight j') (invocations j').

(** What can happen to a job: its owner calls a method of the handle, a
    call of [job()] in flight resolves or rejects, or the armed timer
    fires. *)
Inductive Event :=
| CallRun
| CallStop
| JobResolves
| JobRejects
| TimerFires.

(** One turn of the event loop. [None] when the event cannot happen in
    this state: nothing in flight to settle, no timer armed. A rejected
    [await job()] leaves the inner [run()] without touching the closure. *)
Definition step (j : Job) (e : Event) : option Job :=
  match e with
  | CallRun => Some (handle_run j)
  | CallStop => Some (handle_stop j)
  | JobResolves =>
      match inFlight j with
      | O => None
      | S _ => Some (run_resume j)
      end
  | JobRejects =>
      match inFlight j with
      | O => None
      | S n => Some (mkJob (state j) (timeout j) n (invocations j))
      end
  | TimerFires =>
      match timeout j with
      | None => None
      | Some _ => Some (run (clearTimeout j))
      end
  end.

Fixpoint steps (j : Job) (es : list Event) : option Job :=
  match es with
  | [] => Some j
  | e :: es' =>
      match step j e with
      | Some j' => steps j' es'
      | None => None
      end
  end.

(** The states a job can be in: whatever a run of events leads to from
    the call of [backgroundJob()]. *)
Definition reachable (j : Job) : Prop :=
  exists es, steps backgroundJob es = Some j.

(** A timer is armed only while the job sleeps. *)
Definition timer_only_when_sleeping (j : Job) : Prop :=
  timeout j <> None -> state j = sleeping.

(** [n] calls of the handle's [run()] in a row. *)
Definition run_calls (n : nat) : list Event := repeat CallRun n.

End BackgroundJob.

(* ================================================================== *)
(** * The navigation controller: [liveNavigate()] *)
(* ================================================================== *)

Module LiveNavigate.

(** The second argument of [liveNavigate()]. The [click] and [submit]
    listeners call [liveNavigate(request)], the [popstate] listener calls
    [liveNavigate(request, event)]. *)
Inductive NavigationEvent :=
| EventUndefined
| PopStateEvent.

Record Request := mkRequest {
  url : string;
  method : string
}.

(** What [liveNavigate()] does to the world, in the order it does it. An
    [AbortController] is named by the number of controllers created before
    it. *)
Inductive Effect :=
| Abort (controller : nat)
| Confirm
| InsertProgressBar
| StopLiveConnection
| NewAbortController (controller : nat)
| Fetch (request : Request) (signal : nat)
| RemoveProgressBar.

(** [liveNavigate.abortController], [liveNavigate.inSubmit] and the trace
    of effects. *)
Record Navigation := mkNavigation {
  abortController : option nat;
  inSubmit : bool;
  controllers : nat;
  effects : list Effect
}.

Definition perform (es : list Effect) (s : Navigation) : Navigation :=
  mkNavigation (abortController s) (inSubmit s) (controllers s)
               (effects s ++ es).

(** Lines 15 to 35: the progress bar, the [try] block up to
    [await fetch(request, { signal })]. *)
Definition issue (request : Request) (s : Navigation) : Navigation :=
  let controller := controllers s in
  mkNavigation (Some controller) (inSubmit s) (S controller)
               (effects s ++ [InsertProgressBar; StopLiveConnection;
                              NewAbortController controller;
                              Fetch request controller]).

(** [liveNavigate(request, event)] up to its first [await]. [modified] is
    what [isModified(document.querySelector("html"))] evaluates to and
    [confirmed] what the user answers to [confirm()]; both are looked at
    only where the short-circuit operators get to them. The boolean tells
    whether the call went on to fetch ([true]) or returned at line 14. *)
Definition liveNavigate (request : Request) (event : NavigationEvent)
    (modified confirmed : bool) (s : Navigation) : Navigation * bool :=
  match event with
  | PopStateEvent =>
      match abortController s with
      | Some controller => (issue request (perform [Abort controller] s), true)
      | None => (issue request s, true)
      end
  | EventUndefined =>
      match abortController s with
      | Some _ => (s, false)
      | None =>
          if negb (inSubmit s) && modified then
            if negb confirmed then (perform [Confirm] s, false)
            else (issue request (perform [Confirm] s), true)
          else (issue request s, true)
      end
  end.

(** The [finally] block, run when the fetch has settled one way or the
    other. *)
Definition liveNavigate_finally (s : Navigation) : Navigation :=
  mkNavigation None (inSubmit s) (controllers s)
               (effects s ++ [RemoveProgressBar]).

(** A navigation to [/a] is in flight. *)
Definition in_flight_example : Navigation :=
  fst (liveNavigate (mkRequest "/a" "GET") EventUndefined false false
         (mkNavigation None false 0 [])).

End LiveNavigate.

(* ================================================================== *)
(** * The node tree: [parents()], [morph()] and [documentMount()] *)
(* ================================================================== *)

Module DOM.

(** ** Nodes *)

(** The values the run-time properties [value] and [checked] take. *)
Inductive JSValue :=
| JSUndefined
| JSBoolean (b : bool)
| JSString (s : string).

Definition JSValue_eqb (v w : JSValue) : bool :=
  match v, w with
  | JSUndefined, JSUndefined => true
  | JSBoolean b, JSBoolean c => Bool.eqb b c
  | JSString s, JSString t => String.eqb s t
  | _, _ => false
  end.

(** The [liveConnectionUpdate] property that scripts set on an element:
    left undefined, a boolean, or a [Set] of attribute names. *)
Inductive LiveConnectionUpdate :=
| Unset
| Boolean (b : bool)
| Names (names : list string).

(** An element without its children. [identity] tells one node object
    from another; [liveConnectionUpdate] and [isModified] are the flags
    set by scripts. [value] and [checked] hold what a script or the user
    has set the property of that name to: they are [JSUndefined] while
    nobody has written the property (its dirty flag is off), and the
    browser then derives the property of a form control from its markup,
    see [valueOf] and [checkedOf]. *)
Record Element := mkElement {
  identity : nat;
  tagName : string;
  attributes : list (string * string);
  value : JSValue;
  checked : JSValue;
  liveConnectionUpdate : LiveConnectionUpdate;
  isModified : option bool
}.

Inductive Node :=
| ElementNode (element : Element) (childNodes : list Node)
| TextNode (identity : nat) (nodeValue : string).

Definition nodeIdentity (node : Node) : nat :=
  match node with
  | ElementNode element _ => identity element
  | TextNode identity _ => identity
  end.

Definition childNodesOf (node : Node) : list Node :=
  match node with
  | ElementNode _ childNodes => childNodes
  | TextNode _ _ => []
  end.

Definition elementOf (node : Node) : option Element :=
  match node with
  | ElementNode element _ => Some element
  | TextNode _ _ => None
  end.

(** The event handed to [morph()], of which only
    [event?.detail?.liveConnectionUpdate] is looked at. *)
Record Event := mkEvent {
  type : string;
  detail : option bool
}.

Definition isLiveConnectionUpdate (event : option Event) : bool :=
  match event with
  | Some {| detail := Some true |} => true
  | _ => false
  end.

(** ** Attributes and properties *)

Definition getAttributeNames (element : Element) : list string :=
  map fst (attributes element).

Fixpoint lookup (name : string) (attributes : list (string * string))
    : option string :=
  match attributes with
  | [] => None
  | (n, v) :: rest => if String.eqb n name then Some v else lookup name rest
  end.

(** [element.getAttribute(name)], [None] for [null]. *)
Definition getAttribute (element : Element) (name : string) : option string :=
  lookup name (attributes element).

Definition withAttributes (element : Element)
    (attributes : list (string * string)) : Element :=
  mkElement (identity element) (tagName element) attributes (value element)
            (checked element) (liveConnectionUpdate element)
            (isModified element).

Definition removeAttribute (element : Element) (name : string) : Element :=
  withAttributes element
    (filter (fun a => negb (String.eqb (fst a) name)) (attributes element)).

Fixpoint assign (name v : string) (attributes : list (string * string))
    : list (string * string) :=
  match attributes with
  | [] => [(name, v)]
  | (n, w) :: rest =>
      if String.eqb n name then (n, v) :: rest
      else (n, w) :: assign name v rest
  end.

Definition setAttribute (element : Element) (name v : string) : Element :=
  withAttributes element (assign name v (attributes element)).

(** [element.matches("input, textarea")] *)
Definition matchesInputTextarea (element : Element) : bool :=
  String.eqb (tagName element) "INPUT" ||
  String.eqb (tagName element) "TEXTAREA".

(** The conversions that the properties of a form control make of what
    is assigned to them: [value] is a string, [checked] a boolean. *)
Definition toDOMString (v : JSValue) : string :=
  match v with
  | JSUndefined => "undefined"
  | JSBoolean true => "true"
  | JSBoolean false => "false"
  | JSString s => s
  end.

Definition toBoolean (v : JSValue) : bool :=
  match v with
  | JSUndefined => false
  | JSBoolean b => b
  | JSString s => negb (String.eqb s "")
  end.

(** The text of the text nodes among the children: the default value of
    a [textarea]. *)
Fixpoint childTextContent (childNodes : list Node) : string :=
  match childNodes with
  | [] => ""
  | TextNode _ nodeValue :: rest => nodeValue ++ childTextContent rest
  | ElementNode _ _ :: rest => childTextContent rest
  end.

(** [element.value]. On an [input] or a [textarea] it is a string: what
    was written, or else, for a [textarea], the text of its children and,
    for an [input], its [value] attribute. What the type of an [input]
    adds to this (the value of a checkbox without the attribute, the
    sanitization of a value) is not part of the model. On any other
    element it is what a script has set. *)
Definition valueOf (element : Element) (childNodes : list Node) : JSValue :=
  if matchesInputTextarea element then
    JSString
      match value element with
      | JSUndefined =>
          if String.eqb (tagName element) "TEXTAREA"
          then childTextContent childNodes
          else match getAttribute element "value" with
               | Some v => v
               | None => ""
               end
      | written => toDOMString written
      end
  else value element.

(** [element.checked]. On an [input] it is a boolean: what was written,
    or else whether the element has the [checked] attribute. What the
    other buttons of a group of radio buttons do to it is not part of the
    model. On any other element it is what a script has set. *)
Definition checkedOf (element : Element) : JSValue :=
  if String.eqb (tagName element) "INPUT" then
    JSBoolean
      match checked element with
      | JSUndefined =>
          match getAttribute element "checked" with
          | Some _ => true
          | None => false
          end
      | written => toBoolean written
      end
  else checked element.

(** [element[property]] for the two properties [morph()] handles, on an
    element with the children [childNodes]; any other name reads as
    undefined. *)
Definition getProperty (element : Element) (childNodes : list Node)
    (property : string) : JSValue :=
  if String.eqb property "value" then valueOf element childNodes
  else if String.eqb property "checked" then checkedOf element
  else JSUndefined.

(** [element[property] = v]: a form control keeps the string, or the
    boolean, that the value converts to. *)
Definition setProperty (element : Element) (property : string) (v : JSValue)
    : Element :=
  if String.eqb property "value" then
    mkElement (identity element) (tagName element) (attributes element)
              (if matchesInputTextarea element
               then JSString (toDOMString v) else v)
              (checked element) (liveConnectionUpdate element)
              (isModified element)
  else if String.eqb property "checked" then
    mkElement (identity element) (tagName element) (attributes element)
              (value element)
              (if String.eqb (tagName element) "INPUT"
               then JSBoolean (toBoolean v) else v)
              (liveConnectionUpdate element) (isModified element)
  else element.

(** ** [parents()] *)

(** An element is handed around with its chain of [parentElement] links:
    the element itself first, then its parent, and so on up to the root.
    The empty chain is [null]. [parents()] walks the chain and pushes
    every element it meets. *)
Fixpoint parents (element : list Element) : list Element :=
  match element with
  | [] => []
  | self :: parentElement => self :: parents parentElement
  end.

(** ** What [morph()] does to the element *)

Inductive Mutation :=
| RemoveAttribute (element : nat) (name : string)
| SetAttribute (element : nat) (name v : string)
| SetProperty (element : nat) (property : string) (v : JSValue)
| RemoveChild (parent child : nat)
| InsertBefore (parent node : nat) (nodeAfter : option nat).

(** How a call ends. When it throws, the mutations made so far stay. *)
Inductive Completion :=
| Completed
| Thrown (error : string)
| OutOfFuel.

(** [new Set([...xs])]: the first occurrence of each member, in order. *)
Definition newSet (xs : list string) : list string :=
  fold_left (fun set x => if existsb (String.eqb x) set then set
                          else set ++ [x]) xs [].

(** The attributes that a Live Connection update leaves alone. *)
Definition protectedAttribute (attribute : string) : bool :=
  String.eqb attribute "state" ||
  String.eqb attribute "style" ||
  String.eqb attribute "hidden" ||
  String.eqb attribute "open" ||
  String.eqb attribute "disabled" ||
  String.eqb attribute "value" ||
  String.eqb attribute "checked".

(** [element.liveConnectionUpdate?.has?.(name)] *)
Definition has (element : Element) (name : string) : bool :=
  match liveConnectionUpdate element with
  | Names names => existsb (String.eqb name) names
  | _ => false
  end.

(** [parents(from).some((element) =>
      element.liveConnectionUpdate?.has?.(name))] *)
Definition pinned (from : list Element) (name : string) : bool :=
  existsb (fun element => has element name) (parents from).

(** [from.liveConnectionUpdate === false] *)
Definition explicitlyFalse (element : Element) : bool :=
  match liveConnectionUpdate element with
  | Boolean false => true
  | _ => false
  end.

(** The body of the loop of lines 318 to 339, for one attribute. *)
Definition morphAttribute (event : option Event) (ancestors : list Element)
    (to : Element) (state : Element * list Mutation) (attribute : string)
    : Element * list Mutation :=
  let (from, log) := state in
  if isLiveConnectionUpdate event && protectedAttribute attribute &&
     negb (pinned (from :: ancestors) attribute)
  then state
  else
    match getAttribute to attribute with
    | None =>
        (removeAttribute from attribute,
         log ++ [RemoveAttribute (identity from) attribute])
    | Some v =>
        match getAttribute from attribute with
        | Some w =>
            if String.eqb w v then state
            else (setAttribute from attribute v,
                  log ++ [SetAttribute (identity from) attribute v])
        | None => (setAttribute from attribute v,
                   log ++ [SetAttribute (identity from) attribute v])
        end
    end.

Definition morphAttributes (event : option Event) (ancestors : list Element)
    (from to : Element) : Element * list Mutation :=
  fold_left (morphAttribute event ancestors to)
            (newSet (getAttributeNames from ++ getAttributeNames to))
            (from, []).

(** The body of the loop of lines 341 to 350, for one property.
    [fromChildNodes] and [toChildNodes] are the children of [from] and of
    [to], which line 349 reads through the properties. *)
Definition morphProperty (event : option Event) (ancestors : list Element)
    (to : Element) (fromChildNodes toChildNodes : list Node)
    (state : Element * list Mutation) (property : string)
    : Element * list Mutation :=
  let (from, log) := state in
  if isLiveConnectionUpdate event &&
     negb (pinned (from :: ancestors) property)
  then state
  else if JSValue_eqb (getProperty from fromChildNodes property)
                      (getProperty to toChildNodes property)
  then state
  else (setProperty from property (getProperty to toChildNodes property),
        log ++ [SetProperty (identity from) property
                            (getProperty to toChildNodes property)]).

Definition morphProperties (event : option Event) (ancestors : list Element)
    (to : Element) (fromChildNodes toChildNodes : list Node)
    (state : Element * list Mutation) : Element * list Mutation :=
  if matchesInputTextarea (fst state) then
    fold_left (morphProperty event ancestors to fromChildNodes toChildNodes)
              ["value"; "checked"] state
  else state.

(** Lines 318 to 350: what [morph()] does to [from] itself. *)
Definition morphElement (event : option Event) (ancestors : list Element)
    (from to : Element) (fromChildNodes toChildNodes : list Node)
    : Element * list Mutation :=
  morphProperties event ancestors to fromChildNodes toChildNodes
                  (morphAttributes event ancestors from to).

(** ** What [morph()] plans for the children *)

(** The [key] arrow function of lines 351 to 356. A missing [key]
    attribute prints as [null] in the template literal. *)
Definition key (node : Node) : string :=
  match node with
  | ElementNode element _ =>
      "1--" ++ tagName element ++ "--" ++
      match getAttribute element "key" with
      | Some k => k
      | None => "null"
      end
  | TextNode _ nodeValue => "3--" ++ nodeValue
  end.

(** One entry of the diff: [[fromStart, fromEnd, toStart, toEnd]]. *)
Definition Hunk : Type := nat * nat * nat * nat.

(** [toRemove], a [Map] from key to array, in insertion order. *)
Definition ToRemove : Type := list (string * list Node).

(** [toRemove.get(key)?.push(node) ?? toRemove.set(key, [node])] *)
Fixpoint push (key : string) (node : Node) (toRemove : ToRemove) : ToRemove :=
  match toRemove with
  | [] => [(key, [node])]
  | (k, nodes) :: rest =>
      if String.eqb k key then (k, nodes ++ [node]) :: rest
      else (k, nodes) :: push key node rest
  end.

(** [toRemove.get(key)?.shift()] *)
Fixpoint shift (key : string) (toRemove : ToRemove)
    : option Node * ToRemove :=
  match toRemove with
  | [] => (None, [])
  | (k, nodes) :: rest =>
      if String.eqb k key then
        match nodes with
        | [] => (None, toRemove)
        | node :: nodes' => (Some node, (k, nodes') :: rest)
        end
      else
        let (node, rest') := shift key rest in (node, (k, nodes) :: rest')
  end.

(** [toRemove.get(key)], the empty array when the key is absent. *)
Fixpoint queue (key : string) (toRemove : ToRemove) : list Node :=
  match toRemove with
  | [] => []
  | (k, nodes) :: rest =>
      if String.eqb k key then nodes else queue key rest
  end.

(** [node.liveConnectionUpdate === false]; text nodes carry no flag. *)
Definition nodeExplicitlyFalse (node : Node) : bool :=
  match node with
  | ElementNode element _ => explicitlyFalse element
  | TextNode _ _ => false
  end.

(** The body of the inner loop of lines 372 to 381. An index outside
    [from.childNodes], which no diff of the two key lists produces, ends
    the plan ([None]): the script would go on to dereference
    [undefined]. *)
Definition collectNode (event : option Event) (fromChildNodes : list Node)
    (toRemove : option ToRemove) (nodeIndex : nat) : option ToRemove :=
  match toRemove, nth_error fromChildNodes nodeIndex with
  | Some toRemove, Some node =>
      if isLiveConnectionUpdate event && nodeExplicitlyFalse node
      then Some toRemove
      else Some (push (key node) node toRemove)
  | _, _ => None
  end.

Definition collectHunk (event : option Event) (fromChildNodes : list Node)
    (toRemove : option ToRemove) (hunk : Hunk) : option ToRemove :=
  let '(fromStart, fromEnd, _, _) := hunk in
  fold_left (collectNode event fromChildNodes)
            (seq fromStart (fromEnd - fromStart)) toRemove.

(** Lines 369 to 382, over the hunks the diff returned. *)
Definition collect (event : option Event) (fromChildNodes : list Node)
    (hunks : list Hunk) : option ToRemove :=
  fold_left (collectHunk event fromChildNodes) hunks (Some []).

(** [toRemove], [toAdd] and [toMorph] as they stand when line 409 is
    reached. *)
Record Plan := mkPlan {
  toRemove : ToRemove;
  toAdd : list (Node * option Node);
  toMorph : list (Node * Node)
}.

(** Lines 389 to 397: the children between two hunks are paired by
    position. As in [collectNode], an index outside the children ends the
    plan. *)
Definition pairUnchanged (fromChildNodes toChildNodes : list Node)
    (previousFromEnd previousToEnd : nat) (plan : option Plan)
    (nodeIndexOffset : nat) : option Plan :=
  match plan,
        nth_error fromChildNodes (previousFromEnd + nodeIndexOffset),
        nth_error toChildNodes (previousToEnd + nodeIndexOffset) with
  | Some plan, Some from, Some to =>
      Some (mkPlan (toRemove plan) (toAdd plan) (toMorph plan ++ [(from, to)]))
  | _, _, _ => None
  end.

(** Lines 398 to 407: a child of [to] inside a hunk takes the first
    removed node of its key, if there is one left. *)
Definition resolve (fromChildNodes toChildNodes : list Node) (fromEnd : nat)
    (plan : option Plan) (nodeIndex : nat) : option Plan :=
  match plan, nth_error toChildNodes nodeIndex with
  | Some plan, Some toChildNode =>
      let nodeAfter := nth_error fromChildNodes fromEnd in
      match shift (key toChildNode) (toRemove plan) with
      | (Some fromChildNode, toRemove') =>
          Some (mkPlan toRemove'
                       (toAdd plan ++ [(fromChildNode, nodeAfter)])
                       (toMorph plan ++ [(fromChildNode, toChildNode)]))
      | (None, toRemove') =>
          Some (mkPlan toRemove'
                       (toAdd plan ++ [(toChildNode, nodeAfter)])
                       (toMorph plan))
      end
  | _, _ => None
  end.

(** The body of the loop of lines 385 to 408, for [diff[diffIndex - 1]]
    and [diff[diffIndex]]. *)
Definition planHunk (fromChildNodes toChildNodes : list Node)
    (plan : option Plan) (hunks : Hunk * Hunk) : option Plan :=
  let '((_, previousFromEnd, _, previousToEnd),
        (fromStart, fromEnd, toStart, toEnd)) := hunks in
  fold_left (resolve fromChildNodes toChildNodes fromEnd)
    (seq toStart (toEnd - toStart))
    (fold_left (pairUnchanged fromChildNodes toChildNodes
                  previousFromEnd previousToEnd)
       (seq 0 (fromStart - previousFromEnd)) plan).

(** Lines 359 to 408: [hunks] is what [fastMyersDiff.diff()] returned for
    the two key lists. *)
Definition reconcile (event : option Event)
    (fromChildNodes toChildNodes : list Node) (hunks : list Hunk)
    : option Plan :=
  let diff :=
    (0, 0, 0, 0) :: hunks ++
    [(List.length fromChildNodes, List.length fromChildNodes,
      List.length toChildNodes, List.length toChildNodes)] in
  match collect event fromChildNodes hunks with
  | Some toRemove =>
      fold_left (planHunk fromChildNodes toChildNodes)
                (combine diff (tl diff))
                (Some (mkPlan toRemove [] []))
  | None => None
  end.

(** ** Applying the plan *)

(** [from.removeChild(node)] on the list of children: [None] when the
    node is not among them (a [NotFoundError]). *)
Fixpoint removeChild (childNodes : list Node) (node : nat)
    : option (list Node) :=
  match childNodes with
  | [] => None
  | child :: rest =>
      if nodeIdentity child =? node then Some rest
      else option_map (cons child) (removeChild rest node)
  end.

(** A node that is inserted leaves the place it had among the children. *)
Definition detach (childNodes : list Node) (node : nat) : list Node :=
  match removeChild childNodes node with
  | Some rest => rest
  | None => childNodes
  end.

Fixpoint insertAt (childNodes : list Node) (node : Node) (reference : nat)
    : list Node :=
  match childNodes with
  | [] => [node]
  | child :: rest =>
      if nodeIdentity child =? reference then node :: child :: rest
      else child :: insertAt rest node reference
  end.

Fixpoint nextSibling (childNodes : list Node) (node : nat) : option nat :=
  match childNodes with
  | [] => None
  | child :: rest =>
      if nodeIdentity child =? node then option_map nodeIdentity (hd_error rest)
      else nextSibling rest node
  end.

(** [from.insertBefore(node, nodeAfter)] on the list of children. A
    [nodeAfter] that is not a child is a [NotFoundError] ([None]); when
    [nodeAfter] is [node] itself the reference is the next sibling of
    [node]; [null] appends. *)
Definition insertBefore (childNodes : list Node) (node : Node)
    (nodeAfter : option Node) : option (list Node) :=
  match nodeAfter with
  | None => Some (detach childNodes (nodeIdentity node) ++ [node])
  | Some child =>
      if existsb (fun c => nodeIdentity c =? nodeIdentity child) childNodes
      then
        let reference :=
          if nodeIdentity child =? nodeIdentity node
          then nextSibling childNodes (nodeIdentity node)
          else Some (nodeIdentity child) in
        match reference with
        | Some reference =>
            Some (insertAt (detach childNodes (nodeIdentity node)) node
                           reference)
        | None => Some (detach childNodes (nodeIdentity node) ++ [node])
        end
      else None
  end.

(** Lines 409 and 410. *)
Fixpoint removeChildren (parent : nat) (nodes : list Node)
    (childNodes : list Node) (log : list Mutation)
    : list Node * list Mutation * Completion :=
  match nodes with
  | [] => (childNodes, log, Completed)
  | node :: nodes' =>
      match removeChild childNodes (nodeIdentity node) with
      | Some childNodes' =>
          removeChildren parent nodes' childNodes'
            (log ++ [RemoveChild parent (nodeIdentity node)])
      | None => (childNodes, log, Thrown "NotFoundError")
      end
  end.

(** Line 411. *)
Fixpoint insertChildren (parent : nat) (toAdd : list (Node * option Node))
    (childNodes : list Node) (log : list Mutation)
    : list Node * list Mutation * Completion :=
  match toAdd with
  | [] => (childNodes, log, Completed)
  | (node, nodeAfter) :: toAdd' =>
      match insertBefore childNodes node nodeAfter with
      | Some childNodes' =>
          insertChildren parent toAdd' childNodes'
            (log ++ [InsertBefore parent (nodeIdentity node)
                                  (option_map nodeIdentity nodeAfter)])
      | None => (childNodes, log, Thrown "NotFoundError")
      end
  end.

(** A child that was morphed in place: its new state takes the place of
    the node object among the children. *)
Fixpoint replaceChild (childNodes : list Node) (node : Node) : list Node :=
  match childNodes with
  | [] => []
  | child :: rest =>
      if nodeIdentity child =? nodeIdentity node then node :: rest
      else child :: replaceChild rest node
  end.

(** Lines 412 and 413, with the recursive call as a parameter. A pair
    holds a node object; lines 409 to 411 move node objects without
    changing them, so the child is morphed in the state the pair recorded
    and its new state takes its place among the children. *)
Fixpoint morphPairs
    (morph : Node -> Node -> Node * list Mutation * Completion)
    (toMorph : list (Node * Node)) (childNodes : list Node)
    (log : list Mutation) : list Node * list Mutation * Completion :=
  match toMorph with
  | [] => (childNodes, log, Completed)
  | (from, to) :: toMorph' =>
      match from with
      | ElementNode _ _ =>
          let '(from', log', completion) := morph from to in
          let childNodes' := replaceChild childNodes from' in
          match completion with
          | Completed => morphPairs morph toMorph' childNodes' (log ++ log')
          | _ => (childNodes', log ++ log', completion)
          end
      | TextNode _ _ => morphPairs morph toMorph' childNodes log
      end
  end.

(** Lines 409 to 411: the nodes left in [toRemove] are removed, then
    the nodes of [toAdd] are inserted. *)
Definition applyPlan (parent : nat) (plan : Plan) (childNodes : list Node)
    (log : list Mutation) : list Node * list Mutation * Completion :=
  match removeChildren parent (flat_map snd (toRemove plan)) childNodes log
  with
  | (childNodes, log, Completed) =>
      insertChildren parent (toAdd plan) childNodes log
  | thrown => thrown
  end.

Section Morph.

(** [fastMyersDiff.diff(xs, ys)] of the [fast-myers-diff] package: the
    hunks [[sx, ex, sy, ey]] by which [ys] differs from [xs]. *)
Variable fastMyersDiff : list string -> list string -> list Hunk.

(** [morph(from, to, event)]. [ancestors] is the chain of [parentElement]
    links of [from]; [fuel] bounds the depth of the recursion. The result
    is [from] as the call leaves it, the mutations made, in order, and how
    the call ended. *)
Fixpoint morph (fuel : nat) (ancestors : list Element) (from to : Node)
    (event : option Event) : Node * list Mutation * Completion :=
  match fuel, from with
  | O, _ => (from, [], OutOfFuel)
  | S _, TextNode _ _ => (from, [], Thrown "TypeError")
  | S fuel', ElementNode fromElement fromChildNodes =>
      if isLiveConnectionUpdate event && explicitlyFalse fromElement
      then (from, [], Completed)
      else
        match to with
        | TextNode _ _ => (from, [], Thrown "TypeError")
        | ElementNode toElement toChildNodes =>
            let (fromElement', log) :=
              morphElement event ancestors fromElement toElement
                           fromChildNodes toChildNodes in
            let fromChildNodesKeys := map key fromChildNodes in
            let toChildNodesKeys := map key toChildNodes in
            match reconcile event fromChildNodes toChildNodes
                    (fastMyersDiff fromChildNodesKeys toChildNodesKeys) with
            | None =>
                (ElementNode fromElement' fromChildNodes, log,
                 Thrown "TypeError")
            | Some plan =>
                match applyPlan (identity fromElement) plan fromChildNodes log
                with
                | (childNodes, log, Completed) =>
                    let '(childNodes, log, completion) :=
                      morphPairs
                        (fun from to =>
                           morph fuel' (fromElement' :: ancestors)
                                 from to event)
                        (toMorph plan) childNodes log in
                    (ElementNode fromElement' childNodes, log, completion)
                | (childNodes, log, completion) =>
                    (ElementNode fromElement' childNodes, log, completion)
                end
            end
        end
  end.

End Morph.

(** ** A differ to run [morph()] with *)

(** The length of a longest common subsequence. *)
Fixpoint lcs (xs ys : list string) : nat :=
  match xs with
  | [] => 0
  | x :: xs' =>
      (fix lcs_x (ys : list string) : nat :=
         match ys with
         | [] => 0
         | y :: ys' =>
             if String.eqb x y then S (lcs xs' ys')
             else Nat.max (lcs xs' ys) (lcs_x ys')
         end) ys
  end.

(** One more deleted element of [xs] in front of the hunks that follow. *)
Definition deleted (i j : nat) (hunks : list Hunk) : list Hunk :=
  match hunks with
  | (sx, ex, sy, ey) :: rest =>
      if (sx =? S i) && (sy =? j) then (i, ex, j, ey) :: rest
      else (i, S i, j, j) :: hunks
  | [] => [(i, S i, j, j)]
  end.

(** One more inserted element of [ys] in front of the hunks that follow. *)
Definition inserted (i j : nat) (hunks : list Hunk) : list Hunk :=
  match hunks with
  | (sx, ex, sy, ey) :: rest =>
      if (sx =? i) && (sy =? S j) then (i, ex, j, ey) :: rest
      else (i, i, j, S j) :: hunks
  | [] => [(i, i, j, S j)]
  end.

(** A differ with the interface of [fast-myers-diff]: it keeps a longest
    common subsequence and reports each maximal run of deletions and
    insertions as one hunk. [i] and [j] are the positions of [xs] and [ys]
    in the lists the diff started from. *)
Fixpoint lcsDiffFrom (xs ys : list string) (i j : nat) : list Hunk :=
  match xs with
  | [] =>
      match ys with
      | [] => []
      | _ :: _ => [(i, i, j, j + List.length ys)]
      end
  | x :: xs' =>
      (fix diff_x (ys : list string) (j : nat) : list Hunk :=
         match ys with
         | [] => [(i, i + List.length xs, j, j)]
         | y :: ys' =>
             if String.eqb x y then lcsDiffFrom xs' ys' (S i) (S j)
             else if lcs xs' ys <? lcs xs ys'
             then inserted i j (diff_x ys' (S j))
             else deleted i j (lcsDiffFrom xs' ys (S i) j)
         end) ys j
  end.

Definition lcsDiff (xs ys : list string) : list Hunk := lcsDiffFrom xs ys 0 0.

(** ** The vocabulary of the properties *)

(** What the loops keep of an element: everything but its attributes and
    its two properties. *)
Definition sameObject (e e' : Element) : Prop :=
  identity e' = identity e /\ tagName e' = tagName e /\
  liveConnectionUpdate e' = liveConnectionUpdate e /\
  isModified e' = isModified e.

(** What a script or the user has written to a property, [JSUndefined]
    when nothing was. *)
Definition written (element : Element) (property : string) : JSValue :=
  if String.eqb property "value" then value element
  else if String.eqb property "checked" then checked element
  else JSUndefined.

(** The [value] of a [textarea] that nobody has written: the text of
    its children. *)
Definition unedited (element : Element) (childNodes : list Node)
    (property : string) : Prop :=
  property = "value" /\ tagName element = "TEXTAREA" /\
  value element = JSUndefined /\
  valueOf element childNodes = JSString (childTextContent childNodes).

(** Whether the loop of lines 318 to 339 passes over an attribute. *)
Definition skipsAttribute (event : option Event) (from : list Element)
    (attribute : string) : bool :=
  isLiveConnectionUpdate event && protectedAttribute attribute &&
  negb (pinned from attribute).

(** Whether the loop of lines 341 to 350 passes over a property. *)
Definition skipsProperty (event : option Event) (from : list Element)
    (property : string) : bool :=
  isLiveConnectionUpdate event && negb (pinned from property).

(** [morph()] on [from] as a whole. *)
Definition morphed (fastMyersDiff : list string -> list string -> list Hunk)
    (fuel : nat) (ancestors : list Element) (from to : Node)
    (event : option Event) : Node :=
  fst (fst (morph fastMyersDiff fuel ancestors from to event)).

(** No element of [parents(from)] has a [liveConnectionUpdate] that is a
    [Set] with [name] in it. *)
Definition notPinned (from : list Element) (name : string) : Prop :=
  forall element names,
    In element (parents from) ->
    liveConnectionUpdate element = Names names -> ~ In name names.

(** The nodes held in [toRemove], key after key. *)
Definition members (toRemove : ToRemove) : list Node := flat_map snd toRemove.

(** A child of [from] that the loop of lines 370 to 382 may put in
    [toRemove]. *)
Definition removable (event : option Event) (fromChildNodes : list Node)
    (node : Node) : Prop :=
  In node fromChildNodes /\
  isLiveConnectionUpdate event && nodeExplicitlyFalse node = false.

(** Every node of the plan is a child of [from] that may be removed, or,
    in [toAdd], a child of [to]; the nodes to morph are children of
    [from]. *)
Definition provenance (event : option Event)
    (fromChildNodes toChildNodes : list Node) (plan : Plan) : Prop :=
  (forall node, In node (members (toRemove plan)) ->
     removable event fromChildNodes node) /\
  (forall node nodeAfter, In (node, nodeAfter) (toAdd plan) ->
     removable event fromChildNodes node \/ In node toChildNodes) /\
  (forall from to, In (from, to) (toMorph plan) -> In from fromChildNodes).

(** What the loop of lines 372 to 381 keeps of the child at
    [nodeIndex]. *)
Definition candidate (event : option Event) (fromChildNodes : list Node)
    (nodeIndex : nat) : list Node :=
  match nth_error fromChildNodes nodeIndex with
  | Some node =>
      if isLiveConnectionUpdate event && nodeExplicitlyFalse node then []
      else [node]
  | None => []
  end.

(** The removal candidates of all hunks, in the order lines 370 to 382
    meet them. *)
Definition candidates (event : option Event) (fromChildNodes : list Node)
    (hunks : list Hunk) : list Node :=
  flat_map (fun hunk : Hunk =>
              let '(fromStart, fromEnd, _, _) := hunk in
              flat_map (candidate event fromChildNodes)
                       (seq fromStart (fromEnd - fromStart)))
           hunks.

Definition keyed (k : string) (nodes : list Node) : list Node :=
  filter (fun node => String.eqb (key node) k) nodes.

(** The node that [resolve] puts in [toAdd] is a node taken from
    [toRemove], paired in [toMorph] with the child of [to] it stands for. *)
Definition reused (plan : Plan) (node : Node) : Prop :=
  exists toChildNode,
    In (node, toChildNode) (toMorph plan) /\ key toChildNode = key node.

(** [toRemove] keeps one array per key, each node under its own key;
    every node in [toAdd] is either reused or a node for whose key
    [toRemove] has nothing left. *)
Definition keyedPlan (plan : Plan) : Prop :=
  NoDup (map fst (toRemove plan)) /\
  (forall k node, In node (queue k (toRemove plan)) -> key node = k) /\
  (forall node nodeAfter, In (node, nodeAfter) (toAdd plan) ->
     reused plan node \/ queue (key node) (toRemove plan) = []).

(** ** Clones *)

(** [node.cloneNode(true)]: a copy of the subtree made of new node
    objects, named by [rename]. Attributes, the [value] and [checked] of
    form controls and the children are copied; the properties that scripts
    set are not. *)
Fixpoint cloneNode (rename : nat -> nat) (node : Node) : Node :=
  match node with
  | ElementNode element childNodes =>
      ElementNode
        (mkElement (rename (identity element)) (tagName element)
                   (attributes element) (value element) (checked element)
                   Unset None)
        (map (cloneNode rename) childNodes)
  | TextNode identity nodeValue => TextNode (rename identity) nodeValue
  end.

(** The number of elements on the longest way down from a node. *)
Fixpoint height (node : Node) : nat :=
  match node with
  | ElementNode _ childNodes => S (list_max (map height childNodes))
  | TextNode _ _ => 0
  end.

Fixpoint distinct (identities : list nat) : bool :=
  match identities with
  | [] => true
  | i :: rest => negb (existsb (Nat.eqb i) rest) && distinct rest
  end.

(** No two children of one element are the same node object, anywhere
    in the tree. *)
Fixpoint distinctSiblings (node : Node) : bool :=
  match node with
  | ElementNode _ childNodes =>
      distinct (map nodeIdentity childNodes) &&
      forallb distinctSiblings childNodes
  | TextNode _ _ => true
  end.

(** ** The document: [documentMount()] *)

(** The selectors that [documentMount()] hands to [querySelector()]: a
    type selector, written as [tagName] prints the type, an attribute
    selector [[name="v"]], or both. *)
Inductive Selector :=
| TypeSelector (tagName : string)
| AttributeSelector (name v : string)
| TypeAttributeSelector (tagName name v : string).

Definition hasAttribute (element : Element) (name v : string) : bool :=
  match getAttribute element name with
  | Some w => String.eqb w v
  | None => false
  end.

Definition matches (selector : Selector) (element : Element) : bool :=
  match selector with
  | TypeSelector t => String.eqb (tagName element) t
  | AttributeSelector name v => hasAttribute element name v
  | TypeAttributeSelector t name v =>
      String.eqb (tagName element) t && hasAttribute element name v
  end.

(** The first element in document order, [node] included, that matches. *)
Fixpoint firstMatch (selector : Selector) (node : Node) : option Node :=
  match node with
  | TextNode _ _ => None
  | ElementNode element childNodes =>
      if matches selector element then Some node
      else
        (fix among (nodes : list Node) : option Node :=
           match nodes with
           | [] => None
           | child :: rest =>
               match firstMatch selector child with
               | Some found => Some found
               | None => among rest
               end
           end) childNodes
  end.

Fixpoint firstMatchAmong (selector : Selector) (nodes : list Node)
    : option Node :=
  match nodes with
  | [] => None
  | child :: rest =>
      match firstMatch selector child with
      | Some found => Some found
      | None => firstMatchAmong selector rest
      end
  end.

(** [element.querySelector(selector)]: among the descendants. *)
Definition querySelector (node : Node) (selector : Selector) : option Node :=
  firstMatchAmong selector (childNodesOf node).

(** The node object [node], wherever it is in the tree, becomes
    [f node]. *)
Fixpoint updateNode (node : nat) (f : Node -> Node) (tree : Node) : Node :=
  if nodeIdentity tree =? node then f tree
  else
    match tree with
    | ElementNode element childNodes =>
        ElementNode element (map (updateNode node f) childNodes)
    | TextNode _ _ => tree
    end.

(** The tree without the node object [node] below its root. *)
Fixpoint removeNode (node : nat) (tree : Node) : Node :=
  match tree with
  | ElementNode element childNodes =>
      ElementNode element
        (filter (fun child => negb (nodeIdentity child =? node))
                (map (removeNode node) childNodes))
  | TextNode _ _ => tree
  end.

(** The window: the root of the live document (none when the root has
    been removed), the events dispatched to it, the mutations that
    [morph()] made, and the number of node objects created so far. *)
Record Window := mkWindow {
  document : option Node;
  dispatched : list Event;
  mutated : list Mutation;
  created : nat
}.

(** [document.querySelector(selector)] *)
Definition documentQuerySelector (window : Window) (selector : Selector)
    : option Node :=
  match document window with
  | Some root => firstMatch selector root
  | None => None
  end.

Definition withDocument (window : Window) (document : option Node) : Window :=
  mkWindow document (dispatched window) (mutated window) (created window).

(** [element.isModified = b] *)
Definition setIsModified (b : bool) (node : Node) : Node :=
  match node with
  | ElementNode element childNodes =>
      ElementNode
        (mkElement (identity element) (tagName element) (attributes element)
                   (value element) (checked element)
                   (liveConnectionUpdate element) (Some b))
        childNodes
  | TextNode _ _ => node
  end.

(** [element.remove()] *)
Definition remove (window : Window) (node : Node) : Window :=
  withDocument window
    (match document window with
     | Some root =>
         if nodeIdentity root =? nodeIdentity node then None
         else Some (removeNode (nodeIdentity node) root)
     | None => None
     end).

Definition newline : string := String (ascii_of_nat 10) EmptyString.

Fixpoint spaces (n : nat) : string :=
  match n with
  | O => EmptyString
  | S n' => String " " (spaces n')
  end.

(** The nodes that the template of lines 267 to 271 parses to: the [div]
    between two runs of white space. [created] names the first of the four
    new node objects. *)
Definition globalError (created : nat) (message : string) : list Node :=
  [TextNode created (newline ++ spaces 10);
   ElementNode
     (mkElement (created + 1) "DIV" [("key", "global-error")] JSUndefined
                JSUndefined Unset None)
     [TextNode (created + 2)
        (newline ++ spaces 12 ++ message ++ newline ++ spaces 10)];
   TextNode (created + 3) (newline ++ spaces 8)].

(** [element.insertAdjacentHTML("afterbegin", ...)], the markup parsed. *)
Definition insertAfterBegin (nodes : list Node) (node : Node) : Node :=
  match node with
  | ElementNode element childNodes => ElementNode element (nodes ++ childNodes)
  | TextNode _ _ => node
  end.

(** [document.querySelector('meta[name="version"]')
      ?.getAttribute("content")] *)
Definition version (meta : option Node) : option string :=
  match meta with
  | Some (ElementNode element _) => getAttribute element "content"
  | _ => None
  end.

Definition metaVersion : Selector :=
  TypeAttributeSelector "META" "name" "version".

(** Lines 261 to 273. Reading a property of [null], when the document
    has no [html] or no [body], is a [TypeError]. *)
Definition versionMismatch (window : Window) : Window * Completion :=
  match documentQuerySelector window (TypeSelector "HTML") with
  | None => (window, Thrown "TypeError")
  | Some html =>
      let window :=
        withDocument window
          (option_map (updateNode (nodeIdentity html) (setIsModified false))
                      (document window)) in
      let window :=
        match documentQuerySelector window
                (AttributeSelector "key" "global-error") with
        | Some globalError => remove window globalError
        | None => window
        end in
      match documentQuerySelector window (TypeSelector "BODY") with
      | None => (window, Thrown "TypeError")
      | Some body =>
          (mkWindow
             (option_map
                (updateNode (nodeIdentity body)
                   (insertAfterBegin
                      (globalError (created window)
                         "There has been an update. Please reload the page.")))
                (document window))
             (dispatched window) (mutated window) (created window + 4),
           Completed)
      end
  end.

(** The first argument of [documentMount()]: markup, or an element. *)
Inductive Content :=
| ContentString (string : string)
| ContentElement (element : Node).

Section DocumentMount.

Variable fastMyersDiff : list string -> list string -> list Hunk.

(** [documentStringToElement(string)]: the [html] element that
    [DOMParser] makes of the markup, adopted by the document. *)
Variable documentStringToElement : string -> Node.

Definition contentElement (content : Content) : Node :=
  match content with
  | ContentString string => documentStringToElement string
  | ContentElement element => element
  end.

(** [documentMount(content, event)]; [fuel] is for [morph()]. An [event]
    left out is [new Event("DOMContentLoaded")]. *)
Definition documentMount (fuel : nat) (content : Content)
    (event : option Event) (window : Window) : Window * Completion :=
  let event :=
    match event with
    | Some event => event
    | None => mkEvent "DOMContentLoaded" None
    end in
  let content := contentElement content in
  let documentVersion := version (documentQuerySelector window metaVersion) in
  let contentVersion := version (querySelector content metaVersion) in
  let morphDocument :=
    match documentQuerySelector window (TypeSelector "HTML") with
    | None => (window, Thrown "TypeError")
    | Some html =>
        let '(html', log, completion) :=
          morph fastMyersDiff fuel [] html content (Some event) in
        let document :=
          option_map (updateNode (nodeIdentity html) (fun _ => html'))
                     (document window) in
        match completion with
        | Completed =>
            (mkWindow document (dispatched window ++ [event])
                      (mutated window ++ log) (created window),
             Completed)
        | _ =>
            (mkWindow document (dispatched window) (mutated window ++ log)
                      (created window),
             completion)
        end
    end in
  match documentVersion, contentVersion with
  | Some documentVersion, Some contentVersion =>
      if negb (String.eqb documentVersion contentVersion)
      then versionMismatch window
      else morphDocument
  | _, _ => morphDocument
  end.

End DocumentMount.


(** ** Nodes and documents for the examples *)

Definition element (identity : nat) (tagName : string)
    (attributes : list (string * string)) : Element :=
  mkElement identity tagName attributes JSUndefined JSUndefined Unset None.

(** [<li key="k">k</li>] *)
Definition li (identity : nat) (k : string) : Node :=
  ElementNode (element identity "LI" [("key", k)])
              [TextNode (identity + 100) k].

Definition liveConnectionUpdateEvent : option Event :=
  Some (mkEvent "DOMContentLoaded" (Some true)).

(** The list [A, B, C] and the same list served as [C, A, B]. *)
Definition listABC : Node :=
  ElementNode (element 0 "UL" []) [li 1 "A"; li 2 "B"; li 3 "C"].

Definition listCAB : Node :=
  ElementNode (element 10 "UL" []) [li 13 "C"; li 11 "A"; li 12 "B"].

(** The list [A, B, C] served with an [X] between [A] and [B]. *)
Definition listAXBC : Node :=
  ElementNode (element 10 "UL" [])
              [li 11 "A"; li 14 "X"; li 12 "B"; li 13 "C"].

(** An input that nothing pins, in which the user has typed. *)
Definition oldInput : Element :=
  mkElement 1 "INPUT" [("value", "old")] (JSString "old") (JSBoolean false)
            Unset None.

(** An input that pins its own [value]. *)
Definition pinnedInput : Element :=
  mkElement 1 "INPUT" [("value", "old")] (JSString "old") (JSBoolean false)
            (Names ["value"]) None.

(** The input as the server sends it. *)
Definition newInput : Element := element 2 "INPUT" [("value", "new")].



(** A list whose first item opted out of Live Connection updates, and an
    update that no longer has it. *)
Definition unreadIndicator : Node :=
  ElementNode
    (mkElement 1 "LI" [("key", "A")] JSUndefined JSUndefined (Boolean false)
               None)
    [TextNode 101 "A"].

(** A page at version 1 that shows an error already, and the same page
    served at version 2. *)
Definition page (v : string) (body : list Node) : Node :=
  ElementNode (element 0 "HTML" [])
    [ElementNode (element 1 "HEAD" [])
       [ElementNode (element 2 "META" [("name", "version"); ("content", v)])
                    []];
     ElementNode (element 3 "BODY" []) body].

Definition oldError : Node :=
  ElementNode (element 4 "DIV" [("key", "global-error")]) [TextNode 5 "Old"].

Definition paragraph : Node :=
  ElementNode (element 6 "P" []) [TextNode 7 "Hello"].

Definition pageWindow : Window :=
  mkWindow (Some (page "1" [oldError; paragraph])) [] [] 8.

End DOM.

(* ================================================================== *)
(** * The scheduler on an element: [backgroundJob()] of [index.mjs] *)
(* ================================================================== *)

Module ElementBackgroundJob.

Import BackgroundJob.

(** What the scheduler keeps true of a job: at most one execution in
    flight, a timer armed exactly while the job sleeps, and nothing in
    flight then. *)
Definition orderly (j : Job) : Prop :=
  inFlight j <= 1 /\
  (timeout j <> None -> state j = sleeping) /\
  (state j = sleeping -> inFlight j = 0 /\ timeout j <> None) /\
  state j <> initial.

(** What the call of the unit of work in flight waits for: the [job()]
    of the caller, or nothing any more, the arrow function having returned
    ([true]) or thrown ([false]). *)
Inductive Pending :=
| CallerJob
| Settled (returned : bool).

(** [element[elementProperty]] once [backgroundJob(element,
    elementProperty, options, job)] has returned, what its call in flight
    waits for, and the number of calls of the caller's [job()]. *)
Record ElementJob := mkElementJob {
  property : Job;
  pending : option Pending;
  jobCalls : nat
}.

(** The unit of work of lines 999 to 1002, called by the inner [run()]
    of [utilities.backgroundJob()] after the property has been assigned:
    [element[elementProperty]] is the job itself. *)
Definition unitOfWork (isConnected : bool) (j : Job) (jobCalls : nat)
    : ElementJob :=
  if isConnected then mkElementJob j (Some CallerJob) (S jobCalls)
  else mkElementJob (handle_stop j) (Some (Settled true)) jobCalls.

(** [backgroundJob(element, elementProperty, options, job)]. [previous]
    is what [element[elementProperty]] held. The unit of work is called
    once before the property is assigned: on an element that is not
    connected it calls [stop()] on what the property still holds, the job
    before this one, or throws a [TypeError] when the property is
    undefined. The result is the job before this one as line 996 leaves it,
    and the new job. *)
Definition start (previous : option Job) (isConnected : bool)
    : option Job * ElementJob :=
  let stoppedPrevious := option_map handle_stop previous in
  (stoppedPrevious,
   if isConnected then mkElementJob backgroundJob (Some CallerJob) 1
   else
     match stoppedPrevious with
     | Some _ => mkElementJob backgroundJob (Some (Settled true)) 0
     | None => mkElementJob backgroundJob (Some (Settled false)) 0
     end).

(** What can happen to the job of an element: the timer fires or the
    owner calls [run()], the element being connected or not at that
    moment; the owner calls [stop()]; the call in flight settles. *)
Inductive ElementEvent :=
| TimerFiresOn (isConnected : bool)
| CallRunOn (isConnected : bool)
| CallStopOn
| Settles (resolves : bool).

Definition elementStep (e : ElementJob) (event : ElementEvent)
    : option ElementJob :=
  let j := property e in
  match event with
  | TimerFiresOn isConnected =>
      match timeout j with
      | None => None
      | Some _ => Some (unitOfWork isConnected (run (clearTimeout j))
                                   (jobCalls e))
      end
  | CallRunOn isConnected =>
      match state j with
      | sleeping =>
          Some (unitOfWork isConnected (run (clearTimeout j)) (jobCalls e))
      | _ => Some (mkElementJob (handle_run j) (pending e) (jobCalls e))
      end
  | CallStopOn => Some (mkElementJob (handle_stop j) (pending e) (jobCalls e))
  | Settles resolves =>
      match pending e with
      | None => None
      | Some waiting =>
          let allowed :=
            match waiting with
            | CallerJob => true
            | Settled returned => Bool.eqb returned resolves
            end in
          if allowed then
            match step j (if resolves then JobResolves else JobRejects) with
            | Some j' => Some (mkElementJob j' None (jobCalls e))
            | None => None
            end
          else None
      end
  end.

Fixpoint elementSteps (e : ElementJob) (events : list ElementEvent)
    : option ElementJob :=
  match events with
  | [] => Some e
  | event :: events' =>
      match elementStep e event with
      | Some e' => elementSteps e' events'
      | None => None
      end
  end.

(** The jobs of an element: whatever a run of events leads to from a call
    of [backgroundJob()]. *)
Definition started (e : ElementJob) : Prop :=
  exists previous isConnected events,
    elementSteps (snd (start previous isConnected)) events = Some e.

(** The job cannot call the caller's [job()] any more: it is stopped, or
    its unit of work threw; nothing is armed, and what is in flight, if
    anything, is not the caller's [job()] settling into a new timer. *)
Definition finished (e : ElementJob) : Prop :=
  timeout (property e) = None /\
  (state (property e) = stopped \/
   (state (property e) <> sleeping /\
    (inFlight (property e) = 0 \/ pending e = Some (Settled false)))).

End ElementBackgroundJob.

(* ================================================================== *)
(** * The [state] attribute: [stateAdd()] and its companions *)
(* ================================================================== *)

Module State.

Import DOM.

(** [string.split(" ")]: the pieces between single spaces, the empty
    ones included; the empty string gives one empty piece. *)
Fixpoint split (text : string) : list string :=
  match text with
  | EmptyString => [""]
  | String c rest =>
      if Ascii.eqb c " " then "" :: split rest
      else
        match split rest with
        | piece :: pieces => String c piece :: pieces
        | [] => [String c ""]
        end
  end.

(** [array.join(" ")] *)
Fixpoint join (tokens : list string) : string :=
  match tokens with
  | [] => ""
  | [token] => token
  | token :: tokens' => token ++ " " ++ join tokens'
  end.

(** [.filter((token) => token !== "")] *)
Definition nonEmpty (tokens : list string) : list string :=
  filter (fun token => negb (String.eqb token "")) tokens.

(** The [Set] that each of the four functions builds first:
    [new Set((element.getAttribute("state") ?? "").split(" ")
       .filter((token) => token !== ""))]. *)
Definition state (element : Element) : list string :=
  newSet (nonEmpty (split (match getAttribute element "state" with
                           | Some text => text
                           | None => ""
                           end))).

(** [state.has(token)] *)
Definition stateHas (state : list string) (token : string) : bool :=
  existsb (String.eqb token) state.

(** [state.add(token)] *)
Definition add (state : list string) (token : string) : list string :=
  if stateHas state token then state else state ++ [token].

(** [state.delete(token)] *)
Definition delete (state : list string) (token : string) : list string :=
  filter (fun member => negb (String.eqb member token)) state.

Definition stateAdd (element : Element) (token : string) : Element :=
  setAttribute element "state" (join (add (state element) token)).

Definition stateRemove (element : Element) (token : string) : Element :=
  setAttribute element "state" (join (delete (state element) token)).

Definition stateToggle (element : Element) (token : string) : Element :=
  let state := state element in
  setAttribute element "state"
    (join (if stateHas state token then delete state token
           else add state token)).

Definition stateContains (element : Element) (token : string) : bool :=
  stateHas (state element) token.

(** A token that has a space in it. *)
Fixpoint hasSpace (token : string) : bool :=
  match token with
  | EmptyString => false
  | String c rest => Ascii.eqb c " " || hasSpace rest
  end.

(** A token as the functions expect it: not empty, no space. *)
Definition wellFormed (token : string) : bool :=
  negb (String.eqb token "") && negb (hasSpace token).

End State.

(* ================================================================== *)
(** * Form fields: [children()] and [isModified()] *)
(* ================================================================== *)

Module Forms.

Import DOM.

(** [children(element)]: the element and its descendant elements in
    document order, each handed around with its chain of [parentElement]
    links as in [parents]. [ancestors] is the chain of the parent of
    [node]. *)
Fixpoint children (ancestors : list Element) (node : Node)
    : list (list Element) :=
  match node with
  | ElementNode element childNodes =>
      (element :: ancestors) ::
      flat_map (children (element :: ancestors)) childNodes
  | TextNode _ _ => []
  end.

(** [parents(element).some((element) => element.isModified === b)] *)
Definition flagged (b : bool) (element : list Element) : bool :=
  existsb (fun element =>
             match DOM.isModified element with
             | Some flag => Bool.eqb flag b
             | None => false
             end)
          (parents element).

(** [element.closest("[disabled]") !== null] *)
Definition closestDisabled (element : list Element) : bool :=
  existsb (fun element =>
             match getAttribute element "disabled" with
             | Some _ => true
             | None => false
             end)
          element.

Section Fields.

(** What the browser derives for a form control from its markup: the
    properties [type], [defaultValue] and [defaultChecked]. *)
Variable type : Element -> string.
Variable defaultValue defaultChecked : Element -> JSValue.

(** [element.type === "checkbox" || element.type === "radio"] *)
Definition checkable (element : Element) : bool :=
  String.eqb (type element) "checkbox" || String.eqb (type element) "radio".

(** [element.value] of an element of [children(element)], which comes
    without its children: the text of a [textarea] that nobody has written
    is its [defaultValue]. A checkbox or a radio button without the
    [value] attribute reads ["on"]. *)
Definition fieldValue (element : Element) : JSValue :=
  if String.eqb (tagName element) "TEXTAREA" then
    match value element with
    | JSUndefined => defaultValue element
    | written => JSString (toDOMString written)
    end
  else if checkable element then
    match value element, getAttribute element "value" with
    | JSUndefined, None => JSString "on"
    | _, _ => valueOf element []
    end
  else valueOf element [].

(** Lines 827 to 831: the control is not as its markup has it. *)
Definition differs (element : Element) : bool :=
  (checkable element &&
   negb (JSValue_eqb (checkedOf element) (defaultChecked element))) ||
  (negb (checkable element) &&
   negb (JSValue_eqb (fieldValue element) (defaultValue element))).

(** The condition of lines 823 to 831 for one element of
    [children(element)]. *)
Definition modifiedAt (element : list Element) : bool :=
  flagged true element ||
  match element with
  | self :: _ =>
      matchesInputTextarea self && negb (closestDisabled element) &&
      negb (flagged false element) && differs self
  | [] => false
  end.

(** [isModified(element)] *)
Definition isModified (ancestors : list Element) (element : Node) : bool :=
  existsb modifiedAt (children ancestors element).

End Fields.

(** A [type] that reads the attribute and defaults on which the
    attributes [value] and [checked] decide, for the examples. *)
Definition typeAttribute (element : Element) : string :=
  match getAttribute element "type" with
  | Some type => type
  | None => "text"
  end.

Definition valueAttribute (element : Element) : JSValue :=
  match getAttribute element "value" with
  | Some v => JSString v
  | None => JSString ""
  end.

Definition checkedAttribute (element : Element) : JSValue :=
  match getAttribute element "checked" with
  | Some _ => JSBoolean true
  | None => JSBoolean false
  end.

End Forms.

(* ================================================================== *)
(** * Mounting content in an element: [mount()] *)
(* ================================================================== *)

Module Mount.

Import DOM.

(** [element.liveConnectionUpdate = flag], and [delete
    element.liveConnectionUpdate] for [Unset]. *)
Definition setLiveConnectionUpdate (flag : LiveConnectionUpdate)
    (element : Element) : Element :=
  mkElement (identity element) (tagName element) (attributes element)
            (value element) (checked element) flag (DOM.isModified element).

Section Mount.

Variable fastMyersDiff : list string -> list string -> list Hunk.

(** What [element.innerHTML = string] parses the markup to. *)
Variable innerHTML : string -> list Node.

(** [execute(element, event)]: what the functions of the [javascript]
    attributes make of the element and its children, and whether one of
    them throws. They are the caller's; nothing is assumed of them. *)
Variable execute :
  Element -> list Node -> option Event -> Element * list Node * Completion.

(** [stringToElements(string)]: a new [div], the node object [created],
    around the parsed markup. *)
Definition stringToElements (created : nat) (text : string) : Node :=
  ElementNode (element created "DIV" []) (innerHTML text).

(** Line 234. *)
Definition mountContent (created : nat) (content : Content) : Node :=
  match content with
  | ContentString text => stringToElements created text
  | ContentElement element => element
  end.

(** Lines 234 to 236. [created] names the node object that
    [stringToElements()] creates when the content is markup. *)
Definition mountMorph (fuel : nat) (ancestors : list Element)
    (element : Element) (childNodes : list Node) (created : nat)
    (content : Content) (event : option Event)
    : Node * list Mutation * Completion :=
  morph fastMyersDiff fuel ancestors
        (ElementNode (setLiveConnectionUpdate Unset element) childNodes)
        (mountContent created content) event.

(** [mount(element, content, event)]. The result is the element as the
    call leaves it, the mutations that [morph()] made, and how the call
    ended. *)
Definition mount (fuel : nat) (ancestors : list Element)
    (element : Element) (childNodes : list Node) (created : nat)
    (content : Content) (event : option Event)
    : Node * list Mutation * Completion :=
  match mountMorph fuel ancestors element childNodes created content event
  with
  | (ElementNode element childNodes, log, Completed) =>
      match execute element childNodes event with
      | (element, childNodes, Completed) =>
          (ElementNode (setLiveConnectionUpdate (Boolean false) element)
                       childNodes,
           log, Completed)
      | (element, childNodes, completion) =>
          (ElementNode element childNodes, log, completion)
      end
  | thrown => thrown
  end.

End Mount.

(** A markup parser and scripts for the examples: one text node whatever
    the markup, and scripts that leave the element alone. *)
Definition helloMarkup (text : string) : list Node := [TextNode 21 text].

Definition noScript (element : Element) (childNodes : list Node)
    (event : option Event) : Element * list Node * Completion :=
  (element, childNodes, Completed).

(** A container that was mounted before. *)
Definition container : Element :=
  mkElement 1 "DIV" [("class", "box"); ("state", "open")] JSUndefined
            JSUndefined (Boolean false) None.

End Mount.

(* ================================================================== *)
(** * What [morph()] is for: [from] ends up rendering as [to] *)
(* ================================================================== *)

Module Rendering.

Import DOM.

(** A tree that a browser renders as another: the same text in text
    nodes, the same tag, attributes and, on form controls, [value] and
    [checked] in elements, where a [textarea] that nobody has written
    shows its text, and children that render alike one by one. The node
    objects may differ, and so may the flags that scripts set. *)
Inductive sameMarkup : Node -> Node -> Prop :=
| sameText (identity identity' : nat) (nodeValue : string) :
    sameMarkup (TextNode identity nodeValue) (TextNode identity' nodeValue)
| sameElement (element element' : Element)
    (childNodes childNodes' : list Node) :
    tagName element = tagName element' ->
    (forall name, getAttribute element name = getAttribute element' name) ->
    (matchesInputTextarea element = true ->
     forall property, property = "value" \/ property = "checked" ->
       getProperty element childNodes property =
         getProperty element' childNodes' property \/
       unedited element childNodes property) ->
    Forall2 sameMarkup childNodes childNodes' ->
    sameMarkup (ElementNode element childNodes)
               (ElementNode element' childNodes').

(** The node objects of a tree. *)
Fixpoint identities (node : Node) : list nat :=
  match node with
  | ElementNode element childNodes =>
      identity element :: flat_map identities childNodes
  | TextNode identity _ => [identity]
  end.

(** A tag name without a hyphen, as the names of the HTML elements are;
    the [key] of line 351 then tells the tag from the [key] attribute. *)
Fixpoint hyphenFree (name : string) : bool :=
  match name with
  | EmptyString => true
  | String c rest => negb (Ascii.eqb c "-") && hyphenFree rest
  end.

Fixpoint plainTags (node : Node) : bool :=
  match node with
  | ElementNode element childNodes =>
      hyphenFree (tagName element) && forallb plainTags childNodes
  | TextNode _ _ => true
  end.

(** [list.slice(start, end)] *)
Definition slice {A : Type} (items : list A) (start stop : nat) : list A :=
  firstn (stop - start) (skipn start items).

Fixpoint keys_eqb (xs ys : list string) : bool :=
  match xs, ys with
  | [], [] => true
  | x :: xs', y :: ys' => String.eqb x y && keys_eqb xs' ys'
  | _, _ => false
  end.

(** What a differ promises: the hunks come in order, each within the
    two lists, with at least one element of [xs] between two of them, and
    outside the hunks the two lists are the same, element by element. [i]
    and [j] are where the hunk before ended; [first] tells that there is
    none. *)
Fixpoint editScriptFrom (xs ys : list string) (first : bool) (i j : nat)
    (hunks : list Hunk) : bool :=
  match hunks with
  | [] =>
      (i <=? List.length xs) && (j <=? List.length ys) &&
      keys_eqb (skipn i xs) (skipn j ys)
  | (sx, ex, sy, ey) :: rest =>
      (if first then i <=? sx else i <? sx) && (j <=? sy) &&
      keys_eqb (slice xs i sx) (slice ys j sy) &&
      (sx - i =? sy - j) &&
      (sx <=? ex) && (ex <=? List.length xs) &&
      (sy <=? ey) && (ey <=? List.length ys) &&
      editScriptFrom xs ys false ex ey rest
  end.

Definition editScript (xs ys : list string) (hunks : list Hunk) : bool :=
  editScriptFrom xs ys true 0 0 hunks.

(** The coarsest differ: everything is replaced. *)
Definition replaceAll (xs ys : list string) : list Hunk :=
  [(0, List.length xs, 0, List.length ys)].

(** ** The plan, segment by segment *)

(** The children between two hunks, in [from] and in [to]; the children
    that the hunk takes out of [from] and those it puts in from [to]; and
    [from.childNodes[fromEnd]], in front of which they go. *)
Record Segment := mkSegment {
  gap : list Node;
  gap' : list Node;
  del : list Node;
  ins : list Node;
  anchor : option Node
}.

Fixpoint segments (fromChildNodes toChildNodes : list Node) (i j : nat)
    (hunks : list Hunk) : list Segment :=
  match hunks with
  | [] =>
      [mkSegment (skipn i fromChildNodes) (skipn j toChildNodes) [] [] None]
  | (sx, ex, sy, ey) :: rest =>
      mkSegment (slice fromChildNodes i sx) (slice toChildNodes j sy)
                (slice fromChildNodes sx ex) (slice toChildNodes sy ey)
                (nth_error fromChildNodes ex)
      :: segments fromChildNodes toChildNodes ex ey rest
  end.

(** Each segment that puts children in has for [anchor] the first child
    that stays after it, if there is one. *)
Fixpoint anchored (segments : list Segment) : Prop :=
  match segments with
  | [] => True
  | segment :: rest =>
      (ins segment = [] \/ anchor segment = hd_error (flat_map gap rest)) /\
      anchored rest
  end.

(** The loop of lines 372 to 381 outside Live Connection updates. *)
Definition pushAll (toRemove : ToRemove) (nodes : list Node) : ToRemove :=
  fold_left (fun toRemove node => push (key node) node toRemove) nodes
            toRemove.

(** The body of the loop of lines 398 to 407 for one child of [to]. *)
Definition resolveNode (nodeAfter : option Node) (plan : Plan)
    (toChildNode : Node) : Plan :=
  match shift (key toChildNode) (toRemove plan) with
  | (Some fromChildNode, toRemove') =>
      mkPlan toRemove' (toAdd plan ++ [(fromChildNode, nodeAfter)])
             (toMorph plan ++ [(fromChildNode, toChildNode)])
  | (None, toRemove') =>
      mkPlan toRemove' (toAdd plan ++ [(toChildNode, nodeAfter)])
             (toMorph plan)
  end.

(** The body of the loop of lines 385 to 408 for one segment. *)
Definition planSegment (plan : Plan) (segment : Segment) : Plan :=
  fold_left (resolveNode (anchor segment)) (ins segment)
    (mkPlan (toRemove plan) (toAdd plan)
            (toMorph plan ++ combine (gap segment) (gap' segment))).

(** Line 411 on a list of children that holds none of the nodes to
    add. *)
Definition place (childNodes : list Node) (added : Node * option Node)
    : list Node :=
  match snd added with
  | Some nodeAfter => insertAt childNodes (fst added) (nodeIdentity nodeAfter)
  | None => childNodes ++ [fst added]
  end.

Definition placed (toAdd : list (Node * option Node)) (childNodes : list Node)
    : list Node :=
  fold_left place toAdd childNodes.

(** Whether a node object is among [nodes]. *)
Definition among (nodes : list Node) (node : Node) : bool :=
  existsb (fun other => nodeIdentity other =? nodeIdentity node) nodes.

(** A segment made of children of [from] and [to], with the same keys
    outside the hunk. *)
Definition within (fromChildNodes toChildNodes : list Node)
    (segment : Segment) : Prop :=
  map key (gap segment) = map key (gap' segment) /\
  incl (gap segment) fromChildNodes /\
  incl (gap' segment) toChildNodes /\
  incl (ins segment) toChildNodes.

(** Every array of [toRemove] holds nodes of its own key. *)
Definition entrywise (toRemove : ToRemove) : Prop :=
  forall k nodes node,
    In (k, nodes) toRemove -> In node nodes -> key node = k.

(** A child in its final place and the child of [to] it stands for: the
    child of [to] itself, or a child of [from] of the same key that
    [toMorph] pairs with it. *)
Definition status (toMorph : list (Node * Node)) (node to : Node) : Prop :=
  node = to \/ (In (node, to) toMorph /\ key node = key to).

(** [toAdd] when [addss] lists, segment by segment, the nodes that take
    the places of the children put in. *)
Definition additions (segments : list Segment) (addss : list (list Node))
    : list (Node * option Node) :=
  flat_map (fun entry : Segment * list Node =>
              map (fun node => (node, anchor (fst entry))) (snd entry))
           (combine segments addss).

(** The children that [from] is to end up with. *)
Definition expected (segments : list Segment) (addss : list (list Node))
    : list Node :=
  flat_map (fun entry : Segment * list Node => gap (fst entry) ++ snd entry)
           (combine segments addss).

(** What lines 385 to 408 keep true of the plan. [deleted] are the
    children of [from] inside the hunks; [gaps] and [inserts] are the
    children outside the hunks and the children of [to] inside them that
    the loop has still to meet. *)
Definition planned (fromChildNodes toChildNodes deleted : list Node)
    (plan : Plan) (gaps inserts : list Node) : Prop :=
  entrywise (toRemove plan) /\
  NoDup (map nodeIdentity
           (map fst (toAdd plan) ++ members (toRemove plan) ++ inserts)) /\
  NoDup (map nodeIdentity
           (map fst (toMorph plan) ++ members (toRemove plan) ++ gaps)) /\
  (forall node, In node (map fst (toAdd plan)) ->
     In node deleted \/ In node toChildNodes) /\
  (forall node, In node (members (toRemove plan)) -> In node deleted) /\
  (forall node, In node deleted ->
     In node (map fst (toAdd plan)) \/ In node (members (toRemove plan))) /\
  (forall from to, In (from, to) (toMorph plan) ->
     In from fromChildNodes /\ In to toChildNodes /\ key from = key to).

Definition isElement (node : Node) : bool :=
  match node with
  | ElementNode _ _ => true
  | TextNode _ _ => false
  end.

(** A child while line 412 goes through [toMorph]: it is to the child
    of [to] it stands for as it will be in the end, which [done] tells, and
    no pair of [toMorph] is to morph it, or it is an element that a pair of
    [toMorph] is still to morph. *)
Definition settled (done : Node -> Node -> Prop)
    (toMorph : list (Node * Node)) (node to : Node) : Prop :=
  (done node to /\
   forall from to', In (from, to') toMorph -> isElement from = true ->
                    nodeIdentity from <> nodeIdentity node) \/
  (In (node, to) toMorph /\ isElement node = true).

(** The node that stands for a child of [to] when [fromChildNode] is
    reused for it: an element is what the recursive call of line 413
    leaves of it, a text node is as it was. *)
Definition reusedFor
    (morphChild : Node -> Node -> Node * list Mutation * Completion)
    (fromChildNode toChildNode : Node) : Node :=
  match fromChildNode with
  | ElementNode _ _ => fst (fst (morphChild fromChildNode toChildNode))
  | TextNode _ _ => fromChildNode
  end.

(** The list served as [C, A, B] with its first item marked. *)
Definition listCAB' : Node :=
  ElementNode (element 10 "UL" [])
    [ElementNode (element 13 "LI" [("key", "C"); ("class", "first")])
                 [TextNode 113 "C"];
     li 11 "A"; li 12 "B"].

(** Whether [morph()] on the event goes into the node and everything
    below it: on a Live Connection update it passes over the nodes with
    [liveConnectionUpdate === false]. *)
Fixpoint unshielded (event : option Event) (node : Node) : bool :=
  match node with
  | ElementNode element childNodes =>
      negb (isLiveConnectionUpdate event && explicitlyFalse element) &&
      forallb (unshielded event) childNodes
  | TextNode _ _ => true
  end.

End Rendering.

(* ================================================================== *)
(** * Updates in place: [morph()] when the keys agree *)
(* ================================================================== *)

Module InPlace.

Import DOM.

(** The children of the two nodes have the same keys at the same places,
    all the way down: the two trees differ in attributes and properties
    at most. *)
Fixpoint sameKeys (from to : Node) : bool :=
  match from, to with
  | ElementNode _ fromChildNodes, ElementNode _ toChildNodes =>
      (fix children (fromChildNodes toChildNodes : list Node) : bool :=
         match fromChildNodes, toChildNodes with
         | [], [] => true
         | from :: fromChildNodes, to :: toChildNodes =>
             String.eqb (key from) (key to) && sameKeys from to &&
             children fromChildNodes toChildNodes
         | _, _ => false
         end) fromChildNodes toChildNodes
  | TextNode _ _, TextNode _ _ => true
  | _, _ => false
  end.

(** A mutation of an element itself, not of its list of children. *)
Definition onElement (mutation : Mutation) : bool :=
  match mutation with
  | RemoveAttribute _ _ | SetAttribute _ _ _ | SetProperty _ _ _ => true
  | RemoveChild _ _ | InsertBefore _ _ _ => false
  end.

(** The same node objects at the same places: the text nodes are as they
    were, and the elements are the same objects with the same flags. *)
Inductive inPlace : Node -> Node -> Prop :=
| inPlace_text (identity : nat) (nodeValue : string) :
    inPlace (TextNode identity nodeValue) (TextNode identity nodeValue)
| inPlace_element (element element' : Element)
    (childNodes childNodes' : list Node) :
    sameObject element element' ->
    Forall2 inPlace childNodes childNodes' ->
    inPlace (ElementNode element childNodes)
            (ElementNode element' childNodes').

(** The list of [listABC] with other attributes. *)
Definition listABC' : Node :=
  ElementNode (element 10 "UL" [("class", "wide")])
    [ElementNode (element 11 "LI" [("key", "A"); ("hidden", "")])
                 [TextNode 111 "A"];
     li 12 "B"; li 13 "C"].

End InPlace.

(* ================================================================== *)
(** * The pool of interned values: [utilities.intern()] *)
(* ================================================================== *)

Module Intern.

(** ** Values *)

(** [InternInnerValue]: a primitive, or an object, named by its identity.
    Numbers are the naturals here, as the indices of an array are. *)
Inductive InternInnerValue :=
| StringValue (s : string)
| NumberValue (n : nat)
| BigintValue (n : nat)
| BooleanValue (b : bool)
| SymbolValue (symbol : nat)
| UndefinedValue
| NullValue
| ObjectValue (object : nat).

(** How a [Map] compares its keys: primitives by value, objects by
    identity. *)
Definition sameValueZero (v w : InternInnerValue) : bool :=
  match v, w with
  | StringValue s, StringValue t => String.eqb s t
  | NumberValue n, NumberValue m => n =? m
  | BigintValue n, BigintValue m => n =? m
  | BooleanValue b, BooleanValue c => Bool.eqb b c
  | SymbolValue s, SymbolValue t => s =? t
  | UndefinedValue, UndefinedValue => true
  | NullValue, NullValue => true
  | ObjectValue o, ObjectValue p => o =? p
  | _, _ => false
  end.

(** [InternKey]: the index of an item of an array, a number, or the key
    of a field of an object, a string. *)
Inductive InternKey :=
| Index (index : nat)
| Name (name : string).

Definition sameKey (k l : InternKey) : bool :=
  match k, l with
  | Index i, Index j => i =? j
  | Name s, Name t => String.eqb s t
  | _, _ => false
  end.

(** What [intern()] reads of its argument: the items of an array, without
    holes, or the fields of an object as [Object.entries()] lists them. *)
Inductive Contents :=
| Items (items : list InternInnerValue)
| Fields (fields : list (string * InternInnerValue)).

(** ** Maps *)

Section Maps.

Context {K V : Type}.
Variable same : K -> K -> bool.

(** [map.get(k)] *)
Fixpoint get (k : K) (map : list (K * V)) : option V :=
  match map with
  | [] => None
  | (k', v) :: rest => if same k' k then Some v else get k rest
  end.

(** [map.set(k, v)] *)
Fixpoint set (k : K) (v : V) (map : list (K * V)) : list (K * V) :=
  match map with
  | [] => [(k, v)]
  | (k', v') :: rest =>
      if same k' k then (k', v) :: rest else (k', v') :: set k v rest
  end.

(** [map.delete(k)] *)
Fixpoint delete (k : K) (map : list (K * V)) : list (K * V) :=
  match map with
  | [] => []
  | (k', v) :: rest =>
      if same k' k then rest else (k', v) :: delete k rest
  end.

End Maps.

(** ** The pool *)

(** [InternCache]: [Map<InternKey, Map<InternValue, InternNode>>], the
    nodes named by their identities. *)
Definition InternCache : Type :=
  list (InternKey * list (InternInnerValue * nat)).

(** [InternNode]. A [finalValue] is a [WeakRef]; it is kept as the
    identity of the object it was made for. *)
Inductive InternNode :=
| RootNode (children : option InternCache)
| InnerNode (key : InternKey) (value : InternInnerValue)
    (finalValue : option nat) (children : option InternCache)
    (parent : nat).

Definition root (node : InternNode) : bool :=
  match node with
  | RootNode _ => true
  | InnerNode _ _ _ _ _ => false
  end.

Definition children (node : InternNode) : option InternCache :=
  match node with
  | RootNode children => children
  | InnerNode _ _ _ children _ => children
  end.

Definition finalValue (node : InternNode) : option nat :=
  match node with
  | RootNode _ => None
  | InnerNode _ _ finalValue _ _ => finalValue
  end.

Definition parent (node : InternNode) : option nat :=
  match node with
  | RootNode _ => None
  | InnerNode _ _ _ _ parent => Some parent
  end.

(** [node.children = children] *)
Definition setChildren (children : InternCache) (node : InternNode)
    : InternNode :=
  match node with
  | RootNode _ => RootNode (Some children)
  | InnerNode key value finalValue _ parent =>
      InnerNode key value finalValue (Some children) parent
  end.

(** [node.finalValue = new WeakRef(object)] *)
Definition setFinalValue (object : nat) (node : InternNode) : InternNode :=
  match node with
  | RootNode children => RootNode children
  | InnerNode key value _ children parent =>
      InnerNode key value (Some object) children parent
  end.

(** The objects that [intern()] works on: the node objects, in the order
    in which they were created, [intern.rootInternNode] first; the objects
    that [intern.markValueAsInterned()] has marked, which carry
    [internSymbol], each with the contents that [Object.freeze()] has
    fixed; the objects that the garbage collector has reclaimed; and the
    registrations of [intern.finalizationRegistry], an object with the
    node held for it. *)
Record Heap := mkHeap {
  nodes : list InternNode;
  interned : list (nat * Contents);
  collected : list nat;
  registry : list (nat * nat)
}.

Definition nullTuple : nat := 0.
Definition nullRecord : nat := 1.

(** The heap when the module has been loaded. *)
Definition loaded : Heap :=
  mkHeap [RootNode None] [(nullTuple, Items []); (nullRecord, Fields [])]
         [] [].

(** The node object [node]. *)
Definition nodeAt (nodes : list InternNode) (node : nat) : InternNode :=
  nth node nodes (RootNode None).

(** The node object [node] becomes [f node]. *)
Fixpoint update (node : nat) (f : InternNode -> InternNode)
    (nodes : list InternNode) : list InternNode :=
  match nodes, node with
  | [], _ => []
  | first :: rest, O => f first :: rest
  | first :: rest, S node' => first :: update node' f rest
  end.

(** [weakRef.deref()]: [undefined] ([None]) once the object has been
    reclaimed. *)
Definition deref (heap : Heap) (object : nat) : option nat :=
  if existsb (Nat.eqb object) (collected heap) then None else Some object.

(** ** [intern()] *)

(** The test of lines 248 to 260 on one inner value. *)
Definition internable (heap : Heap) (innerValue : InternInnerValue) : bool :=
  match innerValue with
  | ObjectValue object =>
      existsb (Nat.eqb object) (map fst (interned heap))
  | _ => true
  end.

(** [Object.values(value)] *)
Definition values (contents : Contents) : list InternInnerValue :=
  match contents with
  | Items items => items
  | Fields fields => map snd fields
  end.

Section Sort.

(** [aKey.localeCompare(bKey)], by its sign. *)
Variable localeCompare : string -> string -> comparison.

Fixpoint insert (field : string * InternInnerValue)
    (sorted : list (string * InternInnerValue))
    : list (string * InternInnerValue) :=
  match sorted with
  | [] => [field]
  | first :: rest =>
      match localeCompare (fst field) (fst first) with
      | Gt => first :: insert field rest
      | _ => field :: sorted
      end
  end.

(** [fields.sort(([aKey], [bKey]) => aKey.localeCompare(bKey))]: the
    sort is stable. *)
Definition sort (fields : list (string * InternInnerValue))
    : list (string * InternInnerValue) :=
  fold_right insert [] fields.

(** Lines 266 to 268. *)
Definition entries (contents : Contents)
    : list (InternKey * InternInnerValue) :=
  match contents with
  | Items items => combine (map Index (seq 0 (List.length items))) items
  | Fields fields =>
      map (fun field => (Name (fst field), snd field)) (sort fields)
  end.

(** The body of the loop of lines 272 to 279: from [node] to its child
    for the entry, which is created when there is none. *)
Definition descend (state : nat * list InternNode)
    (entry : InternKey * InternInnerValue) : nat * list InternNode :=
  let (node, nodes) := state in
  let (key, innerValue) := entry in
  let cache :=
    match children (nodeAt nodes node) with
    | Some cache => cache
    | None => []
    end in
  let valueMap :=
    match get sameKey key cache with
    | Some valueMap => valueMap
    | None => []
    end in
  match get sameValueZero innerValue valueMap with
  | Some child => (child, nodes)
  | None =>
      let child := List.length nodes in
      (child,
       update node
         (setChildren (set sameKey key (valueMap ++ [(innerValue, child)])
                           cache))
         nodes ++
       [InnerNode key innerValue None None node])
  end.

(** What a call gives back: a value, [undefined] being [None], or an
    error. *)
Inductive Result :=
| Returned (value : option nat)
| Threw (message : string).

(** [intern(value)], for the object [value] with the contents
    [contents]. *)
Definition intern (value : nat) (contents : Contents) (heap : Heap)
    : Result * Heap :=
  if negb (forallb (internable heap) (values contents)) then
    (Threw "Failed to intern value because of non-interned inner value.",
     heap)
  else
    let (node, nodes) :=
      fold_left descend (entries contents) (0, nodes heap) in
    let heap :=
      mkHeap nodes (interned heap) (collected heap) (registry heap) in
    if root (nodeAt nodes node) then
      (Returned (Some (match contents with
                       | Items _ => nullTuple
                       | Fields _ => nullRecord
                       end)),
       heap)
    else
      match finalValue (nodeAt nodes node) with
      | Some object => (Returned (deref heap object), heap)
      | None =>
          (Returned (Some value),
           mkHeap (update node (setFinalValue value) nodes)
                  ((value, contents) :: interned heap) (collected heap)
                  (registry heap ++ [(value, node)]))
      end.

End Sort.

(** ** The finalization registry *)

(** [!currentNode.children?.size] *)
Definition childless (node : InternNode) : bool :=
  match children node with
  | Some (_ :: _) => false
  | _ => true
  end.

(** [!currentNode.finalValue]: a [WeakRef] is an object, whatever became
    of the object it was made for. *)
Definition withoutFinalValue (node : InternNode) : bool :=
  match finalValue node with
  | Some _ => false
  | None => true
  end.

(** Lines 337 to 343: the entry of [currentNode] is deleted from the
    children of [parent], and its key with it when no other value is
    left under the key. *)
Definition forget (key : InternKey) (value : InternInnerValue)
    (node : InternNode) : InternNode :=
  match children node with
  | None => node
  | Some cache =>
      match get sameKey key cache with
      | None => node
      | Some valueMap =>
          match delete sameValueZero value valueMap with
          | [] => setChildren (delete sameKey key cache) node
          | valueMap' => setChildren (set sameKey key valueMap' cache) node
          end
      end
  end.

(** The callback of [intern.finalizationRegistry], lines 331 to 347;
    [fuel] bounds the way up to the root. *)
Fixpoint prune (fuel : nat) (currentNode : nat) (nodes : list InternNode)
    : option (list InternNode) :=
  match fuel with
  | O => None
  | S fuel' =>
      match nodeAt nodes currentNode with
      | RootNode _ => Some nodes
      | InnerNode key value _ _ parent =>
          let nodes :=
            if childless (nodeAt nodes currentNode) &&
               withoutFinalValue (nodeAt nodes currentNode)
            then update parent (forget key value) nodes
            else nodes in
          prune fuel' parent nodes
      end
  end.

(** ** What happens to the heap *)

(** A call of [intern()]; the garbage collector reclaims an object; the
    registry calls back for a registration whose object was reclaimed. *)
Inductive Event :=
| Intern (value : nat) (contents : Contents)
| Collect (object : nat)
| Finalize (registration : nat).

Section Events.

Variable localeCompare : string -> string -> comparison.

(** The heap after the event; [None] when the callback runs out of
    fuel. *)
Definition after (heap : Heap) (event : Event) : option Heap :=
  match event with
  | Intern value contents =>
      Some (snd (intern localeCompare value contents heap))
  | Collect object =>
      Some (mkHeap (nodes heap) (interned heap) (object :: collected heap)
                   (registry heap))
  | Finalize registration =>
      match nth_error (registry heap) registration with
      | Some (object, node) =>
          if existsb (Nat.eqb object) (collected heap) then
            match prune (List.length (nodes heap)) node (nodes heap) with
            | Some nodes =>
                Some (mkHeap nodes (interned heap) (collected heap)
                             (firstn registration (registry heap) ++
                              skipn (S registration) (registry heap)))
            | None => None
            end
          else Some heap
      | None => Some heap
      end
  end.

Fixpoint afterAll (heap : Heap) (events : list Event) : option Heap :=
  match events with
  | [] => Some heap
  | event :: events' =>
      match after heap event with
      | Some heap' => afterAll heap' events'
      | None => None
      end
  end.

End Events.

(** ** The vocabulary of the properties *)

(** [node.children?.get(key)?.get(innerValue)] *)
Definition child (nodes : list InternNode) (node : nat) (key : InternKey)
    (innerValue : InternInnerValue) : option nat :=
  match children (nodeAt nodes node) with
  | Some cache =>
      match get sameKey key cache with
      | Some valueMap => get sameValueZero innerValue valueMap
      | None => None
      end
  | None => None
  end.

(** The node that the entries lead to from [node], when all the nodes on
    the way are there. *)
Fixpoint find (nodes : list InternNode) (node : nat)
    (entries : list (InternKey * InternInnerValue)) : option nat :=
  match entries with
  | [] => Some node
  | (key, innerValue) :: entries' =>
      match child nodes node key innerValue with
      | Some node' => find nodes node' entries'
      | None => None
      end
  end.

(** The nodes form a tree under [intern.rootInternNode]: the first node
    is the root, every other node was created after its parent, and the
    children of a node are among the nodes created after the root. *)
Definition tree (nodes : list InternNode) : Prop :=
  root (nodeAt nodes 0) = true /\
  0 < List.length nodes /\
  (forall node, 0 < node < List.length nodes ->
     exists node', parent (nodeAt nodes node) = Some node' /\ node' < node) /\
  (forall node key innerValue node',
     child nodes node key innerValue = Some node' ->
     0 < node' < List.length nodes).

(** What the callback of the registry looks for: a node without children
    and without a [finalValue]. *)
Definition prunable (node : InternNode) : bool :=
  childless node && withoutFinalValue node.

(** No node but the root and [current] is one that the callback looks
    for. *)
Definition kept (nodes : list InternNode) (current : nat) : Prop :=
  forall node, 0 < node < List.length nodes -> node <> current ->
    prunable (nodeAt nodes node) = false.

(** The heap between two calls. *)
Definition sound (heap : Heap) : Prop :=
  tree (nodes heap) /\ kept (nodes heap) 0.

(** The objects of the [finalValue]s are marked. *)
Definition marked (heap : Heap) : Prop :=
  forall node object,
    finalValue (nodeAt (nodes heap) node) = Some object ->
    In object (map fst (interned heap)).

(** The children know their place: a child of a node under a key and a
    value has that key, that value and that node for its parent. *)
Definition linked (nodes : list InternNode) : Prop :=
  forall node key innerValue node',
    child nodes node key innerValue = Some node' ->
    exists finalValue children,
      nodeAt nodes node' =
      InnerNode key innerValue finalValue children node.

(** The entries on the way from the root to [node], read off the nodes;
    [fuel] bounds the way up. *)
Fixpoint pathTo (fuel : nat) (nodes : list InternNode) (node : nat)
    : list (InternKey * InternInnerValue) :=
  match fuel with
  | O => []
  | S fuel' =>
      match nodeAt nodes node with
      | RootNode _ => []
      | InnerNode key value _ _ parent =>
          pathTo fuel' nodes parent ++ [(key, value)]
      end
  end.

(** An object that is marked is frozen with the contents it has: it has
    one record of its contents, and its node, when it has one, is where
    those contents lead. *)
Definition frozen (localeCompare : string -> string -> comparison)
    (heap : Heap) : Prop :=
  (forall object contents contents',
     In (object, contents) (interned heap) ->
     In (object, contents') (interned heap) ->
     contents = contents') /\
  (forall node object,
     finalValue (nodeAt (nodes heap) node) = Some object ->
     exists contents,
       In (object, contents) (interned heap) /\
       find (nodes heap) 0 (entries localeCompare contents) = Some node).

(** A call hands over the contents that the object has: those with which
    it was frozen, when it was. *)
Definition legal (heap : Heap) (event : Event) : Prop :=
  match event with
  | Intern value contents =>
      forall contents',
        In (value, contents') (interned heap) -> contents' = contents
  | _ => True
  end.

Section Legal.

Variable localeCompare : string -> string -> comparison.

Fixpoint legalAll (heap : Heap) (events : list Event) : Prop :=
  match events with
  | [] => True
  | event :: events' =>
      legal heap event /\
      match after localeCompare heap event with
      | Some heap' => legalAll heap' events'
      | None => True
      end
  end.

End Legal.

(** The same items in the same order, or the same fields in any
    order. *)
Definition sameContents (contents contents' : Contents) : Prop :=
  match contents, contents' with
  | Items items, Items items' => items = items'
  | Fields fields, Fields fields' => Permutation fields fields'
  | _, _ => False
  end.

(** [localeCompare] orders the keys: two keys that it takes for equal
    are equal, it is antisymmetric and it is transitive. *)
Definition orders (localeCompare : string -> string -> comparison)
    (keys : list string) : Prop :=
  (forall a b, In a keys -> In b keys ->
     localeCompare a b = Eq -> a = b) /\
  (forall a b, In a keys -> In b keys ->
     localeCompare b a = CompOpp (localeCompare a b)) /\
  (forall a b c, In a keys -> In b keys -> In c keys ->
     localeCompare a b = Lt -> localeCompare b c = Lt ->
     localeCompare a c = Lt).

(** The order of the fields by their keys. *)
Definition before (localeCompare : string -> string -> comparison)
    (field field' : string * InternInnerValue) : Prop :=
  localeCompare (fst field) (fst field') = Lt.

(** [nodes'] has what [nodes] has: the children and the [finalValue]s. *)
Definition extends (nodes nodes' : list InternNode) : Prop :=
  (forall node key innerValue node',
     child nodes node key innerValue = Some node' ->
     child nodes' node key innerValue = Some node') /\
  (forall node object,
     finalValue (nodeAt nodes node) = Some object ->
     finalValue (nodeAt nodes' node) = Some object).

(** ** Values and heaps for the examples *)

(** [[1]] *)
Definition one : Contents := Items [NumberValue 1].

(** The heap after [$([1])], for the array object 2. *)
Definition once : Heap := snd (intern String.compare 2 one loaded).

(** Other values are interned, the array of [once] is reclaimed and the
    registry calls back for it. *)
Definition afterwards : list Event :=
  [Intern 3 (Items [NumberValue 1; StringValue "a"]);
   Intern 4 (Fields [("b", ObjectValue 3); ("a", NullValue)]);
   Collect 2; Finalize 0].

Definition reclaimed : Heap :=
  match afterAll String.compare once afterwards with
  | Some heap => heap
  | None => once
  end.

(** [{ a: 1, b: 2 }] and [{ b: 2, a: 1 }] *)
Definition ab : list (string * InternInnerValue) :=
  [("a", NumberValue 1); ("b", NumberValue 2)].

Definition ba : list (string * InternInnerValue) :=
  [("b", NumberValue 2); ("a", NumberValue 1)].

End Intern.

(* ================================================================== *)
(** * Form submission: [serialize()] *)
(* ================================================================== *)

Module Serialize.

Import DOM Forms.

(** Whether a value counts as true in a condition. *)
Definition truthy (v : JSValue) : bool :=
  match v with
  | JSUndefined => false
  | JSBoolean b => b
  | JSString s => negb (String.eqb s "")
  end.

Section Fields.

Variable type : Element -> string.
Variable defaultValue : Element -> JSValue.

(** The body of the loop of [serialize()] for one element of
    [children(element)]: what is appended to the [URLSearchParams]. *)
Definition serializeAt (element : list Element) : list (string * JSValue) :=
  match element with
  | self :: _ =>
      if negb (matchesInputTextarea self) || closestDisabled element then []
      else
        match getAttribute self "name" with
        | None => []
        | Some name =>
            if negb (checkable type self) ||
               (checkable type self && truthy (checkedOf self))
            then [(name, fieldValue type defaultValue self)]
            else []
        end
  | [] => []
  end.

(** [serialize(element)]: the pairs of the [URLSearchParams], in order. *)
Definition serialize (ancestors : list Element) (element : Node)
    : list (string * JSValue) :=
  flat_map serializeAt (children ancestors element).

End Fields.

(** A form with a field that is submitted and a disabled group with an
    edited field. *)
Definition formWithDisabledGroup : Node :=
  ElementNode (element 0 "FORM" [])
    [ElementNode
       (mkElement 1 "INPUT" [("name", "title")]
                  (JSString "Hello") (JSBoolean false) Unset None) [];
     ElementNode (element 2 "FIELDSET" [("disabled", "")])
       [ElementNode
          (mkElement 3 "INPUT" [("name", "draft"); ("value", "before")]
                     (JSString "after") (JSBoolean false) Unset None) []]].

End Serialize.

(* ================================================================== *)
(** * The live session: the unit of work of [liveConnection()] *)
(* ================================================================== *)

Module LiveConnection.

Import DOM.

(** How [await fetch(window.location.href, ...)] settles. *)
Inductive FetchResult :=
| Response (status : nat)
| FetchRejects.

(** How one [await responseBodyReader.read()] settles: with a record that
    [JSONLinesTransformStream] decoded, with [value] undefined when the
    stream has closed, or by rejecting (the stream was aborted, or a line
    did not parse). *)
Inductive ReadResult :=
| ReadValue (responseText : string)
| ReadClosed
| ReadRejects.

(** What the unit of work calls, in order. *)
Inductive Effect :=
| RemoveFailedToConnectGlobalError
| IsModifiedFalse
| Reload
| DocumentMount (responseText : string) (liveConnectionUpdate : bool)
| ShowFailedToConnectGlobalError (reload : bool)
| Abort
| ClearTimeout.

(** How the unit of work ends: it returns, it throws (the scheduler then
    sees a rejected job), it is still waiting for the stream, or the fuel
    of a [documentMount()] has run out, and with it what the model
    tells. *)
Inductive Completion :=
| Returns
| Throws
| Awaits
| Exhausted.

(** The page: the window and [liveConnection.failedToConnectGlobalError],
    the element that the last attempt that failed to connect has
    inserted. *)
Record Page := mkPage {
  window : Window;
  failedToConnectGlobalError : option Node
}.

(** [liveConnection.failedToConnectGlobalError?.remove();
     delete liveConnection.failedToConnectGlobalError;] *)
Definition removeFailedToConnectGlobalError (page : Page) : Page :=
  match failedToConnectGlobalError page with
  | Some element => mkPage (remove (window page) element) None
  | None => page
  end.

(** [document.querySelector('[key="global-error"]')?.remove()] *)
Definition removeGlobalError (window : Window) : Window :=
  match documentQuerySelector window
          (AttributeSelector "key" "global-error") with
  | Some globalError => remove window globalError
  | None => window
  end.

(** The message of lines 212 to 214. *)
Definition failedToConnectMessage (reload : bool) : string :=
  if reload then "Reloading…"
  else "Failed to connect. Please check your internet connection and " ++
       "try reloading the page.".

(** The element that [stringToElement()] makes of the template of lines
    210 to 216. [stringToElements()] creates a [div] and the parser the
    three nodes of the markup and the text of the element: five node
    objects, of which [created] names the first and the element is the
    third. *)
Definition failedToConnect (created : nat) (reload : bool) : Node :=
  ElementNode (element (created + 2) "DIV" [("key", "global-error")])
    [TextNode (created + 3)
       (newline ++ spaces 16 ++ failedToConnectMessage reload ++
        newline ++ spaces 14)].

(** Lines 205 to 217: the [catch] block of an attempt that has not
    connected, up to [throw error]. Reading a property of [null], when
    the document has no [body], is a [TypeError], which is thrown in the
    place of [error]. *)
Definition showFailedToConnectGlobalError (reload : bool) (page : Page)
    : Page :=
  let window := removeGlobalError (window page) in
  match documentQuerySelector window (TypeSelector "BODY") with
  | None => mkPage window (failedToConnectGlobalError page)
  | Some body =>
      let element := failedToConnect (created window) reload in
      mkPage
        (mkWindow
           (option_map
              (updateNode (nodeIdentity body) (insertAfterBegin [element]))
              (document window))
           (dispatched window) (mutated window) (created window + 5))
        (Some element)
  end.

(** The [finally] block. *)
Definition finally (trace : list Effect) : list Effect :=
  trace ++ [Abort; ClearTimeout].

Section UnitOfWork.

Variable fastMyersDiff : list string -> list string -> list Hunk.
Variable documentStringToElement : string -> Node.

(** The fuel of each [documentMount()]. *)
Variable fuel : nat.

(** [documentMount(responseText, new CustomEvent("DOMContentLoaded",
      { detail: { liveConnectionUpdate: true } }))] *)
Definition mountUpdate (responseText : string) (window : Window)
    : Window * DOM.Completion :=
  documentMount fastMyersDiff documentStringToElement fuel
    (ContentString responseText)
    (Some (mkEvent "DOMContentLoaded" (Some true))) window.

(** The [while (true)] loop of lines 193 to 202 over the successive
    results of [read()]. When [documentMount()] throws, what it has done
    to the document stays. *)
Fixpoint readLoop (reads : list ReadResult) (window : Window)
    (trace : list Effect) : Window * list Effect * Completion :=
  match reads with
  | [] => (window, trace, Awaits)
  | ReadValue responseText :: reads' =>
      let trace' := trace ++ [DocumentMount responseText true] in
      match mountUpdate responseText window with
      | (window', Completed) => readLoop reads' window' trace'
      | (window', Thrown _) => (window', trace', Throws)
      | (window', OutOfFuel) => (window', trace', Exhausted)
      end
  | ReadClosed :: _ => (window, trace, Returns)
  | ReadRejects :: _ => (window, trace, Throws)
  end.

(** One connection attempt: the [async () => { ... }] handed to
    [utilities.backgroundJob()]. [reload] is the option of
    [liveConnection()], [reloadOnConnect] the variable of its closure; the
    result carries the new value of [reloadOnConnect]. *)
Definition attempt (reload reloadOnConnect : bool) (response : FetchResult)
    (reads : list ReadResult) (page : Page)
    : Page * list Effect * Completion * bool :=
  match response with
  | Response 200 =>
      let trace :=
        match failedToConnectGlobalError page with
        | Some _ => [RemoveFailedToConnectGlobalError]
        | None => []
        end in
      let page := removeFailedToConnectGlobalError page in
      if reloadOnConnect then
        match documentQuerySelector (window page) (TypeSelector "HTML") with
        | Some html =>
            (mkPage
               (withDocument (window page)
                  (option_map
                     (updateNode (nodeIdentity html) (setIsModified false))
                     (document (window page))))
               None,
             finally (trace ++ [IsModifiedFalse; Reload]), Returns, reload)
        | None =>
            (* a [TypeError], and [catch]: [if (connected) return;] *)
            (page, finally trace, Returns, reload)
        end
      else
        match readLoop reads (window page) trace with
        | (window', trace', Returns) =>
            (mkPage window' None, finally trace', Returns, reload)
        | (window', trace', Throws) =>
            (* [catch]: [if (connected) return;] *)
            (mkPage window' None, finally trace', Returns, reload)
        | (window', trace', completion) =>
            (mkPage window' None, trace', completion, reloadOnConnect)
        end
  | _ =>
      (showFailedToConnectGlobalError reload page,
       finally [ShowFailedToConnectGlobalError reload], Throws, reload)
  end.

(** [documentMount()] on the records one after the other, for as long
    as the calls complete: the window that the last call leaves, the
    records that were handed over, and how the last call ended. *)
Fixpoint mountAll (records : list string) (window : Window)
    : Window * list string * DOM.Completion :=
  match records with
  | [] => (window, [], Completed)
  | responseText :: records' =>
      match mountUpdate responseText window with
      | (window', Completed) =>
          let '(window'', handed, completion) := mountAll records' window' in
          (window'', responseText :: handed, completion)
      | (window', completion) => (window', [responseText], completion)
      end
  end.

End UnitOfWork.


(** The calls of [documentMount()] in a trace, in order. *)
Definition documentMounts (trace : list Effect) : list (string * bool) :=
  flat_map (fun e => match e with
                     | DocumentMount responseText liveConnectionUpdate =>
                         [(responseText, liveConnectionUpdate)]
                     | _ => []
                     end) trace.

Definition isReload (effect : Effect) : bool :=
  match effect with
  | Reload => true
  | _ => false
  end.

(** A page that shows a text, and the page as the server sends it with
    another text. *)
Definition livePage : Page :=
  mkPage
    (mkWindow
       (Some (ElementNode (element 0 "HTML" [])
                [ElementNode (element 1 "BODY" []) [TextNode 2 "zero"]]))
       [] [] 3)
    None.

Definition served (responseText : string) : Node :=
  ElementNode (element 10 "HTML" [])
    [ElementNode (element 11 "BODY" [])
       [TextNode (12 + String.length responseText) responseText]].

(** A page whose [body] a script has removed, and an update of another
    version. *)
Definition bodilessPage : Page :=
  mkPage
    (mkWindow
       (Some (ElementNode (element 0 "HTML" [])
                [ElementNode (element 1 "HEAD" [])
                   [ElementNode
                      (element 2 "META"
                               [("name", "version"); ("content", "1")])
                      []]]))
       [] [] 3)
    None.


(** A server that sends the head of the page at version 1, but for the
    record ["broken"], which is of version 2. *)
Definition versions (responseText : string) : Node :=
  if String.eqb responseText "broken" then page "2" []
  else
    ElementNode (element 10 "HTML" [])
      [ElementNode (element 11 "HEAD" [])
         [ElementNode
            (element 12 "META" [("name", "version"); ("content", "1")])
            []]].

End LiveConnection.

(* ================================================================== *)
(** * The live session: the attempts one after the other *)
(* ================================================================== *)

Module LiveConnectionStream.

Import DOM LiveConnection.

(** The records that the reader hands over before the stream closes or a
    read rejects. *)
Fixpoint received (reads : list ReadResult) : list string :=
  match reads with
  | ReadValue responseText :: reads' => responseText :: received reads'
  | _ => []
  end.

Section Session.

Variable fastMyersDiff : list string -> list string -> list Hunk.
Variable documentStringToElement : string -> Node.
Variable fuel : nat.

(** The successive calls of the unit of work of one [liveConnection()],
    which share the variable [reloadOnConnect] of its closure. Each
    attempt comes with the way its [fetch()] settles and what its reader
    delivers. [utilities.backgroundJob()] calls the unit of work again
    only once it has returned: it has nothing to catch what [await job()]
    throws, so an attempt that throws is the last one, as is one that
    still waits for the stream and one that reloads the page. The result
    is the page and the trace of every attempt. *)
Fixpoint session (reload reloadOnConnect : bool)
    (attempts : list (FetchResult * list ReadResult)) (page : Page)
    : Page * list Effect :=
  match attempts with
  | [] => (page, [])
  | (response, reads) :: attempts' =>
      match attempt fastMyersDiff documentStringToElement fuel reload
                    reloadOnConnect response reads page with
      | (page', trace, Returns, reloadOnConnect') =>
          if existsb isReload trace then (page', trace)
          else
            let (page'', trace') :=
              session reload reloadOnConnect' attempts' page' in
            (page'', trace ++ trace')
      | (page', trace, _, _) => (page', trace)
      end
  end.

(** [liveConnection(requestId, { reload })]: the closure starts with
    [reloadOnConnect = false]. *)
Definition liveConnection (reload : bool)
    (attempts : list (FetchResult * list ReadResult)) (page : Page)
    : Page * list Effect :=
  session reload false attempts page.

End Session.

End LiveConnectionStream.

(* ================================================================== *)
(** * Properties of the scheduler *)
(* ================================================================== *)

Module BackgroundJobProperties.

Import BackgroundJob.

Lemma steps_app (j : Job) (es1 es2 : list Event) :
  steps j (es1 ++ es2) =
  match steps j es1 with
  | Some j' => steps j' es2
  | None => None
  end.
Proof.
  revert j. induction es1 as [|e es1 IH]; intros j; simpl.
  - reflexivity.
  - destruct (step j e); [apply IH | reflexivity].
Qed.

Lemma step_keeps_timer_invariant (j j' : Job) (e : Event) :
  timer_only_when_sleeping j -> step j e = Some j' ->
  timer_only_when_sleeping j'.
Proof.
  unfold timer_only_when_sleeping.
  destruct j as [st tm fl inv]; destruct e; simpl; intros Hinv Hstep.
  - injection Hstep as <-. unfold handle_run; simpl.
    destruct st; simpl; intros H;
      try (specialize (Hinv H); discriminate); congruence.
  - injection Hstep as <-. unfold handle_stop; simpl.
    destruct st; simpl; intros H; try congruence;
      specialize (Hinv H); discriminate.
  - destruct fl; [discriminate|]. injection Hstep as <-.
    unfold run_resume; simpl.
    destruct st; simpl; intros H; try reflexivity;
      specialize (Hinv H); discriminate.
  - destruct fl; [discriminate|]. injection Hstep as <-. simpl. exact Hinv.
  - destruct tm; [|discriminate]. injection Hstep as <-. simpl. congruence.
Qed.

Lemma reachable_timer_invariant (j : Job) :
  reachable j -> timer_only_when_sleeping j.
Proof.
  intros [es Hes]. revert j Hes.
  induction es as [|e es IH] using rev_ind; intros j Hes.
  - injection Hes as <-. intros H. simpl in H. congruence.
  - rewrite steps_app in Hes.
    destruct (steps backgroundJob es) as [j0|] eqn:E; [|discriminate].
    simpl in Hes. destruct (step j0 e) as [j1|] eqn:E1; [|discriminate].
    injection Hes as <-.
    eapply step_keeps_timer_invariant; [apply IH; reflexivity | exact E1].
Qed.

(** Once stopped with no timer armed, a job stays so and [job()] is not
    called again. *)
Lemma stopped_step (j j' : Job) (e : Event) :
  state j = stopped -> timeout j = None -> step j e = Some j' ->
  state j' = stopped /\ timeout j' = None /\ invocations j' = invocations j.
Proof.
  destruct j as [st tm fl inv]; simpl; intros -> ->.
  destruct e; simpl; intros H.
  - injection H as <-. auto.
  - injection H as <-. auto.
  - destruct fl; [discriminate|]. injection H as <-. auto.
  - destruct fl; [discriminate|]. injection H as <-. auto.
  - discriminate.
Qed.

Lemma stopped_steps (es : list Event) (j j' : Job) :
  state j = stopped -> timeout j = None -> steps j es = Some j' ->
  state j' = stopped /\ timeout j' = None /\ invocations j' = invocations j.
Proof.
  revert j. induction es as [|e es IH]; intros j Hs Ht H; simpl in H.
  - injection H as <-. auto.
  - destruct (step j e) as [j1|] eqn:E; [|discriminate].
    destruct (stopped_step _ _ _ Hs Ht E) as (Hs1 & Ht1 & Hi1).
    destruct (IH _ Hs1 Ht1 H) as (? & ? & ?). repeat split; congruence.
Qed.

Lemma marked_absorbs_run_calls (n : nat) (j : Job) :
  state j = runningAndMarkedForRerun -> steps j (run_calls n) = Some j.
Proof.
  intros Hs. induction n as [|n IH]; simpl.
  - reflexivity.
  - unfold handle_run. rewrite Hs. exact IH.
Qed.

(** C6. While the unit of work executes, any number [n >= 1] of calls of
    [run()] leaves exactly one rerun pending: no call of [job()] is made
    until the execution in flight resolves, the timer is then armed with
    delay zero, its firing makes the one extra call, and when that extra
    execution resolves the timer is armed with the ordinary interval again.
    A call of [run()] on a sleeping job clears the timer and calls [job()]
    at once. *)
Theorem run_coalesces_into_one_rerun (j : Job) (n : nat) :
  (state j = running -> timeout j = None -> inFlight j = 1 ->
   exists j1 j2 j3 j4,
     steps j (run_calls (S n)) = Some j1 /\
     state j1 = runningAndMarkedForRerun /\
     invocations j1 = invocations j /\
     step j1 JobResolves = Some j2 /\
     state j2 = sleeping /\ timeout j2 = Some Zero /\
     invocations j2 = invocations j /\
     step j2 TimerFires = Some j3 /\
     state j3 = running /\ timeout j3 = None /\ inFlight j3 = 1 /\
     invocations j3 = S (invocations j) /\
     step j3 JobResolves = Some j4 /\
     state j4 = sleeping /\ timeout j4 = Some Interval /\
     invocations j4 = S (invocations j)) /\
  (state j = sleeping ->
   exists j1,
     step j CallRun = Some j1 /\
     state j1 = running /\ timeout j1 = None /\
     invocations j1 = S (invocations j)).
Proof.
  split.
  - destruct j as [st tm fl inv]; simpl; intros -> -> ->.
    eexists _, _, _, _.
    split.
    { unfold handle_run; simpl.
      apply (marked_absorbs_run_calls n). reflexivity. }
    simpl. repeat split; reflexivity.
  - destruct j as [st tm fl inv]; simpl; intros ->.
    eexists. split; [reflexivity|]. simpl. auto.
Qed.

Lemma run_coalesces_into_one_rerun_witness :
  state backgroundJob = running /\ timeout backgroundJob = None /\
  inFlight backgroundJob = 1 /\
  exists j1 j2 j3,
    steps backgroundJob (run_calls 3) = Some j1 /\
    step j1 JobResolves = Some j2 /\
    step j2 TimerFires = Some j3 /\
    invocations j3 = 2.
Proof.
  repeat split.
  destruct (run_coalesces_into_one_rerun backgroundJob 2) as [H _].
  destruct (H eq_refl eq_refl eq_refl)
    as (j1 & j2 & j3 & j4 & H1 & _ & _ & H2 & _ & _ & _ & H3 & _ & _ & _ &
        Hi & _).
  exists j1, j2, j3. repeat split; assumption.
Defined.

(** C7. After [stop()], whatever happens next (calls of [run()] or
    [stop()], the execution in flight settling), [job()] is never called
    again: the call count stays what it was when [stop()] was called. The
    timer a sleeping job had armed is cleared by [stop()], and an execution
    in flight at that moment resolves without arming a new one. *)
Theorem stopped_job_never_runs_again (j : Job) (es : list Event) (j' : Job) :
  reachable j ->
  steps (handle_stop j) es = Some j' ->
  timeout (handle_stop j) = None /\
  state j' = stopped /\ timeout j' = None /\
  invocations j' = invocations j /\
  step j' TimerFires = None /\
  step j' CallRun = Some j'.
Proof.
  intros Hr Hsteps.
  pose proof (reachable_timer_invariant j Hr) as Hinv.
  assert (Ht : timeout (handle_stop j) = None).
  { unfold handle_stop, timer_only_when_sleeping in *.
    destruct j as [st tm fl inv]; simpl in *.
    destruct st; simpl; try reflexivity;
      destruct tm; try reflexivity;
      (assert (Some d <> None) as H by congruence);
      specialize (Hinv H); discriminate. }
  assert (Hs : state (handle_stop j) = stopped) by reflexivity.
  destruct (stopped_steps es _ _ Hs Ht Hsteps) as (Hs' & Ht' & Hi').
  repeat split; try assumption.
  - rewrite Hi'. unfold handle_stop. destruct (state j); reflexivity.
  - simpl. rewrite Ht'. reflexivity.
  - simpl. unfold handle_run. rewrite Hs'. reflexivity.
Qed.

Lemma stopped_job_never_runs_again_witness :
  exists j j',
    reachable j /\ state j = running /\ inFlight j = 1 /\
    steps (handle_stop j) [CallRun; JobResolves; CallRun; CallRun] = Some j' /\
    state j' = stopped /\ invocations j' = invocations j.
Proof.
  exists backgroundJob.
  eexists.
  assert (Hr : reachable backgroundJob) by (exists []; reflexivity).
  split; [exact Hr|].
  split; [reflexivity|]. split; [reflexivity|].
  split; [vm_compute; reflexivity|].
  destruct (stopped_job_never_runs_again backgroundJob
              [CallRun; JobResolves; CallRun; CallRun] _ Hr eq_refl)
    as (_ & Hs & _ & Hi & _).
  split; assumption.
Defined.

End BackgroundJobProperties.

(* ================================================================== *)
(** * Properties of the navigation controller *)
(* ================================================================== *)

Module LiveNavigateProperties.

Import LiveNavigate.

(** C1, as stated, fails: a click while the fetch of [/a] is in flight
    aborts nothing, fetches nothing and leaves the state as it was. *)
Lemma second_click_is_dropped :
  abortController in_flight_example = Some 0 /\
  let r := liveNavigate (mkRequest "/b" "GET") EventUndefined false true
             in_flight_example in
  snd r = false /\
  fst r = in_flight_example /\
  ~ In (Abort 0) (effects (fst r)) /\
  forall signal, ~ In (Fetch (mkRequest "/b" "GET") signal) (effects (fst r)).
Proof.
  split; [reflexivity|]. simpl. repeat split.
  - intros [H|[H|[H|[H|[]]]]]; discriminate.
  - intros signal [H|[H|[H|[H|[]]]]]; discriminate.
Qed.

(** C1, amended. While a fetch is in flight, a click or a submit returns
    at once: no prompt, no abort, no fetch, the state untouched. A
    back/forward navigation aborts the fetch in flight first and then
    issues its own with a new controller, which replaces the old one in
    the single slot [liveNavigate.abortController]. *)
Theorem in_flight_click_returns_popstate_supersedes
    (s : Navigation) (controller : nat) (request : Request)
    (modified confirmed : bool) :
  abortController s = Some controller ->
  liveNavigate request EventUndefined modified confirmed s = (s, false) /\
  exists s',
    liveNavigate request PopStateEvent modified confirmed s = (s', true) /\
    abortController s' = Some (controllers s) /\
    effects s' = effects s ++ [Abort controller; InsertProgressBar;
                               StopLiveConnection;
                               NewAbortController (controllers s);
                               Fetch request (controllers s)].
Proof.
  intros H. unfold liveNavigate. rewrite H. split; [reflexivity|].
  eexists. split; [reflexivity|]. simpl.
  split; [reflexivity|]. rewrite <- app_assoc. reflexivity.
Qed.

Lemma in_flight_click_returns_popstate_supersedes_witness :
  abortController in_flight_example = Some 0 /\
  liveNavigate (mkRequest "/b" "GET") EventUndefined true true
    in_flight_example = (in_flight_example, false).
Proof.
  split; [reflexivity|].
  exact (proj1 (in_flight_click_returns_popstate_supersedes
                  in_flight_example 0 (mkRequest "/b" "GET") true true
                  eq_refl)).
Defined.

End LiveNavigateProperties.

(* ================================================================== *)
(** * Properties of the reconciler and of [documentMount()] *)
(* ================================================================== *)

Module DOMProperties.

Import DOM.

(** ** Attributes and properties after [morph()] *)

Lemma lookup_assign_same (name v : string) (attrs : list (string * string)) :
  lookup name (assign name v attrs) = Some v.
Proof.
  induction attrs as [|[n w] rest IH]; simpl.
  - rewrite String.eqb_refl. reflexivity.
  - destruct (String.eqb n name) eqn:E; simpl; rewrite E; auto.
Qed.

Lemma lookup_assign_other (name name' v : string)
    (attrs : list (string * string)) :
  name' <> name ->
  lookup name' (assign name v attrs) = lookup name' attrs.
Proof.
  intros Hne. induction attrs as [|[n w] rest IH]; simpl.
  - destruct (String.eqb name name') eqn:E; [|reflexivity].
    apply String.eqb_eq in E. congruence.
  - destruct (String.eqb n name) eqn:E; simpl.
    + apply String.eqb_eq in E. subst n.
      destruct (String.eqb name name') eqn:E'; [|reflexivity].
      apply String.eqb_eq in E'. congruence.
    + rewrite IH. reflexivity.
Qed.

Lemma lookup_filter_same (name : string) (attrs : list (string * string)) :
  lookup name (filter (fun a => negb (String.eqb (fst a) name)) attrs) = None.
Proof.
  induction attrs as [|[n w] rest IH]; simpl; [reflexivity|].
  destruct (String.eqb n name) eqn:E; simpl; [exact IH|].
  rewrite E. exact IH.
Qed.

Lemma lookup_filter_other (name name' : string)
    (attrs : list (string * string)) :
  name' <> name ->
  lookup name' (filter (fun a => negb (String.eqb (fst a) name)) attrs) =
  lookup name' attrs.
Proof.
  intros Hne. induction attrs as [|[n w] rest IH]; simpl; [reflexivity|].
  destruct (String.eqb n name) eqn:E; simpl.
  - apply String.eqb_eq in E. subst n.
    destruct (String.eqb name name') eqn:E'; [|exact IH].
    apply String.eqb_eq in E'. congruence.
  - rewrite IH. reflexivity.
Qed.

Lemma lookup_not_In (name : string) (attrs : list (string * string)) :
  ~ In name (map fst attrs) -> lookup name attrs = None.
Proof.
  induction attrs as [|[n w] rest IH]; simpl; intros H; [reflexivity|].
  destruct (String.eqb n name) eqn:E.
  - apply String.eqb_eq in E. tauto.
  - apply IH. tauto.
Qed.

Lemma existsb_eqb_In (x : string) (xs : list string) :
  existsb (String.eqb x) xs = true <-> In x xs.
Proof.
  rewrite existsb_exists. split.
  - intros (y & Hy & E). apply String.eqb_eq in E. subst. exact Hy.
  - intros H. exists x. split; [exact H | apply String.eqb_refl].
Qed.

Lemma newSet_fold (xs set : list string) :
  NoDup set ->
  let set' := fold_left (fun set x => if existsb (String.eqb x) set then set
                                      else set ++ [x]) xs set in
  NoDup set' /\ forall x, In x set' <-> In x set \/ In x xs.
Proof.
  revert set. induction xs as [|y xs IH]; intros set Hnd; simpl.
  - split; [exact Hnd | intros x; tauto].
  - destruct (existsb (String.eqb y) set) eqn:E.
    + destruct (IH set Hnd) as [H1 H2]. split; [exact H1|].
      intros x. rewrite H2. apply existsb_eqb_In in E.
      split; [tauto | intros [H|[->|H]]; auto].
    + assert (Hy : ~ In y set).
      { intros H. apply existsb_eqb_In in H. congruence. }
      assert (Hnd' : NoDup (set ++ [y])).
      { apply NoDup_app; [exact Hnd | repeat constructor; simpl; tauto |].
        intros a Ha [<-|[]]. tauto. }
      destruct (IH _ Hnd') as [H1 H2]. split; [exact H1|].
      intros x. rewrite H2, in_app_iff. simpl. tauto.
Qed.

Lemma newSet_NoDup (xs : list string) : NoDup (newSet xs).
Proof. apply (newSet_fold xs []). constructor. Qed.

Lemma newSet_In (xs : list string) (x : string) :
  In x (newSet xs) <-> In x xs.
Proof.
  destruct (newSet_fold xs [] (NoDup_nil _)) as [_ H].
  unfold newSet. rewrite H. simpl. tauto.
Qed.

Lemma sameObject_refl (e : Element) : sameObject e e.
Proof. repeat split. Qed.

Lemma sameObject_trans (e1 e2 e3 : Element) :
  sameObject e1 e2 -> sameObject e2 e3 -> sameObject e1 e3.
Proof. unfold sameObject. intuition congruence. Qed.

Lemma pinned_sameObject (e e' : Element) (ancestors : list Element)
    (name : string) :
  sameObject e e' ->
  pinned (e' :: ancestors) name = pinned (e :: ancestors) name.
Proof.
  intros (_ & _ & H & _). unfold pinned, has. simpl. rewrite H. reflexivity.
Qed.

Lemma morphAttribute_spec (event : option Event) (ancestors : list Element)
    (to from : Element) (log : list Mutation) (attribute : string) :
  let from' := fst (morphAttribute event ancestors to (from, log) attribute) in
  sameObject from from' /\
  value from' = value from /\ checked from' = checked from /\
  (forall a, a <> attribute -> getAttribute from' a = getAttribute from a) /\
  getAttribute from' attribute =
    if skipsAttribute event (from :: ancestors) attribute
    then getAttribute from attribute
    else getAttribute to attribute.
Proof.
  unfold morphAttribute, skipsAttribute.
  destruct (isLiveConnectionUpdate event && protectedAttribute attribute &&
            negb (pinned (from :: ancestors) attribute)); simpl.
  - repeat split; reflexivity.
  - destruct (getAttribute to attribute) as [v|] eqn:Eto.
    + destruct (getAttribute from attribute) as [w|] eqn:Efrom.
      * destruct (String.eqb w v) eqn:E; simpl.
        -- apply String.eqb_eq in E. subst w.
           repeat split; auto.
        -- repeat split; try reflexivity.
           ++ intros a Ha. apply lookup_assign_other. exact Ha.
           ++ apply lookup_assign_same.
      * simpl. repeat split; try reflexivity.
        -- intros a Ha. apply lookup_assign_other. exact Ha.
        -- apply lookup_assign_same.
    + simpl. repeat split; try reflexivity.
      * intros a Ha. apply lookup_filter_other. exact Ha.
      * apply lookup_filter_same.
Qed.

Lemma morphAttributes_fold (event : option Event) (ancestors : list Element)
    (to : Element) (names : list string) (from : Element)
    (log : list Mutation) (a : string) :
  NoDup names ->
  let from' :=
    fst (fold_left (morphAttribute event ancestors to) names (from, log)) in
  sameObject from from' /\
  value from' = value from /\ checked from' = checked from /\
  getAttribute from' a =
    if existsb (String.eqb a) names
    then if skipsAttribute event (from :: ancestors) a
         then getAttribute from a else getAttribute to a
    else getAttribute from a.
Proof.
  revert from log.
  induction names as [|n names IH]; intros from log Hnd;
    cbn [fold_left existsb].
  - repeat split; reflexivity.
  - inversion Hnd as [|? ? Hn Hnd']; subst.
    destruct (morphAttribute event ancestors to (from, log) n)
      as [from1 log1] eqn:E1.
    pose proof (morphAttribute_spec event ancestors to from log n) as H1.
    rewrite E1 in H1. simpl in H1.
    destruct H1 as (Hsame1 & Hv1 & Hc1 & Hother1 & Hthis1).
    destruct (IH from1 log1 Hnd') as (Hsame & Hv & Hc & Ha).
    split; [eapply sameObject_trans; eassumption|].
    split; [congruence|]. split; [congruence|].
    rewrite Ha.
    destruct (String.eqb a n) eqn:Ean; simpl.
    + apply String.eqb_eq in Ean. subst n.
      destruct (existsb (String.eqb a) names) eqn:Ein.
      * apply existsb_eqb_In in Ein. contradiction.
      * exact Hthis1.
    + assert (Hne : a <> n).
      { intros ->. rewrite String.eqb_refl in Ean. discriminate. }
      unfold skipsAttribute.
      rewrite (pinned_sameObject from from1 ancestors a Hsame1).
      rewrite (Hother1 a Hne). reflexivity.
Qed.

(** After the attribute loop, an attribute the loop passes over is as it
    was and any other attribute is as on [to]. *)
Lemma morphAttributes_spec (event : option Event) (ancestors : list Element)
    (from to : Element) (a : string) :
  let from' := fst (morphAttributes event ancestors from to) in
  sameObject from from' /\
  value from' = value from /\ checked from' = checked from /\
  getAttribute from' a =
    if skipsAttribute event (from :: ancestors) a
    then getAttribute from a else getAttribute to a.
Proof.
  unfold morphAttributes.
  pose proof (morphAttributes_fold event ancestors to
                (newSet (getAttributeNames from ++ getAttributeNames to))
                from [] a (newSet_NoDup _)) as H.
  simpl in H. destruct H as (Hs & Hv & Hc & Ha).
  repeat split; try apply Hs; try assumption.
  rewrite Ha.
  destruct (existsb (String.eqb a)
              (newSet (getAttributeNames from ++ getAttributeNames to)))
    eqn:E; [reflexivity|].
  assert (Hnot : ~ In a (getAttributeNames from ++ getAttributeNames to)).
  { intros H. apply newSet_In, existsb_eqb_In in H. congruence. }
  rewrite in_app_iff in Hnot.
  unfold getAttribute.
  rewrite (lookup_not_In a (attributes from)),
          (lookup_not_In a (attributes to))
    by (unfold getAttributeNames in Hnot; tauto).
  destruct (skipsAttribute event (from :: ancestors) a); reflexivity.
Qed.

Lemma JSValue_eqb_eq (v w : JSValue) : JSValue_eqb v w = true -> v = w.
Proof.
  destruct v, w; simpl; try discriminate; intros H.
  - reflexivity.
  - apply Bool.eqb_prop in H. congruence.
  - apply String.eqb_eq in H. congruence.
Qed.

Lemma skips_alike (event : option Event) (from : list Element)
    (name : string) :
  name = "value" \/ name = "checked" ->
  skipsAttribute event from name = skipsProperty event from name.
Proof.
  intros [-> | ->]; unfold skipsAttribute, skipsProperty;
    cbn [protectedAttribute]; simpl; rewrite andb_true_r; reflexivity.
Qed.

(** The value of a control that has been written, and of any [input],
    does not depend on the children. *)
Lemma valueOf_children (element : Element)
    (childNodes childNodes' : list Node) :
  value element <> JSUndefined \/ tagName element <> "TEXTAREA" ->
  valueOf element childNodes' = valueOf element childNodes.
Proof.
  intros H. unfold valueOf.
  destruct (matchesInputTextarea element); [|reflexivity].
  destruct (value element); try reflexivity.
  destruct (String.eqb (tagName element) "TEXTAREA") eqn:E; [|reflexivity].
  apply String.eqb_eq in E. destruct H as [H|H]; congruence.
Qed.

(** What the getters look at. *)
Lemma getProperty_alike (element element' : Element) (childNodes : list Node)
    (property : string) :
  tagName element' = tagName element ->
  written element' property = written element property ->
  getAttribute element' property = getAttribute element property ->
  getProperty element' childNodes property =
  getProperty element childNodes property.
Proof.
  intros Ht Hw Ha. unfold getProperty, written in *.
  destruct (String.eqb property "value") eqn:Ev.
  - apply String.eqb_eq in Ev. subst property.
    unfold valueOf, matchesInputTextarea. rewrite Ht, Hw, Ha. reflexivity.
  - destruct (String.eqb property "checked") eqn:Ec; [|reflexivity].
    apply String.eqb_eq in Ec. subst property.
    unfold checkedOf. rewrite Ht, Hw, Ha. reflexivity.
Qed.

(** After an assignment from an element of the same kind, the property
    reads as on that element. *)
Lemma getProperty_setProperty (from to : Element)
    (childNodes toChildNodes : list Node) (property : string) :
  property = "value" \/ property = "checked" ->
  matchesInputTextarea from = true ->
  tagName to = tagName from ->
  getProperty (setProperty from property
                 (getProperty to toChildNodes property))
              childNodes property =
  getProperty to toChildNodes property.
Proof.
  intros [-> | ->] Hm Ht.
  - unfold getProperty, setProperty. cbn [String.eqb Ascii.eqb Bool.eqb].
    unfold valueOf at 1. unfold matchesInputTextarea at 1. cbn [tagName].
    fold (matchesInputTextarea from). rewrite Hm. cbn [value].
    unfold valueOf, matchesInputTextarea. rewrite Ht.
    fold (matchesInputTextarea from). rewrite Hm. reflexivity.
  - unfold getProperty, setProperty. simpl.
    unfold checkedOf. cbn [tagName checked]. rewrite Ht.
    destruct (String.eqb (tagName from) "INPUT"); reflexivity.
Qed.

Lemma written_setProperty (element : Element) (property p : string)
    (v : JSValue) :
  p <> property -> property = "value" \/ property = "checked" ->
  written (setProperty element property v) p = written element p.
Proof.
  intros Hne [-> | ->]; unfold setProperty, written; simpl;
    destruct (String.eqb p "value") eqn:E1;
    destruct (String.eqb p "checked") eqn:E2;
    try reflexivity;
    try (apply String.eqb_eq in E1; congruence);
    try (apply String.eqb_eq in E2; congruence).
Qed.

(** An assignment to a control leaves it written. *)
Lemma setProperty_written (element : Element) (v : JSValue) :
  matchesInputTextarea element = true ->
  value (setProperty element "value" v) <> JSUndefined.
Proof. intros Hm. unfold setProperty. simpl. rewrite Hm. discriminate. Qed.

Lemma morphProperty_spec (event : option Event) (ancestors : list Element)
    (to from : Element) (fromChildNodes toChildNodes : list Node)
    (log : list Mutation) (property : string) :
  property = "value" \/ property = "checked" ->
  let from' :=
    fst (morphProperty event ancestors to fromChildNodes toChildNodes
                       (from, log) property) in
  sameObject from from' /\ attributes from' = attributes from /\
  (forall p, p <> property -> written from' p = written from p) /\
  (if skipsProperty event (from :: ancestors) property
   then from' = from
   else
     (matchesInputTextarea from = true -> tagName to = tagName from ->
      getProperty from' fromChildNodes property =
      getProperty to toChildNodes property) /\
     ((from' = from /\
       getProperty from fromChildNodes property =
       getProperty to toChildNodes property) \/
      from' = setProperty from property
                (getProperty to toChildNodes property))).
Proof.
  intros Hp. unfold morphProperty, skipsProperty.
  destruct (isLiveConnectionUpdate event &&
            negb (pinned (from :: ancestors) property)); cbn [fst].
  - repeat split; reflexivity.
  - destruct (JSValue_eqb (getProperty from fromChildNodes property)
                          (getProperty to toChildNodes property)) eqn:E;
      cbn [fst].
    + apply JSValue_eqb_eq in E. repeat split; auto.
    + split; [|split; [|split; [|split; [|right; reflexivity]]]].
      * destruct Hp as [-> | ->]; unfold setProperty; simpl;
          repeat split; reflexivity.
      * destruct Hp as [-> | ->]; reflexivity.
      * intros p Hne. apply written_setProperty; assumption.
      * intros Hm Ht. apply getProperty_setProperty; assumption.
Qed.

(** After lines 318 to 350, [from] is the same object with the same
    flags. An attribute that the loop passes over is as it was, and any
    other attribute is as on [to]. A property that the loop passes over
    has not been written and reads as it did; any other property, when
    [to] is an element of the same kind, reads as on [to], and has been
    written if it did not. *)
Lemma morphElement_spec (event : option Event) (ancestors : list Element)
    (from to : Element) (fromChildNodes toChildNodes : list Node) :
  let from' :=
    fst (morphElement event ancestors from to fromChildNodes toChildNodes) in
  sameObject from from' /\
  (forall a, getAttribute from' a =
             if skipsAttribute event (from :: ancestors) a
             then getAttribute from a else getAttribute to a) /\
  (forall property, property = "value" \/ property = "checked" ->
     if matchesInputTextarea from &&
        negb (skipsProperty event (from :: ancestors) property)
     then
       (tagName to = tagName from ->
        getProperty from' fromChildNodes property =
        getProperty to toChildNodes property) /\
       ((written from' property = written from property /\
         getProperty from' fromChildNodes property =
         getProperty to toChildNodes property) \/
        written from' property =
        written (setProperty from property
                   (getProperty to toChildNodes property)) property)
     else
       written from' property = written from property /\
       forall childNodes,
         getProperty from' childNodes property =
         getProperty from childNodes property).
Proof.
  unfold morphElement, morphProperties.
  destruct (morphAttributes event ancestors from to) as [from1 log1] eqn:E1.
  assert (H1 : forall a,
             sameObject from from1 /\
             value from1 = value from /\ checked from1 = checked from /\
             getAttribute from1 a =
               if skipsAttribute event (from :: ancestors) a
               then getAttribute from a else getAttribute to a).
  { intros a. pose proof (morphAttributes_spec event ancestors from to a) as H.
    rewrite E1 in H. exact H. }
  destruct (H1 "") as (Hs1 & Hv1 & Hc1 & _).
  assert (Hw1 : forall p, written from1 p = written from p).
  { intros p. unfold written. rewrite Hv1, Hc1. reflexivity. }
  assert (Hm : matchesInputTextarea from1 = matchesInputTextarea from).
  { unfold matchesInputTextarea. destruct Hs1 as (_ & -> & _). reflexivity. }
  assert (Ht1 : tagName from1 = tagName from) by apply Hs1.
  cbn [fst]. rewrite Hm.
  destruct (matchesInputTextarea from) eqn:Em; cbn [fold_left fst andb].
  - destruct (morphProperty event ancestors to fromChildNodes toChildNodes
                            (from1, log1) "value")
      as [from2 log2] eqn:E2.
    pose proof (morphProperty_spec event ancestors to from1 fromChildNodes
                  toChildNodes log1 "value" (or_introl eq_refl)) as H2.
    rewrite E2 in H2. cbn [fst] in H2.
    destruct H2 as (Hs2 & Ha2 & Ho2 & Ht2).
    pose proof (morphProperty_spec event ancestors to from2 fromChildNodes
                  toChildNodes log2 "checked" (or_intror eq_refl)) as H3.
    destruct (morphProperty event ancestors to fromChildNodes toChildNodes
                            (from2, log2) "checked")
      as [from3 log3] eqn:E3.
    cbn [fst] in H3. destruct H3 as (Hs3 & Ha3 & Ho3 & Ht3).
    assert (Hs12 : sameObject from from2)
      by (eapply sameObject_trans; eassumption).
    assert (Hs13 : sameObject from from3)
      by (eapply sameObject_trans; eassumption).
    assert (Hm2 : matchesInputTextarea from2 = true).
    { unfold matchesInputTextarea in *. destruct Hs12 as (_ & -> & _).
      exact Em. }
    split; [exact Hs13|]. split.
    + intros a. destruct (H1 a) as (_ & _ & _ & <-).
      unfold getAttribute. cbn [fst]. congruence.
    + cbn [fst]. intros property [-> | ->].
      * (* value *)
        unfold skipsProperty in *.
        rewrite (pinned_sameObject from from1 ancestors "value" Hs1) in Ht2.
        assert (H32 : forall cs, getProperty from3 cs "value" =
                                 getProperty from2 cs "value").
        { intros cs. apply getProperty_alike.
          - destruct Hs3 as (_ & -> & _). reflexivity.
          - apply Ho3. discriminate.
          - unfold getAttribute. rewrite Ha3. reflexivity. }
        destruct (isLiveConnectionUpdate event &&
                  negb (pinned (from :: ancestors) "value")) eqn:Es;
          cbn [negb].
        -- subst from2. rewrite (Ho3 "value") by discriminate.
           split; [apply Hw1|]. intros cs. rewrite H32.
           apply getProperty_alike; [exact Ht1 | apply Hw1|].
           destruct (H1 "value") as (_ & _ & _ & ->).
           rewrite (skips_alike _ _ _ (or_introl eq_refl)).
           unfold skipsProperty. rewrite Es. reflexivity.
        -- destruct Ht2 as [Hpost Hcase]. split.
           ++ intros Ht. rewrite H32. apply Hpost; [exact Hm|congruence].
           ++ rewrite (Ho3 "value") by discriminate.
              destruct Hcase as [[-> Hread] | ->];
                [left; split; [apply Hw1 | rewrite H32; exact Hread]
                | right].
              unfold written, setProperty. simpl.
              unfold matchesInputTextarea. rewrite Ht1. reflexivity.
      * (* checked *)
        unfold skipsProperty in *.
        rewrite (pinned_sameObject from from2 ancestors "checked" Hs12)
          in Ht3.
        assert (Hw2 : written from2 "checked" = written from "checked").
        { rewrite (Ho2 "checked") by discriminate. apply Hw1. }
        destruct (isLiveConnectionUpdate event &&
                  negb (pinned (from :: ancestors) "checked")) eqn:Es;
          cbn [negb].
        -- subst from3. split; [exact Hw2|]. intros cs.
           apply getProperty_alike; [apply Hs12 | exact Hw2|].
           unfold getAttribute. rewrite Ha2.
           destruct (H1 "checked") as (_ & _ & _ & H).
           unfold getAttribute in H. rewrite H.
           rewrite (skips_alike _ _ _ (or_intror eq_refl)).
           unfold skipsProperty. rewrite Es. reflexivity.
        -- destruct Ht3 as [Hpost Hcase]. split.
           ++ intros Ht. apply Hpost; [exact Hm2|].
              destruct Hs12 as (_ & -> & _). exact Ht.
           ++ destruct Hcase as [[-> Hread] | ->];
                [left; split; [exact Hw2 | exact Hread] | right].
              unfold written, setProperty. simpl.
              destruct Hs12 as (_ & -> & _). reflexivity.
  - split; [exact Hs1|]. split.
    + intros a. apply (H1 a).
    + intros property Hp. split; [apply Hw1|]. intros cs.
      unfold getProperty.
      destruct Hp as [-> | ->]; simpl.
      * unfold valueOf. rewrite Hm, Em, Hv1. reflexivity.
      * unfold checkedOf. rewrite Ht1, Hc1.
        unfold matchesInputTextarea in Em.
        apply orb_false_iff in Em. destruct Em as [-> _]. reflexivity.
Qed.

(** ** The element itself: pinning, protection, and the early return *)

Section MorphElement.

Variable fastMyersDiff : list string -> list string -> list Hunk.

Lemma morphed_element (fuel : nat) (ancestors : list Element)
    (fromElement toElement : Element) (fromChildNodes toChildNodes : list Node)
    (event : option Event) :
  isLiveConnectionUpdate event && explicitlyFalse fromElement = false ->
  elementOf (morphed fastMyersDiff (S fuel) ancestors
               (ElementNode fromElement fromChildNodes)
               (ElementNode toElement toChildNodes) event) =
  Some (fst (morphElement event ancestors fromElement toElement
                          fromChildNodes toChildNodes)).
Proof.
  intros H. unfold morphed. cbn [morph]. rewrite H.
  destruct (morphElement event ancestors fromElement toElement
                         fromChildNodes toChildNodes)
    as [fromElement' log].
  destruct (reconcile event fromChildNodes toChildNodes _) as [plan|];
    [|reflexivity].
  destruct (applyPlan _ plan fromChildNodes log) as [[cs log'] []];
    try reflexivity.
  destruct (morphPairs _ _ cs log') as [[cs' log''] c]. reflexivity.
Qed.

(** [morph()] of an element leaves an element. *)
Lemma morphed_node (fuel : nat) (ancestors : list Element)
    (fromElement toElement : Element) (fromChildNodes toChildNodes : list Node)
    (event : option Event) :
  exists from',
    morphed fastMyersDiff (S fuel) ancestors
            (ElementNode fromElement fromChildNodes)
            (ElementNode toElement toChildNodes) event =
    ElementNode from' (childNodesOf
                         (morphed fastMyersDiff (S fuel) ancestors
                            (ElementNode fromElement fromChildNodes)
                            (ElementNode toElement toChildNodes) event)).
Proof.
  unfold morphed. cbn [morph].
  destruct (isLiveConnectionUpdate event && explicitlyFalse fromElement);
    [eexists; reflexivity|].
  destruct (morphElement event ancestors fromElement toElement
                         fromChildNodes toChildNodes)
    as [fromElement' log].
  destruct (reconcile event fromChildNodes toChildNodes _) as [plan|];
    [|eexists; reflexivity].
  destruct (applyPlan _ plan fromChildNodes log) as [[cs log'] []];
    try (eexists; reflexivity).
  destruct (morphPairs _ _ cs log') as [[cs' log''] c].
  eexists; reflexivity.
Qed.

Lemma morph_explicitlyFalse (fuel : nat) (ancestors : list Element)
    (fromElement : Element) (fromChildNodes : list Node) (to : Node)
    (event : option Event) :
  isLiveConnectionUpdate event = true ->
  explicitlyFalse fromElement = true ->
  morph fastMyersDiff (S fuel) ancestors
        (ElementNode fromElement fromChildNodes) to event =
  (ElementNode fromElement fromChildNodes, [], Completed).
Proof. intros H1 H2. cbn [morph]. rewrite H1, H2. reflexivity. Qed.


Lemma parents_chain (element : list Element) : parents element = element.
Proof. induction element as [|e es IH]; simpl; congruence. Qed.

Lemma notPinned_pinned (from : list Element) (name : string) :
  notPinned from name -> pinned from name = false.
Proof.
  unfold notPinned, pinned. intros H.
  destruct (existsb (fun element => has element name) (parents from)) eqn:E;
    [|reflexivity].
  apply existsb_exists in E. destruct E as (element & Hin & Hhas).
  unfold has in Hhas.
  destruct (liveConnectionUpdate element) as [| |names] eqn:El;
    try discriminate.
  apply existsb_eqb_In in Hhas. exfalso. exact (H element names Hin El Hhas).
Qed.

Lemma self_pinned (self : Element) (ancestors : list Element)
    (names : list string) (name : string) :
  liveConnectionUpdate self = Names names -> In name names ->
  pinned (self :: ancestors) name = true.
Proof.
  intros Hl Hin. unfold pinned. cbn [parents existsb]. unfold has at 1.
  rewrite Hl. apply existsb_eqb_In in Hin. rewrite Hin. reflexivity.
Qed.

(** What a property of [from'] with the children [childNodes'] reads
    as, compared with a reading [v]: the same, or else [from'] is a
    [textarea] that nobody has written, whose [value] is the text of its
    children. *)
Lemma unedited_or_not (from' : Element) (childNodes childNodes' : list Node)
    (property : string) :
  getProperty from' childNodes' property =
    getProperty from' childNodes property \/
  unedited from' childNodes' property.
Proof.
  unfold getProperty, unedited.
  destruct (String.eqb property "value") eqn:Ev; [|left; reflexivity].
  apply String.eqb_eq in Ev. subst property.
  destruct (value from') eqn:Evalue;
    try (left; apply valueOf_children; left; congruence).
  destruct (String.eqb (tagName from') "TEXTAREA") eqn:Et.
  - apply String.eqb_eq in Et. right. unfold valueOf, matchesInputTextarea.
    rewrite Evalue, Et. simpl. auto.
  - left. apply valueOf_children. right. intros H.
    rewrite H in Et. discriminate.
Qed.

(** When the loop of lines 341 to 350 has gone through a property, it
    reads on [from], whatever children [from] ends up with, as on [to],
    unless [from] is a [textarea] that nobody has written: it then read
    as on [to] before, which is why it still is unwritten. *)
Lemma reads_as_to (from from' to : Element)
    (fromChildNodes toChildNodes childNodes' : list Node)
    (property : string) :
  matchesInputTextarea from = true ->
  sameObject from from' ->
  getProperty from' fromChildNodes property =
    getProperty to toChildNodes property ->
  (written from' property = written from property /\
   getProperty from' fromChildNodes property =
     getProperty to toChildNodes property) \/
  written from' property =
    written (setProperty from property
               (getProperty to toChildNodes property)) property ->
  getProperty from' childNodes' property =
    getProperty to toChildNodes property \/
  (unedited from' childNodes' property /\
   getProperty from fromChildNodes property =
     getProperty to toChildNodes property).
Proof.
  intros Hm (_ & Htag & _) Hreads Hwritten.
  destruct (unedited_or_not from' fromChildNodes childNodes' property)
    as [H|H]; [left; rewrite H; exact Hreads|].
  right. split; [exact H|]. rewrite <- Hreads.
  destruct H as (-> & Htextarea & Hvalue & _).
  unfold written, setProperty in Hwritten.
  change (String.eqb "value" "value") with true in Hwritten.
  cbn [value] in Hwritten. rewrite Hm, Hvalue in Hwritten.
  destruct Hwritten as [[Hwritten _]|Hwritten]; [|discriminate].
  unfold getProperty. change (String.eqb "value" "value") with true.
  cbv iota. unfold valueOf, matchesInputTextarea.
  rewrite <- Htag, Htextarea, <- Hwritten, Hvalue. reflexivity.
Qed.


(** C10. [parents(element)] is the element followed by its ancestors, so
    an element whose own [liveConnectionUpdate] is a [Set] pins the names
    in it for itself: after a Live Connection update such an attribute is
    on the element as on [to], and the property of that name on an
    [input] or a [textarea] is assigned what it reads on [to], unless it
    reads so already, whatever the ancestors are: when [to] is an element
    of the same kind the property reads as on [to]; a [textarea] that is
    still unwritten, because its [value] was that of [to] before the
    morph, has the text of its children for its [value]. *)
Theorem element_pins_itself
    (fuel : nat) (ancestors : list Element)
    (fromElement toElement : Element) (fromChildNodes toChildNodes : list Node)
    (event : option Event) (names : list string) (name : string) :
  isLiveConnectionUpdate event = true ->
  liveConnectionUpdate fromElement = Names names ->
  In name names ->
  parents (fromElement :: ancestors) = fromElement :: ancestors /\
  exists from' childNodes',
    morphed fastMyersDiff (S fuel) ancestors
            (ElementNode fromElement fromChildNodes)
            (ElementNode toElement toChildNodes) event =
      ElementNode from' childNodes' /\
    getAttribute from' name = getAttribute toElement name /\
    (matchesInputTextarea fromElement = true ->
     name = "value" \/ name = "checked" ->
     ((written from' name = written fromElement name /\
       getProperty from' fromChildNodes name =
         getProperty toElement toChildNodes name) \/
      written from' name =
        written (setProperty fromElement name
                   (getProperty toElement toChildNodes name)) name) /\
     (tagName toElement = tagName fromElement ->
      getProperty from' childNodes' name =
        getProperty toElement toChildNodes name \/
      (unedited from' childNodes' name /\
       getProperty fromElement fromChildNodes name =
         getProperty toElement toChildNodes name))).
Proof.
  intros Hpush Hl Hin. split; [apply parents_chain|].
  assert (Hshort : isLiveConnectionUpdate event &&
                   explicitlyFalse fromElement = false).
  { unfold explicitlyFalse. rewrite Hl. apply andb_false_r. }
  destruct (morphed_node fuel ancestors fromElement toElement fromChildNodes
              toChildNodes event) as (from' & Hnode).
  exists from', (childNodesOf
                   (morphed fastMyersDiff (S fuel) ancestors
                      (ElementNode fromElement fromChildNodes)
                      (ElementNode toElement toChildNodes) event)).
  split; [exact Hnode|].
  assert (Hfrom' : from' = fst (morphElement event ancestors fromElement
                                 toElement fromChildNodes toChildNodes)).
  { pose proof (morphed_element fuel ancestors fromElement toElement
                  fromChildNodes toChildNodes event Hshort) as H.
    rewrite Hnode in H. cbn [elementOf] in H. congruence. }
  destruct (morphElement_spec event ancestors fromElement toElement
              fromChildNodes toChildNodes)
    as (Hobject & Hattr & Hprop).
  rewrite <- Hfrom' in Hobject, Hattr, Hprop.
  pose proof (self_pinned fromElement ancestors names name Hl Hin) as Hpin.
  split.
  - rewrite Hattr. unfold skipsAttribute. rewrite Hpin, andb_false_r.
    reflexivity.
  - intros Hm Hp. pose proof (Hprop _ Hp) as H.
    unfold skipsProperty in H. rewrite Hm, Hpin, andb_false_r in H.
    cbn [negb andb] in H. destruct H as [Hreads Hwritten].
    split; [exact Hwritten|]. intros Ht.
    exact (reads_as_to fromElement from' toElement fromChildNodes
             toChildNodes _ name Hm Hobject (Hreads Ht) Hwritten).
Qed.

End MorphElement.

(** ** The plan: where its nodes come from *)

Lemma fold_left_None {A B : Type} (f : option A -> B -> option A)
    (l : list B) :
  (forall b, f None b = None) -> fold_left f l None = None.
Proof.
  intros Hf. induction l as [|b l IH]; simpl; [reflexivity|].
  rewrite Hf. exact IH.
Qed.

Lemma fold_left_option_invariant {A B : Type} (f : option A -> B -> option A)
    (Inv : A -> Prop) :
  (forall b, f None b = None) ->
  (forall a b a', Inv a -> f (Some a) b = Some a' -> Inv a') ->
  forall l a a', Inv a -> fold_left f l (Some a) = Some a' -> Inv a'.
Proof.
  intros Hnone Hstep l. induction l as [|b l IH]; simpl; intros a a' Ha H.
  - injection H as <-. exact Ha.
  - destruct (f (Some a) b) as [a1|] eqn:E.
    + exact (IH a1 a' (Hstep a b a1 Ha E) H).
    + rewrite (fold_left_None f l Hnone) in H. discriminate.
Qed.

Lemma push_members (k : string) (x n : Node) (toRemove : ToRemove) :
  In n (members (push k x toRemove)) <-> In n (members toRemove) \/ n = x.
Proof.
  unfold members. induction toRemove as [|[k0 nodes] rest IH]; simpl.
  - intuition congruence.
  - destruct (String.eqb k0 k); simpl; rewrite !in_app_iff.
    + simpl. intuition congruence.
    + rewrite IH. tauto.
Qed.

Lemma shift_members (k : string) (toRemove toRemove' : ToRemove)
    (r : option Node) :
  shift k toRemove = (r, toRemove') ->
  (forall n, In n (members toRemove') -> In n (members toRemove)) /\
  (forall x, r = Some x -> In x (members toRemove)).
Proof.
  unfold members. revert toRemove' r.
  induction toRemove as [|[k0 nodes] rest IH]; simpl; intros toRemove' r H.
  - injection H as <- <-. split; [tauto | discriminate].
  - destruct (String.eqb k0 k).
    + destruct nodes as [|node nodes'].
      * injection H as <- <-. split; [tauto | discriminate].
      * injection H as <- <-. simpl. split.
        -- intros n. rewrite !in_app_iff. tauto.
        -- intros x Hx. injection Hx as <-. auto.
    + destruct (shift k rest) as [r0 rest'] eqn:E.
      injection H as <- <-. destruct (IH rest' r0 eq_refl) as [H1 H2].
      simpl. split.
      * intros n. rewrite !in_app_iff. intros [Hn|Hn]; auto.
      * intros x Hx. rewrite in_app_iff. auto.
Qed.

Section PlanProvenance.

Variable event : option Event.
Variables fromChildNodes toChildNodes : list Node.

Lemma collectNode_None (nodeIndex : nat) :
  collectNode event fromChildNodes None nodeIndex = None.
Proof. reflexivity. Qed.

Lemma collectHunk_None (hunk : Hunk) :
  collectHunk event fromChildNodes None hunk = None.
Proof.
  destruct hunk as [[[fromStart fromEnd] toStart] toEnd]. unfold collectHunk.
  apply fold_left_None. exact collectNode_None.
Qed.

Lemma collect_removable (hunks : list Hunk) (toRemove : ToRemove) :
  collect event fromChildNodes hunks = Some toRemove ->
  forall node,
    In node (members toRemove) -> removable event fromChildNodes node.
Proof.
  unfold collect.
  apply (fold_left_option_invariant (collectHunk event fromChildNodes)
           (fun toRemove =>
              forall node, In node (members toRemove) ->
                           removable event fromChildNodes node)).
  - exact collectHunk_None.
  - intros a [[[fromStart fromEnd] toStart] toEnd] a' Ha. unfold collectHunk.
    apply (fold_left_option_invariant (collectNode event fromChildNodes)
             (fun toRemove =>
                forall node, In node (members toRemove) ->
                             removable event fromChildNodes node));
      [exact collectNode_None | | exact Ha].
    clear. intros a nodeIndex a' Ha. unfold collectNode.
    destruct (nth_error fromChildNodes nodeIndex) as [node|] eqn:E;
      [|discriminate].
    destruct (isLiveConnectionUpdate event && nodeExplicitlyFalse node) eqn:Ep;
      intros H; injection H as <-; [exact Ha|].
    intros n Hn. apply push_members in Hn. destruct Hn as [Hn | ->].
    + exact (Ha n Hn).
    + split; [eapply nth_error_In; exact E | exact Ep].
  - intros node [].
Qed.

Lemma pairUnchanged_provenance (previousFromEnd previousToEnd : nat)
    (plan plan' : Plan) (nodeIndexOffset : nat) :
  provenance event fromChildNodes toChildNodes plan ->
  pairUnchanged fromChildNodes toChildNodes previousFromEnd previousToEnd
    (Some plan) nodeIndexOffset = Some plan' ->
  provenance event fromChildNodes toChildNodes plan'.
Proof.
  intros (H1 & H2 & H3). unfold pairUnchanged.
  destruct (nth_error fromChildNodes (previousFromEnd + nodeIndexOffset))
    as [from|] eqn:Ef; [|discriminate].
  destruct (nth_error toChildNodes (previousToEnd + nodeIndexOffset))
    as [to|]; [|discriminate].
  intros H. injection H as <-.
  split; [exact H1 | split; [exact H2 |]]. simpl.
  intros f t Hin. apply in_app_iff in Hin. destruct Hin as [Hin|[Hin|[]]].
  - exact (H3 f t Hin).
  - injection Hin as <- <-. eapply nth_error_In. exact Ef.
Qed.

Lemma resolve_provenance (fromEnd : nat) (plan plan' : Plan) (nodeIndex : nat) :
  provenance event fromChildNodes toChildNodes plan ->
  resolve fromChildNodes toChildNodes fromEnd (Some plan) nodeIndex =
    Some plan' ->
  provenance event fromChildNodes toChildNodes plan'.
Proof.
  intros (H1 & H2 & H3). unfold resolve.
  destruct (nth_error toChildNodes nodeIndex) as [toChildNode|] eqn:Et;
    [|discriminate].
  destruct (shift (key toChildNode) (toRemove plan)) as [r toRemove'] eqn:Es.
  destruct (shift_members _ _ _ _ Es) as [Hsub Hr].
  destruct r as [fromChildNode|]; intros H; injection H as <-;
    (split; [|split]); simpl; auto.
  - intros node nodeAfter Hin. apply in_app_iff in Hin.
    destruct Hin as [Hin|[Hin|[]]]; [eauto|].
    injection Hin as <- _. left. apply H1, Hr. reflexivity.
  - intros f t Hin. apply in_app_iff in Hin.
    destruct Hin as [Hin|[Hin|[]]]; [eauto|].
    injection Hin as <- _. apply H1, Hr. reflexivity.
  - intros node nodeAfter Hin. apply in_app_iff in Hin.
    destruct Hin as [Hin|[Hin|[]]]; [eauto|].
    injection Hin as <- _. right. eapply nth_error_In. exact Et.
Qed.

Lemma planHunk_None (hunks : Hunk * Hunk) :
  planHunk fromChildNodes toChildNodes None hunks = None.
Proof.
  destruct hunks as [[[[a b] c] d] [[[e f] g] h]]. unfold planHunk.
  rewrite (fold_left_None (pairUnchanged _ _ _ _)) by reflexivity.
  apply fold_left_None. reflexivity.
Qed.

Lemma planHunk_invariant (Inv : Plan -> Prop) :
  (forall previousFromEnd previousToEnd plan plan' nodeIndexOffset,
     Inv plan ->
     pairUnchanged fromChildNodes toChildNodes previousFromEnd previousToEnd
       (Some plan) nodeIndexOffset = Some plan' -> Inv plan') ->
  (forall fromEnd plan plan' nodeIndex,
     Inv plan ->
     resolve fromChildNodes toChildNodes fromEnd (Some plan) nodeIndex =
       Some plan' -> Inv plan') ->
  forall hunks plan plan',
    Inv plan ->
    fold_left (planHunk fromChildNodes toChildNodes) hunks (Some plan) =
      Some plan' ->
    Inv plan'.
Proof.
  intros Hpair Hresolve.
  apply (fold_left_option_invariant (planHunk fromChildNodes toChildNodes) Inv).
  - exact planHunk_None.
  - intros plan [[[[a previousFromEnd] c] previousToEnd]
                   [[[fromStart fromEnd] toStart] toEnd]] plan' Hplan.
    unfold planHunk.
    destruct (fold_left
                (pairUnchanged fromChildNodes toChildNodes previousFromEnd
                   previousToEnd)
                (seq 0 (fromStart - previousFromEnd)) (Some plan))
      as [plan1|] eqn:E1.
    + apply (fold_left_option_invariant
               (resolve fromChildNodes toChildNodes fromEnd) Inv);
        [reflexivity | intros; eapply Hresolve; eassumption |].
      revert E1.
      apply (fold_left_option_invariant
               (pairUnchanged fromChildNodes toChildNodes previousFromEnd
                  previousToEnd) Inv);
        [reflexivity | intros; eapply Hpair; eassumption | exact Hplan].
    + rewrite fold_left_None by reflexivity. discriminate.
Qed.

Lemma reconcile_provenance (hunks : list Hunk) (plan : Plan) :
  reconcile event fromChildNodes toChildNodes hunks = Some plan ->
  provenance event fromChildNodes toChildNodes plan.
Proof.
  unfold reconcile.
  destruct (collect event fromChildNodes hunks) as [toRemove0|] eqn:Ec;
    [|discriminate].
  apply (planHunk_invariant (provenance event fromChildNodes toChildNodes)).
  - intros. eapply pairUnchanged_provenance; eassumption.
  - intros. eapply resolve_provenance; eassumption.
  - split; [|split]; simpl; try tauto.
    exact (collect_removable hunks toRemove0 Ec).
Qed.

End PlanProvenance.

(** ** Children that stay *)

Lemma removeChild_keeps (childNodes childNodes' : list Node) (node : nat)
    (c : Node) :
  removeChild childNodes node = Some childNodes' ->
  In c childNodes -> nodeIdentity c <> node -> In c childNodes'.
Proof.
  revert childNodes'.
  induction childNodes as [|child rest IH]; simpl; intros childNodes' H Hin Hne.
  - contradiction.
  - destruct (nodeIdentity child =? node) eqn:E.
    + injection H as <-. destruct Hin as [->|Hin]; [|exact Hin].
      apply Nat.eqb_eq in E. contradiction.
    + destruct (removeChild rest node) as [rest'|]; [|discriminate].
      injection H as <-. destruct Hin as [->|Hin]; [left; reflexivity|].
      right. apply (IH rest' eq_refl Hin Hne).
Qed.

Lemma detach_keeps (childNodes : list Node) (node : nat) (c : Node) :
  In c childNodes -> nodeIdentity c <> node -> In c (detach childNodes node).
Proof.
  intros Hin Hne. unfold detach.
  destruct (removeChild childNodes node) as [rest|] eqn:E; [|exact Hin].
  eapply removeChild_keeps; eassumption.
Qed.

Lemma insertAt_keeps (childNodes : list Node) (node : Node) (reference : nat)
    (c : Node) :
  In c childNodes -> In c (insertAt childNodes node reference).
Proof.
  induction childNodes as [|child rest IH]; simpl; [tauto|].
  destruct (nodeIdentity child =? reference); simpl; tauto.
Qed.

Lemma insertBefore_keeps (childNodes childNodes' : list Node) (node : Node)
    (nodeAfter : option Node) (c : Node) :
  insertBefore childNodes node nodeAfter = Some childNodes' ->
  In c childNodes -> nodeIdentity c <> nodeIdentity node -> In c childNodes'.
Proof.
  intros H Hin Hne. unfold insertBefore in H.
  pose proof (detach_keeps childNodes (nodeIdentity node) c Hin Hne) as Hd.
  destruct nodeAfter as [child|].
  - destruct (existsb _ childNodes); [|discriminate].
    destruct (if nodeIdentity child =? nodeIdentity node
              then nextSibling childNodes (nodeIdentity node)
              else Some (nodeIdentity child)) as [reference|];
      injection H as <-.
    + apply insertAt_keeps. exact Hd.
    + apply in_app_iff. left. exact Hd.
  - injection H as <-. apply in_app_iff. left. exact Hd.
Qed.

Lemma removeChildren_keeps (parent : nat) (nodes childNodes : list Node)
    (log : list Mutation) (c : Node) :
  (forall n, In n nodes -> nodeIdentity n <> nodeIdentity c) ->
  In c childNodes ->
  In c (fst (fst (removeChildren parent nodes childNodes log))).
Proof.
  revert childNodes log.
  induction nodes as [|node nodes IH]; simpl; intros childNodes log Hne Hin.
  - exact Hin.
  - destruct (removeChild childNodes (nodeIdentity node)) as [childNodes'|]
      eqn:E; [|exact Hin].
    apply IH; [intros n Hn; apply Hne; auto|].
    eapply removeChild_keeps; [exact E | exact Hin |].
    intros Heq. apply (Hne node); auto.
Qed.

Lemma insertChildren_keeps (parent : nat) (toAdd : list (Node * option Node))
    (childNodes : list Node) (log : list Mutation) (c : Node) :
  (forall node nodeAfter, In (node, nodeAfter) toAdd ->
     nodeIdentity node <> nodeIdentity c) ->
  In c childNodes ->
  In c (fst (fst (insertChildren parent toAdd childNodes log))).
Proof.
  revert childNodes log.
  induction toAdd as [|[node nodeAfter] toAdd IH]; simpl;
    intros childNodes log Hne Hin.
  - exact Hin.
  - destruct (insertBefore childNodes node nodeAfter) as [childNodes'|] eqn:E;
      [|exact Hin].
    apply IH; [intros n a Hn; apply (Hne n a); auto|].
    eapply insertBefore_keeps; [exact E | exact Hin |].
    intros Heq. apply (Hne node nodeAfter); auto.
Qed.

Lemma applyPlan_keeps (parent : nat) (plan : Plan) (childNodes : list Node)
    (log : list Mutation) (c : Node) :
  (forall n, In n (members (toRemove plan)) ->
     nodeIdentity n <> nodeIdentity c) ->
  (forall node nodeAfter, In (node, nodeAfter) (toAdd plan) ->
     nodeIdentity node <> nodeIdentity c) ->
  In c childNodes ->
  In c (fst (fst (applyPlan parent plan childNodes log))).
Proof.
  intros Hr Ha Hin. unfold applyPlan.
  pose proof (removeChildren_keeps parent _ childNodes log c Hr Hin) as H.
  fold (members (toRemove plan)).
  destruct (removeChildren parent (members (toRemove plan)) childNodes log)
    as [[childNodes1 log1] completion].
  simpl in H.
  destruct completion; try exact H.
  apply insertChildren_keeps; assumption.
Qed.

Lemma replaceChild_keeps (childNodes : list Node) (node c : Node) :
  In c childNodes ->
  (nodeIdentity node = nodeIdentity c -> node = c) ->
  In c (replaceChild childNodes node).
Proof.
  intros Hin Hsame.
  induction childNodes as [|child rest IH]; simpl; [contradiction|].
  destruct (nodeIdentity child =? nodeIdentity node) eqn:E.
  - destruct Hin as [->|Hin]; [|right; exact Hin].
    apply Nat.eqb_eq in E. left. apply Hsame. congruence.
  - destruct Hin as [->|Hin]; [left; reflexivity | right; auto].
Qed.

Lemma morphPairs_keeps
    (morph : Node -> Node -> Node * list Mutation * Completion)
    (toMorph : list (Node * Node)) (childNodes : list Node)
    (log : list Mutation) (c : Node) :
  (forall from to, In (from, to) toMorph ->
     nodeIdentity (fst (fst (morph from to))) = nodeIdentity c ->
     fst (fst (morph from to)) = c) ->
  In c childNodes ->
  In c (fst (fst (morphPairs morph toMorph childNodes log))).
Proof.
  revert childNodes log.
  induction toMorph as [|[from to] toMorph IH]; simpl;
    intros childNodes log Hm Hin.
  - exact Hin.
  - destruct from as [element children|identity nodeValue].
    + specialize (Hm (ElementNode element children) to (or_introl eq_refl))
        as Hthis.
      destruct (morph (ElementNode element children) to)
        as [[from' log'] completion].
      simpl in Hthis.
      pose proof (replaceChild_keeps childNodes from' c Hin Hthis) as Hin'.
      destruct completion; try exact Hin'.
      apply IH; [intros f t Hft; apply Hm; auto | exact Hin'].
    + apply IH; [intros f t Hft; apply Hm; auto | exact Hin].
Qed.

Lemma NoDup_map_injective {A B : Type} (g : A -> B) (l : list A) (x y : A) :
  NoDup (map g l) -> In x l -> In y l -> g x = g y -> x = y.
Proof.
  induction l as [|a l IH]; simpl; intros Hnd Hx Hy Hg; [contradiction|].
  inversion Hnd as [|? ? Hnotin Hnd']; subst.
  destruct Hx as [->|Hx], Hy as [->|Hy]; auto.
  - exfalso. apply Hnotin. rewrite Hg. apply in_map. exact Hy.
  - exfalso. apply Hnotin. rewrite <- Hg. apply in_map. exact Hx.
Qed.

Section Pinned.

Variable fastMyersDiff : list string -> list string -> list Hunk.

Lemma morphed_identity (fuel : nat) (ancestors : list Element)
    (from to : Node) (event : option Event) :
  nodeIdentity (morphed fastMyersDiff fuel ancestors from to event) =
  nodeIdentity from.
Proof.
  unfold morphed.
  destruct fuel as [|fuel]; [reflexivity|].
  destruct from as [fromElement fromChildNodes|i v]; [|reflexivity].
  cbn [morph].
  destruct (isLiveConnectionUpdate event && explicitlyFalse fromElement);
    [reflexivity|].
  destruct to as [toElement toChildNodes|i v]; [|reflexivity].
  destruct (morphElement_spec event ancestors fromElement toElement
              fromChildNodes toChildNodes)
    as ((Hid & _) & _).
  destruct (morphElement event ancestors fromElement toElement
                         fromChildNodes toChildNodes)
    as [fromElement' log].
  simpl in Hid.
  destruct (reconcile event fromChildNodes toChildNodes _) as [plan|];
    [|exact Hid].
  destruct (applyPlan _ plan fromChildNodes log) as [[cs log'] []];
    try exact Hid.
  destruct (morphPairs _ _ cs log') as [[cs' log''] c]. exact Hid.
Qed.

Lemma morphed_nodeExplicitlyFalse (fuel : nat) (ancestors : list Element)
    (from to : Node) (event : option Event) :
  isLiveConnectionUpdate event = true ->
  nodeExplicitlyFalse from = true ->
  morphed fastMyersDiff fuel ancestors from to event = from.
Proof.
  intros Hpush Hfalse. unfold morphed.
  destruct fuel as [|fuel]; [reflexivity|].
  destruct from as [fromElement fromChildNodes|i v]; [|discriminate].
  simpl in Hfalse.
  rewrite (morph_explicitlyFalse _ _ _ _ _ _ _ Hpush Hfalse). reflexivity.
Qed.

(** C3. On a Live Connection update, [morph()] of an element whose
    [liveConnectionUpdate] is [false] returns at once: no mutation, the
    element and everything below it as they were, whatever [to] is. And a
    child whose [liveConnectionUpdate] is [false] is never put in
    [toRemove] and is still a child of [from], with everything below it
    untouched, when [morph()] is over, whether or not [to] has a child for
    it. *)
Theorem explicitly_false_is_left_alone
    (fuel : nat) (ancestors : list Element) (fromElement : Element)
    (fromChildNodes : list Node) (event : option Event) :
  isLiveConnectionUpdate event = true ->
  (explicitlyFalse fromElement = true ->
   forall to,
     morph fastMyersDiff (S fuel) ancestors
           (ElementNode fromElement fromChildNodes) to event =
     (ElementNode fromElement fromChildNodes, [], Completed)) /\
  (forall child to,
     In child fromChildNodes ->
     nodeExplicitlyFalse child = true ->
     NoDup (map nodeIdentity fromChildNodes) ->
     ~ In (nodeIdentity child) (map nodeIdentity (childNodesOf to)) ->
     (forall hunks plan,
        reconcile event fromChildNodes (childNodesOf to) hunks = Some plan ->
        ~ In child (members (toRemove plan))) /\
     In child (childNodesOf
                 (morphed fastMyersDiff (S fuel) ancestors
                    (ElementNode fromElement fromChildNodes) to event))).
Proof.
  intros Hpush. split.
  - intros Hfalse to. apply morph_explicitlyFalse; assumption.
  - intros child to Hin Hchild Hnd Hto. split.
    + intros hunks plan Hplan Hmem.
      destruct (reconcile_provenance _ _ _ _ _ Hplan) as (H1 & _).
      destruct (H1 child Hmem) as [_ H]. rewrite Hpush, Hchild in H.
      discriminate.
    + unfold morphed. cbn [morph].
      destruct (isLiveConnectionUpdate event && explicitlyFalse fromElement);
        [exact Hin|].
      destruct to as [toElement toChildNodes|i v]; [|exact Hin].
      simpl in Hto.
      destruct (morphElement event ancestors fromElement toElement
                         fromChildNodes toChildNodes)
        as [fromElement' log].
      destruct (reconcile event fromChildNodes toChildNodes _) as [plan|]
        eqn:Hplan; [|exact Hin].
      destruct (reconcile_provenance _ _ _ _ _ Hplan) as (H1 & H2 & H3).
      assert (Hremovable : forall n, removable event fromChildNodes n ->
                                     nodeIdentity n <> nodeIdentity child).
      { intros n [Hn Hflag] Heq.
        assert (n = child)
          by (eapply NoDup_map_injective; eassumption).
        subst n. rewrite Hpush, Hchild in Hflag. discriminate. }
      pose proof (applyPlan_keeps (identity fromElement) plan fromChildNodes
                    log child) as Hkeep.
      destruct (applyPlan (identity fromElement) plan fromChildNodes log)
        as [[cs log'] completion].
      simpl in Hkeep.
      assert (Hcs : In child cs).
      { apply Hkeep; [intros n Hn; apply Hremovable, H1, Hn | | exact Hin].
        intros node nodeAfter Hadd.
        destruct (H2 node nodeAfter Hadd) as [Hr|Ht];
          [apply Hremovable, Hr|].
        intros Heq. apply Hto. rewrite <- Heq. apply in_map. exact Ht. }
      destruct completion; try exact Hcs.
      pose proof (morphPairs_keeps
                    (fun from to =>
                       morph fastMyersDiff fuel (fromElement' :: ancestors)
                             from to event)
                    (toMorph plan) cs log' child) as Hpairs.
      destruct (morphPairs _ (toMorph plan) cs log') as [[cs' log''] c].
      simpl in Hpairs. apply Hpairs; [|exact Hcs].
      intros f t Hft Hid.
      pose proof (morphed_identity fuel (fromElement' :: ancestors) f t event)
        as Hsame.
      unfold morphed in Hsame. rewrite Hsame in Hid.
      assert (f = child)
        by (eapply NoDup_map_injective;
            [exact Hnd | exact (H3 f t Hft) | exact Hin | exact Hid]).
      subst f.
      exact (morphed_nodeExplicitlyFalse fuel (fromElement' :: ancestors)
               child t event Hpush Hchild).
Qed.

End Pinned.

(** ** The queues of [toRemove] *)

Lemma queue_push (k k' : string) (x : Node) (toRemove : ToRemove) :
  queue k (push k' x toRemove) =
  if String.eqb k' k then queue k toRemove ++ [x] else queue k toRemove.
Proof.
  induction toRemove as [|[k0 nodes] rest IH]; simpl.
  - destruct (String.eqb k' k); reflexivity.
  - destruct (String.eqb k0 k') eqn:E0; simpl.
    + apply String.eqb_eq in E0. subst k0.
      destruct (String.eqb k' k); reflexivity.
    + rewrite IH. destruct (String.eqb k0 k) eqn:E1; [|reflexivity].
      apply String.eqb_eq in E1. subst k0.
      rewrite String.eqb_sym in E0. rewrite E0. reflexivity.
Qed.

Lemma push_keys (k k' : string) (x : Node) (toRemove : ToRemove) :
  In k' (map fst (push k x toRemove)) -> k' = k \/ In k' (map fst toRemove).
Proof.
  induction toRemove as [|[k0 nodes] rest IH]; simpl.
  - intros [<-|[]]. auto.
  - destruct (String.eqb k0 k); simpl; intros [<-|H]; auto.
    destruct (IH H); auto.
Qed.

Lemma push_keys_NoDup (k : string) (x : Node) (toRemove : ToRemove) :
  NoDup (map fst toRemove) -> NoDup (map fst (push k x toRemove)).
Proof.
  induction toRemove as [|[k0 nodes] rest IH]; simpl; intros Hnd.
  - repeat constructor. simpl. tauto.
  - inversion Hnd as [|? ? Hnotin Hnd']; subst.
    destruct (String.eqb k0 k) eqn:E; simpl.
    + constructor; assumption.
    + constructor; [|apply IH; exact Hnd'].
      intros Hin. destruct (push_keys _ _ _ _ Hin) as [->|H];
        [|contradiction].
      rewrite String.eqb_refl in E. discriminate.
Qed.

Lemma shift_queue (k : string) (toRemove toRemove' : ToRemove)
    (r : option Node) :
  shift k toRemove = (r, toRemove') ->
  r = hd_error (queue k toRemove) /\
  queue k toRemove' = tl (queue k toRemove) /\
  (forall k', k' <> k -> queue k' toRemove' = queue k' toRemove) /\
  map fst toRemove' = map fst toRemove.
Proof.
  revert toRemove' r.
  induction toRemove as [|[k0 nodes] rest IH]; simpl; intros toRemove' r H.
  - injection H as <- <-. auto.
  - destruct (String.eqb k0 k) eqn:E.
    + apply String.eqb_eq in E. subst k0.
      destruct nodes as [|node nodes']; injection H as <- <-; simpl;
        rewrite String.eqb_refl; repeat split; auto.
      intros k' Hne. destruct (String.eqb k k') eqn:E'; [|reflexivity].
      apply String.eqb_eq in E'. congruence.
    + destruct (shift k rest) as [r0 rest'] eqn:Es.
      injection H as <- <-.
      destruct (IH rest' r0 eq_refl) as (H1 & H2 & H3 & H4).
      simpl. rewrite E. repeat split; auto.
      * intros k' Hne. destruct (String.eqb k0 k'); auto.
      * congruence.
Qed.

Lemma queue_key (k : string) (toRemove : ToRemove) :
  queue k toRemove <> [] -> In k (map fst toRemove).
Proof.
  induction toRemove as [|[k0 nodes] rest IH]; simpl; [congruence|].
  destruct (String.eqb k0 k) eqn:E; intros H.
  - apply String.eqb_eq in E. auto.
  - auto.
Qed.

Lemma members_queue (toRemove : ToRemove) (n : Node) :
  NoDup (map fst toRemove) -> In n (members toRemove) ->
  exists k, In n (queue k toRemove).
Proof.
  unfold members.
  induction toRemove as [|[k0 nodes] rest IH]; simpl; intros Hnd Hin;
    [contradiction|].
  inversion Hnd as [|? ? Hnotin Hnd']; subst.
  apply in_app_iff in Hin. destruct Hin as [Hin|Hin].
  - exists k0. rewrite String.eqb_refl. exact Hin.
  - destruct (IH Hnd' Hin) as [k Hk]. exists k.
    destruct (String.eqb k0 k) eqn:E; [|exact Hk].
    apply String.eqb_eq in E. subst k0. exfalso. apply Hnotin.
    apply queue_key. intros Hnil. rewrite Hnil in Hk. contradiction.
Qed.

Section Queues.

Variable event : option Event.
Variables fromChildNodes toChildNodes : list Node.

Lemma collectNodes_queue (nodeIndexes : list nat)
    (toRemove toRemove' : ToRemove) (k : string) :
  fold_left (collectNode event fromChildNodes) nodeIndexes (Some toRemove) =
    Some toRemove' ->
  NoDup (map fst toRemove) ->
  queue k toRemove' =
    queue k toRemove ++
    keyed k (flat_map (candidate event fromChildNodes) nodeIndexes) /\
  NoDup (map fst toRemove').
Proof.
  revert toRemove.
  induction nodeIndexes as [|i nodeIndexes IH]; cbn [fold_left flat_map];
    intros toRemove H Hnd.
  - injection H as <-. simpl. rewrite app_nil_r. auto.
  - unfold candidate at 1.
    assert (Hstep : collectNode event fromChildNodes (Some toRemove) i =
                    match nth_error fromChildNodes i with
                    | Some node =>
                        if isLiveConnectionUpdate event &&
                           nodeExplicitlyFalse node
                        then Some toRemove
                        else Some (push (key node) node toRemove)
                    | None => None
                    end) by reflexivity.
    rewrite Hstep in H. clear Hstep.
    destruct (nth_error fromChildNodes i) as [node|];
      [|rewrite fold_left_None in H by reflexivity; discriminate].
    destruct (isLiveConnectionUpdate event && nodeExplicitlyFalse node).
    + simpl. exact (IH toRemove H Hnd).
    + destruct (IH _ H (push_keys_NoDup _ _ _ Hnd)) as [Hq Hnd'].
      split; [|exact Hnd'].
      rewrite Hq, queue_push. unfold keyed. simpl.
      destruct (String.eqb (key node) k); [|reflexivity].
      rewrite <- app_assoc. reflexivity.
Qed.

Lemma collectHunks_queue (hunks : list Hunk) (toRemove toRemove' : ToRemove)
    (k : string) :
  fold_left (collectHunk event fromChildNodes) hunks (Some toRemove) =
    Some toRemove' ->
  NoDup (map fst toRemove) ->
  queue k toRemove' =
    queue k toRemove ++ keyed k (candidates event fromChildNodes hunks) /\
  NoDup (map fst toRemove').
Proof.
  revert toRemove.
  induction hunks as [|[[[fromStart fromEnd] toStart] toEnd] hunks IH];
    simpl; intros toRemove H Hnd.
  - injection H as <-. rewrite app_nil_r. auto.
  - destruct (fold_left (collectNode event fromChildNodes)
                (seq fromStart (fromEnd - fromStart)) (Some toRemove))
      as [toRemove1|] eqn:E1.
    + destruct (collectNodes_queue _ _ _ k E1 Hnd) as [Hq1 Hnd1].
      destruct (IH _ H Hnd1) as [Hq Hnd'].
      split; [|exact Hnd'].
      rewrite Hq, Hq1. unfold keyed. rewrite filter_app, app_assoc.
      reflexivity.
    + rewrite (fold_left_None _ hunks (collectHunk_None event fromChildNodes))
        in H.
      discriminate.
Qed.

(** The queue of a key is the removal candidates of that key, first
    met first. *)
Lemma collect_queue (hunks : list Hunk) (toRemove : ToRemove) (k : string) :
  collect event fromChildNodes hunks = Some toRemove ->
  queue k toRemove = keyed k (candidates event fromChildNodes hunks) /\
  NoDup (map fst toRemove).
Proof.
  intros H.
  exact (collectHunks_queue hunks [] toRemove k H (NoDup_nil _)).
Qed.

Lemma pairUnchanged_keyedPlan (previousFromEnd previousToEnd : nat)
    (plan plan' : Plan) (nodeIndexOffset : nat) :
  keyedPlan plan ->
  pairUnchanged fromChildNodes toChildNodes previousFromEnd previousToEnd
    (Some plan) nodeIndexOffset = Some plan' ->
  keyedPlan plan'.
Proof.
  intros (H1 & H2 & H3). unfold pairUnchanged.
  destruct (nth_error fromChildNodes (previousFromEnd + nodeIndexOffset))
    as [from|]; [|discriminate].
  destruct (nth_error toChildNodes (previousToEnd + nodeIndexOffset))
    as [to|]; [|discriminate].
  intros H. injection H as <-.
  split; [exact H1 | split; [exact H2 |]]. simpl.
  intros node nodeAfter Hin. destruct (H3 node nodeAfter Hin) as [Hr|Hq].
  - left. destruct Hr as (t & Ht & Hk). exists t. simpl.
    split; [apply in_app_iff; auto | exact Hk].
  - right. exact Hq.
Qed.

Lemma resolve_keyedPlan (fromEnd : nat) (plan plan' : Plan) (nodeIndex : nat) :
  keyedPlan plan ->
  resolve fromChildNodes toChildNodes fromEnd (Some plan) nodeIndex =
    Some plan' ->
  keyedPlan plan'.
Proof.
  intros (H1 & H2 & H3). unfold resolve.
  destruct (nth_error toChildNodes nodeIndex) as [toChildNode|];
    [|discriminate].
  destruct (shift (key toChildNode) (toRemove plan)) as [r toRemove'] eqn:Es.
  destruct (shift_queue _ _ _ _ Es) as (Hr & Hq & Hother & Hkeys).
  assert (Hsub : forall k node, In node (queue k toRemove') ->
                                In node (queue k (toRemove plan))).
  { intros k node Hin.
    destruct (String.eqb k (key toChildNode)) eqn:E.
    - apply String.eqb_eq in E. subst k. rewrite Hq in Hin.
      destruct (queue (key toChildNode) (toRemove plan)); simpl in Hin; auto.
      right. exact Hin.
    - rewrite Hother in Hin; [exact Hin|].
      intros ->. rewrite String.eqb_refl in E. discriminate. }
  assert (Hempty : forall k, queue k (toRemove plan) = [] ->
                             queue k toRemove' = []).
  { intros k Hk. destruct (queue k toRemove') as [|node rest] eqn:E;
      [reflexivity|].
    exfalso. specialize (Hsub k node). rewrite E, Hk in Hsub.
    apply Hsub. left. reflexivity. }
  destruct r as [fromChildNode|]; intros H; injection H as <-;
    (split; [|split]); simpl; try congruence; eauto.
  - intros node nodeAfter Hin. apply in_app_iff in Hin.
    destruct Hin as [Hin|[Hin|[]]].
    + destruct (H3 node nodeAfter Hin) as [(t & Ht & Hk)|Hk].
      * left. exists t. simpl. split; [apply in_app_iff; auto | exact Hk].
      * right. auto.
    + injection Hin as <- _. left. exists toChildNode. simpl.
      split; [apply in_app_iff; simpl; auto|].
      symmetry. apply H2.
      destruct (queue (key toChildNode) (toRemove plan)) as [|n rest];
        [discriminate|].
      simpl in Hr. injection Hr as <-. left. reflexivity.
  - intros node nodeAfter Hin. apply in_app_iff in Hin.
    destruct Hin as [Hin|[Hin|[]]].
    + destruct (H3 node nodeAfter Hin) as [Hreused|Hk]; auto.
    + injection Hin as <- _. right.
      destruct (queue (key toChildNode) (toRemove plan)) as [|n rest] eqn:E;
        [|discriminate].
      apply Hempty. exact E.
Qed.

Lemma reconcile_keyedPlan (hunks : list Hunk) (plan : Plan) :
  reconcile event fromChildNodes toChildNodes hunks = Some plan ->
  keyedPlan plan.
Proof.
  unfold reconcile.
  destruct (collect event fromChildNodes hunks) as [toRemove0|] eqn:Ec;
    [|discriminate].
  apply (planHunk_invariant fromChildNodes toChildNodes keyedPlan).
  - intros. eapply pairUnchanged_keyedPlan; eassumption.
  - intros. eapply resolve_keyedPlan; eassumption.
  - split; [|split]; simpl.
    + apply (collect_queue hunks toRemove0 "" Ec).
    + intros k node Hin.
      destruct (collect_queue hunks toRemove0 k Ec) as [Hq _].
      rewrite Hq in Hin. unfold keyed in Hin. apply filter_In in Hin.
      apply String.eqb_eq. tauto.
    + tauto.
Qed.

End Queues.

Lemma shift_None (k : string) (toRemove toRemove' : ToRemove) :
  shift k toRemove = (None, toRemove') -> toRemove' = toRemove.
Proof.
  revert toRemove'.
  induction toRemove as [|[k0 nodes] rest IH]; simpl; intros toRemove' H.
  - injection H as <-. reflexivity.
  - destruct (String.eqb k0 k).
    + destruct nodes; [injection H as <-; reflexivity | discriminate].
    + destruct (shift k rest) as [r rest'] eqn:E.
      injection H as -> <-. rewrite (IH rest' eq_refl). reflexivity.
Qed.

(** Lines 369 to 411. The removal candidates of all hunks are first
    collected in one queue per key, in the order they were met. A
    child of [to] inside a hunk whose key has a non-empty queue takes the
    head of that queue: the live node goes into [toAdd] in the place of the
    child of [to] and the two are recorded in [toMorph]; only when the
    queue is empty does the child of [to] itself go into [toAdd]. So no
    node is removed while a node of its key coming from [to] is inserted.
    And when [A, B, C] is morphed into [C, A, B] along the shortest script
    (insert [C] in front, remove it at the end), nothing is removed, the
    live [C] is moved in front of [A], and the three live nodes are the
    ones that are morphed. *)
Lemma removed_nodes_are_reused_by_key
    (event : option Event) (fromChildNodes toChildNodes : list Node)
    (hunks : list Hunk) :
  (forall toRemove k,
     collect event fromChildNodes hunks = Some toRemove ->
     queue k toRemove = keyed k (candidates event fromChildNodes hunks)) /\
  (forall plan nodeIndex toChildNode fromEnd,
     nth_error toChildNodes nodeIndex = Some toChildNode ->
     exists plan',
       resolve fromChildNodes toChildNodes fromEnd (Some plan) nodeIndex =
         Some plan' /\
       match queue (key toChildNode) (toRemove plan) with
       | fromChildNode :: rest =>
           toAdd plan' =
             toAdd plan ++
             [(fromChildNode, nth_error fromChildNodes fromEnd)] /\
           toMorph plan' = toMorph plan ++ [(fromChildNode, toChildNode)] /\
           queue (key toChildNode) (toRemove plan') = rest
       | [] =>
           toAdd plan' =
             toAdd plan ++ [(toChildNode, nth_error fromChildNodes fromEnd)] /\
           toMorph plan' = toMorph plan /\
           toRemove plan' = toRemove plan
       end) /\
  (forall plan discarded node nodeAfter,
     reconcile event fromChildNodes toChildNodes hunks = Some plan ->
     In discarded (members (toRemove plan)) ->
     In (node, nodeAfter) (toAdd plan) ->
     key node = key discarded ->
     In node fromChildNodes /\
     exists toChildNode, In (node, toChildNode) (toMorph plan)) /\
  (forall a b c a' b' c' parent log,
     isLiveConnectionUpdate event = false ->
     key c' = key c ->
     NoDup (map nodeIdentity [a; b; c]) ->
     exists plan,
       reconcile event [a; b; c] [c'; a'; b'] [(0, 0, 0, 1); (2, 3, 3, 3)] =
         Some plan /\
       toMorph plan = [(c, c'); (a, a'); (b, b')] /\
       applyPlan parent plan [a; b; c] log =
         ([c; a; b],
          log ++ [InsertBefore parent (nodeIdentity c) (Some (nodeIdentity a))],
          Completed)).
Proof.
  split; [|split; [|split]].
  - intros toRemove k H. apply (collect_queue _ _ _ _ k H).
  - intros plan nodeIndex toChildNode fromEnd Ht. unfold resolve. rewrite Ht.
    destruct (shift (key toChildNode) (toRemove plan)) as [r toRemove'] eqn:Es.
    destruct (shift_queue _ _ _ _ Es) as (Hr & Hq & _).
    destruct (queue (key toChildNode) (toRemove plan)) as [|n rest];
      simpl in Hr; subst r.
    + eexists. split; [reflexivity|]. simpl.
      rewrite (shift_None _ _ _ Es). auto.
    + eexists. split; [reflexivity|]. simpl. auto.
  - intros plan discarded node nodeAfter Hplan Hdiscarded Hadd Hkey.
    destruct (reconcile_keyedPlan _ _ _ _ _ Hplan) as (Hnd & Hkeyed & Htoadd).
    destruct (reconcile_provenance _ _ _ _ _ Hplan) as (_ & _ & Hmorph).
    destruct (members_queue _ _ Hnd Hdiscarded) as [k Hk].
    pose proof (Hkeyed k discarded Hk) as Hkd.
    destruct (Htoadd node nodeAfter Hadd) as [(t & Ht & _)|Hempty].
    + split; [exact (Hmorph node t Ht) | exists t; exact Ht].
    + rewrite Hkey, Hkd in Hempty. rewrite Hempty in Hk. contradiction.
  - intros a b c a' b' c' parent log Hpush Hkey Hnd.
    assert (Hac : (nodeIdentity a =? nodeIdentity c) = false).
    { apply Nat.eqb_neq. intros Heq. inversion Hnd as [|? ? Hnotin _]; subst.
      apply Hnotin. simpl. auto. }
    assert (Hbc : (nodeIdentity b =? nodeIdentity c) = false).
    { apply Nat.eqb_neq. intros Heq. inversion Hnd as [|? ? _ Hnd']; subst.
      inversion Hnd' as [|? ? Hnotin _]; subst. apply Hnotin. simpl. auto. }
    unfold reconcile, collect, collectHunk, collectNode. simpl.
    rewrite Hpush. simpl.
    unfold planHunk, resolve, pairUnchanged. simpl.
    rewrite Hkey, String.eqb_refl. simpl.
    eexists. split; [reflexivity|]. split; [reflexivity|].
    unfold applyPlan, insertBefore, detach. simpl.
    rewrite Nat.eqb_refl. simpl.
    rewrite Hac. unfold detach. simpl.
    rewrite Hac, Hbc, Nat.eqb_refl. simpl.
    rewrite Nat.eqb_refl. reflexivity.
Qed.

(** ** Morphing a tree into its own clone *)

Lemma distinct_NoDup (identities : list nat) :
  distinct identities = true -> NoDup identities.
Proof.
  induction identities as [|i rest IH]; simpl; intros H; [constructor|].
  apply andb_true_iff in H. destruct H as [Hi Hrest].
  constructor; [|exact (IH Hrest)].
  intros Hin. apply negb_true_iff in Hi.
  assert (existsb (Nat.eqb i) rest = true).
  { apply existsb_exists. exists i. split; [exact Hin | apply Nat.eqb_refl]. }
  congruence.
Qed.

Lemma key_cloneNode (rename : nat -> nat) (node : Node) :
  key (cloneNode rename node) = key node.
Proof. destruct node; reflexivity. Qed.

Lemma lookup_In (name : string) (attrs : list (string * string)) :
  In name (map fst attrs) -> exists v, lookup name attrs = Some v.
Proof.
  induction attrs as [|[n w] rest IH]; simpl; intros H; [contradiction|].
  destruct (String.eqb n name) eqn:E; [eauto|].
  destruct H as [->|H]; [|exact (IH H)].
  rewrite String.eqb_refl in E. discriminate.
Qed.

Lemma JSValue_eqb_refl (v : JSValue) : JSValue_eqb v v = true.
Proof.
  destruct v; simpl; auto using Bool.eqb_reflx, String.eqb_refl.
Qed.

Lemma morphAttribute_same (event : option Event) (ancestors : list Element)
    (to from : Element) (log : list Mutation) (attribute : string) :
  attributes to = attributes from ->
  In attribute (getAttributeNames from) ->
  morphAttribute event ancestors to (from, log) attribute = (from, log).
Proof.
  intros Hattrs Hin. unfold morphAttribute.
  destruct (isLiveConnectionUpdate event && protectedAttribute attribute &&
            negb (pinned (from :: ancestors) attribute)); [reflexivity|].
  unfold getAttribute. rewrite Hattrs.
  destruct (lookup_In attribute (attributes from) Hin) as [v ->].
  rewrite String.eqb_refl. reflexivity.
Qed.

(** Lines 318 to 350 change nothing on an element that has the
    attributes and the two properties of [to] already. *)
Lemma morphElement_same (event : option Event) (ancestors : list Element)
    (from to : Element) (fromChildNodes toChildNodes : list Node) :
  attributes to = attributes from ->
  (forall property,
     getProperty to toChildNodes property =
     getProperty from fromChildNodes property) ->
  morphElement event ancestors from to fromChildNodes toChildNodes =
  (from, []).
Proof.
  intros Hattrs Hproperties. unfold morphElement.
  assert (H : morphAttributes event ancestors from to = (from, [])).
  { unfold morphAttributes.
    assert (Hfold : forall names log,
               (forall a, In a names -> In a (getAttributeNames from)) ->
               fold_left (morphAttribute event ancestors to) names (from, log)
               = (from, log)).
    { induction names as [|n names IH]; intros log Hnames;
        cbn [fold_left]; [reflexivity|].
      rewrite morphAttribute_same; [|exact Hattrs | apply Hnames; left; auto].
      apply IH. intros a Ha. apply Hnames. right. exact Ha. }
    apply Hfold. intros a Ha. apply newSet_In, in_app_iff in Ha.
    unfold getAttributeNames in *. rewrite Hattrs in Ha. tauto. }
  rewrite H. unfold morphProperties. cbn [fst].
  destruct (matchesInputTextarea from); [|reflexivity].
  assert (Hproperty : forall property,
             morphProperty event ancestors to fromChildNodes toChildNodes
                           (from, []) property = (from, [])).
  { intros property. unfold morphProperty.
    rewrite Hproperties, JSValue_eqb_refl.
    destruct (isLiveConnectionUpdate event &&
              negb (pinned (from :: ancestors) property)); reflexivity. }
  cbn [fold_left]. rewrite (Hproperty "value"). apply Hproperty.
Qed.

(** A clone has the text of the tree it was made from, and its
    properties read the same. *)
Lemma childTextContent_cloneNode (rename : nat -> nat)
    (childNodes : list Node) :
  childTextContent (map (cloneNode rename) childNodes) =
  childTextContent childNodes.
Proof.
  induction childNodes as [|[element children | identity nodeValue] rest IH];
    cbn [map cloneNode childTextContent]; congruence.
Qed.

Lemma getProperty_cloneNode (rename : nat -> nat) (element : Element)
    (childNodes : list Node) (property : string) :
  getProperty
    (mkElement (rename (identity element)) (tagName element)
               (attributes element) (value element) (checked element)
               Unset None)
    (map (cloneNode rename) childNodes) property =
  getProperty element childNodes property.
Proof.
  unfold getProperty, valueOf, checkedOf, matchesInputTextarea, getAttribute.
  cbn [tagName value checked attributes].
  rewrite childTextContent_cloneNode. reflexivity.
Qed.

Lemma pairUnchanged_all (before before' fromChildNodes toChildNodes : list Node)
    (plan : Plan) :
  List.length before = List.length before' ->
  List.length toChildNodes = List.length fromChildNodes ->
  fold_left (pairUnchanged (before ++ fromChildNodes) (before' ++ toChildNodes)
               0 0)
    (seq (List.length before) (List.length fromChildNodes)) (Some plan) =
  Some (mkPlan (toRemove plan) (toAdd plan)
               (toMorph plan ++ combine fromChildNodes toChildNodes)).
Proof.
  revert before before' toChildNodes plan.
  induction fromChildNodes as [|from fromChildNodes IH];
    intros before before' toChildNodes plan Hbefore Hlength.
  - simpl. rewrite app_nil_r. destruct plan; reflexivity.
  - destruct toChildNodes as [|to toChildNodes]; [discriminate|].
    assert (Hfrom : nth_error (before ++ from :: fromChildNodes)
                              (List.length before) = Some from).
    { rewrite nth_error_app2, Nat.sub_diag by lia. reflexivity. }
    assert (Hto : nth_error (before' ++ to :: toChildNodes)
                            (List.length before) = Some to).
    { rewrite Hbefore, nth_error_app2, Nat.sub_diag by lia. reflexivity. }
    cbn [List.length seq fold_left]. unfold pairUnchanged at 2.
    cbn [Nat.add]. rewrite Hfrom, Hto.
    replace (before ++ from :: fromChildNodes)
      with ((before ++ [from]) ++ fromChildNodes)
      by (rewrite <- app_assoc; reflexivity).
    replace (before' ++ to :: toChildNodes)
      with ((before' ++ [to]) ++ toChildNodes)
      by (rewrite <- app_assoc; reflexivity).
    replace (S (List.length before)) with (List.length (before ++ [from]))
      by (rewrite length_app; simpl; lia).
    rewrite IH.
    + simpl. rewrite <- app_assoc. reflexivity.
    + rewrite !length_app. simpl. lia.
    + simpl in Hlength. lia.
Qed.

(** When the diff is empty, the children are paired by position and
    nothing is removed or added. *)
Lemma reconcile_no_hunks (event : option Event)
    (fromChildNodes toChildNodes : list Node) :
  List.length toChildNodes = List.length fromChildNodes ->
  reconcile event fromChildNodes toChildNodes [] =
  Some (mkPlan [] [] (combine fromChildNodes toChildNodes)).
Proof.
  intros Hlength. unfold reconcile, collect. cbn [fold_left app tl combine].
  unfold planHunk. rewrite Hlength, !Nat.sub_0_r, Nat.sub_diag.
  cbn [seq fold_left].
  exact (pairUnchanged_all [] [] fromChildNodes toChildNodes
           (mkPlan [] [] []) eq_refl Hlength).
Qed.

Lemma replaceChild_self (childNodes : list Node) (node : Node) :
  NoDup (map nodeIdentity childNodes) -> In node childNodes ->
  replaceChild childNodes node = childNodes.
Proof.
  induction childNodes as [|child rest IH]; simpl; intros Hnd Hin;
    [reflexivity|].
  inversion Hnd as [|? ? Hnotin Hnd']; subst.
  destruct Hin as [->|Hin].
  - rewrite Nat.eqb_refl. reflexivity.
  - destruct (nodeIdentity child =? nodeIdentity node) eqn:E.
    + apply Nat.eqb_eq in E. exfalso. apply Hnotin. rewrite E.
      apply in_map. exact Hin.
    + rewrite (IH Hnd' Hin). reflexivity.
Qed.

Lemma morphPairs_unchanged
    (morph : Node -> Node -> Node * list Mutation * Completion)
    (rename : nat -> nat) (childNodes : list Node) (log : list Mutation) :
  NoDup (map nodeIdentity childNodes) ->
  forall some,
    (forall child, In child some ->
       In child childNodes /\
       (elementOf child <> None ->
        morph child (cloneNode rename child) = (child, [], Completed))) ->
    morphPairs morph (combine some (map (cloneNode rename) some)) childNodes
               log =
    (childNodes, log, Completed).
Proof.
  intros Hnd some. induction some as [|child some IH]; intros H.
  - reflexivity.
  - cbn [map combine morphPairs].
    assert (Hrest : forall c, In c some ->
              In c childNodes /\
              (elementOf c <> None ->
               morph c (cloneNode rename c) = (c, [], Completed))).
    { intros c Hc. apply H. right. exact Hc. }
    destruct (H child (or_introl eq_refl)) as [Hin Hmorph].
    destruct child as [element children|i v].
    + rewrite Hmorph by discriminate.
      rewrite (replaceChild_self _ _ Hnd Hin), app_nil_r.
      exact (IH Hrest).
    + exact (IH Hrest).
Qed.

Section Idempotence.

Variable fastMyersDiff : list string -> list string -> list Hunk.

(** C5. When the diff of a list of keys with itself is empty, [morph()]
    of a tree with a clone of it makes no mutation at all, at any depth:
    the log is empty, the tree is what it was, and the call completes. *)
Theorem morph_into_clone_mutates_nothing
    (fuel : nat) (ancestors : list Element) (T : Node) (rename : nat -> nat)
    (event : option Event) :
  (forall keys, fastMyersDiff keys keys = []) ->
  elementOf T <> None ->
  distinctSiblings T = true ->
  height T <= fuel ->
  morph fastMyersDiff fuel ancestors T (cloneNode rename T) event =
  (T, [], Completed).
Proof.
  intros Hdiff. revert ancestors T.
  induction fuel as [|fuel IH]; intros ancestors T Helement Hdistinct Hheight.
  - destruct T; simpl in *; [lia | congruence].
  - destruct T as [element childNodes|i v]; [|simpl in Helement; congruence].
    cbn [morph cloneNode].
    destruct (isLiveConnectionUpdate event && explicitlyFalse element);
      [reflexivity|].
    rewrite morphElement_same
      by (try reflexivity; apply getProperty_cloneNode).
    rewrite map_map.
    rewrite (map_ext (fun x => key (cloneNode rename x)) key
               (key_cloneNode rename)).
    rewrite Hdiff.
    rewrite reconcile_no_hunks by apply length_map.
    unfold applyPlan. cbn [toRemove toAdd toMorph flat_map removeChildren
                           insertChildren].
    simpl in Hdistinct. apply andb_true_iff in Hdistinct.
    destruct Hdistinct as [Hsiblings Hbelow].
    simpl in Hheight. apply le_S_n in Hheight.
    rewrite (morphPairs_unchanged _ rename childNodes []
               (distinct_NoDup _ Hsiblings) childNodes); [reflexivity|].
    intros child Hin. split; [exact Hin|]. intros Hchild.
    apply IH.
    + exact Hchild.
    + rewrite forallb_forall in Hbelow. exact (Hbelow child Hin).
    + apply Nat.le_trans with (list_max (map height childNodes));
        [|exact Hheight].
      assert (Hmax := proj1 (list_max_le (map height childNodes)
                               (list_max (map height childNodes)))
                            (Nat.le_refl _)).
      rewrite Forall_forall in Hmax. apply Hmax. apply in_map. exact Hin.
Qed.

End Idempotence.

(** ** The document *)

Section DocumentMount.

Variable fastMyersDiff : list string -> list string -> list Hunk.
Variable documentStringToElement : string -> Node.


End DocumentMount.

(** ** Examples *)

Lemma lcsDiffFrom_same (keys : list string) (i j : nat) :
  lcsDiffFrom keys keys i j = [].
Proof.
  revert i j. induction keys as [|k keys IH]; intros i j; simpl.
  - reflexivity.
  - rewrite String.eqb_refl. apply IH.
Qed.

Lemma lcsDiff_same (keys : list string) : lcsDiff keys keys = [].
Proof. apply lcsDiffFrom_same. Qed.

Example reorder_script :
  lcsDiff (map key (childNodesOf listABC)) (map key (childNodesOf listCAB)) =
  [(0, 0, 0, 1); (2, 3, 3, 3)].
Proof. reflexivity. Qed.

Example reorder_keeps_the_live_nodes :
  morph lcsDiff 2 [] listABC listCAB None =
  (ElementNode (element 0 "UL" []) [li 3 "C"; li 1 "A"; li 2 "B"],
   [InsertBefore 0 3 (Some 1)], Completed).
Proof. vm_compute. reflexivity. Qed.

Example insertion_touches_only_the_gap :
  morph lcsDiff 2 [] listABC listAXBC None =
  (ElementNode (element 0 "UL" []) [li 1 "A"; li 14 "X"; li 2 "B"; li 3 "C"],
   [InsertBefore 0 14 (Some 2)], Completed).
Proof. vm_compute. reflexivity. Qed.

Example live_connection_update_keeps_value :
  morph lcsDiff 1 [] (ElementNode oldInput []) (ElementNode newInput [])
        liveConnectionUpdateEvent =
  (ElementNode oldInput [], [], Completed).
Proof. vm_compute. reflexivity. Qed.

Example mount_sets_value :
  morph lcsDiff 1 [] (ElementNode oldInput []) (ElementNode newInput [])
        None =
  (ElementNode
     (mkElement 1 "INPUT" [("value", "new")] (JSString "new")
                (JSBoolean false) Unset None) [],
   [SetAttribute 1 "value" "new"; SetProperty 1 "value" (JSString "new")],
   Completed).
Proof. vm_compute. reflexivity. Qed.

(** The same holds of an input that nobody has written, whose [value]
    is its attribute. *)
Example live_connection_update_keeps_attribute :
  let from := element 1 "INPUT" [("value", "old")] in
  morph lcsDiff 1 [] (ElementNode from []) (ElementNode newInput [])
        liveConnectionUpdateEvent =
    (ElementNode from [], [], Completed) /\
  valueOf from [] = JSString "old".
Proof. vm_compute. split; reflexivity. Qed.


Lemma element_pins_itself_witness :
  exists from',
    elementOf (morphed lcsDiff 1 [] (ElementNode pinnedInput [])
                 (ElementNode newInput []) liveConnectionUpdateEvent) =
      Some from' /\
    getAttribute from' "value" = Some "new" /\
    getProperty from' [] "value" = JSString "new".
Proof.
  destruct (element_pins_itself lcsDiff 0 [] pinnedInput newInput [] []
              liveConnectionUpdateEvent ["value"] "value"
              eq_refl eq_refl (or_introl eq_refl))
    as (_ & from' & childNodes' & H1 & H2 & H3).
  exists from'. split; [rewrite H1; reflexivity|]. split; [exact H2|].
  destruct (proj2 (H3 eq_refl (or_introl eq_refl)) eq_refl)
    as [H|[(_ & Htextarea & _) _]].
  - injection H1 as _ <-. exact H.
  - injection H1 as <- _. discriminate Htextarea.
Defined.

Lemma explicitly_false_is_left_alone_witness :
  In unreadIndicator
     (childNodesOf
        (morphed lcsDiff 2 []
           (ElementNode (element 0 "UL" []) [unreadIndicator; li 2 "B"])
           (ElementNode (element 10 "UL" []) [li 12 "B"])
           liveConnectionUpdateEvent)).
Proof.
  refine (proj2 (proj2 (explicitly_false_is_left_alone lcsDiff 1 []
                          (element 0 "UL" []) [unreadIndicator; li 2 "B"]
                          liveConnectionUpdateEvent eq_refl)
                   unreadIndicator
                   (ElementNode (element 10 "UL" []) [li 12 "B"])
                   (or_introl eq_refl) eq_refl _ _)).
  - repeat constructor; simpl; intuition discriminate.
  - simpl. intuition discriminate.
Defined.

Lemma morph_into_clone_mutates_nothing_witness :
  morph lcsDiff 2 [] listABC (cloneNode (fun i => i + 1000) listABC) None =
  (listABC, [], Completed).
Proof.
  refine (morph_into_clone_mutates_nothing lcsDiff 2 [] listABC
            (fun i => i + 1000) None lcsDiff_same _ eq_refl _).
  - discriminate.
  - simpl. lia.
Defined.


End DOMProperties.

(* ================================================================== *)
(** * More properties of the scheduler, alone and on an element *)
(* ================================================================== *)

Module ElementBackgroundJobProperties.

Import BackgroundJob ElementBackgroundJob.

Ltac orderly_premises :=
  repeat match goal with
         | H : ?P -> _ |- _ =>
             let H' := fresh in
             assert (H' : P) by (first [reflexivity | discriminate | lia]);
             specialize (H H')
         | H : _ /\ _ |- _ => destruct H
         end.

Ltac orderly_cases :=
  unfold orderly in *; simpl in *;
  repeat split; intros; orderly_premises;
  try discriminate; try congruence; try lia;
  try match goal with
      | H : ?x <> ?x |- _ => exfalso; apply H; reflexivity
      end.

Lemma orderly_backgroundJob : orderly backgroundJob.
Proof. unfold backgroundJob, run. orderly_cases. Qed.

Lemma orderly_run_clearTimeout (j : Job) :
  inFlight j = 0 -> orderly (run (clearTimeout j)).
Proof.
  intros H. destruct j as [st tm fl inv]. simpl in H. subst fl.
  unfold run, clearTimeout. orderly_cases.
Qed.

Lemma orderly_handle_run (j : Job) : orderly j -> orderly (handle_run j).
Proof.
  destruct j as [st tm fl inv]. unfold handle_run, run, clearTimeout.
  intros Ho. destruct st, tm as [d|]; orderly_cases.
Qed.

Lemma orderly_handle_stop (j : Job) : orderly j -> orderly (handle_stop j).
Proof.
  destruct j as [st tm fl inv]. unfold handle_stop, clearTimeout.
  intros Ho. destruct st, tm as [d|]; orderly_cases.
Qed.

Lemma orderly_step (j j' : Job) (e : Event) :
  orderly j -> step j e = Some j' -> orderly j'.
Proof.
  intros Ho Hstep. destruct e; simpl in Hstep.
  - injection Hstep as <-. apply orderly_handle_run. exact Ho.
  - injection Hstep as <-. apply orderly_handle_stop. exact Ho.
  - destruct j as [st tm fl inv]. simpl in Hstep.
    destruct fl as [|n]; [discriminate|]. injection Hstep as <-.
    unfold run_resume. destruct st, tm as [d|]; orderly_cases.
  - destruct j as [st tm fl inv]. simpl in Hstep.
    destruct fl as [|n]; [discriminate|]. injection Hstep as <-.
    destruct st, tm as [d|]; orderly_cases.
  - destruct j as [st tm fl inv]. simpl in Hstep.
    destruct tm as [d|]; [|discriminate]. injection Hstep as <-.
    unfold run, clearTimeout. destruct st; orderly_cases.
Qed.

Lemma orderly_steps (es : list Event) (j j' : Job) :
  orderly j -> steps j es = Some j' -> orderly j'.
Proof.
  revert j. induction es as [|e es IH]; simpl; intros j Ho H.
  - injection H as <-. exact Ho.
  - destruct (step j e) as [j1|] eqn:E; [|discriminate].
    exact (IH j1 (orderly_step _ _ _ Ho E) H).
Qed.

(** X1. A background job never has two executions of its unit of work in
    flight, and while a timer is armed nothing is in flight at all: the
    interval runs between executions. *)
Theorem executions_never_overlap (j : Job) :
  reachable j ->
  inFlight j <= 1 /\
  (timeout j <> None -> inFlight j = 0 /\ state j = sleeping).
Proof.
  intros [es Hes].
  destruct (orderly_steps es _ _ orderly_backgroundJob Hes)
    as (H1 & H2 & H3 & _).
  split; [exact H1|]. intros H. split; [|exact (H2 H)].
  apply H3. exact (H2 H).
Qed.

Lemma executions_never_overlap_witness :
  exists j,
    steps backgroundJob [CallRun; CallRun; JobResolves; TimerFires; CallRun]
      = Some j /\
    inFlight j <= 1.
Proof.
  eexists. split; [reflexivity|].
  exact (proj1 (executions_never_overlap _
                  (ex_intro _ [CallRun; CallRun; JobResolves; TimerFires;
                               CallRun] eq_refl))).
Defined.

(** A job with nothing armed and nothing in flight that is not asleep. *)
Lemma idle_steps (es : list Event) (j j' : Job) :
  timeout j = None -> inFlight j = 0 -> state j <> sleeping ->
  steps j es = Some j' ->
  timeout j' = None /\ inFlight j' = 0 /\ state j' <> sleeping /\
  invocations j' = invocations j.
Proof.
  revert j. induction es as [|e es IH]; simpl; intros j Ht Hf Hs H.
  - injection H as <-. auto.
  - destruct (step j e) as [j1|] eqn:E; [|discriminate].
    assert (H1 : timeout j1 = None /\ inFlight j1 = 0 /\
                 state j1 <> sleeping /\ invocations j1 = invocations j).
    { destruct j as [st tm fl inv]; simpl in *. subst tm fl.
      destruct e; simpl in E; try discriminate.
      - injection E as <-. unfold handle_run; simpl.
        destruct st; simpl; repeat split; try discriminate; congruence.
      - injection E as <-. unfold handle_stop; simpl.
        destruct st; simpl; repeat split; try discriminate; congruence. }
    destruct H1 as (Ht1 & Hf1 & Hs1 & Hi1).
    destruct (IH j1 Ht1 Hf1 Hs1 H) as (? & ? & ? & ?).
    repeat split; try assumption. congruence.
Qed.

(** X2. When the unit of work throws, the job is not scheduled again:
    whatever its owner calls afterwards, [job()] is never called any more
    and no timer is armed, although the job was not stopped. *)
Theorem rejected_job_is_not_rescheduled (j j1 j2 : Job) (es : list Event) :
  reachable j ->
  step j JobRejects = Some j1 ->
  steps j1 es = Some j2 ->
  invocations j2 = invocations j /\ timeout j2 = None /\
  step j2 TimerFires = None.
Proof.
  intros [es0 Hes0] Hreject Hsteps.
  destruct (orderly_steps es0 _ _ orderly_backgroundJob Hes0)
    as (H1 & H2 & H3 & _).
  simpl in Hreject. destruct (inFlight j) as [|n] eqn:En; [discriminate|].
  injection Hreject as <-.
  assert (n = 0) by lia. subst n.
  assert (Hs : state j <> sleeping).
  { intros H. destruct (H3 H) as [H0 _]. discriminate. }
  assert (Ht : timeout j = None).
  { destruct (timeout j) eqn:E; [|reflexivity].
    exfalso. apply Hs. apply H2. discriminate. }
  destruct (idle_steps es
              (mkJob (state j) (timeout j) 0 (invocations j)) j2
              Ht eq_refl Hs Hsteps) as (Ht2 & _ & _ & Hi).
  split; [exact Hi|]. split; [exact Ht2|].
  simpl. rewrite Ht2. reflexivity.
Qed.

Lemma rejected_job_is_not_rescheduled_witness :
  exists j2,
    steps backgroundJob [JobRejects; CallRun; CallRun] = Some j2 /\
    invocations j2 = 1 /\ state j2 = runningAndMarkedForRerun.
Proof.
  eexists. split; [reflexivity|].
  split; [|reflexivity].
  exact (proj1 (rejected_job_is_not_rescheduled backgroundJob _ _
                  [CallRun; CallRun] (ex_intro _ [] eq_refl)
                  eq_refl eq_refl)).
Defined.

(** ** On an element *)

Lemma orderly_unitOfWork (isConnected : bool) (j : Job) (n : nat) :
  inFlight j = 0 ->
  orderly (property (unitOfWork isConnected (run (clearTimeout j)) n)).
Proof.
  intros H. unfold unitOfWork. destruct isConnected; simpl.
  - apply orderly_run_clearTimeout. exact H.
  - apply orderly_handle_stop, orderly_run_clearTimeout. exact H.
Qed.

Lemma orderly_elementStep (e e' : ElementJob) (event : ElementEvent) :
  orderly (property e) -> elementStep e event = Some e' ->
  orderly (property e').
Proof.
  intros Ho Hstep. pose proof Ho as (H1 & H2 & H3 & H4).
  destruct event; simpl in Hstep.
  - destruct (timeout (property e)) eqn:Et; [|discriminate].
    injection Hstep as <-. apply orderly_unitOfWork.
    apply H3, H2. discriminate.
  - clear H1 H2 H3 H4.
    destruct (state (property e)) eqn:Es; injection Hstep as <-;
      try (simpl; apply orderly_handle_run; exact Ho).
    apply orderly_unitOfWork. apply Ho. exact Es.
  - injection Hstep as <-. simpl. apply orderly_handle_stop. exact Ho.
  - destruct (pending e) as [waiting|]; [|discriminate].
    destruct (match waiting with
              | CallerJob => true
              | Settled returned => Bool.eqb returned resolves
              end); [|discriminate].
    destruct (step (property e) (if resolves then JobResolves else JobRejects))
      as [j'|] eqn:E; [|discriminate].
    injection Hstep as <-. simpl. exact (orderly_step _ _ _ Ho E).
Qed.

Lemma started_orderly (e : ElementJob) : started e -> orderly (property e).
Proof.
  intros (previous & isConnected & events & H).
  assert (H0 : orderly (property (snd (start previous isConnected)))).
  { unfold start. simpl.
    destruct isConnected; [exact orderly_backgroundJob|].
    destruct (option_map handle_stop previous); exact orderly_backgroundJob. }
  revert H H0. generalize (snd (start previous isConnected)).
  induction events as [|event events IH]; simpl; intros e0 H H0.
  - injection H as <-. exact H0.
  - destruct (elementStep e0 event) as [e1|] eqn:E; [|discriminate].
    exact (IH e1 H (orderly_elementStep _ _ _ H0 E)).
Qed.

Lemma finished_elementStep (e e' : ElementJob) (event : ElementEvent) :
  inFlight (property e) <= 1 -> finished e ->
  elementStep e event = Some e' ->
  inFlight (property e') <= 1 /\ finished e' /\ jobCalls e' = jobCalls e /\
  (state (property e) = stopped -> state (property e') = stopped).
Proof.
  unfold finished. destruct e as [[st tm fl inv] pd calls]; simpl.
  intros Hfl [-> Hdead] Hstep.
  destruct event; simpl in Hstep.
  - discriminate.
  - destruct st; simpl in Hstep; injection Hstep as <-; simpl;
      try (repeat split; try assumption; tauto).
    + repeat split; try assumption.
      right. destruct Hdead as [H|[_ H]]; [discriminate|].
      split; [discriminate | exact H].
      discriminate.
    + exfalso. destruct Hdead as [H|[H _]]; [discriminate | congruence].
  - injection Hstep as <-. unfold handle_stop; simpl.
    destruct st; simpl; repeat split; auto.
  - destruct pd as [waiting|]; [|discriminate].
    destruct waiting as [|returned]; simpl in Hstep.
    + destruct resolves; simpl in Hstep; destruct fl as [|n];
        try discriminate; injection Hstep as <-; simpl.
      * unfold run_resume; simpl.
        destruct Hdead as [->|[Hs [H|H]]]; try discriminate.
        simpl. repeat split; try lia; auto.
      * destruct Hdead as [->|[Hs [H|H]]]; try discriminate.
        simpl. repeat split; try lia; auto.
    + destruct (Bool.eqb returned resolves) eqn:Eb; [|discriminate].
      apply Bool.eqb_prop in Eb. subst returned.
      destruct resolves; simpl in Hstep; destruct fl as [|n];
        try discriminate; injection Hstep as <-; simpl.
      * unfold run_resume; simpl.
        destruct Hdead as [->|[Hs [H|H]]]; try discriminate.
        simpl. repeat split; try lia; auto.
      * destruct Hdead as [->|[Hs _]].
        -- simpl. repeat split; try lia; auto.
        -- repeat split; try lia; auto.
           right. split; [exact Hs|]. left. lia.
Qed.

Lemma finished_elementSteps (events : list ElementEvent) (e e' : ElementJob) :
  inFlight (property e) <= 1 -> finished e ->
  elementSteps e events = Some e' ->
  finished e' /\ jobCalls e' = jobCalls e /\
  (state (property e) = stopped -> state (property e') = stopped).
Proof.
  revert e. induction events as [|event events IH]; simpl; intros e Hfl Hf H.
  - injection H as <-. auto.
  - destruct (elementStep e event) as [e1|] eqn:E; [|discriminate].
    destruct (finished_elementStep _ _ _ Hfl Hf E) as (Hfl1 & Hf1 & Hc1 & Hs1).
    destruct (IH e1 Hfl1 Hf1 H) as (Hf' & Hc' & Hs').
    split; [exact Hf'|]. split; [congruence | auto].
Qed.

(** X3. Once the unit of work of an element's job is called while the
    element is not connected, by the timer firing or by [run()] on the
    sleeping job, the job is stopped: the caller's [job()] is not called
    then nor ever after, whatever happens to the element or the job. *)
Theorem disconnected_element_stops_its_job
    (e e1 e2 : ElementJob) (event : ElementEvent)
    (events : list ElementEvent) :
  started e ->
  event = TimerFiresOn false \/
  (event = CallRunOn false /\ state (property e) = sleeping) ->
  elementStep e event = Some e1 ->
  elementSteps e1 events = Some e2 ->
  state (property e2) = stopped /\ jobCalls e2 = jobCalls e.
Proof.
  intros Hstarted Hevent Hstep Hsteps.
  destruct (started_orderly e Hstarted) as (H1 & H2 & H3 & H4).
  assert (He1 : e1 = unitOfWork false (run (clearTimeout (property e)))
                                (jobCalls e) /\
                inFlight (property e) = 0).
  { destruct Hevent as [-> | [-> Hs]]; simpl in Hstep.
    - destruct (timeout (property e)) eqn:Et; [|discriminate].
      injection Hstep as <-. split; [reflexivity|].
      apply H3, H2. discriminate.
    - rewrite Hs in Hstep. injection Hstep as <-.
      split; [reflexivity | apply H3; exact Hs]. }
  destruct He1 as [-> Hfl].
  assert (Hf : finished (unitOfWork false (run (clearTimeout (property e)))
                                    (jobCalls e))).
  { unfold finished, unitOfWork; simpl. auto. }
  assert (Hone : inFlight (property (unitOfWork false
                                      (run (clearTimeout (property e)))
                                      (jobCalls e))) <= 1).
  { simpl. rewrite Hfl. apply le_n. }
  destruct (finished_elementSteps events _ _ Hone Hf Hsteps)
    as (_ & Hc & Hs).
  split; [apply Hs; reflexivity | exact Hc].
Qed.

Lemma disconnected_element_stops_its_job_witness :
  exists e e2,
    elementSteps (snd (start None true)) [Settles true] = Some e /\
    elementSteps e [TimerFiresOn false; Settles true; CallRunOn true;
                    CallRunOn true] = Some e2 /\
    state (property e2) = stopped /\ jobCalls e2 = 1.
Proof.
  eexists. eexists. split; [reflexivity|]. split; [reflexivity|].
  exact (disconnected_element_stops_its_job _ _ _ (TimerFiresOn false)
           [Settles true; CallRunOn true; CallRunOn true]
           (ex_intro _ None (ex_intro _ true (ex_intro _ [Settles true]
                                                eq_refl)))
           (or_introl eq_refl) eq_refl eq_refl).
Defined.

(** X4. A job started on an element that is not connected and whose
    property is still undefined never calls the caller's [job()], even if
    the element is connected later: its first unit of work throws. With a
    job before it in the property, the new job is left running and calls
    [job()] when its timer fires on the connected element. *)
Theorem job_started_on_a_disconnected_element :
  (forall events e,
     elementSteps (snd (start None false)) events = Some e ->
     jobCalls e = 0 /\ timeout (property e) = None) /\
  (forall previous,
     exists e,
       elementSteps (snd (start (Some previous) false))
         [Settles true; TimerFiresOn true] = Some e /\
       jobCalls e = 1).
Proof.
  split.
  - intros events e H.
    assert (Hf : finished (snd (start None false))).
    { unfold finished, start; simpl. split; [reflexivity|].
      right. split; [discriminate | right; reflexivity]. }
    destruct (finished_elementSteps events (snd (start None false)) e
                (le_n 1) Hf H) as ((Ht & _) & Hc & _).
    split; [exact Hc | exact Ht].
  - intros previous. eexists. split; reflexivity.
Qed.

End ElementBackgroundJobProperties.

(* ================================================================== *)
(** * More properties of the navigation controller *)
(* ================================================================== *)

Module LiveNavigateSlotProperties.

Import LiveNavigate.

(** X9. When a back/forward navigation supersedes a navigation in flight,
    the [finally] block of the superseded call empties the slot
    [liveNavigate.abortController] although the fetch of the back/forward
    navigation is still in flight. The next click or submit, unless the
    user declines the prompt, is then not dropped: it issues a third
    fetch and aborts nothing, so two navigations are in flight. *)
Theorem superseded_navigation_empties_the_slot
    (s : Navigation) (controller : nat) (back next : Request)
    (modified confirmed modified' confirmed' : bool) :
  abortController s = Some controller ->
  negb (inSubmit s) && modified' && negb confirmed' = false ->
  exists s1 s3 prompt,
    liveNavigate back PopStateEvent modified confirmed s = (s1, true) /\
    abortController s1 = Some (controllers s) /\
    abortController (liveNavigate_finally s1) = None /\
    liveNavigate next EventUndefined modified' confirmed'
      (liveNavigate_finally s1) = (s3, true) /\
    abortController s3 = Some (S (controllers s)) /\
    effects s3 =
      effects s1 ++ RemoveProgressBar :: prompt ++
      [InsertProgressBar; StopLiveConnection;
       NewAbortController (S (controllers s));
       Fetch next (S (controllers s))] /\
    (prompt = [] \/ prompt = [Confirm]).
Proof.
  intros Hslot Hprompt. unfold liveNavigate at 1. rewrite Hslot.
  destruct (negb (inSubmit s) && modified') eqn:Easks.
  - eexists. eexists. exists [Confirm].
    split; [reflexivity|]. split; [reflexivity|]. split; [reflexivity|].
    unfold liveNavigate. simpl. rewrite Easks.
    rewrite andb_true_l in Hprompt. rewrite Hprompt.
    split; [reflexivity|]. split; [reflexivity|]. split; [|auto].
    simpl. rewrite <- !app_assoc. reflexivity.
  - eexists. eexists. exists [].
    split; [reflexivity|]. split; [reflexivity|].
    split; [reflexivity|]. unfold liveNavigate. simpl. rewrite Easks.
    split; [reflexivity|]. split; [reflexivity|]. split; [|auto].
    simpl. rewrite <- !app_assoc. reflexivity.
Qed.

Lemma superseded_navigation_empties_the_slot_witness :
  exists s1 s3,
    liveNavigate (mkRequest "/back" "GET") PopStateEvent false false
      in_flight_example = (s1, true) /\
    liveNavigate (mkRequest "/next" "GET") EventUndefined false false
      (liveNavigate_finally s1) = (s3, true) /\
    abortController s3 = Some 2.
Proof.
  destruct (superseded_navigation_empties_the_slot in_flight_example 0
              (mkRequest "/back" "GET") (mkRequest "/next" "GET")
              false false false false eq_refl eq_refl)
    as (s1 & s3 & prompt & H1 & _ & _ & H3 & Hslot & _).
  exists s1, s3. split; [exact H1|]. split; [exact H3 | exact Hslot].
Defined.

End LiveNavigateSlotProperties.

(* ================================================================== *)
(** * Properties of the [state] attribute *)
(* ================================================================== *)

Module StateProperties.

Import DOM State.

(** ** Splitting and joining *)

Lemma split_cons (text : string) :
  exists piece pieces, split text = piece :: pieces.
Proof.
  induction text as [|c rest IH]; simpl.
  - exists "", []. reflexivity.
  - destruct (Ascii.eqb c " "); [eauto|].
    destruct IH as (piece & pieces & ->). eauto.
Qed.

Lemma split_spaceless (text : string) :
  Forall (fun piece => hasSpace piece = false) (split text).
Proof.
  induction text as [|c rest IH]; simpl.
  - repeat constructor.
  - destruct (Ascii.eqb c " ") eqn:E; [constructor; [reflexivity | exact IH]|].
    destruct (split rest) as [|piece pieces].
    + repeat constructor. simpl. rewrite E. reflexivity.
    + inversion IH as [|? ? Hp Hps]; subst. constructor; [|exact Hps].
      simpl. rewrite E. exact Hp.
Qed.

Lemma split_token (token : string) :
  hasSpace token = false -> split token = [token].
Proof.
  induction token as [|c rest IH]; simpl; intros H; [reflexivity|].
  apply orb_false_iff in H. destruct H as [Ec Hrest].
  rewrite Ec, (IH Hrest). reflexivity.
Qed.

Lemma split_append (token text : string) :
  hasSpace token = false ->
  split (token ++ String " " text) = token :: split text.
Proof.
  induction token as [|c rest IH]; simpl; intros H; [reflexivity|].
  apply orb_false_iff in H. destruct H as [Ec Hrest].
  rewrite Ec, (IH Hrest). reflexivity.
Qed.

Lemma join_cons (token : string) (tokens : list string) :
  tokens <> [] ->
  join (token :: tokens) = (token ++ String " " (join tokens))%string.
Proof. destruct tokens; [congruence | reflexivity]. Qed.

(** The tokens of a set joined and split again, with one more string at
    the end: the tokens, then the pieces of the string. *)
Lemma split_join (tokens : list string) (last : string) :
  Forall (fun token => hasSpace token = false) tokens ->
  split (join (tokens ++ [last])) = tokens ++ split last.
Proof.
  induction tokens as [|token tokens IH]; intros H; [reflexivity|].
  inversion H as [|? ? Ht Hts]; subst.
  cbn [app]. rewrite join_cons by (destruct tokens; discriminate).
  rewrite (split_append _ _ Ht), (IH Hts). reflexivity.
Qed.

Lemma nonEmpty_app (xs ys : list string) :
  nonEmpty (xs ++ ys) = nonEmpty xs ++ nonEmpty ys.
Proof. apply filter_app. Qed.

Lemma nonEmpty_id (tokens : list string) :
  Forall (fun token => token <> "") tokens -> nonEmpty tokens = tokens.
Proof.
  induction tokens as [|token tokens IH]; intros H; [reflexivity|].
  inversion H as [|? ? Ht Hts]; subst. unfold nonEmpty in *. simpl.
  destruct (String.eqb token "") eqn:E.
  - apply String.eqb_eq in E. contradiction.
  - simpl. rewrite (IH Hts). reflexivity.
Qed.

Lemma nonEmpty_In (tokens : list string) (token : string) :
  In token (nonEmpty tokens) <-> In token tokens /\ token <> "".
Proof.
  unfold nonEmpty. rewrite filter_In, negb_true_iff. split.
  - intros [H E]. split; [exact H|]. intros ->. discriminate.
  - intros [H E]. split; [exact H|].
    destruct (String.eqb token "") eqn:E'; [|reflexivity].
    apply String.eqb_eq in E'. contradiction.
Qed.

Lemma split_join_tokens (tokens : list string) :
  Forall (fun token => hasSpace token = false) tokens ->
  Forall (fun token => token <> "") tokens ->
  nonEmpty (split (join tokens)) = tokens.
Proof.
  intros Hs Hn.
  destruct tokens as [|token tokens] using rev_ind; [reflexivity|].
  apply Forall_app in Hs. destruct Hs as [Hs Hlast].
  inversion Hlast as [|? ? Ht _]; subst.
  rewrite (split_join _ _ Hs), (split_token _ Ht).
  apply nonEmpty_id. exact Hn.
Qed.

Lemma newSet_id (tokens : list string) :
  NoDup tokens -> newSet tokens = tokens.
Proof.
  unfold newSet.
  assert (H : forall xs set,
             NoDup (set ++ xs) ->
             fold_left (fun set x => if existsb (String.eqb x) set then set
                                     else set ++ [x]) xs set = set ++ xs).
  { induction xs as [|x xs IH]; intros set Hnd; simpl.
    - rewrite app_nil_r. reflexivity.
    - destruct (existsb (String.eqb x) set) eqn:E.
      + apply DOMProperties.existsb_eqb_In in E.
        apply NoDup_remove_2 in Hnd. exfalso. apply Hnd.
        apply in_or_app. left. exact E.
      + rewrite IH; rewrite <- app_assoc; [reflexivity | exact Hnd]. }
  intros Hnd. exact (H tokens [] Hnd).
Qed.

(** ** The set of an element *)

Lemma state_NoDup (element : Element) : NoDup (state element).
Proof. apply DOMProperties.newSet_NoDup. Qed.

Lemma state_wellFormed (element : Element) (token : string) :
  In token (state element) -> token <> "" /\ hasSpace token = false.
Proof.
  unfold state. rewrite DOMProperties.newSet_In, nonEmpty_In.
  intros [H Hne]. split; [exact Hne|].
  pose proof (split_spaceless
                (match getAttribute element "state" with
                 | Some text => text
                 | None => ""
                 end)) as Hs.
  rewrite Forall_forall in Hs. exact (Hs _ H).
Qed.

Lemma state_tokens (element : Element) :
  Forall (fun token => hasSpace token = false) (state element) /\
  Forall (fun token => token <> "") (state element).
Proof.
  split; apply Forall_forall; intros token H;
    apply (state_wellFormed element token H).
Qed.

Lemma state_setAttribute (element : Element) (text : string) :
  state (setAttribute element "state" text) = newSet (nonEmpty (split text)).
Proof.
  unfold state, getAttribute, setAttribute. simpl.
  rewrite DOMProperties.lookup_assign_same. reflexivity.
Qed.

Lemma stateHas_In (tokens : list string) (token : string) :
  stateHas tokens token = true <-> In token tokens.
Proof. apply DOMProperties.existsb_eqb_In. Qed.

Lemma wellFormed_spec (token : string) :
  wellFormed token = true <-> token <> "" /\ hasSpace token = false.
Proof.
  unfold wellFormed. rewrite andb_true_iff, !negb_true_iff. split.
  - intros [H1 H2]. split; [|exact H2]. intros ->. discriminate.
  - intros [H1 H2]. split; [|exact H2].
    destruct (String.eqb token "") eqn:E; [|reflexivity].
    apply String.eqb_eq in E. contradiction.
Qed.

Lemma pieces_wellFormed (token : string) :
  wellFormed token = true -> nonEmpty (split token) = [token].
Proof.
  intros H. apply wellFormed_spec in H. destruct H as [Hne Hs].
  rewrite (split_token _ Hs). apply nonEmpty_id.
  repeat constructor. exact Hne.
Qed.

Lemma pieces_malformed (token : string) :
  wellFormed token = false -> ~ In token (nonEmpty (split token)).
Proof.
  intros H Hin. apply nonEmpty_In in Hin. destruct Hin as [Hin Hne].
  pose proof (split_spaceless token) as Hs. rewrite Forall_forall in Hs.
  assert (Hw : wellFormed token = true).
  { apply wellFormed_spec. split; [exact Hne | exact (Hs _ Hin)]. }
  congruence.
Qed.

(** The set after [state.add(token)] has gone through the attribute. *)
Lemma state_add (element : Element) (token piece : string) :
  In piece (state (setAttribute element "state"
                     (join (add (state element) token)))) <->
  In piece (state element) \/ In piece (nonEmpty (split token)).
Proof.
  rewrite state_setAttribute, DOMProperties.newSet_In.
  destruct (state_tokens element) as [Hs Hn].
  unfold add. destruct (stateHas (state element) token) eqn:E.
  - rewrite (split_join_tokens _ Hs Hn). split; [auto|].
    intros [H|H]; [exact H|].
    apply stateHas_In in E.
    destruct (state_wellFormed element token E) as [Hne Hsp].
    rewrite (pieces_wellFormed token) in H
      by (apply wellFormed_spec; auto).
    destruct H as [<-|[]]. exact E.
  - rewrite (split_join _ _ Hs), nonEmpty_app, (nonEmpty_id _ Hn).
    apply in_app_iff.
Qed.

(** The set after [state.delete(token)] has gone through the attribute. *)
Lemma state_delete (element : Element) (token : string) :
  state (setAttribute element "state" (join (delete (state element) token))) =
  delete (state element) token.
Proof.
  rewrite state_setAttribute.
  destruct (state_tokens element) as [Hs Hn].
  assert (Hs' : Forall (fun t => hasSpace t = false)
                       (delete (state element) token)).
  { apply Forall_forall. intros t H. apply filter_In in H.
    rewrite Forall_forall in Hs. apply Hs, H. }
  assert (Hn' : Forall (fun t => t <> "") (delete (state element) token)).
  { apply Forall_forall. intros t H. apply filter_In in H.
    rewrite Forall_forall in Hn. apply Hn, H. }
  rewrite (split_join_tokens _ Hs' Hn'). apply newSet_id.
  apply NoDup_filter, state_NoDup.
Qed.

Lemma delete_In (tokens : list string) (token member : string) :
  In member (delete tokens token) <-> In member tokens /\ member <> token.
Proof.
  unfold delete. rewrite filter_In, negb_true_iff. split.
  - intros [H E]. split; [exact H|]. intros ->.
    rewrite String.eqb_refl in E. discriminate.
  - intros [H E]. split; [exact H|].
    destruct (String.eqb member token) eqn:E'; [|reflexivity].
    apply String.eqb_eq in E'. contradiction.
Qed.

Lemma getAttribute_setAttribute_other (element : Element)
    (name name' text : string) :
  name' <> name ->
  getAttribute (setAttribute element name text) name' =
  getAttribute element name'.
Proof.
  intros H. unfold getAttribute, setAttribute. simpl.
  apply DOMProperties.lookup_assign_other. exact H.
Qed.

(** X10. [stateAdd()] adds to the state of the element the non-empty
    pieces that the token has between its spaces, and nothing else. The
    token itself is found by [stateContains()] afterwards exactly when it
    is not empty and has no space; the other attributes are untouched. *)
Theorem stateAdd_adds_the_pieces_of_the_token
    (element : Element) (token : string) :
  (forall piece,
     stateContains (stateAdd element token) piece =
     stateContains element piece ||
     stateHas (nonEmpty (split token)) piece) /\
  stateContains (stateAdd element token) token = wellFormed token /\
  (forall name, name <> "state" ->
     getAttribute (stateAdd element token) name = getAttribute element name).
Proof.
  assert (Hadd : forall piece,
             stateContains (stateAdd element token) piece =
             stateContains element piece ||
             stateHas (nonEmpty (split token)) piece).
  { intros piece. apply Bool.eq_iff_eq_true.
    unfold stateContains, stateAdd.
    rewrite orb_true_iff, !stateHas_In. apply state_add. }
  split; [exact Hadd|]. split.
  - rewrite Hadd. destruct (wellFormed token) eqn:E.
    + rewrite (pieces_wellFormed _ E). simpl.
      rewrite String.eqb_refl. apply orb_true_r.
    + apply orb_false_iff. split.
      * destruct (stateContains element token) eqn:Ec; [|reflexivity].
        apply stateHas_In, state_wellFormed, wellFormed_spec in Ec.
        congruence.
      * destruct (stateHas (nonEmpty (split token)) token) eqn:Ec;
          [|reflexivity].
        apply stateHas_In in Ec. destruct (pieces_malformed _ E Ec).
  - intros name H. apply getAttribute_setAttribute_other. exact H.
Qed.

(** X11. After [stateRemove()] the token is not in the state of the
    element, whatever the token and the attribute were, and every other
    token is there exactly if it was; the attribute is left holding the
    remaining tokens, once each, in their order. *)
Theorem stateRemove_removes_the_token_only
    (element : Element) (token : string) :
  state (stateRemove element token) = delete (state element) token /\
  stateContains (stateRemove element token) token = false /\
  (forall other, other <> token ->
     stateContains (stateRemove element token) other =
     stateContains element other).
Proof.
  unfold stateContains, stateRemove. rewrite state_delete.
  split; [reflexivity|]. split.
  - destruct (stateHas (delete (state element) token) token) eqn:E;
      [|reflexivity].
    apply stateHas_In, delete_In in E. destruct E as [_ E].
    contradiction E. reflexivity.
  - intros other H. apply Bool.eq_iff_eq_true.
    rewrite !stateHas_In, delete_In. tauto.
Qed.

(** X12. [stateToggle()] with a token that is not empty and has no space
    flips the answer of [stateContains()] for that token and leaves it
    as it was for every other token. *)
Theorem stateToggle_flips_the_token
    (element : Element) (token : string) :
  wellFormed token = true ->
  stateContains (stateToggle element token) token =
    negb (stateContains element token) /\
  (forall other, other <> token ->
     stateContains (stateToggle element token) other =
     stateContains element other).
Proof.
  intros Hw. unfold stateContains, stateToggle.
  destruct (stateHas (state element) token) eqn:E.
  - rewrite state_delete. split.
    + destruct (stateHas (delete (state element) token) token) eqn:E';
        [|reflexivity].
      apply stateHas_In, delete_In in E'. destruct E' as [_ E'].
      contradiction E'. reflexivity.
    + intros other H. apply Bool.eq_iff_eq_true.
      rewrite !stateHas_In, delete_In. tauto.
  - split.
    + apply stateHas_In, state_add. right.
      rewrite (pieces_wellFormed _ Hw). left. reflexivity.
    + intros other H. apply Bool.eq_iff_eq_true.
      rewrite !stateHas_In, state_add, (pieces_wellFormed _ Hw).
      simpl. split; [|auto]. intros [H'|[H'|[]]]; [exact H'|].
      congruence.
Qed.

Lemma stateToggle_flips_the_token_witness :
  stateContains (stateToggle (element 1 "DIV" [("state", "open wide")])
                   "open") "open" = false /\
  stateContains (stateToggle (element 1 "DIV" [("state", "open wide")])
                   "open") "wide" = true.
Proof.
  destruct (stateToggle_flips_the_token
              (element 1 "DIV" [("state", "open wide")]) "open" eq_refl)
    as [H1 H2].
  split; [exact H1|]. exact (H2 "wide" ltac:(discriminate)).
Defined.

(** ** The state and [morph()] *)

Section LiveConnectionUpdate.

Variable fastMyersDiff : list string -> list string -> list Hunk.

(** X13. The state of an element survives Live Connection updates and
    nothing else: after [morph()] on a Live Connection update the tokens of
    [from] are those it had, unless an element of [parents(from)] pins
    ["state"]; after any other [morph()] they are the tokens of [to]. *)
Theorem state_survives_live_connection_updates
    (fuel : nat) (ancestors : list Element)
    (fromElement toElement : Element) (fromChildNodes toChildNodes : list Node)
    (event : option Event) :
  exists from',
    elementOf (morphed fastMyersDiff (S fuel) ancestors
                 (ElementNode fromElement fromChildNodes)
                 (ElementNode toElement toChildNodes) event) = Some from' /\
    (isLiveConnectionUpdate event = true ->
     notPinned (fromElement :: ancestors) "state" ->
     state from' = state fromElement) /\
    (isLiveConnectionUpdate event = false ->
     state from' = state toElement).
Proof.
  destruct (isLiveConnectionUpdate event && explicitlyFalse fromElement)
    eqn:Eshort.
  - apply andb_true_iff in Eshort. destruct Eshort as [Hpush Hfalse].
    exists fromElement. unfold morphed.
    rewrite (DOMProperties.morph_explicitlyFalse fastMyersDiff _ _ _ _ _ _
               Hpush Hfalse).
    split; [reflexivity|]. split; [reflexivity | congruence].
  - exists (fst (morphElement event ancestors fromElement toElement
                         fromChildNodes toChildNodes)).
    split; [apply DOMProperties.morphed_element; exact Eshort|].
    destruct (DOMProperties.morphElement_spec event ancestors fromElement
                toElement fromChildNodes toChildNodes) as (_ & Hattr & _).
    specialize (Hattr "state"). unfold skipsAttribute in Hattr.
    split.
    + intros Hpush Hnot.
      rewrite Hpush, (DOMProperties.notPinned_pinned _ _ Hnot) in Hattr.
      unfold state. rewrite Hattr. reflexivity.
    + intros Hpush. rewrite Hpush in Hattr.
      unfold state. rewrite Hattr. reflexivity.
Qed.

End LiveConnectionUpdate.

End StateProperties.

(* ================================================================== *)
(** * Properties of the form fields *)
(* ================================================================== *)

Module FormsProperties.

Import DOM Forms.

Lemma Node_induction (P : Node -> Prop) :
  (forall identity nodeValue, P (TextNode identity nodeValue)) ->
  (forall element childNodes,
     Forall P childNodes -> P (ElementNode element childNodes)) ->
  forall node, P node.
Proof.
  intros Htext Helement. fix IH 1.
  intros [element childNodes | identity nodeValue].
  - apply Helement.
    induction childNodes as [|child rest IHrest]; constructor;
      [apply IH | exact IHrest].
  - apply Htext.
Qed.

Lemma existsb_flat_map {A B : Type} (p : B -> bool) (f : A -> list B)
    (xs : list A) :
  existsb p (flat_map f xs) = existsb (fun x => existsb p (f x)) xs.
Proof.
  induction xs as [|x xs IH]; simpl; [reflexivity|].
  rewrite existsb_app, IH. reflexivity.
Qed.

Lemma existsb_pointwise {A : Type} (p q : A -> bool) (xs : list A) :
  Forall (fun x => p x = q x) xs -> existsb p xs = existsb q xs.
Proof.
  induction 1 as [|x xs Hx _ IH]; simpl; [reflexivity|].
  rewrite Hx, IH. reflexivity.
Qed.

(** ** The fields *)

(** [fieldValue] is [element.value]: on a control that is neither a
    checkbox nor a radio button it agrees with [valueOf] on the element
    with its children, when the [defaultValue] of a [textarea] is the
    text of its children. *)
Lemma fieldValue_valueOf (type : Element -> string)
    (defaultValue : Element -> JSValue)
    (element : Element) (childNodes : list Node) :
  checkable type element = false ->
  (tagName element = "TEXTAREA" ->
   defaultValue element = JSString (childTextContent childNodes)) ->
  fieldValue type defaultValue element = valueOf element childNodes.
Proof.
  intros Hplain Hdefault. unfold fieldValue. rewrite Hplain.
  destruct (String.eqb (tagName element) "TEXTAREA") eqn:E.
  - apply String.eqb_eq in E. unfold valueOf, matchesInputTextarea.
    rewrite E. cbn [String.eqb Ascii.eqb Bool.eqb orb].
    destruct (value element); try reflexivity. exact (Hdefault E).
  - apply DOMProperties.valueOf_children. right. intros H.
    rewrite H in E. discriminate.
Qed.

(** ** The flags *)

(** A flag on the element or above it is seen from every element of
    [children(element)]. *)
Lemma flagged_children (b : bool) (node : Node) :
  forall ancestors chain,
    In chain (children ancestors node) ->
    flagged b ancestors = true -> flagged b chain = true.
Proof.
  induction node as [identity nodeValue | element childNodes IH]
    using Node_induction; intros ancestors chain Hin Hflag.
  - destruct Hin.
  - assert (Hself : flagged b (element :: ancestors) = true).
    { unfold flagged in *. rewrite DOMProperties.parents_chain in *.
      simpl. rewrite Hflag. apply orb_true_r. }
    destruct Hin as [<-|Hin]; [exact Hself|].
    apply in_flat_map in Hin. destruct Hin as (child & Hchild & Hin).
    rewrite Forall_forall in IH.
    exact (IH child Hchild (element :: ancestors) chain Hin Hself).
Qed.

Section Fields.

Variable type : Element -> string.
Variable defaultValue defaultChecked : Element -> JSValue.

(** X14. The flags win over the fields. An element of the tree, or above
    it, with [isModified === true] makes [isModified()] answer [true]
    whatever the fields hold. When the element or one above it has
    [isModified === false], the fields are not looked at: the answer is
    [true] only if some element forces it. *)
Theorem isModified_flags_win
    (ancestors : list Element) (element : Element) (childNodes : list Node) :
  (forall chain,
     In chain (children ancestors (ElementNode element childNodes)) ->
     flagged true chain = true ->
     isModified type defaultValue defaultChecked ancestors
                (ElementNode element childNodes) = true) /\
  (flagged false (element :: ancestors) = true ->
   isModified type defaultValue defaultChecked ancestors
              (ElementNode element childNodes) =
   existsb (flagged true)
           (children ancestors (ElementNode element childNodes))).
Proof.
  split.
  - intros chain Hin Hflag. unfold isModified. apply existsb_exists.
    exists chain. split; [exact Hin|]. unfold modifiedAt.
    rewrite Hflag. reflexivity.
  - intros Hflag. unfold isModified. apply existsb_pointwise.
    apply Forall_forall. intros chain Hin. unfold modifiedAt.
    assert (H : flagged false chain = true).
    { destruct Hin as [<-|Hin]; [exact Hflag|].
      apply in_flat_map in Hin. destruct Hin as (child & _ & Hin).
      exact (flagged_children false child _ _ Hin Hflag). }
    rewrite H. destruct chain as [|self rest]; [apply orb_false_r|].
    simpl. rewrite andb_false_r. apply orb_false_r.
Qed.

End Fields.

End FormsProperties.

(* ================================================================== *)
(** * Properties of [mount()] *)
(* ================================================================== *)

Module MountProperties.

Import DOM Mount.

Lemma lookup_nowhere (attrs : list (string * string)) :
  (forall name, lookup name attrs = None) -> attrs = [].
Proof.
  destruct attrs as [|[n v] rest]; [reflexivity|].
  intros H. specialize (H n). simpl in H. rewrite String.eqb_refl in H.
  discriminate.
Qed.

Section Mount.

Variable fastMyersDiff : list string -> list string -> list Hunk.
Variable innerHTML : string -> list Node.
Variable execute :
  Element -> list Node -> option Event -> Element * list Node * Completion.

(** Whatever [morph()] does, an element stays an element. *)
Lemma morph_element (fuel : nat) (ancestors : list Element)
    (element : Element) (childNodes : list Node) (to : Node)
    (event : option Event) :
  exists element' childNodes',
    fst (fst (morph fastMyersDiff fuel ancestors
                (ElementNode element childNodes) to event)) =
    ElementNode element' childNodes'.
Proof.
  destruct fuel as [|fuel]; [simpl; eauto|]. cbn [morph].
  destruct (isLiveConnectionUpdate event && explicitlyFalse element);
    [simpl; eauto|].
  destruct to as [toElement toChildNodes|]; [|simpl; eauto].
  destruct (morphElement event ancestors element toElement
              childNodes toChildNodes) as [element' log].
  destruct (reconcile event childNodes toChildNodes _); [|simpl; eauto].
  destruct (applyPlan _ _ childNodes _) as [[cs l] []];
    try (simpl; eauto).
  destruct (morphPairs _ _ cs l) as [[cs' l'] c']. simpl. eauto.
Qed.

(** X16. An element on which [mount()] has completed is protected from
    Live Connection updates: whatever the scripts did to it, [morph()] on
    such an update returns at once, for any target, and mutates nothing
    of the element or below it. *)
Theorem mounted_element_is_protected
    (fuel : nat) (ancestors : list Element) (element : Element)
    (childNodes : list Node) (created : nat) (content : Content)
    (event : option Event) (mounted : Node) (log : list Mutation) :
  mount fastMyersDiff innerHTML execute fuel ancestors element childNodes
        created content event = (mounted, log, Completed) ->
  forall fuel' ancestors' to event',
    isLiveConnectionUpdate event' = true ->
    morph fastMyersDiff (S fuel') ancestors' mounted to event' =
    (mounted, [], Completed).
Proof.
  unfold mount, mountMorph. intros H fuel' ancestors' to event' Hpush.
  destruct (morph_element fuel ancestors
              (setLiveConnectionUpdate Unset element) childNodes
              (mountContent innerHTML created content) event)
    as (element1 & childNodes1 & Helement).
  destruct (morph fastMyersDiff fuel ancestors
              (ElementNode (setLiveConnectionUpdate Unset element) childNodes)
              (mountContent innerHTML created content) event)
    as [[morphed1 log1] completion1].
  simpl in Helement. subst morphed1.
  destruct completion1; try discriminate.
  destruct (execute element1 childNodes1 event)
    as [[element2 childNodes2] completion2].
  destruct completion2; try discriminate.
  injection H as <- _.
  apply DOMProperties.morph_explicitlyFalse; [exact Hpush | reflexivity].
Qed.

(** X17. [mount()] with markup for content makes the element like the
    [div] that [stringToElements()] wraps the markup in, which has no
    attribute: when the scripts are reached the element has lost every
    attribute, unless the event is a Live Connection update, which keeps
    the protected attributes and those only. The flag that an earlier
    [mount()] left on the element does not stop the morph. *)
Theorem mount_with_markup_strips_the_attributes
    (fuel : nat) (ancestors : list Element) (element : Element)
    (childNodes : list Node) (created : nat) (text : string)
    (event : option Event) :
  exists element' childNodes' log completion,
    mountMorph fastMyersDiff innerHTML (S fuel) ancestors element childNodes
               created (ContentString text) event =
      (ElementNode element' childNodes', log, completion) /\
    (forall name,
       getAttribute element' name =
       if skipsAttribute event
            (setLiveConnectionUpdate Unset element :: ancestors) name
       then getAttribute element name else None) /\
    (isLiveConnectionUpdate event = false -> attributes element' = []).
Proof.
  pose proof (DOMProperties.morphed_element fastMyersDiff fuel ancestors
                (setLiveConnectionUpdate Unset element)
                (DOM.element created "DIV" []) childNodes (innerHTML text)
                event) as Hm.
  assert (Hshort : isLiveConnectionUpdate event &&
                   explicitlyFalse (setLiveConnectionUpdate Unset element) =
                   false) by apply andb_false_r.
  specialize (Hm Hshort). unfold morphed in Hm.
  unfold mountMorph, mountContent, stringToElements.
  destruct (morph fastMyersDiff (S fuel) ancestors
              (ElementNode (setLiveConnectionUpdate Unset element) childNodes)
              (ElementNode (DOM.element created "DIV" []) (innerHTML text))
              event) as [[mounted log] completion].
  simpl in Hm.
  destruct mounted as [element' childNodes'|]; [|discriminate].
  injection Hm as ->.
  exists (fst (morphElement event ancestors
                 (setLiveConnectionUpdate Unset element)
                 (DOM.element created "DIV" [])
                 childNodes (innerHTML text))),
         childNodes', log, completion.
  split; [reflexivity|].
  destruct (DOMProperties.morphElement_spec event ancestors
              (setLiveConnectionUpdate Unset element)
              (DOM.element created "DIV" [])
              childNodes (innerHTML text)) as (_ & Hattr & _).
  split.
  - intros name. rewrite Hattr. reflexivity.
  - intros Hpush. apply lookup_nowhere. intros name.
    specialize (Hattr name). unfold skipsAttribute in Hattr.
    rewrite Hpush in Hattr. exact Hattr.
Qed.

End Mount.

(** The container, mounted before, takes new markup and ends up
    protected again. *)
Lemma mounted_element_is_protected_witness :
  mount lcsDiff helloMarkup noScript 2 [] container [] 20
        (ContentString "Hello") None =
    (ElementNode (setLiveConnectionUpdate (Boolean false)
                    (DOM.element 1 "DIV" []))
                 [TextNode 21 "Hello"],
     [RemoveAttribute 1 "class"; RemoveAttribute 1 "state";
      InsertBefore 1 21 None], Completed) /\
  morph lcsDiff 2 []
        (ElementNode (setLiveConnectionUpdate (Boolean false)
                        (DOM.element 1 "DIV" []))
                     [TextNode 21 "Hello"])
        listABC liveConnectionUpdateEvent =
    (ElementNode (setLiveConnectionUpdate (Boolean false)
                    (DOM.element 1 "DIV" []))
                 [TextNode 21 "Hello"], [], Completed).
Proof.
  split; [reflexivity|].
  exact (mounted_element_is_protected lcsDiff helloMarkup noScript 2 []
           container [] 20 (ContentString "Hello") None _ _ eq_refl
           1 [] listABC liveConnectionUpdateEvent eq_refl).
Defined.

End MountProperties.

(* ================================================================== *)
(** * Properties of [morph()] as a whole *)
(* ================================================================== *)

Module RenderingProperties.

Import DOM Rendering.

(** ** Lists *)

(** Permutations of concatenations of the same lists. *)
Ltac cons_to_app :=
  repeat match goal with
         | |- context [?x :: ?l] =>
             lazymatch l with
             | [] => fail
             | _ => change (x :: l) with ([x] ++ l)
             end
         end.

Ltac perm_front n :=
  lazymatch n with
  | O => fail
  | S ?n' =>
      first [ apply Permutation_app_head
            | (etransitivity; [|apply Permutation_app_comm]);
              rewrite <- ?app_assoc; perm_front n' ]
  end.

Ltac perm_step :=
  lazymatch goal with
  | |- Permutation ?l ?l => reflexivity
  | |- Permutation (_ ++ _) _ => perm_front 12
  end.

Ltac perm :=
  rewrite ?map_app; cbn [map]; cons_to_app;
  rewrite ?map_app, <- ?app_assoc, ?app_nil_r;
  repeat perm_step.

Lemma slice_nil {A : Type} (l : list A) (a : nat) : slice l a a = [].
Proof. unfold slice. rewrite Nat.sub_diag. reflexivity. Qed.

Lemma skipn_nth_error {A : Type} (l : list A) (a : nat) (x : A) :
  nth_error l a = Some x -> skipn a l = x :: skipn (S a) l.
Proof.
  revert a. induction l as [|y l IH]; intros [|a] H; simpl in *;
    try discriminate.
  - injection H as ->. reflexivity.
  - exact (IH a H).
Qed.

Lemma slice_cons {A : Type} (l : list A) (a b : nat) (x : A) :
  nth_error l a = Some x -> a < b -> slice l a b = x :: slice l (S a) b.
Proof.
  intros H Hlt. unfold slice. rewrite (skipn_nth_error l a x H).
  replace (b - a) with (S (b - S a)) by lia. reflexivity.
Qed.

Lemma nth_error_lt {A : Type} (l : list A) (a : nat) :
  a < List.length l -> exists x, nth_error l a = Some x.
Proof.
  intros H. destruct (nth_error l a) as [x|] eqn:E; [eauto|].
  apply nth_error_None in E. lia.
Qed.

Lemma firstn_plus {A : Type} (m n : nat) (l : list A) :
  firstn (m + n) l = firstn m l ++ firstn n (skipn m l).
Proof.
  revert l. induction m as [|m IH]; intros l; [reflexivity|].
  destruct l as [|x l]; simpl; [rewrite firstn_nil; reflexivity|].
  rewrite IH. reflexivity.
Qed.

Lemma slice_app {A : Type} (l : list A) (a b c : nat) :
  a <= b -> b <= c -> slice l a c = slice l a b ++ slice l b c.
Proof.
  intros Hab Hbc. unfold slice.
  replace (c - a) with ((b - a) + (c - b)) by lia.
  rewrite firstn_plus, skipn_skipn.
  replace (b - a + a) with b by lia. reflexivity.
Qed.

Lemma slice_skipn {A : Type} (l : list A) (a : nat) :
  slice l a (List.length l) = skipn a l.
Proof.
  unfold slice. apply firstn_all2. rewrite length_skipn. lia.
Qed.

Lemma skipn_slice {A : Type} (l : list A) (a b : nat) :
  a <= b -> skipn a l = slice l a b ++ skipn b l.
Proof.
  intros H. unfold slice.
  rewrite <- (firstn_skipn (b - a) (skipn a l)) at 1.
  rewrite skipn_skipn. replace (b - a + a) with b by lia. reflexivity.
Qed.

Lemma slice_map {A B : Type} (f : A -> B) (l : list A) (a b : nat) :
  slice (map f l) a b = map f (slice l a b).
Proof. unfold slice. rewrite skipn_map, firstn_map. reflexivity. Qed.

Lemma keys_eqb_eq (xs ys : list string) : keys_eqb xs ys = true -> xs = ys.
Proof.
  revert ys. induction xs as [|x xs IH]; intros [|y ys]; simpl;
    try discriminate; [reflexivity|].
  intros H. apply andb_true_iff in H. destruct H as [E H].
  apply String.eqb_eq in E. rewrite (IH ys H). congruence.
Qed.

(** ** From indices to segments *)

Ltac script_facts H :=
  cbn [editScriptFrom] in H;
  repeat (apply andb_true_iff in H; destruct H as [H ?]);
  repeat match goal with
         | H : (_ <=? _) = true |- _ => apply Nat.leb_le in H
         | H : (_ <? _) = true |- _ => apply Nat.ltb_lt in H
         | H : (_ =? _) = true |- _ => apply Nat.eqb_eq in H
         | H : keys_eqb _ _ = true |- _ => apply keys_eqb_eq in H
         end;
  rewrite ?length_map in *.

Section Plan.

Variable event : option Event.
Variables fromChildNodes toChildNodes : list Node.
Hypothesis reached :
  forall node, In node fromChildNodes ->
    isLiveConnectionUpdate event && nodeExplicitlyFalse node = false.

Lemma collectNodes_slice (len start : nat) (toRemove : ToRemove) :
  start + len <= List.length fromChildNodes ->
  fold_left (collectNode event fromChildNodes) (seq start len)
            (Some toRemove) =
  Some (pushAll toRemove (slice fromChildNodes start (start + len))).
Proof.
  revert start toRemove.
  induction len as [|len IH]; intros start toRemove H.
  - rewrite Nat.add_0_r, slice_nil. reflexivity.
  - destruct (nth_error_lt fromChildNodes start) as [node Hnode]; [lia|].
    cbn [seq fold_left].
    assert (Hstep : collectNode event fromChildNodes (Some toRemove) start =
                    Some (push (key node) node toRemove)).
    { unfold collectNode.
      rewrite Hnode, (reached node (nth_error_In _ _ Hnode)). reflexivity. }
    rewrite Hstep, IH by lia.
    rewrite (slice_cons _ start (start + S len) node Hnode) by lia.
    replace (S start + len) with (start + S len) by lia. reflexivity.
Qed.

Lemma pairUnchanged_slice (n k previousFromEnd previousToEnd : nat)
    (plan : Plan) :
  previousFromEnd + k + n <= List.length fromChildNodes ->
  previousToEnd + k + n <= List.length toChildNodes ->
  fold_left (pairUnchanged fromChildNodes toChildNodes previousFromEnd
               previousToEnd)
            (seq k n) (Some plan) =
  Some (mkPlan (toRemove plan) (toAdd plan)
          (toMorph plan ++
           combine (slice fromChildNodes (previousFromEnd + k)
                          (previousFromEnd + k + n))
                   (slice toChildNodes (previousToEnd + k)
                          (previousToEnd + k + n)))).
Proof.
  revert k plan. induction n as [|n IH]; intros k plan Hfrom Hto.
  - rewrite !Nat.add_0_r, !slice_nil. simpl. rewrite app_nil_r.
    destruct plan; reflexivity.
  - destruct (nth_error_lt fromChildNodes (previousFromEnd + k))
      as [from Hf]; [lia|].
    destruct (nth_error_lt toChildNodes (previousToEnd + k))
      as [to Ht]; [lia|].
    cbn [seq fold_left].
    assert (Hstep : pairUnchanged fromChildNodes toChildNodes previousFromEnd
                      previousToEnd (Some plan) k =
                    Some (mkPlan (toRemove plan) (toAdd plan)
                                 (toMorph plan ++ [(from, to)]))).
    { unfold pairUnchanged. rewrite Hf, Ht. reflexivity. }
    rewrite Hstep, IH by lia. cbn [toRemove toAdd toMorph].
    rewrite (slice_cons _ _ (previousFromEnd + k + S n) from Hf) by lia.
    rewrite (slice_cons _ _ (previousToEnd + k + S n) to Ht) by lia.
    replace (previousFromEnd + S k) with (S (previousFromEnd + k)) by lia.
    replace (previousToEnd + S k) with (S (previousToEnd + k)) by lia.
    replace (S (previousFromEnd + k) + n) with (previousFromEnd + k + S n)
      by lia.
    replace (S (previousToEnd + k) + n) with (previousToEnd + k + S n)
      by lia.
    rewrite <- app_assoc. reflexivity.
Qed.

Lemma resolve_slice (len start fromEnd : nat) (plan : Plan) :
  start + len <= List.length toChildNodes ->
  fold_left (resolve fromChildNodes toChildNodes fromEnd) (seq start len)
            (Some plan) =
  Some (fold_left (resolveNode (nth_error fromChildNodes fromEnd))
                  (slice toChildNodes start (start + len)) plan).
Proof.
  revert start plan. induction len as [|len IH]; intros start plan H.
  - rewrite Nat.add_0_r, slice_nil. reflexivity.
  - destruct (nth_error_lt toChildNodes start) as [to Ht]; [lia|].
    cbn [seq fold_left].
    assert (Hstep : resolve fromChildNodes toChildNodes fromEnd (Some plan)
                      start =
                    Some (resolveNode (nth_error fromChildNodes fromEnd)
                                      plan to)).
    { unfold resolve, resolveNode. rewrite Ht.
      destruct (shift (key to) (toRemove plan)) as [[from|] toRemove'];
        reflexivity. }
    rewrite Hstep, IH by lia.
    rewrite (slice_cons _ start (start + S len) to Ht) by lia.
    replace (S start + len) with (start + S len) by lia. reflexivity.
Qed.

Lemma pushAll_app (toRemove : ToRemove) (xs ys : list Node) :
  pushAll toRemove (xs ++ ys) = pushAll (pushAll toRemove xs) ys.
Proof. apply fold_left_app. Qed.

Lemma collect_segments (hunks : list Hunk) (first : bool) (i j : nat)
    (toRemove : ToRemove) :
  editScriptFrom (map key fromChildNodes) (map key toChildNodes) first i j
                 hunks = true ->
  fold_left (collectHunk event fromChildNodes) hunks (Some toRemove) =
  Some (pushAll toRemove
          (flat_map del (segments fromChildNodes toChildNodes i j hunks))).
Proof.
  revert first i j toRemove.
  induction hunks as [|[[[sx ex] sy] ey] hunks IH];
    intros first i j toRemove H; [reflexivity|].
  script_facts H.
  cbn [fold_left segments flat_map del].
  change (collectHunk event fromChildNodes (Some toRemove) (sx, ex, sy, ey))
    with (fold_left (collectNode event fromChildNodes)
                    (seq sx (ex - sx)) (Some toRemove)).
  rewrite (collectNodes_slice (ex - sx) sx) by lia.
  replace (sx + (ex - sx)) with ex by lia.
  rewrite pushAll_app. eapply IH. eassumption.
Qed.

Lemma plan_segments (hunks : list Hunk) (first : bool) (i j a c : nat)
    (plan : Plan) :
  editScriptFrom (map key fromChildNodes) (map key toChildNodes) first i j
                 hunks = true ->
  let sentinel :=
    (List.length fromChildNodes, List.length fromChildNodes,
     List.length toChildNodes, List.length toChildNodes) in
  fold_left (planHunk fromChildNodes toChildNodes)
    (combine ((a, i, c, j) :: hunks ++ [sentinel]) (hunks ++ [sentinel]))
    (Some plan) =
  Some (fold_left planSegment
          (segments fromChildNodes toChildNodes i j hunks) plan).
Proof.
  intros H sentinel. subst sentinel. revert first i j a c plan H.
  induction hunks as [|[[[sx ex] sy] ey] hunks IH];
    intros first i j a c plan H.
  - script_facts H.
    assert (Hlen : List.length fromChildNodes - i =
                   List.length toChildNodes - j).
    { match goal with
      | Hk : skipn _ _ = skipn _ _ |- _ =>
          apply (f_equal (@List.length string)) in Hk;
          rewrite !length_skipn, !length_map in Hk; exact Hk
      end. }
    cbn [app combine fold_left segments]. unfold planHunk.
    rewrite (pairUnchanged_slice (List.length fromChildNodes - i) 0 i j)
      by lia.
    rewrite Nat.sub_diag. cbn [seq fold_left].
    unfold planSegment. cbn [gap gap' ins anchor fold_left].
    rewrite !Nat.add_0_r.
    replace (i + (List.length fromChildNodes - i))
      with (List.length fromChildNodes) by lia.
    replace (j + (List.length fromChildNodes - i))
      with (List.length toChildNodes) by lia.
    rewrite !slice_skipn. reflexivity.
  - script_facts H.
    assert (Hi : i <= sx /\ (first = false -> i < sx)).
    { match goal with
      | Hf : (if first then _ else _) = true |- _ =>
          destruct first;
          [apply Nat.leb_le in Hf | apply Nat.ltb_lt in Hf];
          split; try lia; discriminate
      end. }
    destruct Hi as [Hi Hstrict].
    cbn [app combine fold_left segments].
    change (planHunk fromChildNodes toChildNodes (Some plan)
              (a, i, c, j, (sx, ex, sy, ey)))
      with (fold_left (resolve fromChildNodes toChildNodes ex)
              (seq sy (ey - sy))
              (fold_left (pairUnchanged fromChildNodes toChildNodes i j)
                 (seq 0 (sx - i)) (Some plan))).
    rewrite (pairUnchanged_slice (sx - i) 0 i j) by lia.
    rewrite (resolve_slice (ey - sy) sy) by lia.
    rewrite !Nat.add_0_r.
    replace (i + (sx - i)) with sx by lia.
    replace (j + (sx - i)) with sy by lia.
    replace (sy + (ey - sy)) with ey by lia.
    apply (IH false ex ey sx sy). assumption.
Qed.

(** What the segments of a script are made of. *)
Lemma segments_spec (hunks : list Hunk) (first : bool) (i j : nat) :
  editScriptFrom (map key fromChildNodes) (map key toChildNodes) first i j
                 hunks = true ->
  let segs := segments fromChildNodes toChildNodes i j hunks in
  skipn i fromChildNodes = flat_map (fun s => gap s ++ del s) segs /\
  skipn j toChildNodes = flat_map (fun s => gap' s ++ ins s) segs /\
  Forall (fun s => map key (gap s) = map key (gap' s)) segs /\
  anchored segs /\
  hd_error (flat_map gap segs) =
    (if first then hd_error (flat_map gap segs)
     else nth_error fromChildNodes i).
Proof.
  revert first i j.
  induction hunks as [|[[[sx ex] sy] ey] hunks IH]; intros first i j H.
  - script_facts H. cbn [segments flat_map gap gap' del ins app].
    rewrite !app_nil_r. split; [reflexivity|]. split; [reflexivity|].
    split; [|split].
    + repeat constructor. cbn [gap gap']. rewrite <- !skipn_map.
      assumption.
    + simpl. auto.
    + destruct first; [reflexivity|]. apply hd_error_skipn.
  - script_facts H.
    assert (Hi : i <= sx /\ (first = false -> i < sx)).
    { match goal with
      | Hf : (if first then _ else _) = true |- _ =>
          destruct first;
          [apply Nat.leb_le in Hf | apply Nat.ltb_lt in Hf];
          split; try lia; discriminate
      end. }
    destruct Hi as [Hi Hstrict].
    destruct (IH false ex ey ltac:(assumption))
      as (Hfrom & Hto & Hkeys & Hanchored & Hhd).
    cbn zeta in *. cbn [segments flat_map gap gap' del ins anchor].
    split; [|split; [|split; [|split]]].
    + rewrite <- Hfrom, <- app_assoc.
      rewrite (skipn_slice fromChildNodes i sx) by lia.
      rewrite (skipn_slice fromChildNodes sx ex) by lia. reflexivity.
    + rewrite <- Hto, <- app_assoc.
      rewrite (skipn_slice toChildNodes j sy) by lia.
      rewrite (skipn_slice toChildNodes sy ey) by lia. reflexivity.
    + constructor; [|exact Hkeys]. cbn [gap gap'].
      rewrite <- !slice_map. assumption.
    + split; [|exact Hanchored]. right. cbn [anchor]. symmetry. exact Hhd.
    + destruct first; [reflexivity|].
      assert (Hlt : i < sx) by (apply Hstrict; reflexivity).
      destruct (nth_error_lt fromChildNodes i) as [x Hx]; [lia|].
      rewrite (slice_cons _ i sx x Hx Hlt). rewrite Hx. reflexivity.
Qed.

End Plan.

(** ** The queues *)

Lemma push_Permutation (k : string) (node : Node) (toRemove : ToRemove) :
  Permutation (members (push k node toRemove)) (node :: members toRemove).
Proof.
  unfold members. induction toRemove as [|[k0 nodes] rest IH]; simpl.
  - reflexivity.
  - destruct (String.eqb k0 k); simpl.
    + rewrite <- app_assoc. simpl.
      apply Permutation_sym, Permutation_middle.
    + rewrite IH. apply Permutation_sym, Permutation_middle.
Qed.

Lemma pushAll_Permutation (nodes : list Node) (toRemove : ToRemove) :
  Permutation (members (pushAll toRemove nodes)) (members toRemove ++ nodes).
Proof.
  revert toRemove. induction nodes as [|node nodes IH]; intros toRemove.
  - rewrite app_nil_r. reflexivity.
  - cbn [pushAll fold_left].
    fold (pushAll (push (key node) node toRemove) nodes).
    rewrite IH, push_Permutation. simpl.
    apply Permutation_middle.
Qed.

Lemma push_entrywise (node : Node) (toRemove : ToRemove) :
  entrywise toRemove -> entrywise (push (key node) node toRemove).
Proof.
  unfold entrywise.
  induction toRemove as [|[k0 nodes] rest IH]; simpl; intros H k ns n.
  - intros [E|[]] Hn. injection E as <- <-. destruct Hn as [<-|[]].
    reflexivity.
  - destruct (String.eqb k0 (key node)) eqn:E.
    + apply String.eqb_eq in E. subst k0.
      intros [E'|Hin] Hn.
      * injection E' as <- <-. apply in_app_iff in Hn.
        destruct Hn as [Hn|[<-|[]]]; [|reflexivity].
        apply (H (key node) nodes n); auto.
      * apply (H k ns n); auto.
    + intros [E'|Hin] Hn.
      * injection E' as <- <-. apply (H k0 nodes n); auto.
      * apply IH with (nodes := ns); auto.
        intros k' ns' n' Hin' Hn'. apply (H k' ns' n'); auto.
Qed.

Lemma pushAll_entrywise (nodes : list Node) (toRemove : ToRemove) :
  entrywise toRemove -> entrywise (pushAll toRemove nodes).
Proof.
  revert toRemove. induction nodes as [|node nodes IH]; intros toRemove H.
  - exact H.
  - cbn [pushAll fold_left]. apply IH, push_entrywise, H.
Qed.

Lemma shift_Some (k : string) (toRemove toRemove' : ToRemove)
    (node : Node) :
  entrywise toRemove ->
  shift k toRemove = (Some node, toRemove') ->
  key node = k /\ entrywise toRemove' /\
  Permutation (members toRemove) (node :: members toRemove').
Proof.
  unfold members. revert toRemove'.
  induction toRemove as [|[k0 nodes] rest IH]; simpl; intros toRemove' He H.
  - discriminate.
  - destruct (String.eqb k0 k) eqn:E.
    + apply String.eqb_eq in E. subst k0.
      destruct nodes as [|n nodes']; [discriminate|].
      injection H as <- <-. split; [|split].
      * apply (He k (n :: nodes') n); simpl; auto.
      * intros k' ns n' [E'|Hin] Hn.
        -- injection E' as <- <-. apply (He k (n :: nodes') n'); simpl; auto.
        -- apply (He k' ns n'); simpl; auto.
      * reflexivity.
    + destruct (shift k rest) as [r rest'] eqn:Es.
      injection H as -> <-.
      assert (He' : entrywise rest).
      { intros k' ns n' Hin Hn. apply (He k' ns n'); simpl; auto. }
      destruct (IH rest' He' eq_refl) as (Hk & Hent & Hperm).
      split; [exact Hk|]. split.
      * intros k' ns n' [E'|Hin] Hn.
        -- injection E' as <- <-. apply (He k0 nodes n'); simpl; auto.
        -- apply (Hent k' ns n'); auto.
      * simpl. rewrite Hperm. apply Permutation_sym, Permutation_middle.
Qed.

(** ** What the planning keeps true *)

Lemma combine_fst {A B : Type} (xs : list A) (ys : list B) :
  List.length xs = List.length ys -> map fst (combine xs ys) = xs.
Proof.
  revert ys. induction xs as [|x xs IH]; intros [|y ys] H; simpl in *;
    try discriminate; [reflexivity|].
  rewrite IH by lia. reflexivity.
Qed.

Lemma combine_keys (xs ys : list Node) (x y : Node) :
  map key xs = map key ys -> In (x, y) (combine xs ys) -> key x = key y.
Proof.
  revert ys. induction xs as [|x0 xs IH]; intros [|y0 ys] H Hin; simpl in *;
    try contradiction.
  injection H as Hk H. destruct Hin as [E|Hin].
  - injection E as <- <-. exact Hk.
  - exact (IH ys H Hin).
Qed.

Lemma Permutation_taken {A : Type} (xs qs ts : list A) (f t : A) :
  Permutation (xs ++ (f :: qs) ++ t :: ts) (t :: (xs ++ [f]) ++ qs ++ ts).
Proof.
  transitivity (t :: (xs ++ f :: qs) ++ ts).
  - rewrite (app_assoc xs). apply Permutation_sym, Permutation_middle.
  - rewrite <- !app_assoc. reflexivity.
Qed.

Lemma Permutation_kept {A : Type} (xs qs ts : list A) (t : A) :
  Permutation (xs ++ qs ++ t :: ts) ((xs ++ [t]) ++ qs ++ ts).
Proof.
  rewrite <- app_assoc. apply Permutation_app_head. simpl.
  apply Permutation_sym, Permutation_middle.
Qed.

Lemma Permutation_paired {A : Type} (ms qs gs rest : list A) :
  Permutation (ms ++ qs ++ gs ++ rest) ((ms ++ gs) ++ qs ++ rest).
Proof.
  rewrite <- app_assoc. apply Permutation_app_head.
  rewrite !app_assoc. apply Permutation_app_tail, Permutation_app_comm.
Qed.

Section Planned.

Variables fromChildNodes toChildNodes deleted : list Node.
Hypothesis deleted_children : incl deleted fromChildNodes.

Lemma planned_gaps (plan : Plan) (g g' gaps inserts : list Node) :
  planned fromChildNodes toChildNodes deleted plan (g ++ gaps) inserts ->
  map key g = map key g' ->
  incl g fromChildNodes -> incl g' toChildNodes ->
  planned fromChildNodes toChildNodes deleted
    (mkPlan (toRemove plan) (toAdd plan) (toMorph plan ++ combine g g'))
    gaps inserts.
Proof.
  intros (He & Hadd & Hmorph & HA & Hq & Hd & HM) Hkeys Hg Hg'.
  assert (Hlen : List.length g = List.length g').
  { apply (f_equal (@List.length string)) in Hkeys.
    rewrite !length_map in Hkeys. exact Hkeys. }
  unfold planned. cbn [toRemove toAdd toMorph].
  split; [exact He|]. split; [exact Hadd|]. split; [|split; [exact HA|]].
  - rewrite (map_app fst), (combine_fst _ _ Hlen).
    eapply Permutation_NoDup; [|exact Hmorph].
    apply Permutation_map, Permutation_paired.
  - split; [exact Hq|]. split; [exact Hd|].
    intros from to Hin. apply in_app_iff in Hin. destruct Hin as [Hin|Hin].
    + exact (HM from to Hin).
    + split; [|split].
      * apply Hg. exact (in_combine_l _ _ _ _ Hin).
      * apply Hg'. exact (in_combine_r _ _ _ _ Hin).
      * exact (combine_keys _ _ _ _ Hkeys Hin).
Qed.

Lemma planned_resolve (plan : Plan) (nodeAfter : option Node) (to : Node)
    (gaps inserts : list Node) :
  planned fromChildNodes toChildNodes deleted plan gaps (to :: inserts) ->
  In to toChildNodes ->
  planned fromChildNodes toChildNodes deleted (resolveNode nodeAfter plan to)
          gaps inserts.
Proof.
  intros (He & Hadd & Hmorph & HA & Hq & Hd & HM) Hto.
  unfold resolveNode.
  destruct (shift (key to) (toRemove plan)) as [[from|] toRemove'] eqn:Es.
  - destruct (shift_Some _ _ _ _ He Es) as (Hkey & He' & Hperm).
    assert (Hfrom : In from (members (toRemove plan))).
    { eapply Permutation_in; [apply Permutation_sym; exact Hperm|].
      left. reflexivity. }
    unfold planned. cbn [toRemove toAdd toMorph].
    split; [exact He'|]. split; [|split; [|split; [|split; [|split]]]].
    + rewrite (map_app fst). cbn [map fst].
      assert (Hp : Permutation
                     (map fst (toAdd plan) ++ members (toRemove plan) ++
                      to :: inserts)
                     (to :: (map fst (toAdd plan) ++ [from]) ++
                      members toRemove' ++ inserts)).
      { transitivity (map fst (toAdd plan) ++ (from :: members toRemove') ++
                      to :: inserts).
        - apply Permutation_app_head, Permutation_app_tail, Hperm.
        - apply Permutation_taken. }
      pose proof (Permutation_NoDup (Permutation_map nodeIdentity Hp) Hadd)
        as Hnd.
      inversion Hnd; assumption.
    + rewrite (map_app fst). cbn [map fst].
      eapply Permutation_NoDup; [|exact Hmorph].
      apply Permutation_map.
      transitivity (map fst (toMorph plan) ++ (from :: members toRemove') ++
                    gaps).
      * apply Permutation_app_head, Permutation_app_tail, Hperm.
      * rewrite <- !app_assoc. reflexivity.
    + intros node Hin. rewrite map_app in Hin. apply in_app_iff in Hin.
      destruct Hin as [Hin|[<-|[]]]; [exact (HA node Hin)|].
      left. exact (Hq from Hfrom).
    + intros node Hin. apply Hq.
      eapply Permutation_in; [apply Permutation_sym; exact Hperm|].
      right. exact Hin.
    + intros node Hin. rewrite map_app, in_app_iff. cbn [map fst In].
      destruct (Hd node Hin) as [H|H]; [auto|].
      apply (Permutation_in _ Hperm) in H. destruct H as [<-|H]; auto.
    + intros f t Hin. apply in_app_iff in Hin.
      destruct Hin as [Hin|[E|[]]]; [exact (HM f t Hin)|].
      injection E as <- <-. split; [|split; [exact Hto | exact Hkey]].
      apply deleted_children, Hq, Hfrom.
  - rewrite (DOMProperties.shift_None _ _ _ Es).
    unfold planned. cbn [toRemove toAdd toMorph].
    split; [exact He|]. split; [|split; [exact Hmorph|]].
    + rewrite (map_app fst). cbn [map fst].
      eapply Permutation_NoDup; [|exact Hadd].
      apply Permutation_map, Permutation_kept.
    + split; [|split; [exact Hq|split; [|exact HM]]].
      * intros node Hin. rewrite map_app in Hin. apply in_app_iff in Hin.
        destruct Hin as [Hin|[<-|[]]]; [exact (HA node Hin)|]. auto.
      * intros node Hin. rewrite map_app, in_app_iff.
        destruct (Hd node Hin); auto.
Qed.

Lemma planned_resolveNodes (nodeAfter : option Node) (inserted : list Node)
    (plan : Plan) (gaps inserts : list Node) :
  planned fromChildNodes toChildNodes deleted plan gaps
          (inserted ++ inserts) ->
  incl inserted toChildNodes ->
  planned fromChildNodes toChildNodes deleted
          (fold_left (resolveNode nodeAfter) inserted plan) gaps inserts.
Proof.
  revert plan. induction inserted as [|to inserted IH]; intros plan H Hin.
  - exact H.
  - cbn [fold_left]. apply IH.
    + apply planned_resolve; [exact H | apply Hin; left; reflexivity].
    + intros n Hn. apply Hin. right. exact Hn.
Qed.

Lemma planned_segments (segs : list Segment) (plan : Plan) :
  planned fromChildNodes toChildNodes deleted plan
          (flat_map gap segs) (flat_map ins segs) ->
  Forall (within fromChildNodes toChildNodes) segs ->
  planned fromChildNodes toChildNodes deleted
          (fold_left planSegment segs plan) [] [].
Proof.
  revert plan. induction segs as [|s segs IH]; intros plan H Hw.
  - exact H.
  - inversion Hw as [|? ? (Hk & Hg & Hg' & Hi) Hw']; subst.
    cbn [fold_left flat_map] in *. apply IH; [|exact Hw'].
    unfold planSegment. apply planned_resolveNodes; [|exact Hi].
    apply planned_gaps; assumption.
Qed.

End Planned.

(** ** Where the plan puts the children *)

Lemma status_incl (toMorph toMorph' : list (Node * Node)) (node to : Node) :
  incl toMorph toMorph' -> status toMorph node to -> status toMorph' node to.
Proof. intros H [E|[Hin Hk]]; [left; exact E | right; auto]. Qed.

Lemma resolveNodes_layout (nodeAfter : option Node) (inserted : list Node)
    (plan : Plan) :
  entrywise (toRemove plan) ->
  exists adds pairs,
    toAdd (fold_left (resolveNode nodeAfter) inserted plan) =
      toAdd plan ++ map (fun node => (node, nodeAfter)) adds /\
    toMorph (fold_left (resolveNode nodeAfter) inserted plan) =
      toMorph plan ++ pairs /\
    entrywise (toRemove (fold_left (resolveNode nodeAfter) inserted plan)) /\
    Forall2 (status pairs) adds inserted.
Proof.
  revert plan. induction inserted as [|to inserted IH]; intros plan He.
  - exists [], []. simpl. rewrite !app_nil_r. auto.
  - cbn [fold_left]. unfold resolveNode at 2 4 6.
    destruct (shift (key to) (toRemove plan)) as [[from|] toRemove'] eqn:Es.
    + destruct (shift_Some _ _ _ _ He Es) as (Hkey & He' & _).
      destruct (IH (mkPlan toRemove' (toAdd plan ++ [(from, nodeAfter)])
                           (toMorph plan ++ [(from, to)])) He')
        as (adds & pairs & HA & HM & Hent & Hst).
      exists (from :: adds), ((from, to) :: pairs).
      rewrite HA, HM. cbn [toAdd toMorph map]. rewrite <- !app_assoc.
      split; [reflexivity|]. split; [reflexivity|]. split; [exact Hent|].
      constructor.
      * right. split; [left; reflexivity | exact Hkey].
      * eapply Forall2_impl; [|exact Hst].
        intros n t. apply status_incl. intros x Hx. right. exact Hx.
    + rewrite (DOMProperties.shift_None _ _ _ Es) in *.
      destruct (IH (mkPlan (toRemove plan) (toAdd plan ++ [(to, nodeAfter)])
                           (toMorph plan)) He)
        as (adds & pairs & HA & HM & Hent & Hst).
      exists (to :: adds), pairs.
      rewrite HA, HM. cbn [toAdd toMorph map]. rewrite <- !app_assoc.
      split; [reflexivity|]. split; [reflexivity|]. split; [exact Hent|].
      constructor; [left; reflexivity | exact Hst].
Qed.

Lemma segments_layout (segs : list Segment) (plan : Plan) :
  entrywise (toRemove plan) ->
  exists addss pairs,
    toAdd (fold_left planSegment segs plan) =
      toAdd plan ++ additions segs addss /\
    toMorph (fold_left planSegment segs plan) = toMorph plan ++ pairs /\
    Forall2 (fun s adds =>
               Forall2 (status pairs) adds (ins s) /\
               incl (combine (gap s) (gap' s)) pairs)
            segs addss.
Proof.
  revert plan. induction segs as [|s segs IH]; intros plan He.
  - exists [], []. simpl. rewrite !app_nil_r. auto.
  - cbn [fold_left]. unfold planSegment at 2 4.
    destruct (resolveNodes_layout (anchor s) (ins s)
                (mkPlan (toRemove plan) (toAdd plan)
                        (toMorph plan ++ combine (gap s) (gap' s))) He)
      as (adds & pairs1 & HA1 & HM1 & He1 & Hst1).
    destruct (IH _ He1) as (addss & pairs2 & HA & HM & Hall).
    exists (adds :: addss), (combine (gap s) (gap' s) ++ pairs1 ++ pairs2).
    rewrite HA, HM, HA1, HM1. cbn [toAdd toMorph].
    unfold additions. cbn [combine flat_map fst snd].
    rewrite <- !app_assoc. split; [reflexivity|]. split; [reflexivity|].
    constructor.
    + split.
      * eapply Forall2_impl; [|exact Hst1].
        intros n t. apply status_incl. intros x Hx.
        apply in_or_app. right. apply in_or_app. left. exact Hx.
      * intros x Hx. apply in_or_app. left. exact Hx.
    + eapply Forall2_impl; [|exact Hall].
      intros s' adds' [H1 H2]. split.
      * eapply Forall2_impl; [|exact H1].
        intros n t. apply status_incl. intros x Hx.
        apply in_or_app. right. apply in_or_app. right. exact Hx.
      * intros x Hx. apply in_or_app. right. apply in_or_app. right.
        apply H2. exact Hx.
Qed.

Lemma gap_status (pairs : list (Node * Node)) (g g' : list Node) :
  map key g = map key g' -> incl (combine g g') pairs ->
  Forall2 (status pairs) g g'.
Proof.
  revert g'. induction g as [|x g IH]; intros [|y g'] Hk Hin; simpl in *;
    try discriminate; [constructor|].
  injection Hk as Hxy Hk. constructor.
  - right. split; [apply Hin; left; reflexivity | exact Hxy].
  - apply IH; [exact Hk|]. intros p Hp. apply Hin. right. exact Hp.
Qed.

Lemma expected_status (pairs : list (Node * Node)) (segs : list Segment)
    (addss : list (list Node)) :
  Forall (fun s => map key (gap s) = map key (gap' s)) segs ->
  Forall2 (fun s adds =>
             Forall2 (status pairs) adds (ins s) /\
             incl (combine (gap s) (gap' s)) pairs)
          segs addss ->
  Forall2 (status pairs) (expected segs addss)
          (flat_map (fun s => gap' s ++ ins s) segs).
Proof.
  intros Hk Hall. induction Hall as [|s adds segs addss [H1 H2] _ IH].
  - constructor.
  - inversion Hk as [|? ? Hks Hk']; subst.
    unfold expected. cbn [combine flat_map fst snd].
    rewrite <- !app_assoc. apply Forall2_app; [apply gap_status; assumption|].
    apply Forall2_app; [exact H1 | exact (IH Hk')].
Qed.

(** ** Lines 409 to 411 on children that are distinct node objects *)

Lemma among_In (nodes : list Node) (node : Node) :
  among nodes node = true <->
  In (nodeIdentity node) (map nodeIdentity nodes).
Proof.
  unfold among. rewrite existsb_exists, in_map_iff. split.
  - intros (x & Hx & E). apply Nat.eqb_eq in E. eauto.
  - intros (x & E & Hx). exists x. split; [exact Hx|].
    apply Nat.eqb_eq. exact E.
Qed.

Lemma among_false (nodes : list Node) (node : Node) :
  among nodes node = false <->
  ~ In (nodeIdentity node) (map nodeIdentity nodes).
Proof.
  rewrite <- among_In. split.
  - intros H. rewrite H. discriminate.
  - intros H. destruct (among nodes node); [|reflexivity].
    exfalso. apply H. reflexivity.
Qed.

Lemma filter_all {A : Type} (f : A -> bool) (l : list A) :
  (forall x, In x l -> f x = true) -> filter f l = l.
Proof.
  induction l as [|x l IH]; intros H; simpl; [reflexivity|].
  rewrite (H x) by (left; reflexivity). rewrite IH; [reflexivity|].
  intros y Hy. apply H. right. exact Hy.
Qed.

Lemma filter_filter {A : Type} (f g : A -> bool) (l : list A) :
  filter f (filter g l) = filter (fun x => g x && f x) l.
Proof.
  induction l as [|x l IH]; simpl; [reflexivity|].
  destruct (g x); simpl; [destruct (f x)|]; rewrite IH; reflexivity.
Qed.

Lemma NoDup_identities_filter (f : Node -> bool) (l : list Node) :
  NoDup (map nodeIdentity l) -> NoDup (map nodeIdentity (filter f l)).
Proof.
  induction l as [|x l IH]; simpl; intros H; [constructor|].
  inversion H as [|? ? Hx Hl]; subst.
  destruct (f x); simpl; [|exact (IH Hl)].
  constructor; [|exact (IH Hl)].
  intros Hin. apply Hx. apply in_map_iff in Hin.
  destruct Hin as (y & E & Hy). apply filter_In in Hy.
  apply in_map_iff. exists y. tauto.
Qed.

Lemma removeChild_absent (childNodes : list Node) (node : nat) :
  ~ In node (map nodeIdentity childNodes) ->
  removeChild childNodes node = None.
Proof.
  induction childNodes as [|child rest IH]; simpl; intros H; [reflexivity|].
  destruct (nodeIdentity child =? node) eqn:E.
  - apply Nat.eqb_eq in E. tauto.
  - rewrite IH by tauto. reflexivity.
Qed.

Lemma removeChild_filter (childNodes : list Node) (node : nat) :
  NoDup (map nodeIdentity childNodes) ->
  In node (map nodeIdentity childNodes) ->
  removeChild childNodes node =
  Some (filter (fun child => negb (nodeIdentity child =? node)) childNodes).
Proof.
  induction childNodes as [|child rest IH]; simpl; intros Hnd Hin;
    [contradiction|].
  inversion Hnd as [|? ? Hchild Hrest]; subst.
  destruct (nodeIdentity child =? node) eqn:E; simpl.
  - apply Nat.eqb_eq in E. subst node. rewrite filter_all; [reflexivity|].
    intros x Hx. apply negb_true_iff, Nat.eqb_neq. intros Heq.
    apply Hchild. rewrite <- Heq. apply in_map. exact Hx.
  - rewrite IH; [reflexivity | exact Hrest |].
    destruct Hin as [Heq|Hin]; [|exact Hin].
    apply Nat.eqb_neq in E. contradiction.
Qed.

Lemma detach_filter (childNodes : list Node) (node : nat) :
  NoDup (map nodeIdentity childNodes) ->
  detach childNodes node =
  filter (fun child => negb (nodeIdentity child =? node)) childNodes.
Proof.
  intros Hnd. unfold detach.
  destruct (in_dec Nat.eq_dec node (map nodeIdentity childNodes)) as [Hin|Hin].
  - rewrite (removeChild_filter _ _ Hnd Hin). reflexivity.
  - rewrite (removeChild_absent _ _ Hin). symmetry. apply filter_all.
    intros x Hx. apply negb_true_iff, Nat.eqb_neq. intros Heq.
    apply Hin. rewrite <- Heq. apply in_map. exact Hx.
Qed.

Lemma removeChildren_filter (parent : nat) (nodes childNodes : list Node)
    (log : list Mutation) :
  NoDup (map nodeIdentity childNodes) ->
  NoDup (map nodeIdentity nodes) ->
  (forall node, In node nodes ->
     In (nodeIdentity node) (map nodeIdentity childNodes)) ->
  exists log',
    removeChildren parent nodes childNodes log =
    (filter (fun child => negb (among nodes child)) childNodes, log',
     Completed).
Proof.
  revert childNodes log.
  induction nodes as [|node nodes IH]; intros childNodes log Hnd Hns Hin.
  - exists log. simpl. rewrite filter_all; [reflexivity|]. reflexivity.
  - inversion Hns as [|? ? Hnode Hns']; subst.
    cbn [removeChildren].
    rewrite (removeChild_filter _ _ Hnd (Hin node (or_introl eq_refl))).
    destruct (IH (filter (fun child =>
                            negb (nodeIdentity child =? nodeIdentity node))
                         childNodes)
                 (log ++ [RemoveChild parent (nodeIdentity node)])
                 (NoDup_identities_filter _ _ Hnd) Hns') as [log' Hlog'].
    + intros n Hn. specialize (Hin n (or_intror Hn)).
      apply in_map_iff in Hin. destruct Hin as (c & E & Hc).
      apply in_map_iff. exists c. split; [exact E|].
      apply filter_In. split; [exact Hc|].
      apply negb_true_iff, Nat.eqb_neq. intros Heq. apply Hnode.
      rewrite <- Heq, E. apply in_map. exact Hn.
    + exists log'. rewrite Hlog', filter_filter. f_equal. f_equal.
      apply filter_ext. intros c. unfold among. cbn [existsb].
      rewrite negb_orb, (Nat.eqb_sym (nodeIdentity node)). reflexivity.
Qed.

Lemma filter_insertAt (f : Node -> bool) (childNodes : list Node)
    (node : Node) (reference : nat) :
  f node = true ->
  (forall child, In child childNodes ->
     nodeIdentity child = reference -> f child = true) ->
  filter f (insertAt childNodes node reference) =
  insertAt (filter f childNodes) node reference.
Proof.
  intros Hnode.
  induction childNodes as [|child rest IH]; intros Href; simpl.
  - rewrite Hnode. reflexivity.
  - assert (Hrest : forall c, In c rest -> nodeIdentity c = reference ->
                              f c = true).
    { intros c Hc. apply Href. right. exact Hc. }
    destruct (nodeIdentity child =? reference) eqn:E.
    + assert (Hchild : f child = true).
      { apply Href; [left; reflexivity | apply Nat.eqb_eq; exact E]. }
      simpl. rewrite Hnode, Hchild. simpl. rewrite E. reflexivity.
    + simpl. destruct (f child); simpl; rewrite ?E, (IH Hrest); reflexivity.
Qed.

Lemma insertAt_Permutation (childNodes : list Node) (node : Node)
    (reference : nat) :
  Permutation (insertAt childNodes node reference) (node :: childNodes).
Proof.
  induction childNodes as [|child rest IH]; simpl; [reflexivity|].
  destruct (nodeIdentity child =? reference); [reflexivity|].
  rewrite IH. apply perm_swap.
Qed.

Lemma insertAt_In (childNodes : list Node) (node other : Node)
    (reference : nat) :
  In other childNodes -> In other (insertAt childNodes node reference).
Proof.
  intros H. eapply Permutation_in;
    [apply Permutation_sym, insertAt_Permutation|].
  right. exact H.
Qed.

Lemma among_cons (node : Node) (nodes : list Node) (other : Node) :
  among (node :: nodes) other =
  (nodeIdentity node =? nodeIdentity other) || among nodes other.
Proof. reflexivity. Qed.

Lemma among_identity (nodes : list Node) (node other : Node) :
  nodeIdentity node = nodeIdentity other ->
  among nodes node = among nodes other.
Proof. intros H. unfold among. rewrite H. reflexivity. Qed.

(** The nodes of [toAdd] go one by one in front of their [nodeAfter]; a
    node that is among the children already is moved. *)
Lemma insertChildren_placed (parent : nat) (toAdd : list (Node * option Node))
    (childNodes base : list Node) (log : list Mutation) :
  NoDup (map nodeIdentity childNodes) ->
  NoDup (map nodeIdentity (map fst toAdd)) ->
  filter (fun child => negb (among (map fst toAdd) child)) childNodes = base ->
  (forall node nodeAfter, In (node, Some nodeAfter) toAdd ->
     In nodeAfter base /\ among (map fst toAdd) nodeAfter = false) ->
  exists log',
    insertChildren parent toAdd childNodes log =
    (placed toAdd base, log', Completed).
Proof.
  revert childNodes base log.
  induction toAdd as [|[node nodeAfter] toAdd IH];
    intros childNodes base log Hnd Hadd Hbase Hanchor.
  - exists log. simpl. rewrite <- Hbase, filter_all; reflexivity.
  - cbn [map fst] in *. apply NoDup_cons_iff in Hadd.
    destruct Hadd as [Hnode Hadd'].
    assert (Hfresh : among (map fst toAdd) node = false).
    { apply among_false. exact Hnode. }
    assert (Hdetach :
              filter (fun child => negb (among (map fst toAdd) child))
                     (detach childNodes (nodeIdentity node)) =
              filter (fun child => negb (among (node :: map fst toAdd) child))
                     childNodes).
    { rewrite (detach_filter _ _ Hnd), filter_filter. apply filter_ext.
      intros c. rewrite among_cons, negb_orb, (Nat.eqb_sym (nodeIdentity node)).
      reflexivity. }
    assert (Hnd' : NoDup (map nodeIdentity
                            (detach childNodes (nodeIdentity node)))).
    { rewrite (detach_filter _ _ Hnd). apply NoDup_identities_filter, Hnd. }
    assert (Hout : ~ In (nodeIdentity node)
                        (map nodeIdentity
                           (detach childNodes (nodeIdentity node)))).
    { rewrite (detach_filter _ _ Hnd). intros Hin.
      apply in_map_iff in Hin. destruct Hin as (c & E & Hc).
      apply filter_In in Hc. destruct Hc as [_ Hc].
      apply negb_true_iff, Nat.eqb_neq in Hc. contradiction. }
    cbn [insertChildren placed fold_left].
    destruct nodeAfter as [nodeAfter|].
    + destruct (Hanchor node nodeAfter (or_introl eq_refl)) as [Hin Hnot].
      rewrite among_cons in Hnot. apply orb_false_iff in Hnot.
      destruct Hnot as [Hne Hnot].
      assert (Hchild : In nodeAfter childNodes).
      { rewrite <- Hbase in Hin. apply filter_In in Hin. tauto. }
      unfold insertBefore.
      assert (Hex : existsb (fun c => nodeIdentity c =? nodeIdentity nodeAfter)
                            childNodes = true).
      { apply existsb_exists. exists nodeAfter.
        split; [exact Hchild | apply Nat.eqb_refl]. }
      rewrite Hex, (Nat.eqb_sym (nodeIdentity nodeAfter)), Hne.
      destruct (IH (insertAt (detach childNodes (nodeIdentity node)) node
                             (nodeIdentity nodeAfter))
                   (place base (node, Some nodeAfter))
                   (log ++ [InsertBefore parent (nodeIdentity node)
                              (option_map nodeIdentity (Some nodeAfter))]))
        as [log' Hlog'].
      * eapply Permutation_NoDup;
          [apply Permutation_map, Permutation_sym, insertAt_Permutation|].
        simpl. constructor; assumption.
      * exact Hadd'.
      * unfold place. cbn [fst snd].
        rewrite filter_insertAt.
        -- rewrite Hdetach, Hbase. reflexivity.
        -- rewrite Hfresh. reflexivity.
        -- intros c _ Hc. rewrite (among_identity _ c nodeAfter Hc), Hnot.
           reflexivity.
      * intros n a Hna.
        destruct (Hanchor n a (or_intror Hna)) as [Ha Hnota].
        rewrite among_cons in Hnota. apply orb_false_iff in Hnota.
        split; [|tauto]. unfold place. cbn [fst snd].
        apply insertAt_In. exact Ha.
      * exists log'. exact Hlog'.
    + unfold insertBefore.
      destruct (IH (detach childNodes (nodeIdentity node) ++ [node])
                   (place base (node, None))
                   (log ++ [InsertBefore parent (nodeIdentity node)
                              (option_map nodeIdentity None)]))
        as [log' Hlog'].
      * rewrite map_app. simpl.
        eapply Permutation_NoDup; [apply Permutation_cons_append|].
        constructor; assumption.
      * exact Hadd'.
      * unfold place. cbn [fst snd]. rewrite filter_app. simpl.
        rewrite Hfresh. simpl. rewrite Hdetach, Hbase. reflexivity.
      * intros n a Hna.
        destruct (Hanchor n a (or_intror Hna)) as [Ha Hnota].
        rewrite among_cons in Hnota. apply orb_false_iff in Hnota.
        split; [|tauto]. unfold place. cbn [fst snd].
        apply in_or_app. left. exact Ha.
      * exists log'. exact Hlog'.
Qed.

(** ** Where the children end up *)

Lemma insertAt_app (pre rest : list Node) (nodeAfter node : Node) :
  ~ In (nodeIdentity nodeAfter) (map nodeIdentity pre) ->
  insertAt (pre ++ nodeAfter :: rest) node (nodeIdentity nodeAfter) =
  pre ++ node :: nodeAfter :: rest.
Proof.
  induction pre as [|c pre IH]; simpl; intros H.
  - rewrite Nat.eqb_refl. reflexivity.
  - destruct (nodeIdentity c =? nodeIdentity nodeAfter) eqn:E.
    + apply Nat.eqb_eq in E. tauto.
    + rewrite IH by tauto. reflexivity.
Qed.

Lemma placed_app (xs ys : list (Node * option Node)) (childNodes : list Node) :
  placed (xs ++ ys) childNodes = placed ys (placed xs childNodes).
Proof. apply fold_left_app. Qed.

Lemma place_adds (adds pre rest : list Node) :
  (forall nodeAfter, hd_error rest = Some nodeAfter ->
     ~ In (nodeIdentity nodeAfter) (map nodeIdentity (pre ++ adds))) ->
  placed (map (fun node => (node, hd_error rest)) adds) (pre ++ rest) =
  pre ++ adds ++ rest.
Proof.
  revert pre. induction adds as [|node adds IH]; intros pre H; [reflexivity|].
  cbn [map placed fold_left].
  assert (Hstep : place (pre ++ rest) (node, hd_error rest) =
                  (pre ++ [node]) ++ rest).
  { unfold place. cbn [fst snd]. destruct rest as [|nodeAfter rest]; simpl.
    - rewrite !app_nil_r. reflexivity.
    - rewrite insertAt_app, <- app_assoc; [reflexivity|].
      intros Hin. apply (H nodeAfter eq_refl).
      rewrite map_app, in_app_iff. auto. }
  rewrite Hstep. fold (placed (map (fun n => (n, hd_error rest)) adds)
                              ((pre ++ [node]) ++ rest)).
  rewrite IH; [rewrite <- app_assoc; reflexivity|].
  intros nodeAfter Hhd. rewrite <- app_assoc. exact (H nodeAfter Hhd).
Qed.

Lemma additions_cons (s : Segment) (segs : list Segment) (adds : list Node)
    (addss : list (list Node)) :
  additions (s :: segs) (adds :: addss) =
  map (fun node => (node, anchor s)) adds ++ additions segs addss.
Proof. reflexivity. Qed.

Lemma expected_cons (s : Segment) (segs : list Segment) (adds : list Node)
    (addss : list (list Node)) :
  expected (s :: segs) (adds :: addss) =
  (gap s ++ adds) ++ expected segs addss.
Proof. reflexivity. Qed.

Lemma map_fst_adds (nodeAfter : option Node) (adds : list Node) :
  map fst (map (fun node : Node => (node, nodeAfter)) adds) = adds.
Proof. rewrite map_map. apply map_id. Qed.

Lemma placed_expected (segs : list Segment) (addss : list (list Node)) :
  Forall2 (fun s adds => ins s = [] -> adds = []) segs addss ->
  anchored segs ->
  forall done,
    NoDup (map nodeIdentity
             (done ++ flat_map gap segs ++ map fst (additions segs addss))) ->
    placed (additions segs addss) (done ++ flat_map gap segs) =
    done ++ expected segs addss.
Proof.
  induction 1 as [|s adds segs addss Hempty _ IH]; intros Hanchored done Hnd.
  - reflexivity.
  - destruct Hanchored as [Hanchor Hanchored].
    rewrite additions_cons, expected_cons, placed_app.
    rewrite additions_cons, (map_app fst), map_fst_adds in Hnd.
    cbn [flat_map] in *.
    assert (Hstep : placed (map (fun node => (node, anchor s)) adds)
                           (done ++ gap s ++ flat_map gap segs) =
                    (done ++ gap s ++ adds) ++ flat_map gap segs).
    (* the additions of the segment go in front of its anchor *)
    { destruct Hanchor as [Hins|Hanchor].
      - rewrite (Hempty Hins). simpl. rewrite !app_nil_r, <- app_assoc.
        reflexivity.
      - rewrite Hanchor, (app_assoc done), place_adds, <- !app_assoc;
          [reflexivity|].
        intros nodeAfter Hhd Hin.
        destruct (flat_map gap segs) as [|a rest] eqn:E; [discriminate|].
        injection Hhd as ->.
        assert (Hp : Permutation
                       (map nodeIdentity
                          (done ++ (gap s ++ nodeAfter :: rest) ++
                           adds ++ map fst (additions segs addss)))
                       (nodeIdentity nodeAfter ::
                        map nodeIdentity ((done ++ gap s) ++ adds) ++
                        map nodeIdentity
                          (rest ++ map fst (additions segs addss)))).
        { perm. }
        pose proof (Permutation_NoDup Hp Hnd) as Hnd'.
        inversion Hnd' as [|? ? Hnot _]; subst. apply Hnot.
        apply in_or_app. left. exact Hin. }
    rewrite Hstep.
    rewrite (IH Hanchored (done ++ gap s ++ adds)).
    + rewrite <- !app_assoc. reflexivity.
    + eapply Permutation_NoDup; [|exact Hnd]. perm.
Qed.

Lemma flat_map_Permutation {A B : Type} (f g : A -> list B) (l : list A) :
  Permutation (flat_map (fun x => f x ++ g x) l)
              (flat_map f l ++ flat_map g l).
Proof.
  induction l as [|x l IH]; simpl; [reflexivity|].
  rewrite IH, <- !app_assoc. apply Permutation_app_head.
  rewrite !app_assoc. apply Permutation_app_tail, Permutation_app_comm.
Qed.

Lemma expected_Permutation (segs : list Segment) (addss : list (list Node)) :
  List.length addss = List.length segs ->
  Permutation (expected segs addss)
              (flat_map gap segs ++ map fst (additions segs addss)).
Proof.
  revert addss. induction segs as [|s segs IH]; intros [|adds addss] H;
    simpl in H; try discriminate; [reflexivity|].
  rewrite expected_cons, additions_cons, (map_app fst), map_fst_adds.
  cbn [flat_map]. rewrite (IH addss) by lia. rewrite <- !app_assoc.
  apply Permutation_app_head. rewrite !app_assoc.
  apply Permutation_app_tail, Permutation_app_comm.
Qed.

Lemma gaps_filter (f : Node -> bool) (segs : list Segment) :
  (forall node, In node (flat_map gap segs) -> f node = true) ->
  (forall node, In node (flat_map del segs) -> f node = false) ->
  filter f (flat_map (fun s => gap s ++ del s) segs) = flat_map gap segs.
Proof.
  induction segs as [|s segs IH]; intros Hg Hd; [reflexivity|].
  cbn [flat_map] in *. rewrite !filter_app, IH.
  - rewrite (filter_all f (gap s)).
    + assert (Hnone : filter f (del s) = []).
      { clear IH Hg. induction (del s) as [|d ds IHd]; [reflexivity|].
        simpl. rewrite (Hd d) by (simpl; auto). apply IHd.
        intros n Hn. apply Hd. simpl in *. tauto. }
      rewrite Hnone, app_nil_r. reflexivity.
    + intros n Hn. apply Hg. apply in_or_app. left. exact Hn.
  - intros n Hn. apply Hg. apply in_or_app. right. exact Hn.
  - intros n Hn. apply Hd. apply in_or_app. right. exact Hn.
Qed.

Lemma anchors_in_gaps (segs : list Segment) (addss : list (list Node))
    (node nodeAfter : Node) :
  Forall2 (fun s adds => ins s = [] -> adds = []) segs addss ->
  anchored segs ->
  In (node, Some nodeAfter) (additions segs addss) ->
  In nodeAfter (flat_map gap segs).
Proof.
  induction 1 as [|s adds segs addss Hempty _ IH]; intros Hanchored Hin.
  - destruct Hin.
  - destruct Hanchored as [Hanchor Hanchored].
    rewrite additions_cons in Hin. apply in_app_iff in Hin.
    cbn [flat_map]. apply in_or_app. right.
    destruct Hin as [Hin|Hin]; [|exact (IH Hanchored Hin)].
    apply in_map_iff in Hin. destruct Hin as (n & E & Hn).
    injection E as -> Ha.
    destruct Hanchor as [Hins|Hanchor].
    + rewrite (Hempty Hins) in Hn. destruct Hn.
    + rewrite Hanchor in Ha.
      destruct (flat_map gap segs) as [|a rest]; [discriminate|].
      injection Ha as ->. left. reflexivity.
Qed.

(** ** One level of [morph()]: the children after lines 357 to 411 *)

Lemma NoDup_identities_disjoint (xs ys : list Node) (x y : Node) :
  NoDup (map nodeIdentity (xs ++ ys)) -> In x xs -> In y ys ->
  nodeIdentity x <> nodeIdentity y.
Proof.
  rewrite map_app. intros H Hx Hy Heq.
  induction xs as [|a xs IH]; [destruct Hx|].
  simpl in H. inversion H as [|? ? Ha Hrest]; subst.
  destruct Hx as [->|Hx]; [|exact (IH Hrest Hx)].
  apply Ha, in_or_app. right. rewrite Heq. apply in_map. exact Hy.
Qed.

Section Level.

Variable event : option Event.
Variables fromChildNodes toChildNodes : list Node.
Hypothesis reached :
  forall node, In node fromChildNodes ->
    isLiveConnectionUpdate event && nodeExplicitlyFalse node = false.
Variable hunks : list Hunk.
Hypothesis distinctChildren :
  NoDup (map nodeIdentity (fromChildNodes ++ toChildNodes)).
Hypothesis script :
  editScript (map key fromChildNodes) (map key toChildNodes) hunks = true.

Lemma reconcile_segments :
  reconcile event fromChildNodes toChildNodes hunks =
  Some (fold_left planSegment
          (segments fromChildNodes toChildNodes 0 0 hunks)
          (mkPlan (pushAll []
                     (flat_map del
                        (segments fromChildNodes toChildNodes 0 0 hunks)))
                  [] [])).
Proof.
  assert (Hcollect :
            collect event fromChildNodes hunks =
            Some (pushAll []
                    (flat_map del
                       (segments fromChildNodes toChildNodes 0 0 hunks)))).
  { exact (collect_segments event fromChildNodes toChildNodes reached hunks
             true 0 0 [] script). }
  unfold reconcile. rewrite Hcollect.
  exact (plan_segments fromChildNodes toChildNodes hunks true 0 0 0 0 _
           script).
Qed.

Lemma children_after_the_plan (parent : nat) (log : list Mutation) :
  exists plan childNodes log',
    reconcile event fromChildNodes toChildNodes hunks = Some plan /\
    applyPlan parent plan fromChildNodes log = (childNodes, log', Completed) /\
    NoDup (map nodeIdentity childNodes) /\
    Forall2 (status (toMorph plan)) childNodes toChildNodes /\
    NoDup (map nodeIdentity (map fst (toMorph plan))) /\
    (forall from to, In (from, to) (toMorph plan) ->
       In from fromChildNodes /\ In to toChildNodes /\ key from = key to) /\
    (forall node, In node childNodes ->
       In node fromChildNodes \/ In node (map fst (toAdd plan))) /\
    (forall node, In node fromChildNodes ->
       In node childNodes \/ In node (members (toRemove plan))).
Proof.
  destruct (segments_spec fromChildNodes toChildNodes hunks true 0 0 script)
    as (HF & HT & Hkeys & Hanchored & _).
  cbn [skipn] in HF, HT.
  rewrite reconcile_segments.
  set (segs := segments fromChildNodes toChildNodes 0 0 hunks) in *.
  set (plan0 := mkPlan (pushAll [] (flat_map del segs)) [] []).
  assert (HFperm : Permutation fromChildNodes
                     (flat_map gap segs ++ flat_map del segs)).
  { rewrite HF. apply flat_map_Permutation. }
  assert (HTperm : Permutation toChildNodes
                     (flat_map gap' segs ++ flat_map ins segs)).
  { rewrite HT. apply flat_map_Permutation. }
  assert (HndF : NoDup (map nodeIdentity fromChildNodes)).
  { rewrite map_app in distinctChildren.
    exact (NoDup_app_remove_r _ _ distinctChildren). }
  assert (HKD : NoDup (map nodeIdentity
                         (flat_map gap segs ++ flat_map del segs))).
  { eapply Permutation_NoDup; [apply Permutation_map; exact HFperm|].
    exact HndF. }
  assert (HDF : incl (flat_map del segs) fromChildNodes).
  { intros d Hd. eapply Permutation_in; [apply Permutation_sym, HFperm|].
    apply in_or_app. right. exact Hd. }
  assert (HKF : incl (flat_map gap segs) fromChildNodes).
  { intros d Hd. eapply Permutation_in; [apply Permutation_sym, HFperm|].
    apply in_or_app. left. exact Hd. }
  assert (HIT : incl (flat_map ins segs) toChildNodes).
  { intros d Hd. eapply Permutation_in; [apply Permutation_sym, HTperm|].
    apply in_or_app. right. exact Hd. }
  assert (HGT : incl (flat_map gap' segs) toChildNodes).
  { intros d Hd. eapply Permutation_in; [apply Permutation_sym, HTperm|].
    apply in_or_app. left. exact Hd. }
  assert (Hwithin : Forall (within fromChildNodes toChildNodes) segs).
  { apply Forall_forall. intros s Hs. rewrite Forall_forall in Hkeys.
    split; [exact (Hkeys s Hs)|].
    split; [|split]; intros x Hx.
    - apply HKF, in_flat_map. eauto.
    - apply HGT, in_flat_map. eauto.
    - apply HIT, in_flat_map. eauto. }
  assert (Hq0 : Permutation (members (pushAll [] (flat_map del segs)))
                            (flat_map del segs)).
  { exact (pushAll_Permutation (flat_map del segs) []). }
  assert (He0 : entrywise (toRemove plan0)).
  { apply pushAll_entrywise. intros k nodes n []. }
  assert (Hplan0 : planned fromChildNodes toChildNodes (flat_map del segs)
                           plan0 (flat_map gap segs) (flat_map ins segs)).
  { split; [exact He0|]. unfold plan0. cbn [toRemove toAdd toMorph map app].
    split; [|split; [|split; [|split; [|split]]]].
    - assert (Hp : Permutation
                     (map nodeIdentity (fromChildNodes ++ toChildNodes))
                     (map nodeIdentity
                        (members (pushAll [] (flat_map del segs)) ++
                         flat_map ins segs) ++
                      map nodeIdentity
                        (flat_map gap segs ++ flat_map gap' segs))).
      { rewrite <- map_app. apply Permutation_map.
        rewrite HFperm at 1. rewrite HTperm at 1. rewrite Hq0. perm. }
      exact (NoDup_app_remove_r _ _ (Permutation_NoDup Hp distinctChildren)).
    - eapply Permutation_NoDup; [|exact HKD].
      apply Permutation_map. rewrite Hq0. perm.
    - intros n [].
    - intros n Hn. exact (Permutation_in _ Hq0 Hn).
    - intros n Hn. right.
      exact (Permutation_in _ (Permutation_sym Hq0) Hn).
    - intros f t []. }
  pose proof (planned_segments fromChildNodes toChildNodes
                (flat_map del segs) HDF segs plan0 Hplan0 Hwithin)
    as (He & HndA & HndM & HAin & Hqin & HDcov & HMfacts).
  rewrite !app_nil_r in HndA, HndM.
  destruct (segments_layout segs plan0 He0) as (addss & pairs & HA & HM & Hall).
  cbn [toAdd toMorph plan0 app] in HA, HM.
  set (plan := fold_left planSegment segs plan0) in *.
  assert (Hstatus : Forall2 (status (toMorph plan))
                            (expected segs addss) toChildNodes).
  { rewrite HM, HT. apply expected_status; assumption. }
  assert (Hempties : Forall2 (fun s adds => ins s = [] -> adds = [])
                             segs addss).
  { eapply Forall2_impl; [|exact Hall].
    intros s adds [H _] Hins. rewrite Hins in H. inversion H. reflexivity. }
  assert (Hlen : List.length addss = List.length segs).
  { symmetry. exact (Forall2_length Hall). }
  assert (HgapA : forall c, In c (flat_map gap segs) ->
                            among (map fst (toAdd plan)) c = false).
  { intros c Hc. apply among_false. intros Hin.
    apply in_map_iff in Hin. destruct Hin as (n & E & Hn).
    destruct (HAin n Hn) as [Hd|Ht].
    - exact (NoDup_identities_disjoint _ _ c n HKD Hc Hd (eq_sym E)).
    - exact (NoDup_identities_disjoint _ _ c n distinctChildren
               (HKF c Hc) Ht (eq_sym E)). }
  assert (HgapL : forall c, In c (flat_map gap segs) ->
                            among (members (toRemove plan)) c = false).
  { intros c Hc. apply among_false. intros Hin.
    apply in_map_iff in Hin. destruct Hin as (n & E & Hn).
    exact (NoDup_identities_disjoint _ _ c n HKD Hc (Hqin n Hn) (eq_sym E)). }
  assert (HndL : NoDup (map nodeIdentity (members (toRemove plan)))).
  { rewrite map_app in HndA. exact (NoDup_app_remove_l _ _ HndA). }
  assert (HndAdd : NoDup (map nodeIdentity (map fst (toAdd plan)))).
  { rewrite map_app in HndA. exact (NoDup_app_remove_r _ _ HndA). }
  destruct (removeChildren_filter parent (members (toRemove plan))
              fromChildNodes log HndF HndL) as [log1 Hremove].
  { intros n Hn. apply in_map, HDF, Hqin, Hn. }
  assert (Hbase : filter (fun c => negb (among (map fst (toAdd plan)) c))
                    (filter (fun c =>
                               negb (among (members (toRemove plan)) c))
                            fromChildNodes) =
                  flat_map gap segs).
  { rewrite filter_filter, HF. apply gaps_filter.
    - intros c Hc. rewrite (HgapA c Hc), (HgapL c Hc). reflexivity.
    - intros d Hd. apply andb_false_iff.
      destruct (HDcov d Hd) as [H|H]; [right | left];
        apply negb_false_iff, among_In, in_map, H. }
  destruct (insertChildren_placed parent (toAdd plan)
              (filter (fun c => negb (among (members (toRemove plan)) c))
                      fromChildNodes)
              (flat_map gap segs) log1
              (NoDup_identities_filter _ _ HndF) HndAdd Hbase)
    as [log2 Hinsert].
  { intros n a Hin. rewrite HA in Hin.
    pose proof (anchors_in_gaps segs addss n a Hempties Hanchored Hin) as Ha.
    split; [exact Ha | exact (HgapA a Ha)]. }
  assert (HndK : NoDup (map nodeIdentity
                          (flat_map gap segs ++ map fst (toAdd plan)))).
  { rewrite map_app. apply NoDup_app.
    - rewrite map_app in HKD. exact (NoDup_app_remove_r _ _ HKD).
    - exact HndAdd.
    - intros i Hi Hi'. apply in_map_iff in Hi. destruct Hi as (c & <- & Hc).
      pose proof (HgapA c Hc) as Hno. apply among_false in Hno.
      exact (Hno Hi'). }
  assert (Hplaced : placed (toAdd plan) (flat_map gap segs) =
                    expected segs addss).
  { rewrite HA.
    apply (placed_expected segs addss Hempties Hanchored []).
    rewrite <- HA. exact HndK. }
  exists plan, (expected segs addss), log2.
  split; [reflexivity|]. split.
  - unfold applyPlan. fold (members (toRemove plan)).
    rewrite Hremove, Hinsert, Hplaced. reflexivity.
  - assert (Hexpected : Permutation (expected segs addss)
                                    (flat_map gap segs ++
                                     map fst (toAdd plan))).
    { rewrite HA. apply expected_Permutation. exact Hlen. }
    split; [|split; [exact Hstatus | split; [|split; [exact HMfacts|]]]].
    + eapply Permutation_NoDup; [|exact HndK].
      apply Permutation_map, Permutation_sym, Hexpected.
    + rewrite map_app in HndM. exact (NoDup_app_remove_r _ _ HndM).
    + split.
      * intros node Hnode.
        apply (Permutation_in _ Hexpected), in_app_or in Hnode.
        destruct Hnode as [Hnode|Hnode]; [left; exact (HKF _ Hnode)|].
        right. exact Hnode.
      * intros node Hnode.
        apply (Permutation_in _ HFperm), in_app_or in Hnode.
        destruct Hnode as [Hnode|Hnode].
        -- left. apply (Permutation_in _ (Permutation_sym Hexpected)).
           apply in_or_app. left. exact Hnode.
        -- destruct (HDcov node Hnode) as [H|H]; [left | right; exact H].
           apply (Permutation_in _ (Permutation_sym Hexpected)).
           apply in_or_app. right. exact H.
Qed.

End Level.

(** ** Lines 412 and 413 *)

Lemma sameMarkup_refl (node : Node) : sameMarkup node node.
Proof.
  induction node as [identity nodeValue | element childNodes IH]
    using FormsProperties.Node_induction.
  - constructor.
  - constructor; auto.
    induction IH; constructor; assumption.
Qed.

Lemma replaceChild_identities (childNodes : list Node) (node : Node) :
  map nodeIdentity (replaceChild childNodes node) =
  map nodeIdentity childNodes.
Proof.
  induction childNodes as [|child rest IH]; simpl; [reflexivity|].
  destruct (nodeIdentity child =? nodeIdentity node) eqn:E; simpl.
  - apply Nat.eqb_eq in E. congruence.
  - rewrite IH. reflexivity.
Qed.

Lemma settled_rest (done : Node -> Node -> Prop) (pair : Node * Node)
    (toMorph : list (Node * Node)) (childNodes toChildNodes : list Node) :
  Forall2 (settled done (pair :: toMorph)) childNodes toChildNodes ->
  (forall node, In node childNodes -> isElement node = true ->
                node <> fst pair) ->
  Forall2 (settled done toMorph) childNodes toChildNodes.
Proof.
  induction 1 as [|n t ns ts Hn _ IH]; intros Hne; constructor.
  - destruct Hn as [[Hsame Hnot]|[Hin He]].
    + left. split; [exact Hsame|].
      intros f t' Hf. apply (Hnot f t'). right. exact Hf.
    + right. split; [|exact He]. destruct Hin as [->|Hin]; [|exact Hin].
      exfalso. apply (Hne n (or_introl eq_refl) He). reflexivity.
  - apply IH. intros node Hnode. apply Hne. right. exact Hnode.
Qed.

Lemma replaceChild_settled (done : Node -> Node -> Prop)
    (from to from' : Node)
    (toMorph : list (Node * Node)) (childNodes toChildNodes : list Node) :
  NoDup (map nodeIdentity childNodes) ->
  NoDup (map (fun pair => nodeIdentity (fst pair)) ((from, to) :: toMorph)) ->
  isElement from = true ->
  nodeIdentity from' = nodeIdentity from ->
  done from' to ->
  Forall2 (settled done ((from, to) :: toMorph)) childNodes toChildNodes ->
  Forall2 (settled done toMorph) (replaceChild childNodes from') toChildNodes.
Proof.
  intros Hnd HndM Helement Hid Hsame Hall.
  induction Hall as [|n t ns ts Hn Hrest IH]; [constructor|].
  simpl in Hnd. inversion Hnd as [|? ? Hhead Hnd']; subst.
  cbn [replaceChild].
  destruct (nodeIdentity n =? nodeIdentity from') eqn:E.
  - apply Nat.eqb_eq in E. rewrite Hid in E.
    assert (Hpair : (n, t) = (from, to)).
    { destruct Hn as [[_ Hnot]|[Hin He]].
      - exfalso. apply (Hnot from to (or_introl eq_refl) Helement).
        symmetry. exact E.
      - exact (DOMProperties.NoDup_map_injective
                 (fun pair : Node * Node => nodeIdentity (fst pair))
                 ((from, to) :: toMorph) (n, t) (from, to) HndM Hin
                 (or_introl eq_refl) E). }
    injection Hpair as -> ->.
    constructor.
    + left. split; [exact Hsame|].
      intros f t' Hf _ Heq. simpl in HndM.
      inversion HndM as [|? ? Hfresh _]; subst. apply Hfresh.
      rewrite <- Hid, <- Heq.
      exact (in_map (fun pair : Node * Node => nodeIdentity (fst pair))
                    toMorph (f, t') Hf).
    + apply (settled_rest done (from, to)); [exact Hrest|].
      intros node Hnode _ ->. apply Hhead. apply in_map. exact Hnode.
  - constructor; [|exact (IH Hnd')].
    destruct Hn as [[Hs Hnot]|[Hin He]].
    + left. split; [exact Hs|].
      intros f t' Hf. apply (Hnot f t'). right. exact Hf.
    + right. split; [|exact He]. destruct Hin as [Hp|Hin]; [|exact Hin].
      injection Hp as <- <-. apply Nat.eqb_neq in E. congruence.
Qed.

Lemma morphPairs_settled (done : Node -> Node -> Prop)
    (morphChild : Node -> Node -> Node * list Mutation * Completion)
    (toChildNodes : list Node) (toMorph : list (Node * Node)) :
  forall childNodes log,
    NoDup (map nodeIdentity childNodes) ->
    NoDup (map (fun pair => nodeIdentity (fst pair)) toMorph) ->
    Forall2 (settled done toMorph) childNodes toChildNodes ->
    (forall from to, In (from, to) toMorph -> isElement from = true ->
       exists from' log',
         morphChild from to = (from', log', Completed) /\
         nodeIdentity from' = nodeIdentity from /\ done from' to) ->
    exists childNodes' log',
      morphPairs morphChild toMorph childNodes log =
        (childNodes', log', Completed) /\
      map nodeIdentity childNodes' = map nodeIdentity childNodes /\
      Forall2 done childNodes' toChildNodes.
Proof.
  induction toMorph as [|[from to] toMorph IH];
    intros childNodes log Hnd HndM Hall Hmorph.
  - exists childNodes, log. split; [reflexivity|]. split; [reflexivity|].
    eapply Forall2_impl; [|exact Hall].
    intros n t [[H _]|[[] _]]. exact H.
  - assert (HndM' : NoDup (map (fun pair : Node * Node =>
                                  nodeIdentity (fst pair)) toMorph)).
    { simpl in HndM. inversion HndM; assumption. }
    assert (Hmorph' : forall f t, In (f, t) toMorph -> isElement f = true ->
              exists f' l,
                morphChild f t = (f', l, Completed) /\
                nodeIdentity f' = nodeIdentity f /\ done f' t).
    { intros f t Hin. apply Hmorph. right. exact Hin. }
    cbn [morphPairs].
    destruct from as [element children | identity nodeValue].
    + destruct (Hmorph (ElementNode element children) to
                       (or_introl eq_refl) eq_refl)
        as (from' & log' & Hm & Hid & Hsame).
      rewrite Hm.
      destruct (IH (replaceChild childNodes from') (log ++ log'))
        as (childNodes' & log'' & Hpairs & Hids & Hdone).
      * rewrite replaceChild_identities. exact Hnd.
      * exact HndM'.
      * exact (replaceChild_settled done _ to from' toMorph childNodes
                 toChildNodes Hnd HndM eq_refl Hid Hsame Hall).
      * exact Hmorph'.
      * exists childNodes', log''. split; [exact Hpairs|].
        split; [|exact Hdone].
        rewrite Hids. apply replaceChild_identities.
    + apply (IH childNodes log Hnd HndM'); [|exact Hmorph'].
      apply (settled_rest done (TextNode identity nodeValue, to));
        [exact Hall|].
      intros node _ He ->. discriminate.
Qed.

(** ** Keys, identities and heights *)

Lemma hyphen_split (a b x y : string) :
  hyphenFree a = true -> hyphenFree b = true ->
  (a ++ "--" ++ x)%string = (b ++ "--" ++ y)%string -> a = b.
Proof.
  revert b. induction a as [|c a IH]; intros [|d b] Ha Hb H; simpl in *.
  - reflexivity.
  - injection H as <- _. discriminate.
  - injection H as -> _. discriminate.
  - injection H as <- H.
    apply andb_true_iff in Ha. apply andb_true_iff in Hb.
    rewrite (IH b) by tauto. reflexivity.
Qed.

Lemma key_tagName (element element' : Element)
    (childNodes childNodes' : list Node) :
  hyphenFree (tagName element) = true ->
  hyphenFree (tagName element') = true ->
  key (ElementNode element childNodes) =
    key (ElementNode element' childNodes') ->
  tagName element = tagName element'.
Proof.
  intros H H' Hkey. simpl in Hkey. injection Hkey as Hkey.
  exact (hyphen_split _ _ _ _ H H' Hkey).
Qed.

Lemma key_text (identity : nat) (nodeValue : string) (to : Node) :
  key (TextNode identity nodeValue) = key to ->
  sameMarkup (TextNode identity nodeValue) to.
Proof.
  destruct to as [element childNodes | identity' nodeValue']; simpl;
    intros H; [discriminate|].
  injection H as ->. constructor.
Qed.

Lemma key_element (element : Element) (childNodes : list Node) (to : Node) :
  key (ElementNode element childNodes) = key to -> isElement to = true.
Proof. destruct to; simpl; [reflexivity | discriminate]. Qed.

Lemma identities_cons (node : Node) :
  identities node = nodeIdentity node :: tl (identities node).
Proof. destruct node; reflexivity. Qed.

Lemma identities_children (nodes : list Node) :
  Permutation (flat_map identities nodes)
              (map nodeIdentity nodes ++
               flat_map (fun node => tl (identities node)) nodes).
Proof.
  induction nodes as [|node nodes IH]; [reflexivity|].
  cbn [flat_map map]. rewrite (identities_cons node) at 1.
  rewrite IH. perm.
Qed.

Lemma children_distinct (fromChildNodes toChildNodes : list Node) :
  NoDup (flat_map identities fromChildNodes ++
         flat_map identities toChildNodes) ->
  NoDup (map nodeIdentity (fromChildNodes ++ toChildNodes)).
Proof.
  intros H.
  assert (Hp : Permutation
                 (flat_map identities fromChildNodes ++
                  flat_map identities toChildNodes)
                 (map nodeIdentity (fromChildNodes ++ toChildNodes) ++
                  (flat_map (fun node => tl (identities node)) fromChildNodes ++
                   flat_map (fun node => tl (identities node)) toChildNodes))).
  { rewrite (identities_children fromChildNodes),
            (identities_children toChildNodes). perm. }
  exact (NoDup_app_remove_r _ _ (Permutation_NoDup Hp H)).
Qed.

Lemma pair_distinct (fromChildNodes toChildNodes : list Node)
    (from to : Node) :
  NoDup (flat_map identities fromChildNodes ++
         flat_map identities toChildNodes) ->
  In from fromChildNodes -> In to toChildNodes ->
  NoDup (identities from ++ identities to).
Proof.
  intros H Hf Ht.
  apply in_split in Hf. destruct Hf as (f1 & f2 & ->).
  apply in_split in Ht. destruct Ht as (t1 & t2 & ->).
  rewrite !flat_map_app in H. cbn [flat_map] in H.
  assert (Hp : Permutation
                 ((flat_map identities f1 ++
                   identities from ++ flat_map identities f2) ++
                  flat_map identities t1 ++
                  identities to ++ flat_map identities t2)
                 ((identities from ++ identities to) ++
                  flat_map identities f1 ++ flat_map identities f2 ++
                  flat_map identities t1 ++ flat_map identities t2)).
  { perm. }
  exact (NoDup_app_remove_r _ _ (Permutation_NoDup Hp H)).
Qed.

Lemma height_child (element : Element) (childNodes : list Node)
    (child : Node) (fuel : nat) :
  height (ElementNode element childNodes) <= S fuel ->
  In child childNodes -> height child <= fuel.
Proof.
  simpl. intros H Hin. apply le_S_n in H.
  apply Nat.le_trans with (list_max (map height childNodes)); [|exact H].
  assert (Hall := proj1 (list_max_le (map height childNodes)
                           (list_max (map height childNodes)))
                        (Nat.le_refl _)).
  rewrite Forall_forall in Hall. apply Hall, in_map, Hin.
Qed.

Lemma Forall2_In {A B : Type} (R R' : A -> B -> Prop) (xs : list A)
    (ys : list B) :
  Forall2 R xs ys ->
  (forall x y, In x xs -> In y ys -> R x y -> R' x y) ->
  Forall2 R' xs ys.
Proof.
  induction 1 as [|x y xs ys Hxy _ IH]; intros H; constructor.
  - apply H; simpl; auto.
  - apply IH. intros x' y' Hx Hy. apply H; simpl; auto.
Qed.

(** When line 412 is reached, every child is in the place of the child
    of [to] it stands for. *)
Lemma status_settled (done : Node -> Node -> Prop)
    (fromChildNodes toChildNodes : list Node)
    (toMorph : list (Node * Node)) (childNodes : list Node) :
  (forall to, In to childNodes -> In to toChildNodes -> done to to) ->
  (forall identity nodeValue to,
     In (TextNode identity nodeValue, to) toMorph ->
     key (TextNode identity nodeValue) = key to ->
     done (TextNode identity nodeValue) to) ->
  NoDup (map nodeIdentity (fromChildNodes ++ toChildNodes)) ->
  NoDup (map nodeIdentity (map fst toMorph)) ->
  (forall from to, In (from, to) toMorph ->
     In from fromChildNodes /\ In to toChildNodes /\ key from = key to) ->
  Forall2 (status toMorph) childNodes toChildNodes ->
  Forall2 (settled done toMorph) childNodes toChildNodes.
Proof.
  intros Hfresh Htext Hnd HndM HM Hall. rewrite map_map in HndM.
  apply (Forall2_In _ _ _ _ Hall). intros n t Hn Ht [->|[Hin Hkey]].
  - left. split; [exact (Hfresh t Hn Ht)|].
    intros f t' Hf _. destruct (HM f t' Hf) as (Hfrom & _ & _).
    exact (NoDup_identities_disjoint _ _ f t Hnd Hfrom Ht).
  - destruct n as [element children | identity nodeValue].
    + right. split; [exact Hin | reflexivity].
    + left. split; [exact (Htext _ _ _ Hin Hkey)|].
      intros f t' Hf He Heq.
      pose proof (DOMProperties.NoDup_map_injective
                    (fun pair : Node * Node => nodeIdentity (fst pair))
                    toMorph (f, t') (TextNode identity nodeValue, t)
                    HndM Hf Hin Heq) as Hpair.
      injection Hpair as -> _. discriminate.
Qed.

(** ** [morph()] as a whole *)

Section Correctness.

Variable fastMyersDiff : list string -> list string -> list Hunk.
Hypothesis differ :
  forall xs ys, editScript xs ys (fastMyersDiff xs ys) = true.
Variable event : option Event.
Hypothesis notLive : isLiveConnectionUpdate event = false.

Lemma morph_renders (fuel : nat) :
  forall ancestors fromElement fromChildNodes toElement toChildNodes,
    height (ElementNode fromElement fromChildNodes) <= fuel ->
    NoDup (identities (ElementNode fromElement fromChildNodes) ++
           identities (ElementNode toElement toChildNodes)) ->
    plainTags (ElementNode fromElement fromChildNodes) = true ->
    plainTags (ElementNode toElement toChildNodes) = true ->
    exists fromElement' childNodes log,
      morph fastMyersDiff fuel ancestors
            (ElementNode fromElement fromChildNodes)
            (ElementNode toElement toChildNodes) event =
        (ElementNode fromElement' childNodes, log, Completed) /\
      sameObject fromElement fromElement' /\
      (forall name,
         getAttribute fromElement' name = getAttribute toElement name) /\
      (matchesInputTextarea fromElement = true ->
       tagName toElement = tagName fromElement ->
       forall property, property = "value" \/ property = "checked" ->
         getProperty fromElement' childNodes property =
           getProperty toElement toChildNodes property \/
         (unedited fromElement' childNodes property /\
          getProperty fromElement fromChildNodes property =
            getProperty toElement toChildNodes property)) /\
      Forall2 sameMarkup childNodes toChildNodes.
Proof.
  induction fuel as [|fuel IH];
    intros ancestors fromElement fromChildNodes toElement toChildNodes
           Hheight Hdistinct Hfrom Hto.
  - simpl in Hheight. inversion Hheight.
  - cbn [morph]. rewrite notLive. cbn [andb].
    destruct (DOMProperties.morphElement_spec event ancestors fromElement
                toElement fromChildNodes toChildNodes)
      as (Hsame & Hattr & Hprop).
    destruct (morphElement event ancestors fromElement toElement
                         fromChildNodes toChildNodes)
      as [fromElement' log0].
    cbn [fst] in Hsame, Hattr, Hprop.
    cbn [identities] in Hdistinct.
    assert (Hall : NoDup (flat_map identities fromChildNodes ++
                          flat_map identities toChildNodes)).
    { assert (Hp : Permutation
                     ((identity fromElement ::
                       flat_map identities fromChildNodes) ++
                      identity toElement ::
                      flat_map identities toChildNodes)
                     ([identity fromElement; identity toElement] ++
                      flat_map identities fromChildNodes ++
                      flat_map identities toChildNodes)).
      { perm. }
      exact (NoDup_app_remove_l _ _ (Permutation_NoDup Hp Hdistinct)). }
    pose proof (children_distinct _ _ Hall) as Hchildren.
    destruct (children_after_the_plan event fromChildNodes toChildNodes
                (fun node _ => andb_false_intro1 _ _ notLive)
                (fastMyersDiff (map key fromChildNodes)
                               (map key toChildNodes))
                Hchildren (differ _ _) (identity fromElement) log0)
      as (plan & childNodes1 & log1 & Hplan & Happly & Hnd1 & Hstatus &
          HndM & HM & _).
    rewrite Hplan, Happly.
    cbn [plainTags] in Hfrom, Hto.
    apply andb_true_iff in Hfrom. destruct Hfrom as [_ Hfrom].
    apply andb_true_iff in Hto. destruct Hto as [_ Hto].
    rewrite forallb_forall in Hfrom, Hto.
    destruct (morphPairs_settled sameMarkup
                (fun from to =>
                   morph fastMyersDiff fuel (fromElement' :: ancestors)
                         from to event)
                toChildNodes (toMorph plan) childNodes1 log1 Hnd1)
      as (childNodes2 & log2 & Hpairs & _ & Hrendered).
    + rewrite <- map_map. exact HndM.
    + apply (status_settled sameMarkup fromChildNodes toChildNodes);
        try assumption.
      * intros to _ _. apply sameMarkup_refl.
      * intros i v to _ Hkey. exact (key_text _ _ _ Hkey).
    + intros from to Hin Helement.
      destruct (HM from to Hin) as (Hf & Ht & Hkey).
      destruct from as [fe fcs|]; [|discriminate].
      pose proof (key_element _ _ _ Hkey) as Hte.
      destruct to as [te tcs|]; [|discriminate].
      pose proof (Hfrom _ Hf) as Hplainf. pose proof (Hto _ Ht) as Hplaint.
      destruct (IH (fromElement' :: ancestors) fe fcs te tcs
                   (height_child _ _ _ _ Hheight Hf)
                   (pair_distinct _ _ _ _ Hall Hf Ht) Hplainf Hplaint)
        as (fe' & cs' & log' & Hm & Hobj & Ha & Hp & Hcs).
      exists (ElementNode fe' cs'), log'. split; [exact Hm|].
      destruct Hobj as (Hid & Htag & _).
      split; [exact Hid|].
      cbn [plainTags] in Hplainf, Hplaint.
      apply andb_true_iff in Hplainf. apply andb_true_iff in Hplaint.
      assert (Htags : tagName fe = tagName te).
      { apply (key_tagName fe te fcs tcs); tauto. }
      constructor; [congruence | exact Ha | | exact Hcs].
      intros Hmatches property Hproperty.
      destruct (Hp ltac:(unfold matchesInputTextarea in *;
                         rewrite <- Htag; exact Hmatches)
                   ltac:(congruence) property Hproperty) as [H|[H _]];
        [left | right]; exact H.
    + rewrite Hpairs.
      exists fromElement', childNodes2, log2.
      split; [reflexivity|]. split; [exact Hsame|]. split; [|split].
      * intros name. rewrite Hattr. unfold skipsAttribute.
        rewrite notLive. reflexivity.
      * intros Hmatches Htag property Hproperty.
        specialize (Hprop property Hproperty). unfold skipsProperty in Hprop.
        rewrite Hmatches, notLive in Hprop.
        destruct Hprop as [Hprop Hwritten].
        exact (DOMProperties.reads_as_to fromElement fromElement' toElement
                 fromChildNodes toChildNodes childNodes2 property Hmatches
                 Hsame (Hprop Htag) Hwritten).
      * exact Hrendered.
Qed.

(** X18. Outside Live Connection updates [morph()] does what it is
    for. With a differ that returns an edit script of the two lists of
    keys, on trees whose nodes are distinct objects and whose tag names
    have no hyphen, [morph(from, to)] completes and leaves [from] the same
    object, with the attributes of [to] and, on a form control, its
    [value] and [checked] when [to] is of the same kind, where a
    [textarea] that is still unwritten, because its [value] was that of
    [to] before the morph, shows its text, and with children that render
    as the children of [to] one by one, all the way down. *)
Theorem morph_leaves_from_rendering_as_to
    (fuel : nat) (ancestors : list Element)
    (fromElement toElement : Element)
    (fromChildNodes toChildNodes : list Node) :
  height (ElementNode fromElement fromChildNodes) <= fuel ->
  distinct (identities (ElementNode fromElement fromChildNodes) ++
            identities (ElementNode toElement toChildNodes)) = true ->
  plainTags (ElementNode fromElement fromChildNodes) = true ->
  plainTags (ElementNode toElement toChildNodes) = true ->
  exists fromElement' childNodes log,
    morph fastMyersDiff fuel ancestors
          (ElementNode fromElement fromChildNodes)
          (ElementNode toElement toChildNodes) event =
      (ElementNode fromElement' childNodes, log, Completed) /\
    sameObject fromElement fromElement' /\
    (forall name,
       getAttribute fromElement' name = getAttribute toElement name) /\
    (matchesInputTextarea fromElement = true ->
     tagName toElement = tagName fromElement ->
     forall property, property = "value" \/ property = "checked" ->
       getProperty fromElement' childNodes property =
         getProperty toElement toChildNodes property \/
       (unedited fromElement' childNodes property /\
        getProperty fromElement fromChildNodes property =
          getProperty toElement toChildNodes property)) /\
    Forall2 sameMarkup childNodes toChildNodes.
Proof.
  intros Hheight Hdistinct Hfrom Hto.
  apply morph_renders; try assumption.
  apply DOMProperties.distinct_NoDup. exact Hdistinct.
Qed.

End Correctness.

(** ** The children that [morph()] reuses *)

Section Reuse.

Variable fastMyersDiff : list string -> list string -> list Hunk.
Hypothesis differ :
  forall xs ys, editScript xs ys (fastMyersDiff xs ys) = true.
Variable event : option Event.

Lemma unshielded_child (element : Element) (childNodes : list Node)
    (child : Node) :
  unshielded event (ElementNode element childNodes) = true ->
  In child childNodes ->
  unshielded event child = true /\
  isLiveConnectionUpdate event && nodeExplicitlyFalse child = false.
Proof.
  cbn [unshielded]. intros H Hin. apply andb_true_iff in H.
  destruct H as [_ H]. rewrite forallb_forall in H.
  pose proof (H child Hin) as Hchild. split; [exact Hchild|].
  destruct child as [e cs|]; [|apply andb_false_r].
  cbn [unshielded] in Hchild. apply andb_true_iff in Hchild.
  apply negb_true_iff. exact (proj1 Hchild).
Qed.

(** With a differ that returns an edit script, on trees of distinct node
    objects that the event reaches, [morph()] completes, and every child
    of [to] has its node among the children of [from], in order: a child
    of [from] of its key, as the recursive call leaves it, or the child of
    [to] itself, and then only if no child of [from] of that key was
    removed. *)
Lemma morph_reuses (fuel : nat) :
  forall ancestors fromElement fromChildNodes toElement toChildNodes,
    height (ElementNode fromElement fromChildNodes) <= fuel ->
    NoDup (identities (ElementNode fromElement fromChildNodes) ++
           identities (ElementNode toElement toChildNodes)) ->
    unshielded event (ElementNode fromElement fromChildNodes) = true ->
    exists fromElement' childNodes log,
      morph fastMyersDiff fuel ancestors
            (ElementNode fromElement fromChildNodes)
            (ElementNode toElement toChildNodes) event =
        (ElementNode fromElement' childNodes, log, Completed) /\
      identity fromElement' = identity fromElement /\
      Forall2
        (fun node toChildNode =>
           (exists fromChildNode,
              In fromChildNode fromChildNodes /\
              key fromChildNode = key toChildNode /\
              nodeIdentity node = nodeIdentity fromChildNode /\
              node = reusedFor (fun from to =>
                               morph fastMyersDiff (pred fuel)
                                     (fromElement' :: ancestors) from to
                                     event)
                            fromChildNode toChildNode) \/
           (node = toChildNode /\
            forall fromChildNode,
              In fromChildNode fromChildNodes ->
              key fromChildNode = key toChildNode ->
              among childNodes fromChildNode = true))
        childNodes toChildNodes.
Proof.
  induction fuel as [|fuel IH];
    intros ancestors fromElement fromChildNodes toElement toChildNodes
           Hheight Hdistinct Hreached.
  - simpl in Hheight. inversion Hheight.
  - cbn [morph pred].
    assert (Htop : isLiveConnectionUpdate event &&
                   explicitlyFalse fromElement = false).
    { cbn [unshielded] in Hreached. apply andb_true_iff in Hreached.
      apply negb_true_iff. exact (proj1 Hreached). }
    rewrite Htop.
    destruct (DOMProperties.morphElement_spec event ancestors fromElement
                toElement fromChildNodes toChildNodes) as (Hsame & _).
    destruct (morphElement event ancestors fromElement toElement
                         fromChildNodes toChildNodes)
      as [fromElement' log0].
    cbn [fst] in Hsame.
    cbn [identities] in Hdistinct.
    assert (Hall : NoDup (flat_map identities fromChildNodes ++
                          flat_map identities toChildNodes)).
    { assert (Hp : Permutation
                     ((identity fromElement ::
                       flat_map identities fromChildNodes) ++
                      identity toElement ::
                      flat_map identities toChildNodes)
                     ([identity fromElement; identity toElement] ++
                      flat_map identities fromChildNodes ++
                      flat_map identities toChildNodes)).
      { perm. }
      exact (NoDup_app_remove_l _ _ (Permutation_NoDup Hp Hdistinct)). }
    pose proof (children_distinct _ _ Hall) as Hchildren.
    destruct (children_after_the_plan event fromChildNodes toChildNodes
                (fun node Hnode =>
                   proj2 (unshielded_child _ _ node Hreached Hnode))
                (fastMyersDiff (map key fromChildNodes)
                               (map key toChildNodes))
                Hchildren (differ _ _) (identity fromElement) log0)
      as (plan & childNodes1 & log1 & Hplan & Happly & Hnd1 & Hstatus &
          HndM & HM & Hadded & Hkept).
    rewrite Hplan, Happly.
    set (morphChild := fun from to =>
                         morph fastMyersDiff fuel (fromElement' :: ancestors)
                               from to event).
    set (done := fun node toChildNode =>
           (exists fromChildNode,
              In fromChildNode fromChildNodes /\
              key fromChildNode = key toChildNode /\
              nodeIdentity node = nodeIdentity fromChildNode /\
              node = reusedFor morphChild fromChildNode toChildNode) \/
           (node = toChildNode /\
            forall discarded, In discarded (members (toRemove plan)) ->
                              key discarded <> key toChildNode)).
    destruct (morphPairs_settled done morphChild toChildNodes (toMorph plan)
                childNodes1 log1 Hnd1)
      as (childNodes2 & log2 & Hpairs & Hids & Hdone).
    + rewrite <- map_map. exact HndM.
    + apply (status_settled done fromChildNodes toChildNodes);
        try assumption.
      * intros to Hto1 Hto. right. split; [reflexivity|].
        intros discarded Hdiscarded Hkey.
        destruct (Hadded to Hto1) as [Hfrom|Hadd].
        -- exact (NoDup_identities_disjoint _ _ to to Hchildren Hfrom Hto
                    eq_refl).
        -- apply in_map_iff in Hadd.
           destruct Hadd as ([node nodeAfter] & Hnode & Hadd).
           cbn [fst] in Hnode. subst node.
           destruct (DOMProperties.removed_nodes_are_reused_by_key event
                       fromChildNodes toChildNodes
                       (fastMyersDiff (map key fromChildNodes)
                                      (map key toChildNodes)))
             as (_ & _ & Hnever & _).
           destruct (Hnever plan discarded to nodeAfter Hplan Hdiscarded
                            Hadd (eq_sym Hkey)) as [Hfrom _].
           exact (NoDup_identities_disjoint _ _ to to Hchildren Hfrom Hto
                    eq_refl).
      * intros i v to Hin Hkey. left. exists (TextNode i v).
        destruct (HM _ _ Hin) as (Hfrom & _ & _). auto.
    + intros from to Hin Helement.
      destruct (HM from to Hin) as (Hf & Ht & Hkey).
      destruct from as [fe fcs|]; [|discriminate].
      pose proof (key_element _ _ _ Hkey) as Hte.
      destruct to as [te tcs|]; [|discriminate].
      destruct (IH (fromElement' :: ancestors) fe fcs te tcs
                   (height_child _ _ _ _ Hheight Hf)
                   (pair_distinct _ _ _ _ Hall Hf Ht)
                   (proj1 (unshielded_child _ _ _ Hreached Hf)))
        as (fe' & cs' & log' & Hm & Hid & _).
      exists (ElementNode fe' cs'), log'. split; [exact Hm|].
      split; [exact Hid|].
      left. exists (ElementNode fe fcs).
      split; [exact Hf|]. split; [exact Hkey|]. split; [exact Hid|].
      unfold reusedFor, morphChild. rewrite Hm. reflexivity.
    + rewrite Hpairs.
      exists fromElement', childNodes2, log2.
      split; [reflexivity|]. split; [exact (proj1 Hsame)|].
      eapply Forall2_impl; [|exact Hdone].
      intros node to [H|[Hnode Hnone]]; [left; exact H|].
      right. split; [exact Hnode|].
      intros fromChildNode Hfrom Hkey. apply among_In. rewrite Hids.
      destruct (Hkept fromChildNode Hfrom) as [H|H];
        [apply in_map; exact H|].
      exfalso. exact (Hnone fromChildNode H Hkey).
Qed.

End Reuse.

(** C4. The removal candidates of all hunks are first collected in one
    queue per key, each queue in the order the candidates were met, and a
    child of [to] inside a hunk whose key has a non-empty queue takes the
    head of that queue, which goes into [toAdd] in its place and into
    [toMorph] with it, so that no node is removed while a node of its key
    coming from [to] is put in. Then, with a differ that returns an edit
    script, on trees of distinct node objects that the event reaches,
    [morph()] completes and the children of [from] stand for the children
    of [to] one by one: each is a child that [from] had, of the key of the
    child of [to] and the same node object, as the recursive [morph()]
    leaves it (a text node as it was), or it is the child of [to] itself,
    and then every child that [from] had of that key is still among the
    children. And [A, B, C] morphed into [C, A, B] with a marked [C] keeps
    the three node objects: the live [C] is moved in front and marked, and
    nothing is removed. *)
Theorem reused_nodes_are_morphed :
  (forall event fromChildNodes hunks toRemove k,
     collect event fromChildNodes hunks = Some toRemove ->
     queue k toRemove = keyed k (candidates event fromChildNodes hunks)) /\
  (forall fromChildNodes toChildNodes plan nodeIndex toChildNode fromEnd,
     nth_error toChildNodes nodeIndex = Some toChildNode ->
     exists plan',
       resolve fromChildNodes toChildNodes fromEnd (Some plan) nodeIndex =
         Some plan' /\
       match queue (key toChildNode) (toRemove plan) with
       | fromChildNode :: rest =>
           toAdd plan' =
             toAdd plan ++
             [(fromChildNode, nth_error fromChildNodes fromEnd)] /\
           toMorph plan' = toMorph plan ++ [(fromChildNode, toChildNode)] /\
           queue (key toChildNode) (toRemove plan') = rest
       | [] =>
           toAdd plan' =
             toAdd plan ++ [(toChildNode, nth_error fromChildNodes fromEnd)] /\
           toMorph plan' = toMorph plan /\
           toRemove plan' = toRemove plan
       end) /\
  (forall event fromChildNodes toChildNodes hunks plan discarded node
          nodeAfter,
     reconcile event fromChildNodes toChildNodes hunks = Some plan ->
     In discarded (members (toRemove plan)) ->
     In (node, nodeAfter) (toAdd plan) ->
     key node = key discarded ->
     In node fromChildNodes /\
     exists toChildNode, In (node, toChildNode) (toMorph plan)) /\
  (forall fastMyersDiff event fuel ancestors fromElement toElement
          fromChildNodes toChildNodes,
     (forall xs ys, editScript xs ys (fastMyersDiff xs ys) = true) ->
     height (ElementNode fromElement fromChildNodes) <= fuel ->
     distinct (identities (ElementNode fromElement fromChildNodes) ++
               identities (ElementNode toElement toChildNodes)) = true ->
     unshielded event (ElementNode fromElement fromChildNodes) = true ->
     exists fromElement' childNodes log,
       morph fastMyersDiff fuel ancestors
             (ElementNode fromElement fromChildNodes)
             (ElementNode toElement toChildNodes) event =
         (ElementNode fromElement' childNodes, log, Completed) /\
       identity fromElement' = identity fromElement /\
       Forall2
         (fun node toChildNode =>
            (exists fromChildNode,
               In fromChildNode fromChildNodes /\
               key fromChildNode = key toChildNode /\
               nodeIdentity node = nodeIdentity fromChildNode /\
               node = reusedFor (fun from to =>
                                morph fastMyersDiff (pred fuel)
                                      (fromElement' :: ancestors) from to
                                      event)
                             fromChildNode toChildNode) \/
            (node = toChildNode /\
             forall fromChildNode,
               In fromChildNode fromChildNodes ->
               key fromChildNode = key toChildNode ->
               among childNodes fromChildNode = true))
         childNodes toChildNodes) /\
  morph lcsDiff 2 [] listABC listCAB' None =
    (ElementNode (element 0 "UL" [])
       [ElementNode (element 3 "LI" [("key", "C"); ("class", "first")])
                    [TextNode 103 "C"];
        li 1 "A"; li 2 "B"],
     [InsertBefore 0 3 (Some 1); SetAttribute 3 "class" "first"],
     Completed).
Proof.
  split; [|split; [|split; [|split]]].
  - intros event fromChildNodes hunks.
    exact (proj1 (DOMProperties.removed_nodes_are_reused_by_key
                    event fromChildNodes [] hunks)).
  - intros fromChildNodes toChildNodes.
    exact (proj1 (proj2 (DOMProperties.removed_nodes_are_reused_by_key
                           None fromChildNodes toChildNodes []))).
  - intros event fromChildNodes toChildNodes hunks.
    exact (proj1 (proj2 (proj2
             (DOMProperties.removed_nodes_are_reused_by_key
                event fromChildNodes toChildNodes hunks)))).
  - intros fastMyersDiff event fuel ancestors fromElement toElement
           fromChildNodes toChildNodes Hdiffer Hheight Hdistinct Hreached.
    apply morph_reuses; try assumption.
    apply DOMProperties.distinct_NoDup. exact Hdistinct.
  - vm_compute. reflexivity.
Qed.

Lemma replaceAll_editScript (xs ys : list string) :
  editScript xs ys (replaceAll xs ys) = true.
Proof.
  unfold editScript, replaceAll. cbn [editScriptFrom].
  rewrite !skipn_all, slice_nil, slice_nil. cbn [keys_eqb].
  rewrite !Nat.leb_refl. simpl. reflexivity.
Qed.

(** The same lists with the coarsest differ, which takes every child
    out and puts every child in. *)
Lemma reused_nodes_are_morphed_witness :
  exists fromElement' childNodes log,
    morph replaceAll 2 [] listABC listCAB' None =
      (ElementNode fromElement' childNodes, log, Completed) /\
    identity fromElement' = 0 /\
    Forall2
      (fun node toChildNode =>
         (exists fromChildNode,
            In fromChildNode [li 1 "A"; li 2 "B"; li 3 "C"] /\
            key fromChildNode = key toChildNode /\
            nodeIdentity node = nodeIdentity fromChildNode /\
            node = reusedFor (fun from to =>
                             morph replaceAll 1 [fromElement'] from to None)
                          fromChildNode toChildNode) \/
         (node = toChildNode /\
          forall fromChildNode,
            In fromChildNode [li 1 "A"; li 2 "B"; li 3 "C"] ->
            key fromChildNode = key toChildNode ->
            among childNodes fromChildNode = true))
      childNodes (childNodesOf listCAB').
Proof.
  exact (proj1 (proj2 (proj2 (proj2 reused_nodes_are_morphed)))
           replaceAll None 2 [] (element 0 "UL" []) (element 10 "UL" [])
           [li 1 "A"; li 2 "B"; li 3 "C"] (childNodesOf listCAB')
           replaceAll_editScript (le_n 2) eq_refl eq_refl).
Defined.

(** The list [A, B, C] morphed into [C, A, B] with the coarsest differ. *)
Lemma morph_leaves_from_rendering_as_to_witness :
  exists fromElement' childNodes log,
    morph replaceAll 2 [] listABC listCAB None =
      (ElementNode fromElement' childNodes, log, Completed) /\
    Forall2 sameMarkup childNodes [li 13 "C"; li 11 "A"; li 12 "B"].
Proof.
  destruct (morph_leaves_from_rendering_as_to replaceAll
              replaceAll_editScript None eq_refl 2 []
              (element 0 "UL" []) (element 10 "UL" [])
              [li 1 "A"; li 2 "B"; li 3 "C"]
              [li 13 "C"; li 11 "A"; li 12 "B"]
              (le_n 2) eq_refl eq_refl eq_refl)
    as (fromElement' & childNodes & log & Hmorph & _ & _ & _ & Hchildren).
  exists fromElement', childNodes, log.
  split; [exact Hmorph | exact Hchildren].
Defined.

(** The three live items are kept and put in the new order. *)
Example reorder_with_the_coarsest_differ :
  childNodesOf (morphed replaceAll 2 [] listABC listCAB None) =
  [li 3 "C"; li 1 "A"; li 2 "B"].
Proof. reflexivity. Qed.

End RenderingProperties.

(* ================================================================== *)
(** * Properties of [documentMount()] on a navigation *)
(* ================================================================== *)

Module DocumentMountProperties.

Import DOM Rendering.

(** ** A version mismatch *)

Lemma NoDup_disjoint {A : Type} (xs ys : list A) (a : A) :
  NoDup (xs ++ ys) -> In a xs -> In a ys -> False.
Proof.
  induction xs as [|x xs IH]; intros H Hx Hy; [destruct Hx|].
  simpl in H. inversion H as [|? ? Hnotin Hrest]; subst.
  destruct Hx as [->|Hx]; [|exact (IH Hrest Hx Hy)].
  apply Hnotin, in_or_app. right. exact Hy.
Qed.

Lemma firstMatch_element (selector : Selector) (element : Element)
    (childNodes : list Node) :
  firstMatch selector (ElementNode element childNodes) =
  if matches selector element then Some (ElementNode element childNodes)
  else firstMatchAmong selector childNodes.
Proof.
  cbn [firstMatch]. destruct (matches selector element); [reflexivity|].
  induction childNodes as [|child rest IH]; [reflexivity|].
  cbn [firstMatchAmong]. destruct (firstMatch selector child);
    [reflexivity | exact IH].
Qed.

(** What [querySelector()] finds is an element of the tree that
    matches. *)
Lemma firstMatch_found (selector : Selector) (tree found : Node) :
  firstMatch selector tree = Some found ->
  In (nodeIdentity found) (identities tree) /\
  exists element childNodes,
    found = ElementNode element childNodes /\
    matches selector element = true.
Proof.
  revert found.
  induction tree as [identity nodeValue | element childNodes IH]
    using FormsProperties.Node_induction; intros found H; [discriminate|].
  rewrite firstMatch_element in H.
  destruct (matches selector element) eqn:Em.
  - injection H as <-. split; [left; reflexivity|]. eauto.
  - cbn [identities]. 
    induction IH as [|child rest Hchild _ IHrest]; [discriminate|].
    cbn [firstMatchAmong] in H.
    destruct (firstMatch selector child) as [found'|] eqn:Ec.
    + injection H as <-. destruct (Hchild _ eq_refl) as [Hin Hmatch].
      split; [|exact Hmatch]. right. cbn [flat_map].
      apply in_or_app. left. exact Hin.
    + destruct (IHrest H) as [[Hin|Hin] Hmatch].
      * split; [left; exact Hin | exact Hmatch].
      * split; [|exact Hmatch]. right. cbn [flat_map].
        apply in_or_app. right. exact Hin.
Qed.

Lemma updateNode_absent (node : nat) (f : Node -> Node) (tree : Node) :
  ~ In node (identities tree) -> updateNode node f tree = tree.
Proof.
  induction tree as [identity nodeValue | element childNodes IH]
    using FormsProperties.Node_induction; intros H.
  - cbn [updateNode nodeIdentity]. cbn [identities] in H.
    destruct (identity =? node) eqn:E; [|reflexivity].
    apply Nat.eqb_eq in E. exfalso. apply H. left. exact E.
  - cbn [updateNode nodeIdentity]. cbn [identities] in H.
    destruct (DOM.identity element =? node) eqn:E.
    + apply Nat.eqb_eq in E. exfalso. apply H. left. exact E.
    + f_equal. 
      assert (Hbelow : ~ In node (flat_map identities childNodes)).
      { intros Hin. apply H. right. exact Hin. }
      clear H E.
      induction IH as [|child rest Hchild _ IHrest]; [reflexivity|].
      cbn [map]. cbn [flat_map] in Hbelow. rewrite Hchild, IHrest.
      * reflexivity.
      * intros Hin. apply Hbelow, in_or_app. right. exact Hin.
      * intros Hin. apply Hbelow, in_or_app. left. exact Hin.
Qed.

Lemma firstMatch_updateNode (selector : Selector) (f : Node -> Node)
    (tree : Node) :
  (forall element childNodes,
     exists childNodes',
       f (ElementNode element childNodes) = ElementNode element childNodes') ->
  NoDup (identities tree) ->
  forall found,
    firstMatch selector tree = Some found ->
    firstMatch selector (updateNode (nodeIdentity found) f tree) =
    Some (f found).
Proof.
  intros Hf.
  induction tree as [identity nodeValue | element childNodes IH]
    using FormsProperties.Node_induction; intros Hnd found H; [discriminate|].
  pose proof (firstMatch_found _ _ _ H) as [Hin (e & cs & Hfound & Hm)].
  rewrite firstMatch_element in H.
  destruct (matches selector element) eqn:Em.
  - injection H as <-. cbn [updateNode nodeIdentity].
    rewrite Nat.eqb_refl. injection Hfound as <- <-.
    destruct (Hf element childNodes) as [cs' ->].
    rewrite firstMatch_element, Em. reflexivity.
  - cbn [identities] in Hnd. apply NoDup_cons_iff in Hnd.
    destruct Hnd as [Hroot Hnd].
    assert (Hbelow : In (nodeIdentity found) (flat_map identities childNodes)).
    { clear - H. induction childNodes as [|child rest IHrest];
        [discriminate|].
      cbn [firstMatchAmong] in H. cbn [flat_map]. apply in_or_app.
      destruct (firstMatch selector child) as [found'|] eqn:Ec.
      - injection H as <-. left.
        exact (proj1 (firstMatch_found _ _ _ Ec)).
      - right. exact (IHrest H). }
    cbn [updateNode nodeIdentity].
    destruct (DOM.identity element =? nodeIdentity found) eqn:E.
    { apply Nat.eqb_eq in E. exfalso. apply Hroot. rewrite E. exact Hbelow. }
    rewrite firstMatch_element, Em. clear Hin Hbelow E Hroot.
    induction IH as [|child rest Hchild _ IHrest]; [discriminate|].
    cbn [flat_map] in Hnd.
    cbn [firstMatchAmong] in H. cbn [map firstMatchAmong].
    destruct (firstMatch selector child) as [found'|] eqn:Ec.
    + injection H as <-.
      rewrite (Hchild (NoDup_app_remove_r _ _ Hnd) _ eq_refl). reflexivity.
    + assert (Hrest : In (nodeIdentity found) (flat_map identities rest)).
      { clear - H. induction rest as [|c rest IHrest]; [discriminate|].
        cbn [firstMatchAmong] in H. cbn [flat_map]. apply in_or_app.
        destruct (firstMatch selector c) as [found'|] eqn:Ec.
        - injection H as <-. left.
          exact (proj1 (firstMatch_found _ _ _ Ec)).
        - right. exact (IHrest H). }
      rewrite updateNode_absent, Ec.
      * apply IHrest; [exact (NoDup_app_remove_l _ _ Hnd) | exact H].
      * intros Hc. exact (NoDup_disjoint _ _ _ Hnd Hc Hrest).
Qed.

Lemma identities_setIsModified (b : bool) (node : Node) :
  identities (setIsModified b node) = identities node.
Proof. destruct node; reflexivity. Qed.



Lemma removeNode_identity (node : nat) (tree : Node) :
  nodeIdentity (removeNode node tree) = nodeIdentity tree.
Proof. destruct tree; reflexivity. Qed.




Lemma removeNode_root (node : nat) (element : Element)
    (childNodes : list Node) :
  exists childNodes',
    removeNode node (ElementNode element childNodes) =
    ElementNode element childNodes'.
Proof. eexists. reflexivity. Qed.


Section VersionMismatch.

Variable fastMyersDiff : list string -> list string -> list Hunk.
Variable documentStringToElement : string -> Node.


End VersionMismatch.


(** The document that the call leaves, in full. *)
Example version_mismatch_shows_the_error :
  documentMount lcsDiff (fun _ => TextNode 0 "") 3
    (ContentElement (page "2" [paragraph])) liveConnectionUpdateEvent
    pageWindow =
  (mkWindow
     (Some
        (ElementNode
           (mkElement 0 "HTML" [] JSUndefined JSUndefined Unset (Some false))
           [ElementNode (element 1 "HEAD" [])
              [ElementNode
                 (element 2 "META" [("name", "version"); ("content", "1")])
                 []];
            ElementNode (element 3 "BODY" [])
              [TextNode 8 (newline ++ "          ");
               ElementNode (element 9 "DIV" [("key", "global-error")])
                 [TextNode 10
                    (newline ++
                     "            There has been an update. " ++
                     "Please reload the page." ++
                     newline ++ "          ")];
               TextNode 11 (newline ++ "        ");
               paragraph]]))
     [] [] 12,
   Completed).
Proof. vm_compute. reflexivity. Qed.

(** ** An update that goes through *)

Section DocumentMount.

Variable fastMyersDiff : list string -> list string -> list Hunk.
Hypothesis differ :
  forall xs ys, editScript xs ys (fastMyersDiff xs ys) = true.
Variable documentStringToElement : string -> Node.

(** X19. When the versions do not differ and the event is not a Live
    Connection update, as on a navigation, [documentMount()] leaves the
    document rendering as the content: the [html] element is the same
    object with the attributes of the content and children that render as
    the children of the content, and the event, [DOMContentLoaded] when
    none is given, is dispatched to the window once, after the morph. *)
Theorem documentMount_renders_the_content
    (fuel : nat) (content : Content) (event : option Event) (window : Window)
    (html toElement : Element) (childNodes toChildNodes : list Node) :
  document window = Some (ElementNode html childNodes) ->
  tagName html = "HTML" ->
  contentElement documentStringToElement content =
    ElementNode toElement toChildNodes ->
  (forall documentVersion contentVersion,
     version (documentQuerySelector window metaVersion) =
       Some documentVersion ->
     version (querySelector (ElementNode toElement toChildNodes) metaVersion) =
       Some contentVersion ->
     documentVersion = contentVersion) ->
  (forall given, event = Some given -> detail given <> Some true) ->
  height (ElementNode html childNodes) <= fuel ->
  distinct (identities (ElementNode html childNodes) ++
            identities (ElementNode toElement toChildNodes)) = true ->
  plainTags (ElementNode html childNodes) = true ->
  plainTags (ElementNode toElement toChildNodes) = true ->
  exists html' childNodes' log,
    documentMount fastMyersDiff documentStringToElement fuel content event
                  window =
      (mkWindow (Some (ElementNode html' childNodes'))
                (dispatched window ++
                 [match event with
                  | Some given => given
                  | None => mkEvent "DOMContentLoaded" None
                  end])
                (mutated window ++ log) (created window),
       Completed) /\
    sameObject html html' /\
    (forall name, getAttribute html' name = getAttribute toElement name) /\
    Forall2 sameMarkup childNodes' toChildNodes.
Proof.
  intros Hroot Htag Hcontent Hversions Hevent Hheight Hdistinct Hfrom Hto.
  set (given := match event with
                | Some given => given
                | None => mkEvent "DOMContentLoaded" None
                end).
  assert (HnotLive : isLiveConnectionUpdate (Some given) = false).
  { unfold given. destruct event as [[type [[|]|]]|]; try reflexivity.
    exfalso. exact (Hevent _ eq_refl eq_refl). }
  destruct (RenderingProperties.morph_renders fastMyersDiff differ
              (Some given) HnotLive fuel [] html childNodes toElement
              toChildNodes Hheight
              (DOMProperties.distinct_NoDup _ Hdistinct) Hfrom Hto)
    as (html' & childNodes' & log & Hmorph & Hsame & Hattr & _ & Hchildren).
  exists html', childNodes', log.
  split; [|split; [exact Hsame | split; [exact Hattr | exact Hchildren]]].
  unfold documentMount. rewrite Hcontent. fold given.
  assert (Hhtml : documentQuerySelector window (TypeSelector "HTML") =
                  Some (ElementNode html childNodes)).
  { unfold documentQuerySelector. rewrite Hroot. cbn [firstMatch matches].
    rewrite Htag. reflexivity. }
  rewrite Hhtml, Hmorph, Hroot.
  cbn [option_map updateNode nodeIdentity]. rewrite Nat.eqb_refl.
  destruct (version (documentQuerySelector window metaVersion))
    as [documentVersion|] eqn:Ed; [|reflexivity].
  destruct (version (querySelector (ElementNode toElement toChildNodes)
                                   metaVersion))
    as [contentVersion|] eqn:Ec; [|reflexivity].
  rewrite (Hversions _ _ eq_refl eq_refl), String.eqb_refl. reflexivity.
Qed.

End DocumentMount.

(** A page without a version takes the list of another page. *)
Lemma documentMount_renders_the_content_witness :
  exists html' childNodes' log,
    documentMount replaceAll (fun _ => listCAB) 3
      (ContentElement (ElementNode (element 20 "HTML" []) [listCAB])) None
      (mkWindow (Some (ElementNode (element 9 "HTML" []) [listABC])) [] [] 30)
    = (mkWindow (Some (ElementNode html' childNodes'))
                [mkEvent "DOMContentLoaded" None] log 30,
       Completed) /\
    Forall2 sameMarkup childNodes' [listCAB].
Proof.
  destruct (documentMount_renders_the_content replaceAll
              RenderingProperties.replaceAll_editScript (fun _ => listCAB) 3
              (ContentElement (ElementNode (element 20 "HTML" []) [listCAB]))
              None
              (mkWindow (Some (ElementNode (element 9 "HTML" []) [listABC]))
                        [] [] 30)
              (element 9 "HTML" []) (element 20 "HTML" []) [listABC] [listCAB]
              eq_refl eq_refl eq_refl)
    as (html' & childNodes' & log & Hmount & _ & _ & Hchildren).
  - intros documentVersion contentVersion H. discriminate.
  - intros given H. discriminate.
  - simpl. auto.
  - reflexivity.
  - reflexivity.
  - reflexivity.
  - exists html', childNodes', log. split; [exact Hmount | exact Hchildren].
Defined.

End DocumentMountProperties.

(* ================================================================== *)
(** * Properties of updates in place *)
(* ================================================================== *)

Module InPlaceProperties.

Import DOM InPlace.

Lemma sameKeys_children (fromElement toElement : Element)
    (fromChildNodes toChildNodes : list Node) :
  sameKeys (ElementNode fromElement fromChildNodes)
           (ElementNode toElement toChildNodes) = true ->
  Forall2 (fun from to => key from = key to /\ sameKeys from to = true)
          fromChildNodes toChildNodes.
Proof.
  cbn [sameKeys]. revert toChildNodes.
  induction fromChildNodes as [|from fromChildNodes IH];
    intros [|to toChildNodes] H; try discriminate; constructor.
  - apply andb_true_iff in H. destruct H as [H _].
    apply andb_true_iff in H. destruct H as [Hkey Hbelow].
    split; [apply String.eqb_eq, Hkey | exact Hbelow].
  - apply IH. apply andb_true_iff in H. exact (proj2 H).
Qed.

Lemma inPlace_refl : forall node, inPlace node node.
Proof.
  fix IH 1. intros [element childNodes | identity nodeValue].
  - constructor; [apply DOMProperties.sameObject_refl|].
    induction childNodes as [|child rest IHrest]; constructor;
      [apply IH | exact IHrest].
  - constructor.
Qed.

Lemma inPlace_identity (node node' : Node) :
  inPlace node node' -> nodeIdentity node' = nodeIdentity node.
Proof. intros [i v | e e' cs cs' (Hi & _) _]; [reflexivity | exact Hi]. Qed.

Lemma fold_left_log {A : Type} (step : Element * list Mutation -> A ->
                                       Element * list Mutation)
    (xs : list A) :
  (forall state x,
     forallb onElement (snd state) = true ->
     forallb onElement (snd (step state x)) = true) ->
  forall state,
    forallb onElement (snd state) = true ->
    forallb onElement (snd (fold_left step xs state)) = true.
Proof.
  intros Hstep. induction xs as [|x xs IH]; intros state H; [exact H|].
  simpl. apply IH, Hstep, H.
Qed.

Lemma forallb_snoc (log : list Mutation) (mutation : Mutation) :
  forallb onElement log = true -> onElement mutation = true ->
  forallb onElement (log ++ [mutation]) = true.
Proof.
  intros H Hm. rewrite forallb_app, H. simpl. rewrite Hm. reflexivity.
Qed.

(** Lines 318 to 350 touch attributes and properties only. *)
Lemma morphElement_log (event : option Event) (ancestors : list Element)
    (from to : Element) (fromChildNodes toChildNodes : list Node) :
  forallb onElement
    (snd (morphElement event ancestors from to fromChildNodes toChildNodes)) =
  true.
Proof.
  unfold morphElement, morphProperties, morphAttributes.
  set (state := fold_left _ _ _).
  assert (Hstate : forallb onElement (snd state) = true).
  { apply fold_left_log; [|reflexivity].
    intros [e log] a H. unfold morphAttribute. cbn [snd] in *.
    destruct (_ && _ && _); [exact H|].
    destruct (getAttribute to a) as [v|].
    - destruct (getAttribute e a) as [w|];
        [destruct (String.eqb w v); [exact H|]|];
        apply forallb_snoc; auto.
    - apply forallb_snoc; auto. }
  destruct (matchesInputTextarea (fst state)); [|exact Hstate].
  apply fold_left_log; [|exact Hstate].
  intros [e log] p H. unfold morphProperty. cbn [snd] in *.
  destruct (_ && _); [exact H|].
  destruct (JSValue_eqb _ _); [exact H|].
  apply forallb_snoc; auto.
Qed.

Lemma replaceChild_inPlace (childNodes current : list Node)
    (from from' : Node) :
  NoDup (map nodeIdentity childNodes) ->
  Forall2 inPlace childNodes current ->
  In from childNodes -> inPlace from from' ->
  Forall2 inPlace childNodes (replaceChild current from').
Proof.
  intros Hnd Hall. revert Hnd.
  induction Hall as [|child child' rest rest' Hchild Hrest IH];
    intros Hnd Hin Hfrom; [constructor|].
  cbn [replaceChild]. cbn [map] in Hnd.
  apply NoDup_cons_iff in Hnd. destruct Hnd as [Hnotin Hnd].
  rewrite (inPlace_identity _ _ Hchild), (inPlace_identity _ _ Hfrom).
  destruct (nodeIdentity child =? nodeIdentity from) eqn:E.
  - apply Nat.eqb_eq in E. constructor; [|exact Hrest].
    destruct Hin as [<-|Hin]; [exact Hfrom|].
    exfalso. apply Hnotin. rewrite E. apply in_map, Hin.
  - constructor; [exact Hchild|].
    destruct Hin as [<-|Hin]; [rewrite Nat.eqb_refl in E; discriminate|].
    exact (IH Hnd Hin Hfrom).
Qed.

Lemma morphPairs_inPlace
    (morph : Node -> Node -> Node * list Mutation * Completion)
    (childNodes : list Node) :
  NoDup (map nodeIdentity childNodes) ->
  forall toMorph current log,
    Forall2 inPlace childNodes current ->
    forallb onElement log = true ->
    (forall from to, In (from, to) toMorph ->
       In from childNodes /\
       (elementOf from <> None ->
        exists from' log',
          morph from to = (from', log', Completed) /\
          inPlace from from' /\ forallb onElement log' = true)) ->
    exists current' log',
      morphPairs morph toMorph current log = (current', log', Completed) /\
      Forall2 inPlace childNodes current' /\
      forallb onElement log' = true.
Proof.
  intros Hnd toMorph.
  induction toMorph as [|[from to] toMorph IH]; intros current log Hall Hlog H.
  - exists current, log. auto.
  - assert (Hrest : forall f t, In (f, t) toMorph ->
              In f childNodes /\
              (elementOf f <> None ->
               exists f' log',
                 morph f t = (f', log', Completed) /\
                 inPlace f f' /\ forallb onElement log' = true)).
    { intros f t Hin. apply H. right. exact Hin. }
    destruct (H from to (or_introl eq_refl)) as [Hin Hmorph].
    cbn [morphPairs]. destruct from as [element children | i v].
    + destruct Hmorph as (from' & log' & -> & Hfrom & Hlog');
        [discriminate|].
      apply IH; [|rewrite forallb_app, Hlog, Hlog'; reflexivity | exact Hrest].
      exact (replaceChild_inPlace _ _ _ _ Hnd Hall Hin Hfrom).
    + apply IH; assumption.
Qed.

Lemma in_combine_Forall2 {A B : Type} (R : A -> B -> Prop) (xs : list A)
    (ys : list B) (x : A) (y : B) :
  Forall2 R xs ys -> In (x, y) (combine xs ys) -> R x y.
Proof.
  induction 1 as [|x' y' xs ys Hxy _ IH]; simpl; [tauto|].
  intros [Heq|Hin]; [injection Heq as <- <-; exact Hxy | exact (IH Hin)].
Qed.

Lemma Forall2_keys (fromChildNodes toChildNodes : list Node) :
  Forall2 (fun from to => key from = key to /\ sameKeys from to = true)
          fromChildNodes toChildNodes ->
  map key fromChildNodes = map key toChildNodes /\
  List.length toChildNodes = List.length fromChildNodes.
Proof.
  induction 1 as [|from to fs ts [Hkey _] _ [IHkeys IHlength]]; simpl;
    [auto|].
  rewrite Hkey, IHkeys, IHlength. auto.
Qed.

Section InPlace.

Variable fastMyersDiff : list string -> list string -> list Hunk.
Hypothesis noHunks : forall keys, fastMyersDiff keys keys = [].

(** X20. When the children of [from] and of [to] have the same keys at
    the same places, all the way down, and the diff of a list of keys with
    itself is empty, [morph()] completes and updates in place: it changes
    attributes and properties only, no child is removed or inserted, and
    [from] is left with the same node objects at the same places. *)
Theorem morph_updates_in_place
    (fuel : nat) (ancestors : list Element) (from to : Node)
    (event : option Event) :
  sameKeys from to = true ->
  elementOf from <> None ->
  distinctSiblings from = true ->
  height from <= fuel ->
  exists from' log,
    morph fastMyersDiff fuel ancestors from to event =
      (from', log, Completed) /\
    inPlace from from' /\
    forallb onElement log = true.
Proof.
  revert ancestors from to.
  induction fuel as [|fuel IH];
    intros ancestors from to Hkeys Helement Hdistinct Hheight.
  - destruct from; simpl in *; [lia | congruence].
  - destruct from as [fromElement fromChildNodes | i v];
      [|simpl in Helement; congruence].
    destruct to as [toElement toChildNodes | j w]; [|discriminate].
    cbn [morph].
    destruct (isLiveConnectionUpdate event && explicitlyFalse fromElement).
    { eexists _, _. split; [reflexivity|].
      split; [apply inPlace_refl | reflexivity]. }
    pose proof (DOMProperties.morphElement_spec event ancestors fromElement
                  toElement fromChildNodes toChildNodes) as (Hsame & _).
    pose proof (morphElement_log event ancestors fromElement toElement
                  fromChildNodes toChildNodes) as Hlog.
    destruct (morphElement event ancestors fromElement toElement
                         fromChildNodes toChildNodes)
      as [fromElement' log0].
    cbn [fst snd] in Hsame, Hlog.
    pose proof (sameKeys_children _ _ _ _ Hkeys) as Hchildren.
    destruct (Forall2_keys _ _ Hchildren) as [Hmap Hlength].
    rewrite Hmap, noHunks, (DOMProperties.reconcile_no_hunks _ _ _ Hlength).
    unfold applyPlan. cbn [toRemove toAdd toMorph flat_map removeChildren
                           insertChildren].
    simpl in Hdistinct. apply andb_true_iff in Hdistinct.
    destruct Hdistinct as [Hsiblings Hbelow].
    destruct (morphPairs_inPlace
                (fun from to =>
                   morph fastMyersDiff fuel (fromElement' :: ancestors)
                         from to event)
                fromChildNodes (DOMProperties.distinct_NoDup _ Hsiblings)
                (combine fromChildNodes toChildNodes) fromChildNodes log0)
      as (childNodes & log & -> & Hall & Hlog').
    + clear. induction fromChildNodes; constructor;
        [apply inPlace_refl | assumption].
    + exact Hlog.
    + intros f t Hin. split; [exact (in_combine_l _ _ _ _ Hin)|].
      intros Hf.
      destruct (in_combine_Forall2 _ _ _ _ _ Hchildren Hin) as [_ Hft].
      apply in_combine_l in Hin.
      apply IH.
      * exact Hft.
      * exact Hf.
      * rewrite forallb_forall in Hbelow. exact (Hbelow f Hin).
      * apply Nat.le_trans with (list_max (map height fromChildNodes)).
        -- assert (Hmax := proj1 (list_max_le (map height fromChildNodes)
                                    (list_max (map height fromChildNodes)))
                                 (Nat.le_refl _)).
           rewrite Forall_forall in Hmax. apply Hmax, in_map, Hin.
        -- simpl in Hheight. apply le_S_n, Hheight.
    + exists (ElementNode fromElement' childNodes), log.
      split; [reflexivity|].
      split; [constructor; assumption | exact Hlog'].
Qed.

End InPlace.

(** A list takes a class, and its first item is hidden: two attributes
    are set and the three items stay where they are. *)
Lemma morph_updates_in_place_witness :
  exists from' log,
    morph lcsDiff 2 [] listABC listABC' None = (from', log, Completed) /\
    inPlace listABC from' /\
    forallb onElement log = true.
Proof.
  refine (morph_updates_in_place lcsDiff DOMProperties.lcsDiff_same 2 []
            listABC listABC' None eq_refl _ eq_refl _).
  - discriminate.
  - simpl. lia.
Defined.

Example attributes_set_in_place :
  snd (fst (morph lcsDiff 2 [] listABC listABC' None)) =
  [SetAttribute 0 "class" "wide"; SetAttribute 1 "hidden" ""].
Proof. reflexivity. Qed.

End InPlaceProperties.

(* ================================================================== *)
(** * Properties of the pool of interned values *)
(* ================================================================== *)

Module InternProperties.

Import Intern.

(** ** Keys and maps *)

Lemma sameValueZero_eq (v w : InternInnerValue) :
  sameValueZero v w = true <-> v = w.
Proof.
  destruct v, w; simpl; split; intros H; try discriminate; try reflexivity;
    try (apply String.eqb_eq in H; congruence);
    try (apply Nat.eqb_eq in H; congruence);
    try (apply Bool.eqb_prop in H; congruence);
    injection H as ->;
    auto using String.eqb_refl, Nat.eqb_refl, Bool.eqb_reflx.
Qed.

Lemma sameKey_eq (k l : InternKey) : sameKey k l = true <-> k = l.
Proof.
  destruct k, l; simpl; split; intros H; try discriminate;
    try (apply String.eqb_eq in H; congruence);
    try (apply Nat.eqb_eq in H; congruence);
    injection H as ->; auto using String.eqb_refl, Nat.eqb_refl.
Qed.

Section Maps.

Context {K V : Type}.
Variable same : K -> K -> bool.
Hypothesis same_eq : forall k l, same k l = true <-> k = l.

Lemma same_refl (k : K) : same k k = true.
Proof. apply same_eq. reflexivity. Qed.

Lemma get_set (k k' : K) (v : V) (map : list (K * V)) :
  get same k' (set same k v map) =
  if same k k' then Some v else get same k' map.
Proof.
  induction map as [|[l w] map IH]; simpl; [reflexivity|].
  destruct (same l k) eqn:E; simpl.
  - apply same_eq in E. subst l. destruct (same k k'); reflexivity.
  - rewrite IH. destruct (same l k') eqn:E'; [|reflexivity].
    apply same_eq in E'. subst l.
    destruct (same k k') eqn:E''; [|reflexivity].
    apply same_eq in E''. subst k'. rewrite same_refl in E. discriminate.
Qed.

Lemma get_app (k : K) (map map' : list (K * V)) :
  get same k (map ++ map') =
  match get same k map with
  | Some v => Some v
  | None => get same k map'
  end.
Proof.
  induction map as [|[l w] map IH]; simpl; [reflexivity|].
  destruct (same l k); [reflexivity | exact IH].
Qed.

Lemma set_not_empty (k : K) (v : V) (map : list (K * V)) :
  set same k v map <> [].
Proof.
  destruct map as [|[l w] map]; simpl; [discriminate|].
  destruct (same l k); discriminate.
Qed.

End Maps.

(** ** The node objects *)

Lemma nodeAt_update (node node' : nat) (f : InternNode -> InternNode)
    (nodes : list InternNode) :
  nodeAt (update node f nodes) node' =
  if (node =? node') && (node <? List.length nodes)
  then f (nodeAt nodes node') else nodeAt nodes node'.
Proof.
  unfold nodeAt. revert node node'.
  induction nodes as [|first rest IH]; intros node node'.
  - rewrite andb_false_r. destruct node; reflexivity.
  - destruct node as [|node], node' as [|node']; simpl; try reflexivity.
    rewrite IH. reflexivity.
Qed.

Lemma length_update (node : nat) (f : InternNode -> InternNode)
    (nodes : list InternNode) :
  List.length (update node f nodes) = List.length nodes.
Proof.
  revert node. induction nodes as [|first rest IH]; intros [|node]; simpl;
    auto.
Qed.

Lemma nodeAt_app (nodes : list InternNode) (new : InternNode) (node : nat) :
  nodeAt (nodes ++ [new]) node =
  if node =? List.length nodes then new else nodeAt nodes node.
Proof.
  unfold nodeAt. destruct (node =? List.length nodes) eqn:E.
  - apply Nat.eqb_eq in E. subst node.
    rewrite app_nth2, Nat.sub_diag by lia. reflexivity.
  - apply Nat.eqb_neq in E.
    destruct (Nat.lt_ge_cases node (List.length nodes)) as [Hlt|Hge].
    + apply app_nth1. exact Hlt.
    + rewrite !nth_overflow;
        [reflexivity | exact Hge | rewrite length_app; simpl; lia].
Qed.

Lemma nodeAt_overflow (nodes : list InternNode) (node : nat) :
  List.length nodes <= node -> nodeAt nodes node = RootNode None.
Proof. apply nth_overflow. Qed.

Lemma child_overflow (nodes : list InternNode) (node : nat)
    (key : InternKey) (innerValue : InternInnerValue) :
  List.length nodes <= node -> child nodes node key innerValue = None.
Proof.
  intros H. unfold child. rewrite nodeAt_overflow by exact H. reflexivity.
Qed.

Lemma extends_refl (nodes : list InternNode) : extends nodes nodes.
Proof. split; auto. Qed.

Lemma extends_trans (nodes1 nodes2 nodes3 : list InternNode) :
  extends nodes1 nodes2 -> extends nodes2 nodes3 -> extends nodes1 nodes3.
Proof. intros [H1 H1'] [H2 H2']. split; auto. Qed.

Lemma find_extends (nodes nodes' : list InternNode) :
  extends nodes nodes' ->
  forall entries node leaf,
    find nodes node entries = Some leaf ->
    find nodes' node entries = Some leaf.
Proof.
  intros [Hchild _] entries.
  induction entries as [|[key innerValue] entries IH]; intros node leaf;
    simpl; [auto|].
  destruct (child nodes node key innerValue) as [node'|] eqn:E;
    [|discriminate].
  rewrite (Hchild _ _ _ _ E). apply IH.
Qed.

(** ** One step down *)

Lemma descend_found (nodes : list InternNode) (node : nat)
    (key : InternKey) (innerValue : InternInnerValue) (node' : nat) :
  child nodes node key innerValue = Some node' ->
  descend (node, nodes) (key, innerValue) = (node', nodes).
Proof.
  unfold child, descend.
  destruct (children (nodeAt nodes node)) as [cache|]; [|discriminate].
  destruct (get sameKey key cache) as [valueMap|]; [|discriminate].
  intros ->. reflexivity.
Qed.

Lemma descend_created (nodes : list InternNode) (node : nat)
    (key : InternKey) (innerValue : InternInnerValue) :
  child nodes node key innerValue = None ->
  node < List.length nodes ->
  let nodes' := snd (descend (node, nodes) (key, innerValue)) in
  fst (descend (node, nodes) (key, innerValue)) = List.length nodes /\
  List.length nodes' = S (List.length nodes) /\
  nodeAt nodes' (List.length nodes) = InnerNode key innerValue None None node /\
  child nodes' node key innerValue = Some (List.length nodes) /\
  (forall k v, (k, v) <> (key, innerValue) ->
     child nodes' node k v = child nodes node k v) /\
  (forall n, n <> node -> n < List.length nodes ->
     nodeAt nodes' n = nodeAt nodes n) /\
  finalValue (nodeAt nodes' node) = finalValue (nodeAt nodes node) /\
  root (nodeAt nodes' node) = root (nodeAt nodes node) /\
  parent (nodeAt nodes' node) = parent (nodeAt nodes node) /\
  childless (nodeAt nodes' node) = false /\
  exists cache, nodeAt nodes' node = setChildren cache (nodeAt nodes node).
Proof.
  intros Hchild Hnode. unfold child in Hchild. unfold descend. cbv zeta.
  set (cache := match children (nodeAt nodes node) with
                | Some cache => cache
                | None => []
                end) in *.
  set (valueMap := match get sameKey key cache with
                   | Some valueMap => valueMap
                   | None => []
                   end).
  assert (Hnone : get sameValueZero innerValue valueMap = None).
  { unfold valueMap, cache.
    destruct (children (nodeAt nodes node)) as [c|]; [|reflexivity].
    destruct (get sameKey key c); [exact Hchild | reflexivity]. }
  rewrite Hnone. cbn [fst snd].
  set (cache' := set sameKey key _ cache).
  assert (Hat : nodeAt (update node (setChildren cache') nodes ++
                        [InnerNode key innerValue None None node]) node =
                setChildren cache' (nodeAt nodes node)).
  { rewrite nodeAt_app, length_update.
    replace (node =? List.length nodes) with false
      by (symmetry; apply Nat.eqb_neq; lia).
    rewrite nodeAt_update, Nat.eqb_refl.
    replace (node <? List.length nodes) with true
      by (symmetry; apply Nat.ltb_lt; exact Hnode).
    reflexivity. }
  assert (Hchildren : forall n, children (setChildren cache' n) = Some cache')
    by (intros []; reflexivity).
  repeat split.
  - rewrite length_app, length_update. simpl. lia.
  - rewrite nodeAt_app, length_update, Nat.eqb_refl. reflexivity.
  - unfold child. rewrite Hat, Hchildren. unfold cache'.
    rewrite (get_set sameKey sameKey_eq), (same_refl sameKey sameKey_eq).
    rewrite (get_app sameValueZero), Hnone. simpl.
    rewrite (same_refl sameValueZero sameValueZero_eq). reflexivity.
  - intros k v Hneq. unfold child. rewrite Hat, Hchildren. unfold cache'.
    rewrite (get_set sameKey sameKey_eq).
    destruct (sameKey key k) eqn:Ek.
    + apply sameKey_eq in Ek. subst k.
      rewrite (get_app sameValueZero). simpl.
      destruct (sameValueZero innerValue v) eqn:Ev.
      * apply sameValueZero_eq in Ev. subst v. congruence.
      * unfold valueMap, cache.
        destruct (children (nodeAt nodes node)) as [c|]; [|reflexivity].
        destruct (get sameKey key c) as [m|]; [|reflexivity].
        destruct (get sameValueZero v m); reflexivity.
    + unfold cache.
      destruct (children (nodeAt nodes node)) as [c|]; reflexivity.
  - intros n Hn Hlt. rewrite nodeAt_app, length_update.
    replace (n =? List.length nodes) with false
      by (symmetry; apply Nat.eqb_neq; lia).
    rewrite nodeAt_update.
    replace (node =? n) with false by (symmetry; apply Nat.eqb_neq; lia).
    reflexivity.
  - rewrite Hat. destruct (nodeAt nodes node); reflexivity.
  - rewrite Hat. destruct (nodeAt nodes node); reflexivity.
  - rewrite Hat. destruct (nodeAt nodes node); reflexivity.
  - rewrite Hat. unfold childless. rewrite Hchildren. unfold cache'.
    pose proof (set_not_empty sameKey key
                  (valueMap ++ [(innerValue, List.length nodes)]) cache).
    destruct (set sameKey key _ cache); [congruence | reflexivity].
  - exists cache'. exact Hat.
Qed.

Lemma child_nodeAt (nodes nodes' : list InternNode) (node : nat)
    (key : InternKey) (innerValue : InternInnerValue) :
  nodeAt nodes' node = nodeAt nodes node ->
  child nodes' node key innerValue = child nodes node key innerValue.
Proof. intros H. unfold child. rewrite H. reflexivity. Qed.

Lemma child_childless (nodes : list InternNode) (node : nat)
    (key : InternKey) (innerValue : InternInnerValue) (node' : nat) :
  child nodes node key innerValue = Some node' ->
  prunable (nodeAt nodes node) = false.
Proof.
  unfold child, prunable, childless.
  destruct (children (nodeAt nodes node)) as [[|entry cache]|];
    simpl; try discriminate. reflexivity.
Qed.

Lemma entry_eq_dec (entry entry' : InternKey * InternInnerValue) :
  entry = entry' \/ entry <> entry'.
Proof.
  destruct entry as [k v], entry' as [k' v'].
  destruct (sameKey k k') eqn:Ek.
  - apply sameKey_eq in Ek. subst k'.
    destruct (sameValueZero v v') eqn:Ev.
    + apply sameValueZero_eq in Ev. subst v'. left. reflexivity.
    + right. intros H. injection H as ->.
      rewrite (same_refl sameValueZero sameValueZero_eq) in Ev. discriminate.
  - right. intros H. injection H as -> _.
    rewrite (same_refl sameKey sameKey_eq) in Ek. discriminate.
Qed.

(** One step of the loop keeps the tree, and leaves no node behind that
    the callback looks for. *)
Lemma descend_tree (nodes : list InternNode) (node : nat)
    (key : InternKey) (innerValue : InternInnerValue) :
  tree nodes -> node < List.length nodes -> kept nodes node ->
  let node' := fst (descend (node, nodes) (key, innerValue)) in
  let nodes' := snd (descend (node, nodes) (key, innerValue)) in
  tree nodes' /\ 0 < node' < List.length nodes' /\ kept nodes' node' /\
  extends nodes nodes' /\ child nodes' node key innerValue = Some node'.
Proof.
  intros (Hroot & Hlength & Hparent & Hchild) Hnode Hkept.
  destruct (child nodes node key innerValue) as [found|] eqn:E.
  - cbv zeta. rewrite (descend_found _ _ _ _ _ E). cbn [fst snd].
    split; [exact (conj Hroot (conj Hlength (conj Hparent Hchild)))|].
    split; [exact (Hchild _ _ _ _ E)|].
    split; [|split; [apply extends_refl | exact E]].
    intros n Hn Hneq. destruct (Nat.eq_dec n node) as [->|Hother].
    + exact (child_childless _ _ _ _ _ E).
    + exact (Hkept n Hn Hother).
  - destruct (descend_created nodes node key innerValue E Hnode)
      as (Hfst & Hlen & Hnew & Hmade & Hothers & Hsame & Hfinal & Hr & Hp &
          Hchildless & _).
    cbv zeta. rewrite Hfst.
    set (nodes' := snd (descend (node, nodes) (key, innerValue))) in *.
    assert (Hat : forall n, n < List.length nodes ->
              root (nodeAt nodes' n) = root (nodeAt nodes n) /\
              parent (nodeAt nodes' n) = parent (nodeAt nodes n) /\
              finalValue (nodeAt nodes' n) = finalValue (nodeAt nodes n)).
    { intros n Hn. destruct (Nat.eq_dec n node) as [->|Hother]; [auto|].
      rewrite (Hsame n Hother Hn). auto. }
    assert (Hnone : forall n k v, List.length nodes <= n ->
              child nodes' n k v = None).
    { intros n k v Hn. apply Nat.lt_eq_cases in Hn. destruct Hn as [Hn|<-].
      - apply child_overflow. lia.
      - unfold child. rewrite Hnew. reflexivity. }
    split; [|split; [lia|split; [|split]]].
    + split; [rewrite (proj1 (Hat 0 Hlength)); exact Hroot|].
      split; [lia|]. split.
      * intros n Hn. destruct (Nat.eq_dec n (List.length nodes)) as [->|Hold].
        -- exists node. rewrite Hnew. auto.
        -- destruct (Hat n ltac:(lia)) as (_ & -> & _).
           apply Hparent. lia.
      * intros n k v c Hc. rewrite Hlen.
        destruct (Nat.lt_ge_cases n (List.length nodes)) as [Hn|Hn];
          [|rewrite (Hnone n k v Hn) in Hc; discriminate].
        destruct (Nat.eq_dec n node) as [->|Hother].
        -- destruct (entry_eq_dec (k, v) (key, innerValue)) as [Heq|Hneq].
           ++ injection Heq as -> ->. rewrite Hmade in Hc.
              injection Hc as <-. lia.
           ++ rewrite (Hothers k v Hneq) in Hc. apply Hchild in Hc. lia.
        -- rewrite (child_nodeAt _ _ _ _ _ (Hsame n Hother Hn)) in Hc.
           apply Hchild in Hc. lia.
    + intros n Hn Hneq. rewrite Hlen in Hn.
      destruct (Nat.eq_dec n node) as [->|Hother].
      * unfold prunable. rewrite Hchildless. reflexivity.
      * rewrite (Hsame n Hother ltac:(lia)). apply Hkept; [lia | exact Hother].
    + split.
      * intros n k v c Hc.
        destruct (Nat.lt_ge_cases n (List.length nodes)) as [Hn|Hn];
          [|rewrite (child_overflow _ _ _ _ Hn) in Hc; discriminate].
        destruct (Nat.eq_dec n node) as [->|Hother].
        -- rewrite Hothers; [exact Hc|].
           intros Heq. injection Heq as -> ->. congruence.
        -- rewrite (child_nodeAt _ _ _ _ _ (Hsame n Hother Hn)). exact Hc.
      * intros n object Hf.
        destruct (Nat.lt_ge_cases n (List.length nodes)) as [Hn|Hn];
          [|rewrite (nodeAt_overflow _ _ Hn) in Hf; discriminate].
        destruct (Hat n Hn) as (_ & _ & ->). exact Hf.
    + exact Hmade.
Qed.

(** The loop of lines 271 to 279. *)
Lemma descend_all (entries : list (InternKey * InternInnerValue)) :
  forall nodes node,
    tree nodes -> node < List.length nodes -> kept nodes node ->
    let leaf := fst (fold_left descend entries (node, nodes)) in
    let nodes' := snd (fold_left descend entries (node, nodes)) in
    tree nodes' /\ leaf < List.length nodes' /\ kept nodes' leaf /\
    extends nodes nodes' /\ find nodes' node entries = Some leaf /\
    (entries <> [] -> 0 < leaf).
Proof.
  induction entries as [|[key innerValue] entries IH];
    intros nodes node Htree Hnode Hkept.
  - cbn [fold_left fst snd find].
    split; [exact Htree|]. split; [exact Hnode|]. split; [exact Hkept|].
    split; [apply extends_refl|]. split; [reflexivity | congruence].
  - cbn [fold_left].
    destruct (descend_tree nodes node key innerValue Htree Hnode Hkept)
      as (Htree1 & Hnode1 & Hkept1 & Hext1 & Hchild1).
    destruct (descend (node, nodes) (key, innerValue)) as [node1 nodes1].
    cbn [fst snd] in *.
    destruct (IH nodes1 node1 Htree1 (proj2 Hnode1) Hkept1)
      as (Htree2 & Hleaf & Hkept2 & Hext2 & Hfind & Hpositive).
    cbv zeta.
    split; [exact Htree2|]. split; [exact Hleaf|]. split; [exact Hkept2|].
    split; [exact (extends_trans _ _ _ Hext1 Hext2)|].
    split.
    + cbn [find]. rewrite (proj1 Hext2 _ _ _ _ Hchild1). exact Hfind.
    + intros _. destruct entries as [|entry entries].
      * cbn [fold_left fst]. lia.
      * apply Hpositive. discriminate.
Qed.

(** Where the nodes are already there, the loop follows them and creates
    nothing. *)
Lemma descend_find (nodes : list InternNode) :
  forall entries node leaf,
    find nodes node entries = Some leaf ->
    fold_left descend entries (node, nodes) = (leaf, nodes).
Proof.
  intros entries.
  induction entries as [|[key innerValue] entries IH]; intros node leaf;
    cbn [find fold_left].
  - intros H. injection H as ->. reflexivity.
  - destruct (child nodes node key innerValue) as [node'|] eqn:E;
      [|discriminate].
    rewrite (descend_found _ _ _ _ _ E). apply IH.
Qed.

(** ** The callback of the registry *)

(** In a heap between two calls, the callback finds nothing to prune on
    the way from any node up to the root. *)
Lemma prune_sound (nodes : list InternNode) :
  tree nodes -> kept nodes 0 ->
  forall fuel node, node < fuel -> prune fuel node nodes = Some nodes.
Proof.
  intros (Hroot & Hlength & Hparent & Hchild) Hkept fuel.
  induction fuel as [|fuel IH]; intros node Hfuel; [lia|].
  cbn [prune].
  destruct (nodeAt nodes node) as [cache | key value final cache above]
    eqn:E; [reflexivity|].
  assert (Hnode : 0 < node < List.length nodes).
  { split.
    - destruct node; [rewrite E in Hroot; discriminate | lia].
    - destruct (Nat.lt_ge_cases node (List.length nodes)) as [H|H];
        [exact H|].
      rewrite (nodeAt_overflow _ _ H) in E. discriminate. }
  pose proof (Hkept node Hnode ltac:(lia)) as Hprunable.
  unfold prunable in Hprunable. rewrite E in Hprunable. rewrite Hprunable.
  destruct (Hparent node Hnode) as (above' & Habove & Hlt).
  rewrite E in Habove. injection Habove as ->.
  apply IH. lia.
Qed.

Lemma prune_loaded (nodes : list InternNode) (node : nat) :
  tree nodes -> kept nodes 0 ->
  prune (List.length nodes) node nodes = Some nodes.
Proof.
  intros Htree Hkept.
  destruct (Nat.lt_ge_cases node (List.length nodes)) as [H|H].
  - apply prune_sound; assumption.
  - destruct Htree as (_ & Hlength & _).
    destruct (List.length nodes) as [|fuel] eqn:E; [lia|].
    cbn [prune]. rewrite nodeAt_overflow by lia. reflexivity.
Qed.

(** ** A call of [intern()] *)

Lemma nodeAt_setFinalValue (nodes : list InternNode) (leaf node object : nat) :
  let nodes' := update leaf (setFinalValue object) nodes in
  root (nodeAt nodes' node) = root (nodeAt nodes node) /\
  parent (nodeAt nodes' node) = parent (nodeAt nodes node) /\
  children (nodeAt nodes' node) = children (nodeAt nodes node) /\
  (node <> leaf -> nodeAt nodes' node = nodeAt nodes node).
Proof.
  cbv zeta. rewrite nodeAt_update.
  destruct (leaf =? node) eqn:E; cbn [andb].
  - apply Nat.eqb_eq in E. subst node.
    destruct (leaf <? List.length nodes); [|auto].
    destruct (nodeAt nodes leaf); simpl; repeat split; congruence.
  - auto.
Qed.

Lemma child_setFinalValue (nodes : list InternNode) (leaf object node : nat)
    (key : InternKey) (innerValue : InternInnerValue) :
  child (update leaf (setFinalValue object) nodes) node key innerValue =
  child nodes node key innerValue.
Proof.
  unfold child.
  destruct (nodeAt_setFinalValue nodes leaf node object) as (_ & _ & -> & _).
  reflexivity.
Qed.

Lemma tree_setFinalValue (nodes : list InternNode) (leaf object : nat) :
  tree nodes -> tree (update leaf (setFinalValue object) nodes).
Proof.
  intros (Hroot & Hlength & Hparent & Hchild).
  split; [|split; [|split]].
  - destruct (nodeAt_setFinalValue nodes leaf 0 object) as (-> & _).
    exact Hroot.
  - rewrite length_update. exact Hlength.
  - intros node Hnode. rewrite length_update in Hnode.
    destruct (nodeAt_setFinalValue nodes leaf node object) as (_ & -> & _).
    exact (Hparent node Hnode).
  - intros node key innerValue node'.
    rewrite child_setFinalValue, length_update. apply Hchild.
Qed.

Section Calls.

Variable localeCompare : string -> string -> comparison.

(** What a call leaves: a heap between two calls again, in which nothing
    of the pool is lost. *)
Lemma intern_sound (value : nat) (contents : Contents) (heap : Heap) :
  sound heap ->
  let heap' := snd (intern localeCompare value contents heap) in
  sound heap' /\ extends (nodes heap) (nodes heap') /\
  incl (interned heap) (interned heap') /\
  collected heap' = collected heap.
Proof.
  intros [Htree Hkept]. unfold intern, sound. cbv zeta.
  destruct (negb (forallb (internable heap) (values contents)));
    [cbn [snd]; auto using extends_refl, incl_refl|].
  destruct (descend_all (entries localeCompare contents) (nodes heap) 0 Htree
              (proj1 (proj2 Htree)) Hkept)
    as (Htree' & Hleaf & Hkept' & Hext & _ & Hpositive).
  destruct (fold_left descend (entries localeCompare contents)
                      (0, nodes heap)) as [leaf nodes'].
  cbn [fst snd] in *.
  assert (Hsettled : prunable (nodeAt nodes' leaf) = false -> kept nodes' 0).
  { intros H node Hnode _. destruct (Nat.eq_dec node leaf) as [->|Hother];
      [exact H | exact (Hkept' node Hnode Hother)]. }
  destruct (root (nodeAt nodes' leaf)) eqn:Eroot.
  { cbn [snd nodes interned collected].
    split; [|auto using incl_refl].
    split; [exact Htree'|].
    intros node Hnode _. apply Hkept'; [exact Hnode|].
    intros ->. destruct Htree' as (_ & _ & Hparent & _).
    destruct (Hparent leaf Hnode) as (above & Habove & _).
    destruct (nodeAt nodes' leaf); discriminate. }
  destruct (finalValue (nodeAt nodes' leaf)) as [object|] eqn:Efinal.
  - cbn [snd nodes interned collected].
    split; [|auto using incl_refl].
    split; [exact Htree'|]. apply Hsettled.
    unfold prunable, withoutFinalValue. rewrite Efinal.
    apply andb_false_r.
  - cbn [snd nodes interned collected].
    split; [|split; [|split; [apply incl_tl, incl_refl | reflexivity]]].
    + split; [apply tree_setFinalValue; exact Htree'|].
      intros node Hnode _. rewrite length_update in Hnode.
      destruct (Nat.eq_dec node leaf) as [->|Hother].
      * unfold prunable, withoutFinalValue.
        rewrite nodeAt_update, Nat.eqb_refl.
        replace (leaf <? List.length nodes') with true
          by (symmetry; apply Nat.ltb_lt; exact Hleaf).
        cbn [andb]. destruct (nodeAt nodes' leaf); [discriminate|].
        apply andb_false_r.
      * destruct (nodeAt_setFinalValue nodes' leaf node value)
          as (_ & _ & _ & ->); [|exact Hother].
        exact (Hkept' node Hnode Hother).
    + apply (extends_trans _ _ _ Hext). split.
      * intros node key innerValue node'.
        rewrite child_setFinalValue. auto.
      * intros node object.
        destruct (Nat.eq_dec node leaf) as [->|Hother].
        -- rewrite Efinal. discriminate.
        -- destruct (nodeAt_setFinalValue nodes' leaf node value)
             as (_ & _ & _ & ->); auto.
Qed.

(** Where a call that returned a value has left it. *)
Lemma intern_returned (value : nat) (contents : Contents) (heap : Heap)
    (object : nat) (heap' : Heap) :
  sound heap ->
  intern localeCompare value contents heap = (Returned (Some object), heap') ->
  forallb (internable heap) (values contents) = true /\
  (entries localeCompare contents = [] \/
   exists leaf,
     find (nodes heap') 0 (entries localeCompare contents) = Some leaf /\
     finalValue (nodeAt (nodes heap') leaf) = Some object).
Proof.
  intros [Htree Hkept]. unfold intern.
  destruct (forallb (internable heap) (values contents));
    cbn [negb]; [|discriminate].
  intros H. split; [reflexivity|].
  destruct (entries localeCompare contents) as [|entry entries'] eqn:E;
    [left; reflexivity | right].
  rewrite <- E in *.
  destruct (descend_all (entries localeCompare contents) (nodes heap) 0 Htree
              (proj1 (proj2 Htree)) Hkept)
    as (Htree' & Hleaf & Hkept' & Hext & Hfind & Hpositive).
  destruct (fold_left descend (entries localeCompare contents)
                      (0, nodes heap)) as [leaf nodes'].
  cbn [fst snd] in *.
  assert (Hinner : root (nodeAt nodes' leaf) = false).
  { destruct Htree' as (_ & _ & Hparent & _).
    destruct (Hparent leaf) as (above & Habove & _).
    - split; [apply Hpositive; rewrite E; discriminate | exact Hleaf].
    - destruct (nodeAt nodes' leaf); [discriminate | reflexivity]. }
  rewrite Hinner in H.
  destruct (finalValue (nodeAt nodes' leaf)) as [final|] eqn:Efinal.
  - unfold deref in H. cbn [collected] in H.
    destruct (existsb (Nat.eqb final) (collected heap)); [discriminate|].
    injection H as -> <-. exists leaf. cbn [nodes]. auto.
  - injection H as -> <-. exists leaf. cbn [nodes]. split.
    + apply (find_extends nodes'); [|exact Hfind].
      split.
      * intros node key innerValue node'.
        rewrite child_setFinalValue. auto.
      * intros node o.
        destruct (Nat.eq_dec node leaf) as [->|Hother].
        -- rewrite Efinal. discriminate.
        -- destruct (nodeAt_setFinalValue nodes' leaf node object)
             as (_ & _ & _ & ->); auto.
    + rewrite nodeAt_update, Nat.eqb_refl.
      replace (leaf <? List.length nodes') with true
        by (symmetry; apply Nat.ltb_lt; exact Hleaf).
      cbn [andb]. destruct (nodeAt nodes' leaf); [discriminate|reflexivity].
Qed.

(** A call for contents whose node has a [finalValue] gives what the
    [WeakRef] gives, and changes nothing. *)
Lemma intern_again (value : nat) (contents : Contents) (heap : Heap)
    (leaf object : nat) :
  forallb (internable heap) (values contents) = true ->
  find (nodes heap) 0 (entries localeCompare contents) = Some leaf ->
  finalValue (nodeAt (nodes heap) leaf) = Some object ->
  intern localeCompare value contents heap =
  (Returned (deref heap object), heap).
Proof.
  intros Hvalues Hfind Hfinal. unfold intern.
  rewrite Hvalues, (descend_find _ _ _ _ Hfind). cbn [negb].
  replace (root (nodeAt (nodes heap) leaf)) with false
    by (destruct (nodeAt (nodes heap) leaf); [discriminate | reflexivity]).
  rewrite Hfinal. destruct heap. reflexivity.
Qed.

(** ** The events *)

Lemma after_sound (heap : Heap) (event : Event) :
  sound heap ->
  exists heap',
    after localeCompare heap event = Some heap' /\
    sound heap' /\ extends (nodes heap) (nodes heap') /\
    incl (interned heap) (interned heap') /\
    incl (collected heap) (collected heap') /\
    (forall registration, event = Finalize registration ->
       nodes heap' = nodes heap).
Proof.
  intros Hsound. destruct event as [value contents | object | registration].
  - destruct (intern_sound value contents heap Hsound)
      as (Hsound' & Hext & Hinterned & Hcollected).
    eexists. split; [reflexivity|].
    split; [exact Hsound'|]. split; [exact Hext|].
    split; [exact Hinterned|].
    split; [rewrite Hcollected; apply incl_refl | discriminate].
  - eexists. split; [reflexivity|]. cbn [nodes interned collected].
    split; [exact Hsound|].
    split; [apply extends_refl|].
    split; [apply incl_refl|].
    split; [apply incl_tl, incl_refl | discriminate].
  - assert (Hsame : sound heap /\ extends (nodes heap) (nodes heap) /\
                    incl (interned heap) (interned heap) /\
                    incl (collected heap) (collected heap) /\
                    (forall registration' : nat,
                       Finalize registration = Finalize registration' ->
                       nodes heap = nodes heap)).
    { split; [exact Hsound|]. split; [apply extends_refl|].
      split; [apply incl_refl|]. split; [apply incl_refl | reflexivity]. }
    cbn [after].
    destruct (nth_error (registry heap) registration) as [[object node]|];
      [|exists heap; split; [reflexivity | exact Hsame]].
    destruct (existsb (Nat.eqb object) (collected heap));
      [|exists heap; split; [reflexivity | exact Hsame]].
    rewrite (prune_loaded _ node (proj1 Hsound) (proj2 Hsound)).
    eexists. split; [reflexivity|]. exact Hsame.
Qed.

Lemma afterAll_sound (events : list Event) :
  forall heap,
    sound heap ->
    exists heap',
      afterAll localeCompare heap events = Some heap' /\
      sound heap' /\ extends (nodes heap) (nodes heap') /\
      incl (interned heap) (interned heap') /\
      incl (collected heap) (collected heap').
Proof.
  induction events as [|event events IH]; intros heap Hsound.
  - exists heap. cbn [afterAll]. split; [reflexivity|].
    split; [exact Hsound|]. split; [apply extends_refl|].
    split; apply incl_refl.
  - destruct (after_sound heap event Hsound)
      as (heap1 & Hafter & Hsound1 & Hext1 & Hint1 & Hcol1 & _).
    destruct (IH heap1 Hsound1)
      as (heap2 & Hafter2 & Hsound2 & Hext2 & Hint2 & Hcol2).
    exists heap2. cbn [afterAll]. rewrite Hafter.
    split; [exact Hafter2|]. split; [exact Hsound2|].
    split; [exact (extends_trans _ _ _ Hext1 Hext2)|].
    split; eapply incl_tran; eassumption.
Qed.

Lemma sound_loaded : sound loaded.
Proof.
  split.
  - split; [reflexivity|]. split; [simpl; lia|]. split.
    + simpl. intros node Hnode. lia.
    + intros [|[|node]] key innerValue node'; discriminate.
  - intros node Hnode. simpl in Hnode. lia.
Qed.

Lemma internable_incl (heap heap' : Heap)
    (innerValues : list InternInnerValue) :
  incl (interned heap) (interned heap') ->
  forallb (internable heap) innerValues = true ->
  forallb (internable heap') innerValues = true.
Proof.
  intros Hincl. rewrite !forallb_forall. intros H innerValue Hin.
  specialize (H innerValue Hin). destruct innerValue; try reflexivity.
  simpl in *. apply existsb_exists in H. destruct H as (o & Ho & Heq).
  apply existsb_exists. exists o. split; [|exact Heq].
  apply in_map_iff in Ho. destruct Ho as (entry & <- & Hentry).
  apply in_map, Hincl, Hentry.
Qed.

(** The call for contents without entries. *)
Lemma intern_empty (value : nat) (contents : Contents) (heap : Heap) :
  sound heap ->
  forallb (internable heap) (values contents) = true ->
  entries localeCompare contents = [] ->
  intern localeCompare value contents heap =
  (Returned (Some match contents with
                  | Items _ => nullTuple
                  | Fields _ => nullRecord
                  end), heap).
Proof.
  intros [(Hroot & _) _] Hvalues Hentries. unfold intern.
  rewrite Hvalues, Hentries. cbn [negb fold_left]. rewrite Hroot.
  destruct heap. reflexivity.
Qed.

(** A value that a call returned is what a later call for the same
    entries finds, through its [WeakRef]. *)
Lemma intern_later (events events' : list Event) (heap heap1 heap2 : Heap)
    (value value' : nat) (contents contents' : Contents) (object : nat) :
  afterAll localeCompare loaded events = Some heap ->
  intern localeCompare value contents heap =
    (Returned (Some object), heap1) ->
  afterAll localeCompare heap1 events' = Some heap2 ->
  entries localeCompare contents' = entries localeCompare contents ->
  incl (values contents') (values contents) ->
  entries localeCompare contents <> [] ->
  intern localeCompare value' contents' heap2 =
  (Returned (deref heap2 object), heap2).
Proof.
  intros Hevents Hintern Hevents' Hentries Hvalues Hnonempty.
  destruct (afterAll_sound events loaded sound_loaded)
    as (heap0 & Hafter & Hsound & _).
  rewrite Hevents in Hafter. injection Hafter as <-.
  destruct (intern_returned _ _ _ _ _ Hsound Hintern)
    as (Hinternable & [Hempty | (leaf & Hfind & Hfinal)]);
    [contradiction|].
  pose proof (intern_sound value contents heap Hsound) as Hsound1.
  rewrite Hintern in Hsound1. cbn [snd] in Hsound1.
  destruct Hsound1 as (Hsound1 & _ & Hint1 & _).
  destruct (afterAll_sound events' heap1 Hsound1)
    as (heap2' & Hafter' & _ & Hext & Hint2 & _).
  rewrite Hevents' in Hafter'. injection Hafter' as <-.
  apply (intern_again value' contents' heap2 leaf object).
  - apply (internable_incl heap); [eapply incl_tran; eassumption|].
    rewrite forallb_forall in *. auto.
  - rewrite Hentries. exact (find_extends _ _ Hext _ _ _ Hfind).
  - exact (proj2 Hext _ _ Hfinal).
Qed.

(** The same, for contents without entries: the call gives [nullTuple]
    or [nullRecord] again. *)
Lemma intern_later_empty (events events' : list Event)
    (heap heap1 heap2 : Heap) (value value' : nat) (contents : Contents)
    (object : nat) :
  afterAll localeCompare loaded events = Some heap ->
  intern localeCompare value contents heap =
    (Returned (Some object), heap1) ->
  afterAll localeCompare heap1 events' = Some heap2 ->
  entries localeCompare contents = [] ->
  intern localeCompare value' contents heap2 =
  (Returned (Some object), heap2).
Proof.
  intros Hevents Hintern Hevents' Hempty.
  destruct (afterAll_sound events loaded sound_loaded)
    as (heap0 & Hafter & Hsound & _).
  rewrite Hevents in Hafter. injection Hafter as <-.
  destruct (intern_returned _ _ _ _ _ Hsound Hintern) as (Hinternable & _).
  pose proof (intern_sound value contents heap Hsound) as Hsound1.
  rewrite (intern_empty _ _ _ Hsound Hinternable Hempty) in Hintern.
  injection Hintern as <- <-.
  destruct (afterAll_sound events' heap Hsound)
    as (heap2' & Hafter' & Hsound2 & _ & Hint2 & _).
  rewrite Hevents' in Hafter'. injection Hafter' as <-.
  apply intern_empty; [exact Hsound2 | | exact Hempty].
  exact (internable_incl heap heap2 _ Hint2 Hinternable).
Qed.

(** X21. Equal contents are interned to one object. When a call of
    [intern()] has returned an object, a later call for the same contents
    returns that object, whatever was interned in between and whatever
    else was reclaimed, as long as the object itself has not been
    reclaimed; and the later call leaves the pool as it is. *)
Theorem equal_contents_are_interned_to_one_object
    (events events' : list Event) (heap heap1 heap2 : Heap)
    (value value' : nat) (contents : Contents) (object : nat) :
  afterAll localeCompare loaded events = Some heap ->
  intern localeCompare value contents heap =
    (Returned (Some object), heap1) ->
  afterAll localeCompare heap1 events' = Some heap2 ->
  ~ In object (collected heap2) ->
  intern localeCompare value' contents heap2 =
  (Returned (Some object), heap2).
Proof.
  intros Hevents Hintern Hevents' Hlive.
  destruct (entries localeCompare contents) as [|entry rest] eqn:E.
  - exact (intern_later_empty _ _ _ _ _ _ _ _ _ Hevents Hintern Hevents' E).
  - rewrite (intern_later _ _ _ _ _ _ _ _ contents _ Hevents Hintern Hevents'
               eq_refl (incl_refl _)) by (rewrite E; discriminate).
    unfold deref.
    destruct (existsb (Nat.eqb object) (collected heap2)) eqn:Ec;
      [|reflexivity].
    apply existsb_exists in Ec. destruct Ec as (o & Ho & Heq).
    apply Nat.eqb_eq in Heq. subst o. contradiction.
Qed.

(** X22. An interned value that the garbage collector has reclaimed is
    not interned again. The node keeps its [WeakRef], and the callback of
    the registry does not delete the node: from then on every call of
    [intern()] for the same contents returns [undefined], and leaves the
    pool as it is. *)
Theorem reclaimed_value_is_not_interned_again
    (events events' : list Event) (heap heap1 heap2 : Heap)
    (value value' : nat) (contents : Contents) (object : nat) :
  afterAll localeCompare loaded events = Some heap ->
  intern localeCompare value contents heap =
    (Returned (Some object), heap1) ->
  values contents <> [] ->
  afterAll localeCompare heap1 events' = Some heap2 ->
  In object (collected heap2) ->
  intern localeCompare value' contents heap2 = (Returned None, heap2).
Proof.
  intros Hevents Hintern Hnonempty Hevents' Hreclaimed.
  rewrite (intern_later _ _ _ _ _ _ _ _ contents _ Hevents Hintern Hevents'
             eq_refl (incl_refl _)).
  - unfold deref.
    replace (existsb (Nat.eqb object) (collected heap2)) with true;
      [reflexivity|].
    symmetry. apply existsb_exists. exists object.
    split; [exact Hreclaimed | apply Nat.eqb_refl].
  - intros Hempty. apply Hnonempty.
    destruct contents as [items | fields]; cbn [entries values] in *.
    + destruct items; [reflexivity | discriminate].
    + apply map_eq_nil in Hempty.
      destruct fields as [|field fields]; [reflexivity|].
      exfalso. cbn [sort fold_right] in Hempty.
      destruct (fold_right (insert localeCompare) [] fields)
        as [|first sorted]; cbn [insert] in Hempty; [discriminate|].
      destruct (localeCompare (fst field) (fst first)); discriminate.
Qed.

(** X23. The callback of the registry prunes nothing. Whatever has been
    interned and reclaimed, every event can happen, and a callback of the
    registry finds no node to delete: the nodes are what they were. *)
Theorem finalization_prunes_nothing (events : list Event) :
  exists heap,
    afterAll localeCompare loaded events = Some heap /\
    forall registration,
    exists heap',
      after localeCompare heap (Finalize registration) = Some heap' /\
      nodes heap' = nodes heap.
Proof.
  destruct (afterAll_sound events loaded sound_loaded)
    as (heap & Hafter & Hsound & _).
  exists heap. split; [exact Hafter|]. intros registration.
  destruct (after_sound heap (Finalize registration) Hsound)
    as (heap' & Hafter' & _ & _ & _ & _ & Hnodes).
  exists heap'. split; [exact Hafter' | exact (Hnodes _ eq_refl)].
Qed.

(** ** The order of the fields *)

Lemma insert_Permutation (field : string * InternInnerValue)
    (sorted : list (string * InternInnerValue)) :
  Permutation (insert localeCompare field sorted) (field :: sorted).
Proof.
  induction sorted as [|first rest IH]; cbn [insert]; [reflexivity|].
  destruct (localeCompare (fst field) (fst first)); try reflexivity.
  rewrite IH. apply perm_swap.
Qed.

Lemma sort_Permutation (fields : list (string * InternInnerValue)) :
  Permutation (sort localeCompare fields) fields.
Proof.
  induction fields as [|field fields IH]; cbn [sort fold_right];
    [reflexivity|].
  rewrite insert_Permutation. apply perm_skip. exact IH.
Qed.

Lemma insert_sorted (keys : list string) (field : string * InternInnerValue)
    (sorted : list (string * InternInnerValue)) :
  orders localeCompare keys ->
  incl (map fst (field :: sorted)) keys ->
  NoDup (map fst (field :: sorted)) ->
  ForallOrdPairs (before localeCompare) sorted ->
  ForallOrdPairs (before localeCompare) (insert localeCompare field sorted).
Proof.
  intros (Htotal & Hanti & Htrans) Hkeys Hnodup Hsorted.
  induction Hsorted as [|first rest Hfirst Hrest IH]; cbn [insert].
  - constructor; constructor.
  - assert (Hfield : In (fst field) keys) by (apply Hkeys; left; reflexivity).
    assert (Hfirst' : In (fst first) keys)
      by (apply Hkeys; right; left; reflexivity).
    assert (Hbefore : localeCompare (fst field) (fst first) <> Gt ->
              ForallOrdPairs (before localeCompare) (field :: first :: rest)).
    { intros Hle.
      assert (Hlt : before localeCompare field first).
      { unfold before.
        destruct (localeCompare (fst field) (fst first)) eqn:E;
          [|reflexivity | congruence].
        exfalso. apply Htotal in E; [|assumption|assumption].
        cbn [map] in Hnodup. apply NoDup_cons_iff in Hnodup.
        apply (proj1 Hnodup). left. symmetry. exact E. }
      constructor; [|constructor; assumption].
      constructor; [exact Hlt|].
      rewrite Forall_forall in *. intros other Hother.
      unfold before in *.
      apply (Htrans _ (fst first)); auto.
      apply Hkeys. right. right. apply in_map. exact Hother. }
    destruct (localeCompare (fst field) (fst first)) eqn:E;
      try (apply Hbefore; discriminate).
    constructor.
    + rewrite Forall_forall. intros other Hother.
      apply (Permutation_in _ (insert_Permutation field rest)) in Hother.
      destruct Hother as [<-|Hother].
      * unfold before. rewrite (Hanti _ _ Hfield Hfirst'), E. reflexivity.
      * rewrite Forall_forall in Hfirst. exact (Hfirst other Hother).
    + apply IH.
      * intros key Hkey. apply Hkeys. cbn [map] in *.
        destruct Hkey as [<-|Hkey]; [left; reflexivity | right; right].
        exact Hkey.
      * cbn [map] in *. apply NoDup_cons_iff in Hnodup.
        destruct Hnodup as [Hnotin Hnodup].
        apply NoDup_cons_iff in Hnodup. destruct Hnodup as [_ Hnodup].
        constructor; [|exact Hnodup].
        intros Hin. apply Hnotin. right. exact Hin.
Qed.

Lemma sort_sorted (keys : list string)
    (fields : list (string * InternInnerValue)) :
  orders localeCompare keys ->
  incl (map fst fields) keys ->
  NoDup (map fst fields) ->
  ForallOrdPairs (before localeCompare) (sort localeCompare fields).
Proof.
  intros Horders. induction fields as [|field fields IH];
    intros Hkeys Hnodup; cbn [sort fold_right]; [constructor|].
  cbn [map] in *. pose proof Hnodup as Hnodup'.
  apply NoDup_cons_iff in Hnodup'. destruct Hnodup' as [Hnotin Hrest].
  assert (Hperm : Permutation (map fst (field :: sort localeCompare fields))
                              (fst field :: map fst fields)).
  { cbn [map]. apply perm_skip, Permutation_map, sort_Permutation. }
  apply (insert_sorted keys); [exact Horders | | |].
  - intros key Hkey. apply Hkeys.
    exact (Permutation_in _ Hperm Hkey).
  - exact (Permutation_NoDup (Permutation_sym Hperm) Hnodup).
  - apply IH; [|exact Hrest].
    intros key Hkey. apply Hkeys. right. exact Hkey.
Qed.

(** Two sorted lists with the same fields are one list. *)
Lemma sorted_unique (keys : list string)
    (sorted sorted' : list (string * InternInnerValue)) :
  orders localeCompare keys ->
  incl (map fst sorted) keys ->
  ForallOrdPairs (before localeCompare) sorted ->
  ForallOrdPairs (before localeCompare) sorted' ->
  Permutation sorted sorted' ->
  sorted = sorted'.
Proof.
  intros (Htotal & Hanti & Htrans) Hkeys Hsorted. revert sorted'.
  induction Hsorted as [|first rest Hfirst Hrest IH];
    intros sorted' Hsorted' Hperm.
  - apply Permutation_nil in Hperm. congruence.
  - destruct Hsorted' as [|first' rest' Hfirst' Hrest'].
    + apply Permutation_sym, Permutation_nil in Hperm. discriminate.
    + assert (Heq : first = first').
      { assert (Hin : In first (first' :: rest'))
          by (apply (Permutation_in _ Hperm); left; reflexivity).
        assert (Hin' : In first' (first :: rest))
          by (apply (Permutation_in _ (Permutation_sym Hperm)); left;
              reflexivity).
        destruct Hin as [Hin|Hin]; [congruence|].
        destruct Hin' as [Hin'|Hin']; [congruence|].
        rewrite Forall_forall in Hfirst, Hfirst'.
        pose proof (Hfirst _ Hin') as H1. pose proof (Hfirst' _ Hin) as H2.
        unfold before in H1, H2.
        assert (Ha : In (fst first) keys) by (apply Hkeys; left; reflexivity).
        assert (Hb : In (fst first') keys)
          by (apply Hkeys; right; apply in_map; exact Hin').
        rewrite (Hanti _ _ Ha Hb), H1 in H2. discriminate. }
      subst first'. f_equal.
      apply IH; [|exact Hrest' | exact (Permutation_cons_inv Hperm)].
      intros key Hkey. apply Hkeys. right. exact Hkey.
Qed.

Lemma sort_order (fields fields' : list (string * InternInnerValue)) :
  orders localeCompare (map fst fields) ->
  NoDup (map fst fields) ->
  Permutation fields fields' ->
  sort localeCompare fields' = sort localeCompare fields.
Proof.
  intros Horders Hnodup Hperm.
  assert (Hkeys : Permutation (map fst fields) (map fst fields'))
    by (apply Permutation_map; exact Hperm).
  apply (sorted_unique (map fst fields)); [exact Horders | | | |].
  - intros key Hkey.
    apply (Permutation_in _ (Permutation_sym Hkeys)).
    exact (Permutation_in _ (Permutation_map fst (sort_Permutation fields'))
                          Hkey).
  - apply (sort_sorted (map fst fields)); [exact Horders | |].
    + intros key Hkey. exact (Permutation_in _ (Permutation_sym Hkeys) Hkey).
    + exact (Permutation_NoDup Hkeys Hnodup).
  - apply (sort_sorted (map fst fields));
      [exact Horders | apply incl_refl | exact Hnodup].
  - rewrite !sort_Permutation. apply Permutation_sym. exact Hperm.
Qed.

(** X24. The order of the fields does not matter. When [localeCompare]
    orders the keys of an object, an object with the same fields in
    another order is interned to the same object, as long as that object
    has not been reclaimed. *)
Theorem fields_are_interned_in_any_order
    (events events' : list Event) (heap heap1 heap2 : Heap)
    (value value' : nat) (fields fields' : list (string * InternInnerValue))
    (object : nat) :
  orders localeCompare (map fst fields) ->
  NoDup (map fst fields) ->
  Permutation fields fields' ->
  afterAll localeCompare loaded events = Some heap ->
  intern localeCompare value (Fields fields) heap =
    (Returned (Some object), heap1) ->
  afterAll localeCompare heap1 events' = Some heap2 ->
  ~ In object (collected heap2) ->
  intern localeCompare value' (Fields fields') heap2 =
  (Returned (Some object), heap2).
Proof.
  intros Horders Hnodup Hperm Hevents Hintern Hevents' Hlive.
  destruct fields as [|field fields].
  - apply Permutation_nil in Hperm. subst fields'.
    exact (intern_later_empty _ _ _ _ _ _ _ _ _ Hevents Hintern Hevents'
             eq_refl).
  - rewrite (intern_later _ _ _ _ _ _ _ _ (Fields fields') _ Hevents Hintern
               Hevents').
    + unfold deref.
      destruct (existsb (Nat.eqb object) (collected heap2)) eqn:Ec;
        [|reflexivity].
      apply existsb_exists in Ec. destruct Ec as (o & Ho & Heq).
      apply Nat.eqb_eq in Heq. subst o. contradiction.
    + cbn [entries]. rewrite (sort_order _ _ Horders Hnodup Hperm).
      reflexivity.
    + cbn [values]. intros innerValue Hin.
      exact (Permutation_in _
               (Permutation_sym (Permutation_map snd Hperm)) Hin).
    + cbn [entries]. intros Hempty. apply map_eq_nil in Hempty.
      pose proof (sort_Permutation (field :: fields)) as Hsort.
      rewrite Hempty in Hsort. apply Permutation_nil in Hsort.
      discriminate.
Qed.

End Calls.

(** [$([1])] after other values were interned and the first [$([1])] was
    reclaimed, had it not been reclaimed. *)
Lemma equal_contents_are_interned_to_one_object_witness :
  intern String.compare 5 one
    (snd (intern String.compare 3 (Items [NumberValue 1; StringValue "a"])
              once)) =
  (Returned (Some 2),
   snd (intern String.compare 3 (Items [NumberValue 1; StringValue "a"])
            once)).
Proof.
  refine (equal_contents_are_interned_to_one_object String.compare []
            [Intern 3 (Items [NumberValue 1; StringValue "a"])]
            loaded once _ 2 5 one 2 eq_refl eq_refl eq_refl _).
  simpl. tauto.
Defined.

(** [$([1])] after the first [$([1])] was reclaimed gives [undefined]. *)
Lemma reclaimed_value_is_not_interned_again_witness :
  intern String.compare 5 one reclaimed = (Returned None, reclaimed).
Proof.
  refine (reclaimed_value_is_not_interned_again String.compare [] afterwards
            loaded once reclaimed 2 5 one 2 eq_refl eq_refl _ eq_refl _).
  - discriminate.
  - simpl. auto.
Defined.

Lemma compare_orders_ab : orders String.compare (map fst ab).
Proof.
  split; [|split].
  - intros a b [<-|[<-|[]]] [<-|[<-|[]]]; simpl; congruence.
  - intros a b [<-|[<-|[]]] [<-|[<-|[]]]; reflexivity.
  - intros a b c [<-|[<-|[]]] [<-|[<-|[]]] [<-|[<-|[]]]; simpl; congruence.
Qed.

(** [$({ b: 2, a: 1 })] after [$({ a: 1, b: 2 })]. *)
Lemma fields_are_interned_in_any_order_witness :
  intern String.compare 7 (Fields ba)
    (snd (intern String.compare 6 (Fields ab) reclaimed)) =
  (Returned (Some 6), snd (intern String.compare 6 (Fields ab) reclaimed)).
Proof.
  refine (fields_are_interned_in_any_order String.compare
            (Intern 2 one :: afterwards) [] reclaimed _ _ 6 7 ab ba 6
            compare_orders_ab _ _ eq_refl eq_refl eq_refl _).
  - repeat constructor; simpl; intuition discriminate.
  - apply perm_swap.
  - simpl. intuition discriminate.
Defined.

(** ** One node for one list of entries *)

Lemma pathTo_fuel (nodes : list InternNode) :
  tree nodes ->
  forall fuel fuel' node,
    node < fuel -> node < fuel' ->
    pathTo fuel nodes node = pathTo fuel' nodes node.
Proof.
  intros (Hroot & Hlength & Hparent & _) fuel.
  induction fuel as [|fuel IH]; intros fuel' node Hfuel Hfuel'; [lia|].
  destruct fuel' as [|fuel']; [lia|]. cbn [pathTo].
  destruct (nodeAt nodes node) as [cache | key value final cache above]
    eqn:E; [reflexivity|].
  assert (Hnode : 0 < node < List.length nodes).
  { split.
    - destruct node; [rewrite E in Hroot; discriminate | lia].
    - destruct (Nat.lt_ge_cases node (List.length nodes)) as [H|H];
        [exact H|].
      rewrite (nodeAt_overflow _ _ H) in E. discriminate. }
  destruct (Hparent node Hnode) as (above' & Habove & Hlt).
  rewrite E in Habove. injection Habove as <-.
  rewrite (IH fuel' above) by lia. reflexivity.
Qed.

Lemma pathTo_child (nodes : list InternNode) (node : nat) (key : InternKey)
    (innerValue : InternInnerValue) (node' : nat) :
  tree nodes -> linked nodes ->
  child nodes node key innerValue = Some node' ->
  pathTo (S node') nodes node' =
  pathTo (S node) nodes node ++ [(key, innerValue)].
Proof.
  intros Htree Hlinked Hchild.
  destruct (Hlinked _ _ _ _ Hchild) as (final & cache & Hat).
  cbn [pathTo]. rewrite Hat. fold (pathTo node' nodes node).
  destruct Htree as (Hroot & Hlength & Hparent & Hvalid).
  destruct (Hparent node' (Hvalid _ _ _ _ Hchild)) as (above & Habove & Hlt).
  rewrite Hat in Habove. injection Habove as <-.
  rewrite (pathTo_fuel nodes (conj Hroot (conj Hlength (conj Hparent Hvalid)))
             node' (S node) node) by lia.
  reflexivity.
Qed.

Lemma find_pathTo (nodes : list InternNode) :
  tree nodes -> linked nodes ->
  forall entries node leaf,
    find nodes node entries = Some leaf ->
    pathTo (S leaf) nodes leaf = pathTo (S node) nodes node ++ entries.
Proof.
  intros Htree Hlinked entries.
  induction entries as [|[key innerValue] entries IH]; intros node leaf;
    cbn [find].
  - intros H. injection H as ->. rewrite app_nil_r. reflexivity.
  - destruct (child nodes node key innerValue) as [node'|] eqn:E;
      [|discriminate].
    intros H. rewrite (IH _ _ H), (pathTo_child _ _ _ _ _ Htree Hlinked E).
    rewrite <- app_assoc. reflexivity.
Qed.

(** Two lists of entries that lead to one node are one list. *)
Lemma find_unique (nodes : list InternNode)
    (entries entries' : list (InternKey * InternInnerValue)) (leaf : nat) :
  tree nodes -> linked nodes ->
  find nodes 0 entries = Some leaf ->
  find nodes 0 entries' = Some leaf ->
  entries = entries'.
Proof.
  intros Htree Hlinked H H'.
  apply (find_pathTo _ Htree Hlinked) in H, H'.
  rewrite H in H'. apply app_inv_head in H'. exact H'.
Qed.

(** ** The nodes know their place *)

(** The loop gives no node a [finalValue]. *)
Lemma descend_back (nodes : list InternNode) (node : nat)
    (key : InternKey) (innerValue : InternInnerValue) :
  node < List.length nodes ->
  let nodes' := snd (descend (node, nodes) (key, innerValue)) in
  forall n object,
    finalValue (nodeAt nodes' n) = Some object ->
    finalValue (nodeAt nodes n) = Some object.
Proof.
  intros Hnode. cbv zeta.
  destruct (child nodes node key innerValue) as [found|] eqn:E.
  - rewrite (descend_found _ _ _ _ _ E). cbn [snd]. auto.
  - destruct (descend_created nodes node key innerValue E Hnode)
      as (Hfst & Hlen & Hnew & Hmade & Hothers & Hsame & Hfinal & _).
    intros n object Hn.
    destruct (Nat.lt_ge_cases n (List.length nodes)) as [Hlt|Hge].
    + destruct (Nat.eq_dec n node) as [->|Hother].
      * rewrite <- Hfinal. exact Hn.
      * rewrite <- (Hsame n Hother Hlt). exact Hn.
    + exfalso. apply Nat.lt_eq_cases in Hge. destruct Hge as [Hge|<-].
      * rewrite nodeAt_overflow in Hn by lia. discriminate.
      * rewrite Hnew in Hn. discriminate.
Qed.

Lemma descend_all_back (entries : list (InternKey * InternInnerValue)) :
  forall nodes node,
    tree nodes -> node < List.length nodes -> kept nodes node ->
    let nodes' := snd (fold_left descend entries (node, nodes)) in
    forall n object,
      finalValue (nodeAt nodes' n) = Some object ->
      finalValue (nodeAt nodes n) = Some object.
Proof.
  induction entries as [|[key innerValue] entries IH];
    intros nodes node Htree Hnode Hkept.
  - cbn [fold_left snd]. auto.
  - cbn [fold_left].
    destruct (descend_tree nodes node key innerValue Htree Hnode Hkept)
      as (Htree1 & Hnode1 & Hkept1 & _).
    pose proof (descend_back nodes node key innerValue Hnode) as Hback1.
    destruct (descend (node, nodes) (key, innerValue)) as [node1 nodes1].
    cbn [fst snd] in *.
    pose proof (IH nodes1 node1 Htree1 (proj2 Hnode1) Hkept1) as Hback2.
    cbv zeta in *. auto.
Qed.

Lemma descend_linked (nodes : list InternNode) (node : nat)
    (key : InternKey) (innerValue : InternInnerValue) :
  tree nodes -> node < List.length nodes -> linked nodes ->
  linked (snd (descend (node, nodes) (key, innerValue))).
Proof.
  intros Htree Hnode Hlinked.
  destruct (child nodes node key innerValue) as [found|] eqn:E.
  - rewrite (descend_found _ _ _ _ _ E). cbn [snd]. auto.
  - destruct (descend_created nodes node key innerValue E Hnode)
      as (Hfst & Hlen & Hnew & Hmade & Hothers & Hsame & Hfinal & Hr & Hp &
          Hchildless & cache' & Hat).
    set (nodes' := snd (descend (node, nodes) (key, innerValue))) in *.
    destruct Htree as (Hroot & Hlength & Hparent & Hvalid).
    assert (Hkeeps : forall n k v final cache above,
              nodeAt nodes n = InnerNode k v final cache above ->
              exists final' cache',
                nodeAt nodes' n = InnerNode k v final' cache' above).
    { intros n k v final cache above Hn.
      assert (Hlt : n < List.length nodes).
      { destruct (Nat.lt_ge_cases n (List.length nodes)) as [H|H];
          [exact H|].
        rewrite (nodeAt_overflow _ _ H) in Hn. discriminate. }
      destruct (Nat.eq_dec n node) as [->|Hother].
      - rewrite Hat, Hn. simpl. eauto.
      - rewrite (Hsame n Hother Hlt), Hn. eauto. }
    intros n k v c Hc.
    destruct (Nat.lt_ge_cases n (List.length nodes)) as [Hn|Hn].
    + destruct (Nat.eq_dec n node) as [->|Hother].
      * destruct (entry_eq_dec (k, v) (key, innerValue)) as [Heq|Hneq].
        -- injection Heq as -> ->. rewrite Hmade in Hc.
           injection Hc as <-. rewrite Hnew. eauto.
        -- rewrite (Hothers k v Hneq) in Hc.
           destruct (Hlinked _ _ _ _ Hc) as (final & cache & Hform).
           exact (Hkeeps _ _ _ _ _ _ Hform).
      * rewrite (child_nodeAt _ _ _ _ _ (Hsame n Hother Hn)) in Hc.
        destruct (Hlinked _ _ _ _ Hc) as (final & cache & Hform).
        exact (Hkeeps _ _ _ _ _ _ Hform).
    + exfalso. apply Nat.lt_eq_cases in Hn. destruct Hn as [Hn|<-].
      * rewrite child_overflow in Hc by lia. discriminate.
      * unfold child in Hc. rewrite Hnew in Hc. discriminate.
Qed.

Lemma descend_all_linked (entries : list (InternKey * InternInnerValue)) :
  forall nodes node,
    tree nodes -> node < List.length nodes -> kept nodes node ->
    linked nodes ->
    linked (snd (fold_left descend entries (node, nodes))).
Proof.
  induction entries as [|[key innerValue] entries IH];
    intros nodes node Htree Hnode Hkept Hlinked.
  - exact Hlinked.
  - cbn [fold_left].
    destruct (descend_tree nodes node key innerValue Htree Hnode Hkept)
      as (Htree1 & Hnode1 & Hkept1 & _).
    pose proof (descend_linked nodes node key innerValue Htree Hnode Hlinked)
      as Hlinked1.
    destruct (descend (node, nodes) (key, innerValue)) as [node1 nodes1].
    cbn [fst snd] in *.
    exact (IH nodes1 node1 Htree1 (proj2 Hnode1) Hkept1 Hlinked1).
Qed.

Lemma linked_setFinalValue (nodes : list InternNode) (leaf object : nat) :
  linked nodes -> linked (update leaf (setFinalValue object) nodes).
Proof.
  intros Hlinked node key innerValue node'.
  rewrite child_setFinalValue. intros Hchild.
  destruct (Hlinked _ _ _ _ Hchild) as (final & cache & Hat).
  rewrite nodeAt_update.
  destruct ((leaf =? node') && (leaf <? List.length nodes));
    rewrite Hat; simpl; eauto.
Qed.

Section Nesting.

Variable localeCompare : string -> string -> comparison.

Lemma intern_marked (value : nat) (contents : Contents) (heap : Heap) :
  sound heap -> marked heap ->
  marked (snd (intern localeCompare value contents heap)).
Proof.
  intros [Htree Hkept] Hmarked. unfold intern.
  destruct (negb (forallb (internable heap) (values contents)));
    [exact Hmarked|].
  destruct (descend_all (entries localeCompare contents) (nodes heap) 0 Htree
              (proj1 (proj2 Htree)) Hkept)
    as (_ & Hleaf & _).
  pose proof (descend_all_back (entries localeCompare contents)
                (nodes heap) 0 Htree (proj1 (proj2 Htree)) Hkept)
    as Hback.
  destruct (fold_left descend (entries localeCompare contents)
                      (0, nodes heap)) as [leaf nodes'].
  cbn [fst snd] in *.
  assert (Hmarked' : marked (mkHeap nodes' (interned heap) (collected heap)
                                    (registry heap))).
  { intros node object Hfinal. apply (Hmarked node), Hback, Hfinal. }
  destruct (root (nodeAt nodes' leaf)); [exact Hmarked'|].
  destruct (finalValue (nodeAt nodes' leaf)) as [object|] eqn:Efinal;
    [exact Hmarked'|].
  cbn [snd]. intros node object. cbn [nodes interned map fst].
  intros Hfinal. destruct (Nat.eq_dec node leaf) as [->|Hother].
  - left. rewrite nodeAt_update, Nat.eqb_refl in Hfinal.
    replace (leaf <? List.length nodes') with true in Hfinal
      by (symmetry; apply Nat.ltb_lt; exact Hleaf).
    cbn [andb] in Hfinal.
    destruct (nodeAt nodes' leaf); simpl in Hfinal; congruence.
  - right. destruct (nodeAt_setFinalValue nodes' leaf node value)
      as (_ & _ & _ & Hsame).
    rewrite (Hsame Hother) in Hfinal. exact (Hmarked' node object Hfinal).
Qed.

Lemma afterAll_marked (events : list Event) :
  forall heap heap',
    sound heap -> marked heap ->
    afterAll localeCompare heap events = Some heap' ->
    marked heap'.
Proof.
  induction events as [|event events IH];
    intros heap heap' Hsound Hmarked Hafter.
  - cbn [afterAll] in Hafter. injection Hafter as <-. exact Hmarked.
  - cbn [afterAll] in Hafter.
    destruct (after_sound localeCompare heap event Hsound)
      as (heap1 & Hafter1 & Hsound1 & _ & _ & _ & Hfinalize).
    rewrite Hafter1 in Hafter.
    apply (IH heap1 heap' Hsound1); [|exact Hafter].
    destruct event as [value contents | object | registration].
    + cbn [after] in Hafter1. injection Hafter1 as <-.
      exact (intern_marked value contents heap Hsound Hmarked).
    + cbn [after] in Hafter1. injection Hafter1 as <-. exact Hmarked.
    + pose proof (Hfinalize _ eq_refl) as Hnodes.
      assert (Hinterned : interned heap1 = interned heap).
      { cbn [after] in Hafter1.
        destruct (nth_error (registry heap) registration)
          as [[object node]|]; [|congruence].
        destruct (existsb (Nat.eqb object) (collected heap));
          [|congruence].
        destruct (prune _ _ _); [|discriminate].
        injection Hafter1 as <-. reflexivity. }
      unfold marked. rewrite Hnodes, Hinterned. exact Hmarked.
Qed.

Lemma marked_loaded : marked loaded.
Proof. intros [|[|node]] object; discriminate. Qed.

(** X26. Interned values nest. An object that a call of [intern()] has
    returned passes, from then on, the test that [intern()] makes of the
    inner values: it can be an item of an array or the value of a field
    that is interned. *)
Theorem interned_values_nest
    (events events' : list Event) (heap heap1 heap2 : Heap)
    (value : nat) (contents : Contents) (object : nat) :
  afterAll localeCompare loaded events = Some heap ->
  intern localeCompare value contents heap =
    (Returned (Some object), heap1) ->
  afterAll localeCompare heap1 events' = Some heap2 ->
  internable heap2 (ObjectValue object) = true.
Proof.
  intros Hevents Hintern Hevents'.
  destruct (afterAll_sound localeCompare events loaded sound_loaded)
    as (heap0 & Hafter & Hsound & _ & Hloaded & _).
  rewrite Hevents in Hafter. injection Hafter as <-.
  pose proof (afterAll_marked events loaded heap sound_loaded marked_loaded
                Hevents) as Hmarked.
  pose proof (intern_sound localeCompare value contents heap Hsound)
    as (Hsound1 & _ & Hint1 & _).
  pose proof (intern_marked value contents heap Hsound Hmarked) as Hmarked1.
  rewrite Hintern in Hsound1, Hint1, Hmarked1.
  cbn [snd] in Hsound1, Hint1, Hmarked1.
  destruct (afterAll_sound localeCompare events' heap1 Hsound1)
    as (heap2' & Hafter' & _ & _ & Hint2 & _).
  rewrite Hevents' in Hafter'. injection Hafter' as <-.
  assert (Hin : In object (map fst (interned heap1))).
  { destruct (intern_returned _ _ _ _ _ _ Hsound Hintern)
      as (Hinternable & [Hempty | (leaf & _ & Hfinal)]).
    - rewrite (intern_empty _ _ _ _ Hsound Hinternable Hempty) in Hintern.
      injection Hintern as <- <-.
      assert (Hnull : In (match contents with
                          | Items _ => nullTuple
                          | Fields _ => nullRecord
                          end,
                          match contents with
                          | Items _ => Items []
                          | Fields _ => Fields []
                          end) (interned heap))
        by (apply Hloaded; destruct contents; simpl; auto).
      exact (in_map fst _ _ Hnull).
    - exact (Hmarked1 _ _ Hfinal). }
  cbn [internable]. apply existsb_exists. exists object.
  split; [|apply Nat.eqb_refl].
  apply in_map_iff in Hin. destruct Hin as (entry & <- & Hentry).
  apply in_map, Hint2, Hentry.
Qed.

End Nesting.

Section Frozen.

Variable localeCompare : string -> string -> comparison.

(** What a call that is handed the contents of its object leaves. *)
Lemma intern_frozen (value : nat) (contents : Contents) (heap : Heap) :
  sound heap -> linked (nodes heap) -> frozen localeCompare heap ->
  legal heap (Intern value contents) ->
  let heap' := snd (intern localeCompare value contents heap) in
  linked (nodes heap') /\ frozen localeCompare heap'.
Proof.
  intros [Htree Hkept] Hlinked [Hone Hplace] Hlegal.
  unfold intern. cbv zeta.
  destruct (negb (forallb (internable heap) (values contents)));
    [cbn [snd]; split; [exact Hlinked | split; assumption]|].
  destruct (descend_all (entries localeCompare contents) (nodes heap) 0 Htree
              (proj1 (proj2 Htree)) Hkept)
    as (Htree' & Hleaf & Hkept' & Hext & Hfind & Hpositive).
  pose proof (descend_all_linked (entries localeCompare contents)
                (nodes heap) 0 Htree (proj1 (proj2 Htree)) Hkept Hlinked)
    as Hlinked'.
  pose proof (descend_all_back (entries localeCompare contents)
                (nodes heap) 0 Htree (proj1 (proj2 Htree)) Hkept)
    as Hback.
  destruct (fold_left descend (entries localeCompare contents)
                      (0, nodes heap)) as [leaf nodes'].
  cbn [fst snd] in *.
  assert (Hfrozen' : frozen localeCompare
                       (mkHeap nodes' (interned heap) (collected heap)
                               (registry heap))).
  { split; [exact Hone|]. cbn [nodes interned].
    intros node object Hfinal.
    destruct (Hplace node object (Hback _ _ Hfinal)) as (c & Hc & Hfindc).
    exists c. split; [exact Hc|].
    exact (find_extends _ _ Hext _ _ _ Hfindc). }
  destruct (root (nodeAt nodes' leaf)); [cbn [snd nodes]; auto|].
  destruct (finalValue (nodeAt nodes' leaf)) as [object|] eqn:Efinal;
    [cbn [snd nodes]; auto|].
  cbn [snd nodes].
  split; [apply linked_setFinalValue; exact Hlinked'|].
  assert (Hext' : extends nodes' (update leaf (setFinalValue value) nodes')).
  { split.
    - intros node key innerValue node'. rewrite child_setFinalValue. auto.
    - intros node object.
      destruct (Nat.eq_dec node leaf) as [->|Hother].
      + rewrite Efinal. discriminate.
      + destruct (nodeAt_setFinalValue nodes' leaf node value)
          as (_ & _ & _ & ->); auto. }
  split; cbn [nodes interned].
  - intros object c c' [Hc|Hc] [Hc'|Hc'].
    + congruence.
    + injection Hc as <- <-. symmetry. exact (Hlegal _ Hc').
    + injection Hc' as <- <-. exact (Hlegal _ Hc).
    + exact (Hone _ _ _ Hc Hc').
  - intros node object Hfinal.
    destruct (Nat.eq_dec node leaf) as [->|Hother].
    + rewrite nodeAt_update, Nat.eqb_refl in Hfinal.
      replace (leaf <? List.length nodes') with true in Hfinal
        by (symmetry; apply Nat.ltb_lt; exact Hleaf).
      cbn [andb] in Hfinal.
      assert (Hvalue : object = value).
      { destruct (nodeAt nodes' leaf); simpl in Hfinal; congruence. }
      subst object. exists contents. split; [left; reflexivity|].
      exact (find_extends _ _ Hext' _ _ _ Hfind).
    + destruct (nodeAt_setFinalValue nodes' leaf node value)
        as (_ & _ & _ & Hsame).
      rewrite (Hsame Hother) in Hfinal.
      destruct (proj2 Hfrozen' node object Hfinal) as (c & Hc & Hfindc).
      exists c. split; [right; exact Hc|].
      exact (find_extends _ _ Hext' _ _ _ Hfindc).
Qed.

Lemma afterAll_frozen (events : list Event) :
  forall heap heap',
    sound heap -> linked (nodes heap) -> frozen localeCompare heap ->
    legalAll localeCompare heap events ->
    afterAll localeCompare heap events = Some heap' ->
    sound heap' /\ linked (nodes heap') /\ frozen localeCompare heap' /\
    extends (nodes heap) (nodes heap') /\
    incl (interned heap) (interned heap').
Proof.
  induction events as [|event events IH];
    intros heap heap' Hsound Hlinked Hfrozen Hlegal Hafter.
  - cbn [afterAll] in Hafter. injection Hafter as <-.
    split; [exact Hsound|]. split; [exact Hlinked|]. split; [exact Hfrozen|].
    split; [apply extends_refl | apply incl_refl].
  - cbn [afterAll legalAll] in Hafter, Hlegal.
    destruct Hlegal as [Hlegal Hrest].
    destruct (after_sound localeCompare heap event Hsound)
      as (heap1 & Hafter1 & Hsound1 & Hext1 & Hint1 & _ & Hfinalize).
    rewrite Hafter1 in Hafter, Hrest.
    assert (Hkeeps : linked (nodes heap1) /\ frozen localeCompare heap1).
    { destruct event as [value contents | object | registration].
      - cbn [after] in Hafter1. injection Hafter1 as <-.
        exact (intern_frozen value contents heap Hsound Hlinked Hfrozen
                 Hlegal).
      - cbn [after] in Hafter1. injection Hafter1 as <-.
        split; [exact Hlinked | exact Hfrozen].
      - pose proof (Hfinalize _ eq_refl) as Hnodes.
        assert (Hinterned : interned heap1 = interned heap).
        { cbn [after] in Hafter1.
          destruct (nth_error (registry heap) registration)
            as [[object node]|]; [|congruence].
          destruct (existsb (Nat.eqb object) (collected heap));
            [|congruence].
          destruct (prune _ _ _); [|discriminate].
          injection Hafter1 as <-. reflexivity. }
        unfold frozen. rewrite Hnodes, Hinterned.
        split; [exact Hlinked | exact Hfrozen]. }
    destruct (IH heap1 heap' Hsound1 (proj1 Hkeeps) (proj2 Hkeeps) Hrest
                Hafter)
      as (Hsound' & Hlinked' & Hfrozen' & Hext' & Hint').
    split; [exact Hsound'|]. split; [exact Hlinked'|].
    split; [exact Hfrozen'|].
    split; [exact (extends_trans _ _ _ Hext1 Hext')|].
    eapply incl_tran; eassumption.
Qed.

Lemma linked_loaded : linked (nodes loaded).
Proof. intros [|[|node]] key innerValue node'; discriminate. Qed.

Lemma frozen_loaded : frozen localeCompare loaded.
Proof.
  split.
  - unfold loaded, nullTuple, nullRecord. cbn [interned].
    intros object c c' [H|[H|[]]] [H'|[H'|[]]]; congruence.
  - intros [|[|node]] object; discriminate.
Qed.

Lemma items_of_entries (items : list InternInnerValue) :
  map snd (entries localeCompare (Items items)) = items.
Proof.
  cbn [entries]. generalize 0.
  induction items as [|item items IH]; intros start; [reflexivity|].
  cbn [List.length seq map combine snd]. rewrite IH. reflexivity.
Qed.

Lemma fields_of_entries (fields : list (string * InternInnerValue)) :
  Permutation
    (map (fun entry : InternKey * InternInnerValue =>
            (match fst entry with
             | Name name => name
             | Index _ => EmptyString
             end, snd entry))
         (entries localeCompare (Fields fields)))
    fields.
Proof.
  cbn [entries]. rewrite map_map. cbn [fst snd].
  rewrite (map_ext _ (fun field => field)) by (intros []; reflexivity).
  rewrite map_id. apply sort_Permutation.
Qed.

(** Contents with the same entries are the same contents, but for the
    empty array and the empty object. *)
Lemma entries_sameContents (contents contents' : Contents) :
  entries localeCompare contents = entries localeCompare contents' ->
  entries localeCompare contents <> [] \/
  (forall items fields, contents = Items items -> contents' <> Fields fields)
  /\
  (forall items fields, contents = Fields fields -> contents' <> Items items)
  ->
  sameContents contents contents'.
Proof.
  intros Hentries Hkind.
  destruct contents as [items | fields], contents' as [items' | fields'];
    cbn [sameContents].
  - rewrite <- (items_of_entries items), <- (items_of_entries items').
    rewrite Hentries. reflexivity.
  - destruct Hkind as [Hnonempty | [Hkind _]];
      [|exact (Hkind _ _ eq_refl eq_refl)].
    cbn [entries] in *.
    destruct items as [|item items];
      [exfalso; apply Hnonempty; reflexivity|].
    destruct (sort localeCompare fields'); discriminate.
  - destruct Hkind as [Hnonempty | [_ Hkind]];
      [|exact (Hkind _ _ eq_refl eq_refl)].
    cbn [entries] in *.
    destruct items' as [|item items'];
      [exfalso; apply Hnonempty; rewrite Hentries; reflexivity|].
    destruct (sort localeCompare fields); discriminate.
  - rewrite <- (fields_of_entries fields), <- (fields_of_entries fields').
    rewrite Hentries. reflexivity.
Qed.

(** The two objects of the empty contents have no node. *)
Lemma null_has_no_node (heap : Heap) (contents : Contents) (node : nat) :
  sound heap -> frozen localeCompare heap ->
  incl (interned loaded) (interned heap) ->
  entries localeCompare contents = [] ->
  finalValue (nodeAt (nodes heap) node) =
    Some match contents with
         | Items _ => nullTuple
         | Fields _ => nullRecord
         end ->
  False.
Proof.
  intros [(Hroot & _) _] [Hone Hplace] Hloaded Hempty Hfinal.
  destruct (Hplace _ _ Hfinal) as (c & Hc & Hfind).
  assert (Hnull : exists c', entries localeCompare c' = [] /\
            In (match contents with
                | Items _ => nullTuple
                | Fields _ => nullRecord
                end, c') (interned heap)).
  { destruct contents.
    - exists (Items []). split; [reflexivity|].
      apply Hloaded. left. reflexivity.
    - exists (Fields []). split; [reflexivity|].
      apply Hloaded. right. left. reflexivity. }
  destruct Hnull as (c' & Hc' & Hin).
  rewrite (Hone _ _ _ Hc Hin), Hc' in Hfind. cbn [find] in Hfind.
  injection Hfind as <-.
  destruct (nodeAt (nodes heap) 0); discriminate.
Qed.

(** X25. One object has one contents. When every call is handed the
    contents that its object has, two calls of [intern()] that return the
    same object were made for the same contents: the same items in the
    same order, or the same fields. With X21, interned values are the
    same object exactly when their contents are the same. *)
Theorem one_object_has_one_contents
    (events events' : list Event) (heap heap1 heap2 heap3 : Heap)
    (value value' : nat) (contents contents' : Contents) (object : nat) :
  afterAll localeCompare loaded events = Some heap ->
  legalAll localeCompare loaded events ->
  legal heap (Intern value contents) ->
  intern localeCompare value contents heap =
    (Returned (Some object), heap1) ->
  afterAll localeCompare heap1 events' = Some heap2 ->
  legalAll localeCompare heap1 events' ->
  legal heap2 (Intern value' contents') ->
  intern localeCompare value' contents' heap2 =
    (Returned (Some object), heap3) ->
  sameContents contents contents'.
Proof.
  intros Hevents Hlegal Hcall Hintern Hevents' Hlegal' Hcall' Hintern'.
  destruct (afterAll_frozen events loaded heap sound_loaded linked_loaded
              frozen_loaded Hlegal Hevents)
    as (Hsound & Hlinked & Hfrozen & _ & Hloaded).
  pose proof (intern_sound localeCompare value contents heap Hsound)
    as (Hsound1 & _ & Hint1 & _).
  pose proof (intern_frozen value contents heap Hsound Hlinked Hfrozen Hcall)
    as (Hlinked1 & Hfrozen1).
  rewrite Hintern in Hsound1, Hint1, Hlinked1, Hfrozen1.
  cbn [snd] in Hsound1, Hint1, Hlinked1, Hfrozen1.
  destruct (afterAll_frozen events' heap1 heap2 Hsound1 Hlinked1 Hfrozen1
              Hlegal' Hevents')
    as (Hsound2 & Hlinked2 & Hfrozen2 & Hext2 & Hint2).
  pose proof (intern_sound localeCompare value' contents' heap2 Hsound2)
    as (Hsound3 & Hext3 & Hint3 & _).
  pose proof (intern_frozen value' contents' heap2 Hsound2 Hlinked2 Hfrozen2
                Hcall')
    as (Hlinked3 & Hfrozen3).
  rewrite Hintern' in Hsound3, Hext3, Hint3, Hlinked3, Hfrozen3.
  cbn [snd] in Hsound3, Hext3, Hint3, Hlinked3, Hfrozen3.
  assert (Hloaded1 : incl (interned loaded) (interned heap1))
    by (eapply incl_tran; eassumption).
  assert (Hloaded3 : incl (interned loaded) (interned heap3)).
  { eapply incl_tran; [exact Hloaded1|].
    eapply incl_tran; eassumption. }
  destruct (intern_returned _ _ _ _ _ _ Hsound Hintern)
    as (Hinternable & Hleaf).
  destruct (intern_returned _ _ _ _ _ _ Hsound2 Hintern')
    as (Hinternable' & Hleaf').
  destruct (entries localeCompare contents) as [|entry rest] eqn:E.
  - rewrite (intern_empty _ _ _ _ Hsound Hinternable E) in Hintern.
    injection Hintern as <- <-.
    destruct (entries localeCompare contents') as [|entry' rest'] eqn:E'.
    + rewrite (intern_empty _ _ _ _ Hsound2 Hinternable' E') in Hintern'.
      injection Hintern' as Hsame _.
      apply entries_sameContents; [congruence|].
      right. split; intros items fields -> ->; discriminate.
    + exfalso. destruct Hleaf' as [Hempty | (leaf & Hfind & Hfinal)];
        [discriminate|].
      exact (null_has_no_node heap3 contents leaf Hsound3 Hfrozen3 Hloaded3
               E Hfinal).
  - destruct Hleaf as [Hempty | (leaf & Hfind & Hfinal)]; [discriminate|].
    destruct (entries localeCompare contents') as [|entry' rest'] eqn:E'.
    + exfalso.
      rewrite (intern_empty _ _ _ _ Hsound2 Hinternable' E') in Hintern'.
      injection Hintern' as <- _.
      exact (null_has_no_node heap1 contents' leaf Hsound1 Hfrozen1 Hloaded1
               E' Hfinal).
    + destruct Hleaf' as [Hempty | (leaf' & Hfind' & Hfinal')];
        [discriminate|].
      assert (Hext : extends (nodes heap1) (nodes heap3))
        by exact (extends_trans _ _ _ Hext2 Hext3).
      pose proof (find_extends _ _ Hext _ _ _ Hfind) as Hfind3.
      pose proof (proj2 Hext _ _ Hfinal) as Hfinal3.
      destruct Hfrozen3 as [Hone Hplace].
      destruct (Hplace _ _ Hfinal3) as (c & Hc & Hfindc).
      destruct (Hplace _ _ Hfinal') as (c' & Hc' & Hfindc').
      rewrite (Hone _ _ _ Hc Hc') in Hfindc.
      rewrite Hfindc in Hfindc'. injection Hfindc' as ->.
      apply entries_sameContents; [|left; rewrite E; discriminate].
      rewrite E, E'.
      exact (find_unique _ _ _ _ (proj1 Hsound3) Hlinked3 Hfind3 Hfind').
Qed.

End Frozen.

(** [$([1])] twice, with another value interned in between. *)
Lemma one_object_has_one_contents_witness : sameContents one one.
Proof.
  refine (one_object_has_one_contents String.compare []
            [Intern 3 (Items [NumberValue 1; StringValue "a"])]
            loaded once _ _ 2 5 one one 2 eq_refl I _ eq_refl eq_refl _ _
            eq_refl).
  - simpl. intros c [H|[H|[]]]; discriminate.
  - simpl. split; [|exact I]. intros c [H|[H|[H|[]]]]; discriminate.
  - simpl. intros c [H|[H|[H|[H|[]]]]]; discriminate.
Defined.

(** The array of [once] can be an item of another array. *)
Lemma interned_values_nest_witness :
  internable reclaimed (ObjectValue 2) = true.
Proof.
  exact (interned_values_nest String.compare [] afterwards loaded once
           reclaimed 2 one 2 eq_refl eq_refl eq_refl).
Defined.

End InternProperties.

(* ================================================================== *)
(** * Properties of form submission *)
(* ================================================================== *)

Module SerializeProperties.

Import DOM Forms Serialize.

(** A [disabled] attribute on the element or above it is seen from every
    element of [children(element)]. *)
Lemma closestDisabled_children (node : Node) :
  forall ancestors chain,
    In chain (children ancestors node) ->
    closestDisabled ancestors = true -> closestDisabled chain = true.
Proof.
  induction node as [identity nodeValue | element childNodes IH]
    using FormsProperties.Node_induction; intros ancestors chain Hin Hdisabled.
  - destruct Hin.
  - assert (Hself : closestDisabled (element :: ancestors) = true).
    { unfold closestDisabled in *. simpl. rewrite Hdisabled.
      apply orb_true_r. }
    cbn [children] in Hin. destruct Hin as [<-|Hin]; [exact Hself|].
    apply in_flat_map in Hin. destruct Hin as (child & Hchild & Hin).
    rewrite Forall_forall in IH.
    exact (IH child Hchild (element :: ancestors) chain Hin Hself).
Qed.

Lemma disabled_children (element : Element) (childNodes : list Node)
    (ancestors chain : list Element) :
  closestDisabled (element :: ancestors) = true ->
  In chain (children ancestors (ElementNode element childNodes)) ->
  closestDisabled chain = true.
Proof.
  intros Hdisabled [<-|Hin]; [exact Hdisabled|].
  apply in_flat_map in Hin. destruct Hin as (child & Hchild & Hin).
  exact (closestDisabled_children child _ _ Hin Hdisabled).
Qed.

Section Fields.

Variable type : Element -> string.
Variable defaultValue defaultChecked : Element -> JSValue.

(** X27. A disabled subtree is left out. When the element or one above it
    has the [disabled] attribute, [serialize()] submits none of the fields
    of the element and its descendants, and [isModified()] does not look
    at them: it answers [true] only if an element of the subtree, or one
    above it, has [isModified === true]. *)
Theorem disabled_subtree_is_left_out
    (ancestors : list Element) (element : Element) (childNodes : list Node) :
  closestDisabled (element :: ancestors) = true ->
  serialize type defaultValue ancestors (ElementNode element childNodes) = []
  /\
  isModified type defaultValue defaultChecked ancestors
             (ElementNode element childNodes) =
  existsb (flagged true) (children ancestors (ElementNode element childNodes)).
Proof.
  intros Hdisabled.
  pose proof (disabled_children element childNodes ancestors) as Hall.
  specialize (fun chain => Hall chain Hdisabled).
  unfold serialize, isModified.
  induction (children ancestors (ElementNode element childNodes))
    as [|chain chains IH]; [split; reflexivity|].
  destruct IH as [IHs IHm]; [intros c Hc; apply Hall; right; exact Hc|].
  pose proof (Hall chain (or_introl eq_refl)) as Hchain.
  cbn [flat_map existsb]. rewrite IHs, IHm. split.
  - unfold serializeAt. destruct chain as [|self above]; [reflexivity|].
    rewrite Hchain, orb_true_r. reflexivity.
  - f_equal. unfold modifiedAt. destruct chain as [|self above].
    + rewrite orb_false_r. reflexivity.
    + rewrite Hchain. cbn [negb]. rewrite andb_false_r. cbn [andb].
      apply orb_false_r.
Qed.

End Fields.

(** The edited field of the disabled group is not submitted, and does not
    make its group modified. *)
Lemma disabled_subtree_is_left_out_witness :
  serialize typeAttribute valueAttribute [element 0 "FORM" []]
    (ElementNode (element 2 "FIELDSET" [("disabled", "")])
       [ElementNode
          (mkElement 3 "INPUT" [("name", "draft"); ("value", "before")]
                     (JSString "after") (JSBoolean false) Unset None) []]) =
    [] /\
  isModified typeAttribute valueAttribute checkedAttribute
    [element 0 "FORM" []]
    (ElementNode (element 2 "FIELDSET" [("disabled", "")])
       [ElementNode
          (mkElement 3 "INPUT" [("name", "draft"); ("value", "before")]
                     (JSString "after") (JSBoolean false) Unset None) []]) =
    false.
Proof.
  exact (disabled_subtree_is_left_out typeAttribute valueAttribute
           checkedAttribute [element 0 "FORM" []]
           (element 2 "FIELDSET" [("disabled", "")])
           [ElementNode
              (mkElement 3 "INPUT" [("name", "draft"); ("value", "before")]
                         (JSString "after") (JSBoolean false) Unset None) []]
           eq_refl).
Defined.

(** The form submits the field outside the group only. *)
Example form_with_disabled_group :
  serialize typeAttribute valueAttribute [] formWithDisabledGroup =
  [("title", JSString "Hello")].
Proof. reflexivity. Qed.

(** A checked checkbox without the [value] attribute is submitted as
    ["on"], and an unchecked one is not submitted. *)
Example checked_checkbox_is_submitted :
  serialize typeAttribute valueAttribute []
    (ElementNode (element 0 "FORM" [])
       [ElementNode
          (element 1 "INPUT"
             [("type", "checkbox"); ("name", "agree"); ("checked", "")]) [];
        ElementNode
          (element 2 "INPUT" [("type", "checkbox"); ("name", "news")]) []]) =
  [("agree", JSString "on")].
Proof. reflexivity. Qed.

End SerializeProperties.

(* ================================================================== *)
(** * Properties of the live session *)
(* ================================================================== *)

Module LiveConnectionProperties.

Import DOM LiveConnection.



Section UnitOfWork.

Variable fastMyersDiff : list string -> list string -> list Hunk.
Variable documentStringToElement : string -> Node.
Variable fuel : nat.




End UnitOfWork.



End LiveConnectionProperties.
(* ================================================================== *)
(** * More properties of the live session *)
(* ================================================================== *)

Module LiveConnectionStreamProperties.

Import DOM Rendering LiveConnection LiveConnectionStream.

Lemma documentMounts_append (t1 t2 : list Effect) :
  documentMounts (t1 ++ t2) = documentMounts t1 ++ documentMounts t2.
Proof. unfold documentMounts. apply flat_map_app. Qed.

Lemma documentMounts_records (records : list string) :
  documentMounts (map (fun r => DocumentMount r true) records) =
  map (fun r => (r, true)) records.
Proof.
  induction records as [|r records IH]; simpl; [reflexivity|].
  f_equal. exact IH.
Qed.

Lemma connected_or_not (response : FetchResult) :
  response = Response 200 \/ response <> Response 200.
Proof.
  destruct response as [status|]; [|right; discriminate].
  destruct (Nat.eq_dec status 200) as [->|H]; [left; reflexivity|].
  right. intros E. apply H. injection E as E. exact E.
Qed.

Lemma removeGlobalError_window (window : Window) :
  mutated (removeGlobalError window) = mutated window /\
  dispatched (removeGlobalError window) = dispatched window /\
  created (removeGlobalError window) = created window.
Proof.
  unfold removeGlobalError.
  destruct (documentQuerySelector window
              (AttributeSelector "key" "global-error"));
    repeat split; reflexivity.
Qed.

Lemma removeFailedToConnectGlobalError_window (page : Page) :
  mutated (window (removeFailedToConnectGlobalError page)) =
    mutated (window page) /\
  dispatched (window (removeFailedToConnectGlobalError page)) =
    dispatched (window page) /\
  failedToConnectGlobalError (removeFailedToConnectGlobalError page) = None.
Proof.
  unfold removeFailedToConnectGlobalError.
  destruct (failedToConnectGlobalError page) eqn:E;
    repeat split; try reflexivity. exact E.
Qed.

Section UnitOfWork.

Variable fastMyersDiff : list string -> list string -> list Hunk.
Variable documentStringToElement : string -> Node.
Variable fuel : nat.

(** An attempt whose [fetch()] does not settle with status 200. *)
Lemma attempt_not_connected (reload reloadOnConnect : bool)
    (response : FetchResult) (reads : list ReadResult) (page : Page) :
  response <> Response 200 ->
  attempt fastMyersDiff documentStringToElement fuel reload reloadOnConnect
          response reads page =
  (showFailedToConnectGlobalError reload page,
   finally [ShowFailedToConnectGlobalError reload], Throws, reload).
Proof.
  intros H. destruct response as [status|]; [|reflexivity].
  unfold attempt.
  do 200 (destruct status as [|status]; [reflexivity|]).
  destruct status as [|status]; [|reflexivity].
  exfalso. apply H. reflexivity.
Qed.

(** What the loop adds to the trace: calls of [documentMount()] on the
    first records received, in order, up to the first call that does not
    complete. *)
Lemma readLoop_trace (reads : list ReadResult) (window : Window)
    (trace : list Effect) :
  exists mounted rest,
    snd (fst (readLoop fastMyersDiff documentStringToElement fuel reads
                       window trace)) =
      trace ++ map (fun r => DocumentMount r true) mounted /\
    received reads = mounted ++ rest.
Proof.
  revert window trace.
  induction reads as [|read reads IH]; intros window trace.
  - exists [], []. simpl. rewrite app_nil_r. split; reflexivity.
  - destruct read as [r| |]; cbn [readLoop received].
    + destruct (mountUpdate fastMyersDiff documentStringToElement fuel r
                            window) as [window' [|error|]].
      * destruct (IH window' (trace ++ [DocumentMount r true]))
          as (mounted & rest & Ht & Hr).
        exists (r :: mounted), rest. split.
        -- rewrite Ht, <- app_assoc. reflexivity.
        -- simpl. rewrite Hr. reflexivity.
      * exists [r], (received reads). split; reflexivity.
      * exists [r], (received reads). split; reflexivity.
    + exists [], []. rewrite app_nil_r. split; reflexivity.
    + exists [], []. rewrite app_nil_r. split; reflexivity.
Qed.

(** [documentMount()] leaves [mutated] and [dispatched] to grow; what
    the attempt itself does to the page changes neither. *)
Lemma showFailedToConnectGlobalError_window (reload : bool) (page : Page) :
  mutated (window (showFailedToConnectGlobalError reload page)) =
    mutated (window page) /\
  dispatched (window (showFailedToConnectGlobalError reload page)) =
    dispatched (window page).
Proof.
  unfold showFailedToConnectGlobalError. cbv zeta.
  destruct (removeGlobalError_window (window page)) as (Hm & Hd & _).
  destruct (documentQuerySelector (removeGlobalError (window page))
              (TypeSelector "BODY")); cbn [window mutated dispatched];
    split; assumption.
Qed.

(** X5. Whatever the server answers and the stream delivers, a connection
    attempt calls [documentMount()] only on records received, flagged as
    Live Connection updates, in the order they arrived and none of them
    twice: the calls are the records of a prefix of what was received.
    When the answer is not a 200 nothing is mounted and the attempt
    throws, once it has removed the first element with
    [key="global-error"] and, in a document of distinct node objects that
    then has a [body], put the failed-to-connect element, which it
    remembers, at the beginning of the [body]. When the attempt is to
    reload, nothing is mounted either: the attempt sets [isModified] to
    [false] on the [html] element, reloads the page and returns. *)
Theorem only_received_records_are_mounted
    (reload reloadOnConnect : bool) (response : FetchResult)
    (reads : list ReadResult) (page : Page) :
  exists page' trace completion reloadOnConnect' mounted rest,
    attempt fastMyersDiff documentStringToElement fuel reload
            reloadOnConnect response reads page =
      (page', trace, completion, reloadOnConnect') /\
    documentMounts trace = map (fun r => (r, true)) mounted /\
    received reads = mounted ++ rest /\
    (response <> Response 200 ->
     mounted = [] /\ completion = Throws /\
     mutated (window page') = mutated (window page) /\
     dispatched (window page') = dispatched (window page) /\
     forall root body bodyChildNodes,
       document (removeGlobalError (window page)) = Some root ->
       distinct (identities root) = true ->
       firstMatch (TypeSelector "BODY") root =
         Some (ElementNode body bodyChildNodes) ->
       failedToConnectGlobalError page' =
         Some (ElementNode
                 (element (created (window page) + 2) "DIV"
                          [("key", "global-error")])
                 [TextNode (created (window page) + 3)
                    (newline ++ "                " ++
                     (if reload then "Reloading…"
                      else "Failed to connect. Please check your " ++
                           "internet connection and try reloading " ++
                           "the page.") ++
                     newline ++ "              ")]) /\
       documentQuerySelector (window page') (TypeSelector "BODY") =
         Some (ElementNode body
                 (ElementNode
                    (element (created (window page) + 2) "DIV"
                             [("key", "global-error")])
                    [TextNode (created (window page) + 3)
                       (newline ++ "                " ++
                        (if reload then "Reloading…"
                         else "Failed to connect. Please check your " ++
                              "internet connection and try reloading " ++
                              "the page.") ++
                        newline ++ "              ")] ::
                  bodyChildNodes))) /\
    (response = Response 200 -> reloadOnConnect = true ->
     mounted = [] /\ completion = Returns /\
     failedToConnectGlobalError page' = None /\
     mutated (window page') = mutated (window page) /\
     dispatched (window page') = dispatched (window page) /\
     forall html childNodes,
       document (window (removeFailedToConnectGlobalError page)) =
         Some (ElementNode html childNodes) ->
       tagName html = "HTML" ->
       document (window page') =
         Some (ElementNode
                 (mkElement (identity html) (tagName html) (attributes html)
                            (value html) (checked html)
                            (liveConnectionUpdate html) (Some false))
                 childNodes) /\
       In Reload trace).
Proof.
  destruct (connected_or_not response) as [->|Hne].
  - destruct reloadOnConnect.
    + (* the attempt is to reload *)
      destruct (removeFailedToConnectGlobalError_window page)
        as (Hm & Hd & Hnone).
      unfold attempt.
      set (before := match failedToConnectGlobalError page with
                     | Some _ => [RemoveFailedToConnectGlobalError]
                     | None => []
                     end).
      assert (Hbefore : documentMounts before = []).
      { unfold before. destruct (failedToConnectGlobalError page);
          reflexivity. }
      destruct (documentQuerySelector
                  (window (removeFailedToConnectGlobalError page))
                  (TypeSelector "HTML")) as [found|] eqn:Ehtml.
      * eexists. eexists. exists Returns, reload, [], (received reads).
        split; [reflexivity|]. split.
        { unfold finally. rewrite !documentMounts_append, Hbefore.
          reflexivity. }
        split; [reflexivity|].
        split; [intros H; contradiction H; reflexivity|].
        intros _ _. split; [reflexivity|]. split; [reflexivity|].
        split; [reflexivity|].
        split; [exact Hm|]. split; [exact Hd|].
        intros html childNodes Hroot Htag.
        unfold documentQuerySelector in Ehtml. rewrite Hroot in Ehtml.
        cbn [firstMatch matches] in Ehtml. rewrite Htag in Ehtml.
        cbn [String.eqb Ascii.eqb Bool.eqb] in Ehtml.
        injection Ehtml as <-. split.
        -- cbn [window withDocument document]. rewrite Hroot.
           cbn [option_map updateNode nodeIdentity].
           rewrite Nat.eqb_refl. reflexivity.
        -- unfold finally. apply in_or_app. left. apply in_or_app. right.
           right. left. reflexivity.
      * eexists. eexists. exists Returns, reload, [], (received reads).
        split; [reflexivity|]. split.
        { unfold finally. rewrite !documentMounts_append, Hbefore.
          reflexivity. }
        split; [reflexivity|].
        split; [intros H; contradiction H; reflexivity|].
        intros _ _. split; [reflexivity|]. split; [reflexivity|].
        split; [exact Hnone|].
        split; [exact Hm|]. split; [exact Hd|].
        intros html childNodes Hroot Htag. exfalso.
        unfold documentQuerySelector in Ehtml. rewrite Hroot in Ehtml.
        cbn [firstMatch matches] in Ehtml. rewrite Htag in Ehtml.
        discriminate.
    + (* the loop *)
      set (before := match failedToConnectGlobalError page with
                     | Some _ => [RemoveFailedToConnectGlobalError]
                     | None => []
                     end).
      assert (Hbefore : documentMounts before = []).
      { unfold before. destruct (failedToConnectGlobalError page);
          reflexivity. }
      destruct (readLoop_trace reads
                  (window (removeFailedToConnectGlobalError page)) before)
        as (mounted & rest & Ht & Hr).
      unfold attempt. fold before.
      destruct (readLoop fastMyersDiff documentStringToElement fuel reads
                  (window (removeFailedToConnectGlobalError page)) before)
        as [[window' trace] completion].
      cbn [fst snd] in Ht. subst trace.
      assert (Hm : forall tail,
                 documentMounts
                   ((before ++ map (fun r => DocumentMount r true) mounted) ++
                    tail) =
                 map (fun r => (r, true)) mounted ++ documentMounts tail).
      { intros tail.
        rewrite !documentMounts_append, documentMounts_records, Hbefore.
        reflexivity. }
      destruct completion; eexists; eexists; eexists; eexists;
        exists mounted, rest; (split; [reflexivity|]);
        (split; [|split; [exact Hr|]]);
        try (split; [intros H; contradiction H; reflexivity|];
             intros _ H; discriminate H).
      * unfold finally. rewrite Hm. apply app_nil_r.
      * unfold finally. rewrite Hm. apply app_nil_r.
      * rewrite <- (app_nil_r (_ ++ _)), Hm. apply app_nil_r.
      * rewrite <- (app_nil_r (_ ++ _)), Hm. apply app_nil_r.
  - rewrite (attempt_not_connected _ _ _ _ _ Hne).
    eexists. eexists. exists Throws, reload, [], (received reads).
    split; [reflexivity|]. split; [reflexivity|]. split; [reflexivity|].
    split; [|intros H; contradiction (Hne H)].
    intros _. split; [reflexivity|]. split; [reflexivity|].
    destruct (showFailedToConnectGlobalError_window reload page) as [Hm Hd].
    split; [exact Hm|]. split; [exact Hd|].
    intros root body bodyChildNodes Hroot Hdistinct Hbody.
    apply DOMProperties.distinct_NoDup in Hdistinct.
    destruct (removeGlobalError_window (window page)) as (_ & _ & Hcreated).
    destruct (removeGlobalError_window (window page))
      as (Hmutated & Hdispatched & _).
    assert (Hshow :
              showFailedToConnectGlobalError reload page =
              mkPage
                (mkWindow
                   (Some (updateNode (identity body)
                            (insertAfterBegin
                               [failedToConnect (created (window page))
                                                reload])
                            root))
                   (dispatched (window page)) (mutated (window page))
                   (created (window page) + 5))
                (Some (failedToConnect (created (window page)) reload))).
    { unfold showFailedToConnectGlobalError. cbv zeta.
      unfold documentQuerySelector. rewrite Hroot, Hbody.
      cbn [option_map nodeIdentity].
      rewrite Hcreated, Hmutated, Hdispatched. reflexivity. }
    rewrite Hshow. cbn [failedToConnectGlobalError window].
    split; [destruct reload; reflexivity|].
    unfold documentQuerySelector. cbn [document].
    refine (eq_trans
              (DocumentMountProperties.firstMatch_updateNode
                 (TypeSelector "BODY")
                 (insertAfterBegin
                    [failedToConnect (created (window page)) reload])
                 root
                 (fun e cs => ex_intro _ (_ ++ cs) eq_refl)
                 Hdistinct _ Hbody) _).
    destruct reload; reflexivity.
Qed.

Lemma readLoop_completes (reads : list ReadResult) (window : Window)
    (trace : list Effect) :
  (forall b, ~ In (ShowFailedToConnectGlobalError b) trace) ->
  ~ In Reload trace ->
  forall b,
    (~ In (ShowFailedToConnectGlobalError b)
          (snd (fst (readLoop fastMyersDiff documentStringToElement fuel
                       reads window trace)))) /\
    (~ In Reload
          (snd (fst (readLoop fastMyersDiff documentStringToElement fuel
                       reads window trace)))).
Proof.
  intros Hb Hr b.
  destruct (readLoop_trace reads window trace) as (mounted & _ & -> & _).
  split; intros H; apply in_app_or in H; destruct H as [H|H].
  - exact (Hb b H).
  - apply in_map_iff in H. destruct H as (r & H & _). discriminate.
  - exact (Hr H).
  - apply in_map_iff in H. destruct H as (r & H & _). discriminate.
Qed.

Lemma before_the_loop (page : Page) :
  (forall b,
     ~ In (ShowFailedToConnectGlobalError b)
          match failedToConnectGlobalError page with
          | Some _ => [RemoveFailedToConnectGlobalError]
          | None => []
          end) /\
  ~ In Reload
       match failedToConnectGlobalError page with
       | Some _ => [RemoveFailedToConnectGlobalError]
       | None => []
       end /\
  documentMounts
    match failedToConnectGlobalError page with
    | Some _ => [RemoveFailedToConnectGlobalError]
    | None => []
    end = [].
Proof.
  destruct (failedToConnectGlobalError page); repeat split;
    try (intros b [H|[]]; discriminate); try (intros [H|[]]; discriminate);
    try (intros b []); try (intros []).
Qed.

(** X6. Once the server has answered 200, the unit of work does not
    throw, whatever the stream does afterwards and whether or not a call
    of [documentMount()] throws: it shows no failed-to-connect message,
    and when it ends it aborts the request, clears the timer and leaves
    [reloadOnConnect] set to the [reload] option. *)
Theorem connected_attempt_never_throws
    (reload reloadOnConnect : bool) (reads : list ReadResult)
    (page : Page) :
  exists page' trace completion reloadOnConnect',
    attempt fastMyersDiff documentStringToElement fuel reload
            reloadOnConnect (Response 200) reads page =
      (page', trace, completion, reloadOnConnect') /\
    completion <> Throws /\
    (forall b, ~ In (ShowFailedToConnectGlobalError b) trace) /\
    (completion = Returns ->
     reloadOnConnect' = reload /\
     exists before, trace = before ++ [Abort; ClearTimeout]).
Proof.
  destruct (before_the_loop page) as (Hshow & Hreload & _).
  unfold attempt.
  set (before := match failedToConnectGlobalError page with
                 | Some _ => [RemoveFailedToConnectGlobalError]
                 | None => []
                 end) in *.
  assert (Hfinally : forall trace,
            (forall b, ~ In (ShowFailedToConnectGlobalError b) trace) ->
            forall b, ~ In (ShowFailedToConnectGlobalError b)
                           (finally trace)).
  { intros trace H b Hin. unfold finally in Hin. apply in_app_or in Hin.
    destruct Hin as [Hin|[Hin|[Hin|[]]]]; try discriminate.
    exact (H b Hin). }
  destruct reloadOnConnect.
  - destruct (documentQuerySelector
                (window (removeFailedToConnectGlobalError page))
                (TypeSelector "HTML")).
    + eexists. eexists. exists Returns, reload.
      split; [reflexivity|]. split; [discriminate|]. split.
      * apply Hfinally. intros b Hin. apply in_app_or in Hin.
        destruct Hin as [Hin|[Hin|[Hin|[]]]]; try discriminate.
        exact (Hshow b Hin).
      * intros _. split; [reflexivity|]. eexists. reflexivity.
    + eexists. eexists. exists Returns, reload.
      split; [reflexivity|]. split; [discriminate|].
      split; [exact (Hfinally _ Hshow)|].
      intros _. split; [reflexivity|]. eexists. reflexivity.
  - assert (H : forall b,
               ~ In (ShowFailedToConnectGlobalError b)
                    (snd (fst (readLoop fastMyersDiff documentStringToElement
                                 fuel reads
                                 (window
                                    (removeFailedToConnectGlobalError page))
                                 before)))).
    { intros b. apply readLoop_completes; assumption. }
    destruct (readLoop fastMyersDiff documentStringToElement fuel reads
                (window (removeFailedToConnectGlobalError page)) before)
      as [[window' trace] completion].
    cbn [fst snd] in H.
    destruct completion; eexists; eexists; eexists; eexists;
      (split; [reflexivity|]); (split; [discriminate|]).
    + split; [exact (Hfinally _ H)|]. intros _. split; [reflexivity|].
      exists trace. reflexivity.
    + split; [exact (Hfinally _ H)|]. intros _. split; [reflexivity|].
      exists trace. reflexivity.
    + split; [exact H|]. discriminate.
    + split; [exact H|]. discriminate.
Qed.

(** X7. A call of [documentMount()] that throws during a live session
    ends the attempt without a trace for the user: the document is left
    as the call that threw left it, the records that follow in the stream
    are not mounted, and the unit of work returns. *)
Theorem failed_update_drops_the_rest_of_the_stream
    (reload : bool) (records : list string) (record : string)
    (rest : list ReadResult) (page : Page) (window' window'' : Window)
    (error : string) :
  mountAll fastMyersDiff documentStringToElement fuel records
           (window (removeFailedToConnectGlobalError page)) =
    (window', records, Completed) ->
  mountUpdate fastMyersDiff documentStringToElement fuel record window' =
    (window'', Thrown error) ->
  exists trace,
    attempt fastMyersDiff documentStringToElement fuel reload false
            (Response 200)
            (map ReadValue records ++ ReadValue record :: rest) page =
    (mkPage window'' None, trace, Returns, reload) /\
    documentMounts trace = map (fun r => (r, true)) (records ++ [record]).
Proof.
  intros Hmount Hthrow.
  destruct (before_the_loop page) as (_ & _ & Hbefore).
  unfold attempt.
  set (before := match failedToConnectGlobalError page with
                 | Some _ => [RemoveFailedToConnectGlobalError]
                 | None => []
                 end) in *.
  assert (Hloop : forall window trace,
            mountAll fastMyersDiff documentStringToElement fuel records
                     window = (window', records, Completed) ->
            readLoop fastMyersDiff documentStringToElement fuel
                     (map ReadValue records ++ ReadValue record :: rest)
                     window trace =
            (window'',
             trace ++ map (fun r => DocumentMount r true)
                          (records ++ [record]),
             Throws)).
  { clear Hmount. induction records as [|r records IH];
      intros window trace H.
    - cbn [mountAll] in H. injection H as ->.
      cbn [map app readLoop]. rewrite Hthrow. reflexivity.
    - cbn [mountAll] in H. cbn [map app readLoop].
      destruct (mountUpdate fastMyersDiff documentStringToElement fuel r
                            window) as [window1 [|e|]].
      + destruct (mountAll fastMyersDiff documentStringToElement fuel
                           records window1)
          as [[window2 handed] completion] eqn:E.
        injection H as -> Hhanded ->. subst handed.
        rewrite (IH window1 _ E), <- app_assoc. reflexivity.
      + discriminate.
      + discriminate. }
  rewrite (Hloop _ _ Hmount).
  eexists. split; [reflexivity|].
  unfold finally.
  rewrite !documentMounts_append, documentMounts_records, Hbefore.
  simpl. apply app_nil_r.
Qed.

(** ** Successive attempts *)

Lemma not_reloaded (trace : list Effect) :
  ~ In Reload trace -> existsb isReload trace = false.
Proof.
  intros H. destruct (existsb isReload trace) eqn:E; [|reflexivity].
  apply existsb_exists in E. destruct E as ([] & Hin & Hr);
    try discriminate.
  contradiction (H Hin).
Qed.

(** Without the [reload] option no attempt reloads the page. *)
Lemma session_never_reloads (attempts : list (FetchResult * list ReadResult))
    (page : Page) :
  ~ In Reload (snd (session fastMyersDiff documentStringToElement fuel false
                      false attempts page)).
Proof.
  revert page.
  induction attempts as [|[response reads] attempts IH]; intros page.
  - intros [].
  - cbn [session].
    destruct (connected_or_not response) as [->|Hne].
    + destruct (before_the_loop page) as (Hshow & Hreload & _).
      pose proof (proj2 (readLoop_completes reads
                           (window (removeFailedToConnectGlobalError page))
                           _ Hshow Hreload true)) as H.
      unfold attempt.
      destruct (readLoop fastMyersDiff documentStringToElement fuel reads
                  (window (removeFailedToConnectGlobalError page)) _)
        as [[window' trace] completion].
      cbn [fst snd] in H.
      assert (Hf : ~ In Reload (finally trace)).
      { intros Hin. unfold finally in Hin. apply in_app_or in Hin.
        destruct Hin as [Hin|[Hin|[Hin|[]]]]; try discriminate.
        exact (H Hin). }
      destruct completion; try exact H.
      * rewrite (not_reloaded _ Hf).
        specialize (IH (mkPage window' None)).
        destruct (session fastMyersDiff documentStringToElement fuel false
                    false attempts (mkPage window' None))
          as [page'' trace'].
        cbn [snd] in *. intros Hin. apply in_app_or in Hin.
        destruct Hin as [Hin|Hin]; auto.
      * rewrite (not_reloaded _ Hf).
        specialize (IH (mkPage window' None)).
        destruct (session fastMyersDiff documentStringToElement fuel false
                    false attempts (mkPage window' None))
          as [page'' trace'].
        cbn [snd] in *. intros Hin. apply in_app_or in Hin.
        destruct Hin as [Hin|Hin]; auto.
    + rewrite (attempt_not_connected _ _ _ _ _ Hne). cbn [snd].
      intros Hin.
      destruct Hin as [Hin|[Hin|[Hin|[]]]]; discriminate.
Qed.

(** An attempt that is to reload mounts nothing. *)
Lemma attempt_to_reload (response : FetchResult) (reads : list ReadResult)
    (page : Page) :
  exists page' trace completion,
    attempt fastMyersDiff documentStringToElement fuel true true response
            reads page = (page', trace, completion, true) /\
    documentMounts trace = [] /\
    (response <> Response 200 ->
     completion = Throws /\
     trace = [ShowFailedToConnectGlobalError true; Abort; ClearTimeout]) /\
    (response = Response 200 ->
     completion = Returns /\
     (documentQuerySelector
        (window (removeFailedToConnectGlobalError page))
        (TypeSelector "HTML") <> None ->
      In Reload trace)).
Proof.
  destruct (connected_or_not response) as [->|Hne].
  - destruct (before_the_loop page) as (_ & _ & Hbefore).
    unfold attempt.
    destruct (documentQuerySelector
                (window (removeFailedToConnectGlobalError page))
                (TypeSelector "HTML")).
    + eexists. eexists. exists Returns. split; [reflexivity|].
      split; [|split].
      * unfold finally. rewrite !documentMounts_append, Hbefore.
        reflexivity.
      * intros H. contradiction H. reflexivity.
      * intros _. split; [reflexivity|]. intros _.
        unfold finally. apply in_or_app. left. apply in_or_app. right.
        right. left. reflexivity.
    + eexists. eexists. exists Returns. split; [reflexivity|].
      split; [|split].
      * unfold finally. rewrite !documentMounts_append, Hbefore.
        reflexivity.
      * intros H. contradiction H. reflexivity.
      * intros _. split; [reflexivity|]. intros H. contradiction H.
        reflexivity.
  - rewrite (attempt_not_connected _ _ _ _ _ Hne).
    eexists. eexists. exists Throws. split; [reflexivity|].
    split; [reflexivity|]. split.
    + intros _. split; reflexivity.
    + intros H. contradiction (Hne H).
Qed.

Lemma session_to_reload (attempts : list (FetchResult * list ReadResult))
    (page : Page) :
  documentMounts
    (snd (session fastMyersDiff documentStringToElement fuel true true
            attempts page)) = [].
Proof.
  revert page.
  induction attempts as [|[response reads] attempts IH]; intros page;
    [reflexivity|].
  cbn [session].
  destruct (attempt_to_reload response reads page)
    as (page' & trace & completion & -> & Hmounts & _).
  destruct completion; try exact Hmounts.
  destruct (existsb isReload trace); [exact Hmounts|].
  specialize (IH page').
  destruct (session fastMyersDiff documentStringToElement fuel true true
              attempts page') as [page'' trace'].
  cbn [snd] in *. rewrite documentMounts_append, Hmounts, IH. reflexivity.
Qed.

(** X8. The page is reloaded only in reload mode. Without the [reload]
    option no attempt of a live session ever reloads it. With the option,
    the first attempt is the only one that mounts updates, and it does
    not reload. Once it has returned, the next attempt reloads the page
    if the server answers 200 and the document has its [html] element;
    if the server does not answer 200, the attempt shows that the page
    is reloading and throws, so the unit of work is never called again
    and the page is never reloaded. *)
Theorem reload_only_in_reload_mode
    (response : FetchResult) (reads : list ReadResult)
    (more : list (FetchResult * list ReadResult)) (page : Page) :
  ~ In Reload (snd (liveConnection fastMyersDiff documentStringToElement
                      fuel false ((response, reads) :: more) page)) /\
  exists page1 trace1 completion1 reloadOnConnect1 page' later,
    attempt fastMyersDiff documentStringToElement fuel true false response
            reads page = (page1, trace1, completion1, reloadOnConnect1) /\
    ~ In Reload trace1 /\
    liveConnection fastMyersDiff documentStringToElement fuel true
                   ((response, reads) :: more) page =
      (page', trace1 ++ later) /\
    documentMounts later = [] /\
    (completion1 <> Returns -> later = []) /\
    (completion1 = Returns ->
     forall response2 reads2 more2,
       more = (response2, reads2) :: more2 ->
       (response2 <> Response 200 ->
        later = [ShowFailedToConnectGlobalError true; Abort; ClearTimeout]) /\
       (response2 = Response 200 ->
        documentQuerySelector
          (window (removeFailedToConnectGlobalError page1))
          (TypeSelector "HTML") <> None ->
        In Reload later)).
Proof.
  split; [apply session_never_reloads|].
  unfold liveConnection. cbn [session].
  assert (Hfirst : ~ In Reload
                     (snd (fst (fst (attempt fastMyersDiff
                                       documentStringToElement fuel true
                                       false response reads page)))) /\
                   (snd (fst (attempt fastMyersDiff documentStringToElement
                                fuel true false response reads page)) =
                      Returns ->
                    snd (attempt fastMyersDiff documentStringToElement fuel
                           true false response reads page) = true)).
  { destruct (connected_or_not response) as [->|Hne].
    - destruct (before_the_loop page) as (Hshow & Hreload & _).
      pose proof (proj2 (readLoop_completes reads
                           (window (removeFailedToConnectGlobalError page))
                           _ Hshow Hreload true)) as H.
      unfold attempt.
      destruct (readLoop fastMyersDiff documentStringToElement fuel reads
                  (window (removeFailedToConnectGlobalError page)) _)
        as [[window' trace] completion].
      cbn [fst snd] in H.
      assert (Hf : ~ In Reload (finally trace)).
      { intros Hin. unfold finally in Hin. apply in_app_or in Hin.
        destruct Hin as [Hin|[Hin|[Hin|[]]]]; try discriminate.
        exact (H Hin). }
      destruct completion; cbn [fst snd]; split; auto; discriminate.
    - rewrite (attempt_not_connected _ _ _ _ _ Hne). cbn [fst snd].
      split; [|reflexivity].
      intros [Hin|[Hin|[Hin|[]]]]; discriminate. }
  destruct (attempt fastMyersDiff documentStringToElement fuel true false
              response reads page)
    as [[[page1 trace1] completion1] reloadOnConnect1].
  cbn [fst snd] in Hfirst. destruct Hfirst as [Hnot Htrue].
  exists page1, trace1, completion1, reloadOnConnect1.
  destruct completion1.
  - rewrite (not_reloaded _ Hnot), (Htrue eq_refl).
    pose proof (session_to_reload more page1) as Hmounts.
    destruct (session fastMyersDiff documentStringToElement fuel true true
                more page1) as [page' later] eqn:Esession.
    cbn [snd] in Hmounts.
    exists page', later. split; [reflexivity|]. split; [exact Hnot|].
    split; [reflexivity|]. split; [exact Hmounts|].
    split; [intros H; contradiction H; reflexivity|].
    intros _ response2 reads2 more2 ->. cbn [session] in Esession.
    destruct (attempt_to_reload response2 reads2 page1)
      as (page2 & trace2 & completion2 & Hattempt & _ & Hfailed & Hanswered).
    rewrite Hattempt in Esession. split.
    + intros Hne. destruct (Hfailed Hne) as [-> ->].
      injection Esession as _ <-. reflexivity.
    + intros H200 Hhtml. destruct (Hanswered H200) as [-> Hreload].
      specialize (Hreload Hhtml).
      assert (Hr : existsb isReload trace2 = true).
      { apply existsb_exists. exists Reload. split; [exact Hreload|].
        reflexivity. }
      rewrite Hr in Esession. injection Esession as _ <-. exact Hreload.
  - exists page1, []. rewrite app_nil_r. split; [reflexivity|].
    split; [exact Hnot|]. split; [reflexivity|]. split; [reflexivity|].
    split; [reflexivity | discriminate].
  - exists page1, []. rewrite app_nil_r. split; [reflexivity|].
    split; [exact Hnot|]. split; [reflexivity|]. split; [reflexivity|].
    split; [reflexivity | discriminate].
  - exists page1, []. rewrite app_nil_r. split; [reflexivity|].
    split; [exact Hnot|]. split; [reflexivity|]. split; [reflexivity|].
    split; [reflexivity | discriminate].
Qed.

End UnitOfWork.

(** A stream of three records on a page without a [body], whose second
    record is of another version. *)
Lemma failed_update_drops_the_rest_of_the_stream_witness :
  exists trace,
    attempt lcsDiff versions 3 false false (Response 200)
      [ReadValue "first"; ReadValue "broken"; ReadValue "third"; ReadClosed]
      bodilessPage =
    (mkPage
       (mkWindow
          (Some (ElementNode
                   (mkElement 0 "HTML" [] JSUndefined JSUndefined Unset
                              (Some false))
                   [ElementNode (element 1 "HEAD" [])
                      [ElementNode
                         (element 2 "META"
                                  [("name", "version"); ("content", "1")])
                         []]]))
          [mkEvent "DOMContentLoaded" (Some true)] [] 3)
       None,
     trace, Returns, false) /\
    documentMounts trace = [("first", true); ("broken", true)].
Proof.
  exact (failed_update_drops_the_rest_of_the_stream lcsDiff versions 3
           false ["first"] "broken" [ReadValue "third"; ReadClosed]
           bodilessPage _ _ "TypeError" eq_refl eq_refl).
Defined.

(** In reload mode the server goes away and is still away at the next
    attempt: the page says that it is reloading, and never does. *)
Example reloading_for_ever :
  liveConnection lcsDiff served 3 true
    [(Response 200, [ReadClosed]); (FetchRejects, []);
     (Response 200, [ReadClosed])]
    livePage =
  (mkPage
     (mkWindow
        (Some (ElementNode (element 0 "HTML" [])
                 [ElementNode (element 1 "BODY" [])
                    [ElementNode (element 5 "DIV" [("key", "global-error")])
                       [TextNode 6
                          (newline ++ "                " ++ "Reloading…" ++
                           newline ++ "              ")];
                     TextNode 2 "zero"]]))
        [] [] 8)
     (Some (ElementNode (element 5 "DIV" [("key", "global-error")])
              [TextNode 6
                 (newline ++ "                " ++ "Reloading…" ++
                  newline ++ "              ")])),
   [Abort; ClearTimeout;
    ShowFailedToConnectGlobalError true; Abort; ClearTimeout]).
Proof. vm_compute. reflexivity. Qed.

End LiveConnectionStreamProperties.
